(** * A shallow embedding of the S3 vault manager's virtual-filesystem layer

    The development follows the Express server ([normalizeKey], [escapeRegex],
    the [/api/files*] and [/api/folders] handlers) and its S3 client
    ([deleteS3Prefix], [copyS3Prefix], ...).  JavaScript strings are lists of
    characters, the bucket is a finite map from keys to objects, the [files]
    collection is a list of documents, and every call that leaves the process
    may throw. *)

From Stdlib Require Import ZArith Ascii String Lia.
From stdpp Require Import base tactics option list sorting gmap strings.

Local Open Scope Z_scope.

(** ** JavaScript strings *)

Abbreviation str := (list ascii).

Definition lit (s : string) : str := list_ascii_of_string s.

Definition CHAR_FORWARD_SLASH : ascii := "/"%char.
Definition CHAR_BACKWARD_SLASH : ascii := "\"%char.
Definition CHAR_DOT : ascii := "."%char.

Definition len (s : str) : Z := Z.of_nat (length s).

(** [array.length] *)
Definition len_list {A : Type} (l : list A) : Z := Z.of_nat (length l).

(** [String.prototype.slice]: negative indices count from the end, both
    indices are clamped to the string. *)
Definition slice_index (s : str) (k : Z) : Z :=
  if k <? 0 then Z.max (len s + k) 0 else Z.min k (len s).

Definition slice (s : str) (a b : Z) : str :=
  let a' := slice_index s a in
  let b' := slice_index s b in
  take (Z.to_nat (b' - a')) (drop (Z.to_nat a') s).

(** [String.prototype.charCodeAt], [None] standing for [NaN]. *)
Definition charCodeAt (s : str) (k : Z) : option ascii :=
  if k <? 0 then None else s !! Z.to_nat k.

(** [String.prototype.lastIndexOf] for a one-character needle. *)
Fixpoint lastIndexOf_from (s : str) (c : ascii) (i : Z) (found : Z) : Z :=
  match s with
  | [] => found
  | x :: s' => lastIndexOf_from s' c (i + 1) (if Ascii.eqb x c then i else found)
  end.

Definition lastIndexOf (s : str) (c : ascii) : Z := lastIndexOf_from s c 0 (-1).

Definition startsWith (s p : str) : bool := bool_decide (p `prefix_of` s).
Definition endsWith (s p : str) : bool := bool_decide (p `suffix_of` s).

(** ** Node's [path.posix]

    [normalizeKey] and the handlers call [path.posix.normalize] and
    [path.basename] of the Node runtime.  They are written out here after
    Node's [lib/path.js], local by local and branch by branch, so that the
    claims about [normalizeKey] rest on what the runtime computes. *)

Module PosixPath.

Definition isPosixPathSeparator (code : ascii) : bool :=
  Ascii.eqb code CHAR_FORWARD_SLASH.

(** The mutable locals of [normalizeString]. *)
Record NormState : Type := MkNorm {
  res : str;
  lastSegmentLength : Z;
  lastSlash : Z;
  dots : Z
}.

(** [s.charCodeAt(k) === c] *)
Definition code_is (s : str) (k : Z) (c : ascii) : bool :=
  match charCodeAt s k with
  | Some x => Ascii.eqb x c
  | None => false
  end.

(** The tail shared by the two fall-through paths of the [dots === 2] case. *)
Definition aboveRoot (allowAboveRoot : bool) (i : Z) (st : NormState) : NormState :=
  if allowAboveRoot then
    MkNorm (res st ++ (if 0 <? len (res st) then lit "/.." else lit ".."))
           2 i 0
  else MkNorm (res st) (lastSegmentLength st) i 0.

(** One turn of the [for] loop of [normalizeString] at index [i], after
    [code] has been chosen. *)
Definition normalizeString_body (path : str) (allowAboveRoot : bool)
    (i : Z) (code : ascii) (st : NormState) : NormState :=
  if isPosixPathSeparator code then
    if (lastSlash st =? i - 1) || (dots st =? 1) then
      MkNorm (res st) (lastSegmentLength st) i 0
    else if dots st =? 2 then
      if (len (res st) <? 2) || negb (lastSegmentLength st =? 2)
         || negb (code_is (res st) (len (res st) - 1) CHAR_DOT)
         || negb (code_is (res st) (len (res st) - 2) CHAR_DOT)
      then
        if 2 <? len (res st) then
          let lastSlashIndex := lastIndexOf (res st) CHAR_FORWARD_SLASH in
          if lastSlashIndex =? -1 then MkNorm [] 0 i 0
          else
            let res' := slice (res st) 0 lastSlashIndex in
            MkNorm res' (len res' - 1 - lastIndexOf res' CHAR_FORWARD_SLASH) i 0
        else if negb (len (res st) =? 0) then MkNorm [] 0 i 0
        else aboveRoot allowAboveRoot i st
      else aboveRoot allowAboveRoot i st
    else
      let seg := slice path (lastSlash st + 1) i in
      MkNorm (if 0 <? len (res st) then res st ++ CHAR_FORWARD_SLASH :: seg else seg)
             (i - lastSlash st - 1) i 0
  else if Ascii.eqb code CHAR_DOT && negb (dots st =? -1) then
    MkNorm (res st) (lastSegmentLength st) (lastSlash st) (dots st + 1)
  else
    MkNorm (res st) (lastSegmentLength st) (lastSlash st) (-1).

(** The loop runs for [i = 0 .. path.length]; [todo] holds the characters at
    positions [i] and later, [code] the character read in the previous turn. *)
Fixpoint normalizeString_loop (path : str) (allowAboveRoot : bool)
    (todo : str) (i : Z) (code : ascii) (st : NormState) : str :=
  match todo with
  | c :: todo' =>
      normalizeString_loop path allowAboveRoot todo' (i + 1) c
        (normalizeString_body path allowAboveRoot i c st)
  | [] =>
      if isPosixPathSeparator code then res st
      else res (normalizeString_body path allowAboveRoot i CHAR_FORWARD_SLASH st)
  end.

Definition normalizeString (path : str) (allowAboveRoot : bool) : str :=
  normalizeString_loop path allowAboveRoot path 0 Ascii.zero (MkNorm [] 0 (-1) 0).

Definition normalize (path : str) : str :=
  match path with
  | [] => lit "."
  | c0 :: _ =>
      let isAbsolute := Ascii.eqb c0 CHAR_FORWARD_SLASH in
      let trailingSeparator := code_is path (len path - 1) CHAR_FORWARD_SLASH in
      let p := normalizeString path (negb isAbsolute) in
      match p with
      | [] => if isAbsolute then lit "/"
              else if trailingSeparator then lit "./" else lit "."
      | _ =>
          let p' := if trailingSeparator then p ++ [CHAR_FORWARD_SLASH] else p in
          if isAbsolute then CHAR_FORWARD_SLASH :: p' else p'
      end
  end.

(** [path.posix.basename] without a suffix: the scan runs from the last
    character down, [rpath] holding the characters at positions [i] and
    below, highest first. *)
Fixpoint basename_loop (rpath : str) (i : Z) (start end_ : Z)
    (matchedSlash : bool) : Z * Z :=
  match rpath with
  | [] => (start, end_)
  | c :: rpath' =>
      if Ascii.eqb c CHAR_FORWARD_SLASH then
        if negb matchedSlash then (i + 1, end_)
        else basename_loop rpath' (i - 1) start end_ matchedSlash
      else if end_ =? -1 then basename_loop rpath' (i - 1) start (i + 1) false
      else basename_loop rpath' (i - 1) start end_ matchedSlash
  end.

Definition basename (path : str) : str :=
  let '(start, end_) := basename_loop (reverse path) (len path - 1) 0 (-1) true in
  if end_ =? -1 then [] else slice path start end_.

End PosixPath.

(** ** The server: key normalisation *)

(** [raw.replace(/\\/g, "/")] *)
Definition replaceBackslashes (s : str) : str :=
  (fun c => if Ascii.eqb c CHAR_BACKWARD_SLASH then CHAR_FORWARD_SLASH else c) <$> s.

(** [.replace(/^(\.\.(\/|$))+/, "")]: the greedy match takes every leading
    [../] and then a final [..] when nothing follows it. *)
Fixpoint stripLeadingDotDot (s : str) : str :=
  match s with
  | a :: b :: rest =>
      if Ascii.eqb a CHAR_DOT && Ascii.eqb b CHAR_DOT then
        match rest with
        | [] => []
        | c :: rest' =>
            if Ascii.eqb c CHAR_FORWARD_SLASH then stripLeadingDotDot rest' else s
        end
      else s
  | _ => s
  end.

(** [.replace(/^\/+/, "")] *)
Fixpoint stripLeadingSlashes (s : str) : str :=
  match s with
  | c :: rest => if Ascii.eqb c CHAR_FORWARD_SLASH then stripLeadingSlashes rest else s
  | [] => []
  end.

Definition normalizeKey (key : str) : str :=
  let raw := replaceBackslashes key in
  match raw with
  | [] => []
  | _ =>
      let normalized := stripLeadingDotDot (PosixPath.normalize raw) in
      stripLeadingSlashes normalized
  end.

(** ** Path segments

    The segment view of a key, [key.split("/")], and the stack machine that
    [normalizeString] implements character by character. *)

Fixpoint segments (s : str) : list str :=
  match s with
  | [] => [[]]
  | c :: s' =>
      if Ascii.eqb c CHAR_FORWARD_SLASH then [] :: segments s'
      else match segments s' with
           | seg :: segs => (c :: seg) :: segs
           | [] => [[c]]
           end
  end.

(** A stack of segments, innermost directory first, written back as a path. *)
Fixpoint join_rev (stk : list str) : str :=
  match stk with
  | [] => []
  | top :: rest =>
      match rest with
      | [] => top
      | _ => join_rev rest ++ CHAR_FORWARD_SLASH :: top
      end
  end.

(** What one complete segment does to the stack. *)
Definition seg_step (allowAboveRoot : bool) (stk : list str) (seg : str) : list str :=
  if decide (seg = [] ∨ seg = lit ".") then stk
  else if decide (seg = lit "..") then
    match stk with
    | [] => if allowAboveRoot then [lit ".."] else []
    | top :: rest =>
        if decide (top = lit "..")
        then (if allowAboveRoot then lit ".." :: stk else stk)
        else rest
    end
  else seg :: stk.

(** Resolving a key below the root directory: the depth reached after each
    segment, [None] as soon as a [..] would climb above the root. *)
Fixpoint resolve_depth (depth : nat) (segs : list str) : option nat :=
  match segs with
  | [] => Some depth
  | seg :: segs' =>
      if decide (seg = [] ∨ seg = lit ".") then resolve_depth depth segs'
      else if decide (seg = lit "..") then
        match depth with
        | O => None
        | S d => resolve_depth d segs'
        end
      else resolve_depth (S depth) segs'
  end.

Definition escapes_root (key : str) : bool :=
  bool_decide (resolve_depth 0 (segments key) = None).

(** Invariants of the [normalizeString] loop.  A segment on the stack is
    non-empty and free of separators; the locals [res] and
    [lastSegmentLength] describe the stack; [dots] describes the segment
    being read. *)
Definition good_seg (s : str) : Prop := s ≠ [] ∧ CHAR_FORWARD_SLASH ∉ s.

Definition dots_of (seg : str) : Z :=
  if forallb (fun c => Ascii.eqb c CHAR_DOT) seg then len seg else -1.

Definition top_len (stk : list str) : Z :=
  match stk with
  | [] => 0
  | top :: _ => len top
  end.

Record rep (stk : list str) (st : PosixPath.NormState) : Prop := MkRep {
  rep_res : PosixPath.res st = join_rev stk;
  rep_lsl : PosixPath.lastSegmentLength st = top_len stk;
  rep_good : Forall good_seg stk
}.

(** [split_acc cur todo]: the segments of [cur ++ todo] when [cur] holds no
    separator. *)
Fixpoint split_acc (cur : str) (todo : str) : list str :=
  match todo with
  | [] => [cur]
  | c :: todo' =>
      if Ascii.eqb c CHAR_FORWARD_SLASH then cur :: split_acc [] todo'
      else split_acc (cur ++ [c]) todo'
  end.

(** A segment that survives normalisation unchanged. *)
Definition normal_seg (s : str) : Prop :=
  s ≠ [] ∧ s ≠ lit "." ∧ s ≠ lit ".." ∧ CHAR_FORWARD_SLASH ∉ s.

(** The stacks [normalizeString] can reach: ordinary segments above a run of
    [..], the run being empty when the path is absolute. *)
Definition shape (allowAboveRoot : bool) (stk : list str) : Prop :=
  ∃ (k : nat) (normals : list str),
    stk = normals ++ replicate k (lit "..")
    ∧ Forall normal_seg normals
    ∧ (allowAboveRoot = false → k = 0%nat).

(** The keys [normalizeKey] returns. *)
Definition canonical (key : str) : Prop :=
  key = [] ∨ key = lit "." ∨ key = lit "./"
  ∨ ∃ normals : list str,
      normals ≠ [] ∧ Forall normal_seg normals
      ∧ (key = join_rev normals ∨ key = join_rev normals ++ [CHAR_FORWARD_SLASH]).

(** ** Byte order on keys

    Both the bucket listing and the catalog sort compare keys character by
    character on their codes, a proper prefix coming first. *)

Fixpoint str_ltb (a b : str) : bool :=
  match a, b with
  | _, [] => false
  | [], _ :: _ => true
  | x :: a', y :: b' =>
      (N_of_ascii x <? N_of_ascii y)%N
      || ((N_of_ascii x =? N_of_ascii y)%N && str_ltb a' b')
  end.

Definition str_lt (a b : str) : Prop := str_ltb a b = true.
Definition str_le (a b : str) : Prop := str_ltb b a = false.

Global Instance str_lt_dec a b : Decision (str_lt a b).
Proof. unfold str_lt. apply _. Defined.

Global Instance str_le_dec a b : Decision (str_le a b).
Proof. unfold str_le. apply _. Defined.

(** ** Effects

    A computation runs against the outside world [S]; it returns, throws an
    [Error] with a message, or is cut off when its loop budget is spent. *)

Inductive Outcome (A : Type) : Type :=
| Ok (a : A)
| Throw (message : str)
| OutOfFuel.
Arguments Ok {A} a.
Arguments Throw {A} message.
Arguments OutOfFuel {A}.

Definition M (S A : Type) : Type := S → Outcome A * S.

Definition ret {S A : Type} (a : A) : M S A := fun s => (Ok a, s).

Definition bind {S A B : Type} (m : M S A) (k : A → M S B) : M S B :=
  fun s =>
    match m s with
    | (Ok a, s') => k a s'
    | (Throw e, s') => (Throw e, s')
    | (OutOfFuel, s') => (OutOfFuel, s')
    end.

Definition throw {S A : Type} (message : str) : M S A := fun s => (Throw message, s).

Definition out_of_fuel {S A : Type} : M S A := fun s => (OutOfFuel, s).

(** [try { m } catch (error) { h error }] *)
Definition try_catch {S A : Type} (m : M S A) (h : str → M S A) : M S A :=
  fun s =>
    match m s with
    | (Throw e, s') => h e s'
    | r => r
    end.

Notation "'let*' x ':=' m 'in' k" := (bind m (fun x => k))
  (at level 10, x name, m at level 100, k at level 200).
Notation "m '>>' k" := (bind m (fun _ => k))
  (at level 100, k at level 200, right associativity).

(** ** The S3 client ([server/s3.js]) *)

(** The part of a [ListObjectsV2] output the client reads.  A missing
    [Contents] is the empty list, an item without [Key] the empty string. *)
Record ListResult : Type := MkListResult {
  Contents : list str;
  IsTruncated : bool;
  NextContinuationToken : option str
}.

(** The commands the client sends, as the SDK exposes them. *)
Record S3Api (S : Type) : Type := MkS3Api {
  PutObject : str → str → str → M S unit;
  DeleteObject : str → M S unit;
  ListObjectsV2 : str → option str → M S ListResult;
  DeleteObjects : list str → M S unit;
  CopyObject : str → str → M S unit
}.
Arguments PutObject {S} _ _ _ _.
Arguments DeleteObject {S} _ _.
Arguments ListObjectsV2 {S} _ _ _.
Arguments DeleteObjects {S} _ _.
Arguments CopyObject {S} _ _ _.

(** JavaScript truthiness of a string-or-undefined value. *)
Definition truthy (v : option str) : bool :=
  match v with
  | Some (_ :: _) => true
  | _ => false
  end.

(** [s.replace(pattern, replacement)] with a string pattern: the first
    occurrence only. *)
Fixpoint replaceFirst (s pattern replacement : str) : str :=
  if decide (pattern `prefix_of` s) then replacement ++ drop (length pattern) s
  else match s with
       | [] => []
       | c :: s' => c :: replaceFirst s' pattern replacement
       end.

(** [.replace(/\/+$/, "")] *)
Definition stripTrailingSlashes (s : str) : str :=
  reverse (stripLeadingSlashes (reverse s)).

Definition normalizePrefix (prefix : str) : str :=
  match prefix with
  | [] => []
  | _ => stripTrailingSlashes (stripLeadingSlashes prefix) ++ [CHAR_FORWARD_SLASH]
  end.

Section S3Client.
Context {S : Type}.
Variable s3 : S3Api S.
(** [AWS_S3_PREFIX], and whether the four required [AWS_*] variables are set. *)
Variable AWS_S3_PREFIX : str.
Variable aws_configured : bool.

Definition ensureS3Configured : M S unit :=
  if aws_configured then ret tt
  else throw (lit "S3 is not configured. Check AWS_* environment variables.").

Definition basePrefix : str := normalizePrefix AWS_S3_PREFIX.

Definition buildKey (key : str) : str := basePrefix ++ key.

Definition uploadS3Object (key buffer : str) (contentType : option str) : M S unit :=
  ensureS3Configured >>
  PutObject s3 (buildKey key) buffer
    (if truthy contentType then default [] contentType
     else lit "application/octet-stream").

Definition deleteS3Object (key : str) : M S unit :=
  ensureS3Configured >> DeleteObject s3 (buildKey key).

Definition createS3Folder (key : str) : M S unit :=
  ensureS3Configured >>
  PutObject s3 (buildKey key) [] (lit "application/x-directory").

(** The [do ... while (continuationToken)] loop of [deleteS3Prefix]; each
    unit of [fuel] pays for one turn. *)
Fixpoint deleteS3Prefix_loop (fuel : nat) (prefix : str)
    (continuationToken : option str) : M S unit :=
  match fuel with
  | O => out_of_fuel
  | Datatypes.S fuel' =>
      let* listResult := ListObjectsV2 s3 (buildKey prefix) continuationToken in
      let keys := filter (fun k => truthy (Some k)) (Contents listResult) in
      (if (0 <? len_list keys) then DeleteObjects s3 keys else ret tt) >>
      let continuationToken' :=
        if IsTruncated listResult then NextContinuationToken listResult else None in
      if truthy continuationToken'
      then deleteS3Prefix_loop fuel' prefix continuationToken'
      else ret tt
  end.

Definition deleteS3Prefix (fuel : nat) (prefix : str) : M S unit :=
  ensureS3Configured >> deleteS3Prefix_loop fuel prefix None.

Definition copyS3Object (sourceKey destinationKey : str) : M S unit :=
  ensureS3Configured >>
  CopyObject s3 (buildKey sourceKey) (buildKey destinationKey).

(** The [for (const item of contents)] loop of [copyS3Prefix]. *)
Fixpoint copyS3Prefix_items (sourcePrefix destinationPrefix : str)
    (contents : list str) : M S unit :=
  match contents with
  | [] => ret tt
  | itemKey :: contents' =>
      (if truthy (Some itemKey) then
         let relative := replaceFirst itemKey (buildKey sourcePrefix) [] in
         let destKey := destinationPrefix ++ relative in
         copyS3Object (sourcePrefix ++ relative) destKey
       else ret tt) >>
      copyS3Prefix_items sourcePrefix destinationPrefix contents'
  end.

Fixpoint copyS3Prefix_loop (fuel : nat) (sourcePrefix destinationPrefix : str)
    (continuationToken : option str) : M S unit :=
  match fuel with
  | O => out_of_fuel
  | Datatypes.S fuel' =>
      let* listResult :=
        ListObjectsV2 s3 (buildKey sourcePrefix) continuationToken in
      copyS3Prefix_items sourcePrefix destinationPrefix (Contents listResult) >>
      let continuationToken' :=
        if IsTruncated listResult then NextContinuationToken listResult else None in
      if truthy continuationToken'
      then copyS3Prefix_loop fuel' sourcePrefix destinationPrefix continuationToken'
      else ret tt
  end.

Definition copyS3Prefix (fuel : nat) (sourcePrefix destinationPrefix : str) : M S unit :=
  ensureS3Configured >>
  copyS3Prefix_loop fuel sourcePrefix destinationPrefix None.
End S3Client.

(** ** The outside world: bucket, catalog, activity log *)

Record S3Object : Type := MkObject {
  Body : str;
  ContentType : str
}.

(** A document of the [files] collection.  An absent [fileName] is the empty
    string, an absent [size] is [0], an absent [isFolder] is [false]. *)
Record FileDoc : Type := MkFileDoc {
  userId : option str;
  filePath : str;
  fileName : str;
  size : Z;
  isFolder : bool;
  updatedAt : option Z
}.

Inductive Details : Type :=
| NoDetails
| ContentTypeDetails (contentType : option str)
| DestinationDetails (destination : str).

(** A document of the [fileActivityLogs] collection. *)
Record LogEntry : Type := MkLogEntry {
  action : str;
  logFilePath : str;
  logFileName : str;
  details : Details;
  logUserId : option str;
  createdAt : Z
}.

(** Every call that leaves the process, as it appears in the trace. *)
Inductive Call : Type :=
| CallPutObject (key : str)
| CallDeleteObject (key : str)
| CallListObjectsV2 (prefix : str) (token : option str)
| CallDeleteObjects (keys : list str)
| CallCopyObject (source destination : str)
| CallConnect
| CallFind (literalPrefix : str)
| CallFindOne (path : str)
| CallUpdateOne (path : str) (doc : FileDoc)
| CallDeleteOne (path : str)
| CallDeleteMany (literalPrefix : str)
| CallInsertLog (logged : str).

Record Event : Type := MkEvent {
  call : Call;
  succeeded : bool
}.

Definition is_store_call (c : Call) : bool :=
  match c with
  | CallPutObject _ | CallDeleteObject _ | CallListObjectsV2 _ _
  | CallDeleteObjects _ | CallCopyObject _ _ => true
  | _ => false
  end.

Definition is_catalog_write (c : Call) : bool :=
  match c with
  | CallUpdateOne _ _ | CallDeleteOne _ | CallDeleteMany _ => true
  | _ => false
  end.

Definition is_log_append (c : Call) : bool :=
  match c with
  | CallInsertLog _ => true
  | _ => false
  end.

Record World : Type := MkWorld {
  bucket : gmap (list ascii) S3Object;
  files : list FileDoc;
  logs : list LogEntry;
  dbClient : bool;
  trace : list Event
}.

Definition record_event (c : Call) (ok : bool) (w : World) : World :=
  MkWorld (bucket w) (files w) (logs w) (dbClient w) (trace w ++ [MkEvent c ok]).

Definition set_bucket (b : gmap (list ascii) S3Object) (w : World) : World :=
  MkWorld b (files w) (logs w) (dbClient w) (trace w).

Definition set_files (fs : list FileDoc) (w : World) : World :=
  MkWorld (bucket w) fs (logs w) (dbClient w) (trace w).

Definition set_logs (ls : list LogEntry) (w : World) : World :=
  MkWorld (bucket w) (files w) ls (dbClient w) (trace w).

Definition set_client (w : World) : World :=
  MkWorld (bucket w) (files w) (logs w) true (trace w).

(** *** The bucket as S3 serves it

    A put overwrites, a delete of an absent key succeeds, a copy of an absent
    key is refused, and a listing serves the keys below a prefix in byte
    order, [pageSize] at a time. *)

(** The keys below a prefix, in the order [ListObjectsV2] lists them. *)
Definition keysUnder (b : gmap (list ascii) S3Object) (prefix : str) : list str :=
  merge_sort str_le
    (filter (fun k => prefix `prefix_of` k) (elements (dom b))).

(** A continuation token resumes the listing after the last key served. *)
Definition after_token (token : option str) (k : str) : Prop :=
  match token with
  | None => True
  | Some t => str_lt t k
  end.

Global Instance after_token_dec token k : Decision (after_token token k).
Proof. destruct token; apply _. Defined.

Definition listPage (pageSize : nat) (b : gmap (list ascii) S3Object)
    (prefix : str) (token : option str) : ListResult :=
  let all := filter (after_token token) (keysUnder b prefix) in
  let page := take pageSize all in
  let truncated := bool_decide (pageSize < length all)%nat in
  MkListResult page truncated (if truncated then last page else None).

Definition deleteAll (keys : list str) (b : gmap (list ascii) S3Object) :
    gmap (list ascii) S3Object :=
  foldr delete b keys.

(** *** The catalog as MongoDB serves it

    The [files] collection is the list of its documents in insertion order;
    a sort on [filePath] compares keys in byte order. *)

(** The characters [escapeRegex] escapes; they are the syntax characters of
    the regular-expression grammar. *)
Definition is_syntax_char (c : ascii) : bool :=
  bool_decide (c ∈ lit ".*+?^${}()|[]\").

(** [value.replace(/[.*+?^${}()|[\]\\]/g, "\\$&")] *)
Definition escapeRegex (value : str) : str :=
  flat_map (fun c => if is_syntax_char c then [CHAR_BACKWARD_SLASH; c] else [c]) value.

(** The patterns the server builds are a [^] followed by ordinary characters
    and escaped syntax characters.  [literal_of_pattern] reads such a body
    back as the text it matches; a body outside this fragment has no
    reading here. *)
Fixpoint literal_of_pattern (body : str) : option str :=
  match body with
  | [] => Some []
  | c :: body' =>
      if Ascii.eqb c CHAR_BACKWARD_SLASH then
        match body' with
        | e :: body'' =>
            if is_syntax_char e then (e ::.) <$> literal_of_pattern body'' else None
        | [] => None
        end
      else if is_syntax_char c then None
      else (c ::.) <$> literal_of_pattern body'
  end.

(** [new RegExp(`^${body}`)] as an anchored literal. *)
Definition anchored (body : str) : option str := literal_of_pattern body.

(** [regex.test(s)] for an anchored literal. *)
Definition regex_test (literal s : str) : bool := bool_decide (literal `prefix_of` s).

Definition doc_le (d1 d2 : FileDoc) : Prop := str_le (filePath d1) (filePath d2).

Global Instance doc_le_dec d1 d2 : Decision (doc_le d1 d2).
Proof. unfold doc_le. apply _. Defined.

(** [updateOne({ filePath }, { $set: doc }, { upsert: true })]: the [$set]
    names every field, so the first match becomes [doc]. *)
Fixpoint upsert (path : str) (doc : FileDoc) (docs : list FileDoc) : list FileDoc :=
  match docs with
  | [] => [doc]
  | d :: docs' =>
      if decide (filePath d = path) then doc :: docs'
      else d :: upsert path doc docs'
  end.

Fixpoint removeFirst (path : str) (docs : list FileDoc) : list FileDoc :=
  match docs with
  | [] => []
  | d :: docs' =>
      if decide (filePath d = path) then docs' else d :: removeFirst path docs'
  end.

Definition findFirst (path : str) (docs : list FileDoc) : option FileDoc :=
  List.find (fun d => bool_decide (filePath d = path)) docs.

(** ** The server *)

Inductive ListEntry : Type := MkListEntry {
  entryKey : str;
  entrySize : Z;
  lastModified : Z
}.

Inductive Response : Type :=
| RespOk
| RespFiles (entries : list ListEntry)
| RespError (status : Z) (error : str).

(** [s.replace(/\/$/, "")] *)
Definition dropTrailingSlash (s : str) : str :=
  match reverse s with
  | c :: r => if Ascii.eqb c CHAR_FORWARD_SLASH then reverse r else s
  | [] => s
  end.

(** [(relative.match(/\//g) || []).length] *)
Definition slashCount (s : str) : Z :=
  len (List.filter (fun c => Ascii.eqb c CHAR_FORWARD_SLASH) s).

(** The callback of [rows.filter] in [GET /api/files]. *)
Definition isDirectChild (prefix : str) (file : FileDoc) : bool :=
  let key := filePath file in
  if negb (startsWith key prefix) then false
  else
    let relative := slice key (len prefix) (len key) in
    match relative with
    | [] => false
    | _ =>
        if slashCount relative =? 0 then true
        else (slashCount relative =? 1) && endsWith relative [CHAR_FORWARD_SLASH]
    end.

Definition toListEntry (now : Z) (file : FileDoc) : ListEntry :=
  MkListEntry (filePath file) (size file) (default now (updatedAt file)).

(** The [$set] document of one descendant in [POST /api/files/copy]. *)
Definition copiedDoc (objectId : str) (now : Z) (sourcePrefix destPrefix : str)
    (file : FileDoc) : FileDoc :=
  let relative := slice (filePath file) (len sourcePrefix) (len (filePath file)) in
  let newPath := destPrefix ++ relative in
  let fileName' :=
    match fileName file with
    | [] => PosixPath.basename (dropTrailingSlash newPath)
    | _ => fileName file
    end in
  MkFileDoc (Some objectId) newPath fileName' (size file)
    (isFolder file || endsWith newPath [CHAR_FORWARD_SLASH]) (Some now).

Section Server.
(** The process environment and the behaviour of the services. *)
Variable AWS_S3_PREFIX : str.
Variable aws_configured : bool.
Variable MONGODB_URI : str.
(** The number of keys S3 serves per page. *)
Variable pageSize : nat.
(** [faults n]: the [n]-th outgoing call of the run fails in transit. *)
Variable faults : nat → bool.
(** [Buffer.from(content, "base64")] *)
Variable Buffer_from_base64 : str → str.
(** [new ObjectId(text)] of the driver: the id the text stands for, [None]
    when the constructor throws, and the message of the error it throws. *)
Variable ObjectId : str → option str.
Variable BSONError : str.

Definition extern {A : Type} (c : Call) (sem : World → (A + str) * World) : M World A :=
  fun w =>
    if faults (length (trace w)) then
      (Throw (lit "Service unavailable"), record_event c false w)
    else
      match sem w with
      | (inl a, w') => (Ok a, record_event c true w')
      | (inr e, w') => (Throw e, record_event c false w')
      end.

Definition bucketApi : S3Api World :=
  MkS3Api World
    (fun key body contentType =>
       extern (CallPutObject key)
         (fun w => (inl tt, set_bucket (<[key := MkObject body contentType]> (bucket w)) w)))
    (fun key =>
       extern (CallDeleteObject key)
         (fun w => (inl tt, set_bucket (delete key (bucket w)) w)))
    (fun prefix token =>
       extern (CallListObjectsV2 prefix token)
         (fun w => (inl (listPage pageSize (bucket w) prefix token), w)))
    (fun keys =>
       extern (CallDeleteObjects keys)
         (fun w => (inl tt, set_bucket (deleteAll keys (bucket w)) w)))
    (fun source destination =>
       extern (CallCopyObject source destination)
         (fun w =>
            match bucket w !! source with
            | Some object => (inl tt, set_bucket (<[destination := object]> (bucket w)) w)
            | None => (inr (lit "The specified key does not exist."), w)
            end)).

Definition key_of : str → str := buildKey AWS_S3_PREFIX.

(** [getDb] behind [getCollections]: the first call creates the client and
    awaits [client.connect()]; later calls find the client and reuse it. *)
Definition getCollections : M World unit :=
  match MONGODB_URI with
  | [] => throw (lit "Missing MONGODB_URI in environment variables.")
  | _ =>
      fun w =>
        if dbClient w then (Ok tt, w)
        else extern CallConnect (fun w' => (inl tt, w')) (set_client w)
  end.

(** [find({ filePath: new RegExp("^" + escapeRegex(prefix)) })] *)
Definition findByPrefix (sorted : bool) (prefix : str) : M World (list FileDoc) :=
  match anchored (escapeRegex prefix) with
  | None => throw (lit "Invalid regular expression")
  | Some literal =>
      extern (CallFind literal)
        (fun w =>
           let rows := filter (fun d => regex_test literal (filePath d)) (files w) in
           (inl (if sorted then merge_sort doc_le rows else rows), w))
  end.

Definition deleteManyByPrefix (prefix : str) : M World unit :=
  match anchored (escapeRegex prefix) with
  | None => throw (lit "Invalid regular expression")
  | Some literal =>
      extern (CallDeleteMany literal)
        (fun w =>
           (inl tt,
            set_files (filter (fun d => ¬ regex_test literal (filePath d)) (files w)) w))
  end.

Definition updateOne (path : str) (doc : FileDoc) : M World unit :=
  extern (CallUpdateOne path doc)
    (fun w => (inl tt, set_files (upsert path doc (files w)) w)).

Definition deleteOne (path : str) : M World unit :=
  extern (CallDeleteOne path) (fun w => (inl tt, set_files (removeFirst path (files w)) w)).

Definition findOne (path : str) : M World (option FileDoc) :=
  extern (CallFindOne path) (fun w => (inl (findFirst path (files w)), w)).

(** [new ObjectId(text)] where the source evaluates it. *)
Definition new_ObjectId (text : str) : M World str :=
  match ObjectId text with
  | Some objectId => ret objectId
  | None => throw BSONError
  end.

(** The document of the insert is built after [getCollections] has been
    awaited: [userId ? new ObjectId(userId) : null] throws before the insert
    is sent. *)
Definition logFileAction (now : Z) (action filePath fileName user : str)
    (details : Details) : M World unit :=
  getCollections >>
  let* logUser :=
    match user with
    | [] => ret None
    | _ => let* objectId := new_ObjectId user in ret (Some objectId)
    end in
  extern (CallInsertLog action)
    (fun w =>
       (inl tt,
        set_logs (logs w ++ [MkLogEntry action filePath fileName details logUser now]) w)).

(** [array.map(callback)] with a callback that may throw: the first throw
    leaves the map.  The callback of the prefix copy builds its id from the
    same text for every record, so only its first call can throw, before
    any update has been sent; the updates it returns are sent in order and
    awaited by [Promise.all]. *)
Fixpoint mapM {A B : Type} (callback : A → M World B) (array : list A) : M World (list B) :=
  match array with
  | [] => ret []
  | x :: array' =>
      let* y := callback x in
      let* ys := mapM callback array' in
      ret (y :: ys)
  end.

(** [await Promise.all(updates)]: every update has been issued when the
    array is built; the first rejection is the one rethrown. *)
Fixpoint promise_all (updates : list (M World unit)) (failure : option str) : M World unit :=
  match updates with
  | [] => match failure with
          | Some e => throw e
          | None => ret tt
          end
  | u :: updates' =>
      fun w =>
        match u w with
        | (Ok _, w') => promise_all updates' failure w'
        | (Throw e, w') =>
            promise_all updates' (match failure with Some e0 => Some e0 | None => Some e end) w'
        | (OutOfFuel, w') => (OutOfFuel, w')
        end
  end.

(** [GET /api/files] *)
Definition listHandler (now : Z) (queryPrefix : str) : M World Response :=
  try_catch
    (let prefix := normalizeKey queryPrefix in
     getCollections >>
     let* rows := findByPrefix true prefix in
     ret (RespFiles (toListEntry now <$> filter (fun file => isDirectChild prefix file) rows)))
    (fun e => ret (RespError 500 e)).

(** [POST /api/files/upload] *)
Definition uploadHandler (user : str) (now : Z) (key content : str)
    (contentType : option str) : M World Response :=
  try_catch
    (let safeKey := normalizeKey key in
     match safeKey, content with
     | _ :: _, _ :: _ =>
         let buffer := Buffer_from_base64 content in
         uploadS3Object bucketApi AWS_S3_PREFIX aws_configured safeKey buffer contentType >>
         getCollections >>
         let fileName := PosixPath.basename safeKey in
         let* objectId := new_ObjectId user in
         updateOne safeKey
           (MkFileDoc (Some objectId) safeKey fileName (len buffer) false (Some now)) >>
         logFileAction now (lit "upload") safeKey fileName user
           (ContentTypeDetails (if truthy contentType then contentType else None)) >>
         ret RespOk
     | _, _ => ret (RespError 400 (lit "Missing key or content"))
     end)
    (fun e => ret (RespError 500 e)).

(** [POST /api/folders] *)
Definition createFolderHandler (user : str) (now : Z) (key : str) : M World Response :=
  try_catch
    (let safeKey := normalizeKey key in
     match safeKey with
     | [] => ret (RespError 400 (lit "Missing folder key"))
     | _ =>
         let folderKey :=
           if endsWith safeKey [CHAR_FORWARD_SLASH] then safeKey
           else safeKey ++ [CHAR_FORWARD_SLASH] in
         createS3Folder bucketApi AWS_S3_PREFIX aws_configured folderKey >>
         getCollections >>
         let folderName := PosixPath.basename (dropTrailingSlash folderKey) in
         let* objectId := new_ObjectId user in
         updateOne folderKey
           (MkFileDoc (Some objectId) folderKey folderName 0 true (Some now)) >>
         logFileAction now (lit "folder_create") folderKey folderName user NoDetails >>
         ret RespOk
     end)
    (fun e => ret (RespError 500 e)).

(** [POST /api/files/copy] *)
Definition copyHandler (fuel : nat) (user : str) (now : Z)
    (sourceKey destinationKey : str) : M World Response :=
  try_catch
    (let safeSource := normalizeKey sourceKey in
     let safeDestination := normalizeKey destinationKey in
     match safeSource, safeDestination with
     | _ :: _, _ :: _ =>
         getCollections >>
         (if endsWith safeSource [CHAR_FORWARD_SLASH] then
            let sourcePrefix := safeSource in
            let destPrefix :=
              if endsWith safeDestination [CHAR_FORWARD_SLASH] then safeDestination
              else safeDestination ++ [CHAR_FORWARD_SLASH] in
            createS3Folder bucketApi AWS_S3_PREFIX aws_configured destPrefix >>
            copyS3Prefix bucketApi AWS_S3_PREFIX aws_configured fuel sourcePrefix destPrefix >>
            let* objectId := new_ObjectId user in
            updateOne destPrefix
              (MkFileDoc (Some objectId) destPrefix
                 (PosixPath.basename (dropTrailingSlash destPrefix)) 0 true (Some now)) >>
            let* sourceFiles := findByPrefix false sourcePrefix in
            let* updates :=
              mapM (fun file =>
                      let* objectId := new_ObjectId user in
                      let doc := copiedDoc objectId now sourcePrefix destPrefix file in
                      ret (updateOne (filePath doc) doc)) sourceFiles in
            promise_all updates None
          else
            copyS3Object bucketApi AWS_S3_PREFIX aws_configured safeSource safeDestination >>
            let fileName := PosixPath.basename safeDestination in
            let* sourceDoc := findOne safeSource in
            let* objectId := new_ObjectId user in
            updateOne safeDestination
              (MkFileDoc (Some objectId) safeDestination fileName
                 (from_option size 0 sourceDoc) false (Some now))) >>
         logFileAction now (lit "copy") safeSource
           (PosixPath.basename (dropTrailingSlash safeSource)) user
           (DestinationDetails safeDestination) >>
         ret RespOk
     | _, _ => ret (RespError 400 (lit "Missing source or destination"))
     end)
    (fun e => ret (RespError 500 e)).

(** [DELETE /api/files] *)
Definition deleteHandler (fuel : nat) (user : str) (now : Z) (queryKey : str) :
    M World Response :=
  try_catch
    (let key := normalizeKey queryKey in
     match key with
     | [] => ret (RespError 400 (lit "Missing key"))
     | _ =>
         (if endsWith key [CHAR_FORWARD_SLASH] then
            deleteS3Prefix bucketApi AWS_S3_PREFIX aws_configured fuel key >>
            getCollections >>
            deleteManyByPrefix key >>
            logFileAction now (lit "folder_delete") key
              (PosixPath.basename (dropTrailingSlash key)) user NoDetails
          else
            deleteS3Object bucketApi AWS_S3_PREFIX aws_configured key >>
            getCollections >>
            deleteOne key >>
            logFileAction now (lit "delete") key (PosixPath.basename key) user NoDetails) >>
         ret RespOk
     end)
    (fun e => ret (RespError 500 e)).
End Server.

(** The listing rule in the words of the specification: after stripping the
    prefix the remainder is non-empty and either contains no [/], or contains
    exactly one [/], as its final character. *)
Definition direct_child (prefix key : str) : Prop :=
  ∃ remainder : str,
    key = prefix ++ remainder
    ∧ remainder ≠ []
    ∧ (CHAR_FORWARD_SLASH ∉ remainder
       ∨ ∃ name : str,
           remainder = name ++ [CHAR_FORWARD_SLASH] ∧ CHAR_FORWARD_SLASH ∉ name).

(** ** Mutations and what their traces must look like *)

Inductive Mutation : Type :=
| Upload (key content : str) (contentType : option str)
| CreateFolder (key : str)
| Copy (sourceKey destinationKey : str)
| Delete (key : str).

Section Mutations.
Variable AWS_S3_PREFIX : str.
Variable aws_configured : bool.
Variable MONGODB_URI : str.
Variable pageSize : nat.
Variable faults : nat → bool.
Variable Buffer_from_base64 : str → str.
Variable ObjectId : str → option str.
Variable BSONError : str.

Definition runMutation (fuel : nat) (user : str) (now : Z) (m : Mutation) :
    M World Response :=
  match m with
  | Upload key content contentType =>
      uploadHandler AWS_S3_PREFIX aws_configured MONGODB_URI pageSize faults
        Buffer_from_base64 ObjectId BSONError user now key content contentType
  | CreateFolder key =>
      createFolderHandler AWS_S3_PREFIX aws_configured MONGODB_URI pageSize faults
        ObjectId BSONError user now key
  | Copy sourceKey destinationKey =>
      copyHandler AWS_S3_PREFIX aws_configured MONGODB_URI pageSize faults
        ObjectId BSONError fuel user now sourceKey destinationKey
  | Delete key =>
      deleteHandler AWS_S3_PREFIX aws_configured MONGODB_URI pageSize faults
        ObjectId BSONError fuel user now key
  end.
End Mutations.

Definition is_ok {A : Type} (r : Outcome A) : bool :=
  match r with
  | Ok _ => true
  | _ => false
  end.

Definition failed (e : Event) : Prop := succeeded e = false.

(** Events a computation may leave before the catalog is touched, and events
    it may leave once the store is done. *)
Definition before_catalog (e : Event) : Prop :=
  is_catalog_write (call e) = false ∧ is_log_append (call e) = false.

Definition after_store (e : Event) : Prop := is_store_call (call e) = false.

Definition store_only {A : Type} (m : M World A) : Prop :=
  ∀ w, ∃ evs,
    trace (m w).2 = trace w ++ evs
    ∧ Forall before_catalog evs
    ∧ files (m w).2 = files w
    ∧ (Exists failed evs → is_ok (m w).1 = false).

Definition catalog_only {A : Type} (m : M World A) : Prop :=
  ∀ w, ∃ evs,
    trace (m w).2 = trace w ++ evs
    ∧ Forall after_store evs
    ∧ (evs = [] → files (m w).2 = files w)
    ∧ (Exists failed evs → is_ok (m w).1 = false)
    ∧ (m w).1 ≠ OutOfFuel.

Definition two_phase {A : Type} (m : M World A) : Prop :=
  ∀ w, ∃ evs_s evs_c,
    trace (m w).2 = trace w ++ evs_s ++ evs_c
    ∧ Forall before_catalog evs_s
    ∧ Forall after_store evs_c
    ∧ (evs_c = [] → files (m w).2 = files w)
    ∧ (Exists failed (evs_s ++ evs_c) → is_ok (m w).1 = false)
    ∧ (Exists failed evs_s → evs_c = [])
    ∧ ((m w).1 = OutOfFuel → evs_c = []).

(** No store call follows a catalog write. *)
Definition store_before_catalog (evs : list Event) : Prop :=
  ∀ (i j : nat) (ei ej : Event),
    evs !! i = Some ei → evs !! j = Some ej →
    is_catalog_write (call ei) = true → is_store_call (call ej) = true →
    (j < i)%nat.

(** The events one run appended to the trace. *)
Definition new_events (w w' : World) : list Event :=
  drop (length (trace w)) (trace w').

Definition store_call_succeeded (e : Event) : Prop :=
  is_store_call (call e) = true ∧ succeeded e = true.

(** Every catalog write follows a store call that succeeded. *)
Definition store_call_first (evs : list Event) : Prop :=
  ∀ (i : nat) (ei : Event),
    evs !! i = Some ei → is_catalog_write (call ei) = true →
    ∃ (j : nat) (ej : Event),
      (j < i)%nat ∧ evs !! j = Some ej ∧ store_call_succeeded ej.

(** Computations by the events they leave: any events at all; a store call
    that succeeded whenever the computation returns; and a store call that
    succeeded ahead of every catalog write. *)
Definition leaves_events {A : Type} (m : M World A) : Prop :=
  ∀ w, ∃ evs, trace (m w).2 = trace w ++ evs.

Definition calls_store {A : Type} (m : M World A) : Prop :=
  ∀ w, ∃ evs,
    trace (m w).2 = trace w ++ evs
    ∧ (is_ok (m w).1 = true → Exists store_call_succeeded evs).

Definition store_opens {A : Type} (m : M World A) : Prop :=
  ∀ w, ∃ evs,
    trace (m w).2 = trace w ++ evs
    ∧ store_call_first evs
    ∧ (is_ok (m w).1 = true → Exists store_call_succeeded evs).

(** The ids [logFileAction] can record: none, or one the driver accepts. *)
Definition loggable (ObjectId : str → option str) (user : str) : bool :=
  match user with
  | [] => true
  | _ => match ObjectId user with Some _ => true | None => false end
  end.

Definition store_call_failed (evs : list Event) : bool :=
  existsb (fun e => is_store_call (call e) && negb (succeeded e)) evs.

Definition secondary_write_failed (evs : list Event) : bool :=
  existsb (fun e => (is_catalog_write (call e) || is_log_append (call e))
                    && negb (succeeded e)) evs.

Definition handler_trace (h : M World Response) : Prop :=
  ∀ w, ∃ evs_s evs_c,
    trace (h w).2 = trace w ++ evs_s ++ evs_c
    ∧ Forall before_catalog evs_s
    ∧ Forall after_store evs_c
    ∧ (evs_c = [] → files (h w).2 = files w)
    ∧ (Exists failed evs_s → evs_c = [])
    ∧ (Exists failed (evs_s ++ evs_c) →
       (h w).1 = OutOfFuel ∨ ∃ e, (h w).1 = Ok (RespError 500 e))
    ∧ ((h w).1 = OutOfFuel → evs_c = []).

(** ** A store that answers from a script

    For the prefix walk alone the bucket can be any store: the list
    responses are given in advance, one per request, and every other command
    succeeds.  When the script is used up the store has nothing more to say
    and the request does not return. *)

Record Script : Type := MkScript {
  pending : list ListResult;
  requests : list Call
}.

Definition sent (c : Call) (s : Script) : Script :=
  MkScript (pending s) (requests s ++ [c]).

Definition scriptedApi : S3Api Script :=
  MkS3Api Script
    (fun key _ _ s => (Ok tt, sent (CallPutObject key) s))
    (fun key s => (Ok tt, sent (CallDeleteObject key) s))
    (fun prefix token s =>
       match pending s with
       | [] => (OutOfFuel, s)
       | page :: later =>
           (Ok page, MkScript later (requests s ++ [CallListObjectsV2 prefix token]))
       end)
    (fun keys s => (Ok tt, sent (CallDeleteObjects keys) s))
    (fun source destination s => (Ok tt, sent (CallCopyObject source destination) s)).

Definition is_list_call (c : Call) : bool :=
  match c with
  | CallListObjectsV2 _ _ => true
  | _ => false
  end.

Definition list_requests (s : Script) : list Call :=
  List.filter is_list_call (requests s).

(** The store sends a continuation token with every truncated page. *)
Definition page_ok (page : ListResult) : bool :=
  implb (IsTruncated page) (truthy (NextContinuationToken page)).

(** The position of the first page that reports no further pages. *)
Fixpoint first_final_page (pages : list ListResult) : option nat :=
  match pages with
  | [] => None
  | page :: later =>
      if IsTruncated page then Datatypes.S <$> first_final_page later
      else Some 0%nat
  end.

(** [continuationToken = IsTruncated ? NextContinuationToken : undefined]
    after a page, and whether [while (continuationToken)] then leaves the
    loop: the page is not truncated, or it carries no token to go on with. *)
Definition tokenAfter (page : ListResult) : option str :=
  if IsTruncated page then NextContinuationToken page else None.

Definition ends_walk (page : ListResult) : bool := negb (truthy (tokenAfter page)).

(** The position of the first page after which the walk asks no more. *)
Fixpoint first_stop (pages : list ListResult) : option nat :=
  match pages with
  | [] => None
  | page :: later =>
      if ends_walk page then Some 0%nat else Datatypes.S <$> first_stop later
  end.

(** The list requests of a walk that ends at page [n]: the first without a
    token, each later one with the token of the page before it. *)
Definition expected_requests (prefix : str) (pages : list ListResult) (n : nat) :
    list Call :=
  CallListObjectsV2 prefix
    <$> (None :: (NextContinuationToken <$> take n pages)).

(** A triple over computations that also bounds the events they leave:
    from a world satisfying [P], every event of the run satisfies [Q] and a
    returned value satisfies [R] together with the world reached. *)
Definition triple {A : Type} (P : World → Prop) (m : M World A)
    (Q : Event → Prop) (R : A → World → Prop) : Prop :=
  ∀ w, P w →
    ∃ evs, trace (m w).2 = trace w ++ evs
           ∧ Forall Q evs
           ∧ ∀ a, (m w).1 = Ok a → R a (m w).2.

(** The destination folder's own record in a prefix copy. *)
Definition markerDoc (objectId : str) (now : Z) (destPrefix : str) : FileDoc :=
  MkFileDoc (Some objectId) destPrefix
    (PosixPath.basename (dropTrailingSlash destPrefix)) 0 true (Some now).

(** What a prefix copy may write to the catalog, under the id made from the
    caller's: the destination folder's record, or the record derived from
    one found under the source prefix. *)
Definition copy_write (ObjectId : str → option str) (user : str) (now : Z)
    (sourcePrefix destPrefix : str) (catalog : list FileDoc) (e : Event) : Prop :=
  ∀ path doc, call e = CallUpdateOne path doc →
    ∃ objectId : str,
      ObjectId user = Some objectId
      ∧ ((path = destPrefix ∧ doc = markerDoc objectId now destPrefix)
         ∨ ∃ file : FileDoc,
             file ∈ upsert destPrefix (markerDoc objectId now destPrefix) catalog
             ∧ sourcePrefix `prefix_of` filePath file
             ∧ path = filePath doc
             ∧ doc = copiedDoc objectId now sourcePrefix destPrefix file).

(** ** A small deployment to run the handlers on *)

Definition demo_uri : str := lit "mongodb://localhost/vault".
Definition no_faults : nat → bool := fun _ => false.
Definition fault_at (n : nat) : nat → bool := fun k => Nat.eqb k n.
Definition raw_bytes : str → str := fun content => content.

(** The ids the driver accepts as text: 24 hexadecimal digits, read without
    regard to case. *)
Definition is_hex_digit (c : ascii) : bool :=
  let n := nat_of_ascii c in
  ((48 <=? n) && (n <=? 57) || (65 <=? n) && (n <=? 70) || (97 <=? n) && (n <=? 102))%nat.

Definition lower_hex_digit (c : ascii) : ascii :=
  let n := nat_of_ascii c in
  if ((65 <=? n) && (n <=? 70))%nat then ascii_of_nat (n + 32) else c.

Definition hex_ObjectId : str → option str :=
  fun text =>
    if (length text =? 24)%nat && forallb is_hex_digit text
    then Some (lower_hex_digit <$> text)
    else None.

Definition demo_BSONError : str :=
  lit "input must be a 24 character hex string, 12 byte Uint8Array, or an integer".

Definition demo_id : str := lit "65f0a1b2c3d4e5f6a7b8c9d0".
Definition emptyWorld : World := MkWorld ∅ [] [] false [].

Definition plain (body : string) : S3Object :=
  MkObject (lit body) (lit "application/octet-stream").

Definition folderMarker : S3Object := MkObject [] (lit "application/x-directory").

Definition fileDoc (path name : string) (bytes : Z) : FileDoc :=
  MkFileDoc (Some (lit "u1")) (lit path) (lit name) bytes false (Some 1).

Definition folderDoc (path name : string) : FileDoc :=
  MkFileDoc (Some (lit "u1")) (lit path) (lit name) 0 true (Some 1).

(** A bucket with one folder of four keys and one key outside it. *)
Definition demoWorld : World :=
  MkWorld
    (list_to_map
       [(lit "reports/", folderMarker);
        (lit "reports/q1.pdf", plain "first");
        (lit "reports/q2.pdf", plain "second");
        (lit "reports/2024/jan.txt", plain "jan");
        (lit "readme.md", plain "read me")])
    [folderDoc "reports/" "reports";
     fileDoc "reports/q1.pdf" "q1.pdf" 5;
     fileDoc "reports/q2.pdf" "q2.pdf" 6;
     fileDoc "reports/2024/jan.txt" "jan.txt" 3;
     fileDoc "readme.md" "readme.md" 7]
    [] true [].

(** A catalog holding a folder record without a trailing slash and a file
    record with a display name of its own. *)
Definition legacyWorld : World :=
  MkWorld
    (list_to_map [(lit "docs/a.txt", plain "abc")])
    [folderDoc "docs/notes" "notes";
     fileDoc "docs/a.txt" "Annual report" 3]
    [] true [].

(** Three list responses: two truncated pages, the final page, and one more
    that must never be asked for. *)
(** A truncated page that carries no continuation token, and the final page
    behind it. *)
Definition tokenlessPages : list ListResult :=
  [MkListResult [lit "p/a"; lit "p/b"] true None;
   MkListResult [lit "p/c"] false None].

Definition demoPages : list ListResult :=
  [MkListResult [lit "p/a"; lit "p/b"] true (Some (lit "t1"));
   MkListResult [lit "p/c"; lit "p/d"] true (Some (lit "t2"));
   MkListResult [lit "p/e"] false None;
   MkListResult [lit "p/f"] false None].

(** ** Accounts and sessions *)

(** A document of the [users] collection; [_id] is the text of its
    [ObjectId]. *)
Record UserDoc : Type := MkUserDoc {
  _id : str;
  email : str;
  password : str;
  fullName : option str;
  role : str;
  userCreatedAt : Z
}.

(** A document of the [sessions] collection. *)
Record SessionDoc : Type := MkSessionDoc {
  sessionUserId : str;
  token : str;
  expiresAt : Z;
  sessionCreatedAt : Z
}.

(** [req.user]: [{ id, email, role }] *)
Record AuthUser : Type := MkAuthUser {
  authId : str;
  authEmail : str;
  authRole : str
}.

(** The calls on the [users] and [sessions] collections, and the one call on
    [files] that selects by owner. *)
Inductive AccountCall : Type :=
| CallSessionFindOne (token : str)
| CallSessionInsertOne (token : str)
| CallSessionDeleteOne (token : str)
| CallSessionDeleteMany (userId : str)
| CallUserFindOne (id : str)
| CallUserFindByEmail (email : str)
| CallUserInsertOne (email : str)
| CallUserDeleteOne (id : str)
| CallFilesDeleteMany (userId : str).

(** The whole deployment: the vault, the accounts, and the calls made on
    the accounts. *)
Record Site : Type := MkSite {
  vault : World;
  users : list UserDoc;
  sessions : list SessionDoc;
  accountTrace : list (AccountCall * bool)
}.

Definition set_vault (w : World) (s : Site) : Site :=
  MkSite w (users s) (sessions s) (accountTrace s).

Definition set_users (us : list UserDoc) (s : Site) : Site :=
  MkSite (vault s) us (sessions s) (accountTrace s).

Definition set_sessions (ss : list SessionDoc) (s : Site) : Site :=
  MkSite (vault s) (users s) ss (accountTrace s).

Definition record_account (c : AccountCall) (ok : bool) (s : Site) : Site :=
  MkSite (vault s) (users s) (sessions s) (accountTrace s ++ [(c, ok)]).

(** A computation on the vault, run inside the deployment. *)
Definition liftVault {A : Type} (m : M World A) : M Site A :=
  fun s => let '(r, w) := m (vault s) in (r, set_vault w s).

(** [getAuthToken]: the text after [Bearer ] in the [Authorization] header. *)
Definition getAuthToken (authorization : option str) : option str :=
  let header := if truthy authorization then default [] authorization else [] in
  if negb (startsWith header (lit "Bearer ")) then None
  else Some (slice header 7 (len header)).

Definition toAuthUser (user : UserDoc) : AuthUser :=
  MkAuthUser (_id user) (email user) (role user).

(** [sessions.findOne({ token, expiresAt: { $gt: now } })] *)
Definition findSession (now : Z) (tok : str) (ss : list SessionDoc) : option SessionDoc :=
  List.find (fun d => bool_decide (token d = tok) && (now <? expiresAt d)) ss.

(** [users.findOne({ _id })] and [users.findOne({ email })] *)
Definition findUserById (id : str) (us : list UserDoc) : option UserDoc :=
  List.find (fun d => bool_decide (_id d = id)) us.

Definition findUserByEmail (mail : str) (us : list UserDoc) : option UserDoc :=
  List.find (fun d => bool_decide (email d = mail)) us.

(** [deleteOne] on a collection: the first match goes. *)
Fixpoint removeFirstBy {A : Type} (f : A → bool) (l : list A) : list A :=
  match l with
  | [] => []
  | x :: l' => if f x then l' else x :: removeFirstBy f l'
  end.

Inductive LoginResponse : Type :=
| LoginOk (token : str) (user : AuthUser)
| LoginError (status : Z) (error : str).

(** A request to one of the file endpoints. *)
Inductive FileRequest : Type :=
| ListFiles (queryPrefix : str)
| Mutate (m : Mutation).

Section Accounts.
Variable AWS_S3_PREFIX : str.
Variable aws_configured : bool.
Variable MONGODB_URI : str.
Variable pageSize : nat.
Variable faults : nat → bool.
Variable Buffer_from_base64 : str → str.
(** [accountFaults n]: the [n]-th call on the accounts fails in transit. *)
Variable accountFaults : nat → bool.
(** [TOKEN_TTL_DAYS], a whole number of days. *)
Variable TOKEN_TTL_DAYS : Z.
(** [crypto.createHash("md5").update(password).digest("hex")] *)
Variable md5 : str → str.
(** [new ObjectId(text)]: the id a text denotes, [None] when the
    constructor throws. *)
Variable ObjectId : str → option str.
(** The message of the error [new ObjectId] throws. *)
Variable BSONError : str.

Definition account {A : Type} (c : AccountCall) (sem : Site → (A + str) * Site) :
    M Site A :=
  fun s =>
    if accountFaults (length (accountTrace s)) then
      (Throw (lit "Service unavailable"), record_account c false s)
    else
      match sem s with
      | (inl a, s') => (Ok a, record_account c true s')
      | (inr e, s') => (Throw e, record_account c false s')
      end.

Definition getUserByToken (now : Z) (token : option str) : M Site (option AuthUser) :=
  if negb (truthy token) then ret None
  else
    let tok := default [] token in
    liftVault (getCollections MONGODB_URI faults) >>
    let* session :=
      account (CallSessionFindOne tok) (fun s => (inl (findSession now tok (sessions s)), s)) in
    match session with
    | None => ret None
    | Some session =>
        let* user :=
          account (CallUserFindOne (sessionUserId session))
            (fun s => (inl (findUserById (sessionUserId session) (users s)), s)) in
        match user with
        | None => ret None
        | Some user => ret (Some (toAuthUser user))
        end
    end.

(** [requireAuth]: either the response it sends itself, or [req.user] and
    [req.token] for the handler that [next()] runs. *)
Definition requireAuth (now : Z) (authorization : option str) :
    M Site (Response + AuthUser * str) :=
  try_catch
    (let token := getAuthToken authorization in
     let* user := getUserByToken now token in
     match user with
     | None => ret (inl (RespError 401 (lit "Unauthorized")))
     | Some user => ret (inr (user, default [] token))
     end)
    (fun _ => ret (inl (RespError 500 (lit "Auth error")))).

Definition requireAdmin (now : Z) (authorization : option str) :
    M Site (Response + AuthUser * str) :=
  requireAuth now authorization.

(** A route with a guard in front of its handler. *)
Definition guarded {A : Type} (guard : M Site (A + AuthUser * str))
    (handler : AuthUser → str → M Site A) : M Site A :=
  let* checked := guard in
  match checked with
  | inl response => ret response
  | inr (user, token) => handler user token
  end.

(** [POST /api/login]; [newToken] is what [crypto.randomUUID()] returns. *)
Definition loginHandler (now : Z) (newToken : str) (mail pass : str) :
    M Site LoginResponse :=
  try_catch
    (match mail, pass with
     | _ :: _, _ :: _ =>
         let passwordHash := md5 pass in
         liftVault (getCollections MONGODB_URI faults) >>
         let* user :=
           account (CallUserFindByEmail mail)
             (fun s => (inl (findUserByEmail mail (users s)), s)) in
         match user with
         | None => ret (LoginError 401 (lit "Invalid credentials"))
         | Some user =>
             if negb (bool_decide (passwordHash = password user))
             then ret (LoginError 401 (lit "Invalid credentials"))
             else
               let token := newToken in
               let expiresAt := now + TOKEN_TTL_DAYS * 24 * 60 * 60 * 1000 in
               account (CallSessionInsertOne token)
                 (fun s =>
                    (inl tt,
                     set_sessions (sessions s ++ [MkSessionDoc (_id user) token expiresAt now])
                       s)) >>
               ret (LoginOk token (toAuthUser user))
         end
     | _, _ => ret (LoginError 400 (lit "Email and password are required"))
     end)
    (fun _ => ret (LoginError 500 (lit "Login failed"))).

(** [POST /api/logout] *)
Definition logoutEndpoint (now : Z) (authorization : option str) : M Site Response :=
  guarded (requireAuth now authorization)
    (fun _ reqToken =>
       try_catch
         (liftVault (getCollections MONGODB_URI faults) >>
          account (CallSessionDeleteOne reqToken)
            (fun s =>
               (inl tt,
                set_sessions
                  (removeFirstBy (fun d => bool_decide (token d = reqToken))
                     (sessions s)) s)) >>
          ret RespOk)
         (fun _ => ret (RespError 500 (lit "Logout failed")))).

(** The file routes: [requireAuth] in front of the handlers, which run for
    [req.user.id]. *)
Definition fileEndpoint (fuel : nat) (now : Z) (authorization : option str)
    (request : FileRequest) : M Site Response :=
  guarded (requireAuth now authorization)
    (fun user _ =>
       liftVault
         (match request with
          | ListFiles queryPrefix => listHandler MONGODB_URI faults now queryPrefix
          | Mutate m =>
              runMutation AWS_S3_PREFIX aws_configured MONGODB_URI pageSize faults
                Buffer_from_base64 ObjectId BSONError fuel (authId user) now m
          end)).

(** [DELETE /api/admin/users/:id] *)
Definition deleteUserEndpoint (now : Z) (authorization : option str) (paramId : str) :
    M Site Response :=
  guarded (requireAdmin now authorization)
    (fun _ _ =>
       try_catch
         (match paramId with
          | [] => ret (RespError 400 (lit "Invalid user id"))
          | _ =>
              liftVault (getCollections MONGODB_URI faults) >>
              match ObjectId paramId with
              | None => throw (lit "Invalid ObjectId")
              | Some objectId =>
                  account (CallSessionDeleteMany objectId)
                    (fun s =>
                       (inl tt,
                        set_sessions
                          (filter (fun d => sessionUserId d ≠ objectId) (sessions s)) s)) >>
                  account (CallFilesDeleteMany objectId)
                    (fun s =>
                       (inl tt,
                        set_vault
                          (set_files
                             (filter (fun d => userId d ≠ Some objectId) (files (vault s)))
                             (vault s)) s)) >>
                  account (CallUserDeleteOne objectId)
                    (fun s =>
                       (inl tt,
                        set_users
                          (removeFirstBy (fun d => bool_decide (_id d = objectId)) (users s))
                          s)) >>
                  ret RespOk
              end
          end)
         (fun _ => ret (RespError 500 (lit "Failed to delete user")))).
End Accounts.

(** ** Properties kept along a run *)

(** [preserves I m]: a run of [m] from a world in [I] ends in [I], whatever
    its outcome. *)
Definition preserves {A : Type} (I : World → Prop) (m : M World A) : Prop :=
  ∀ w, I w → I (m w).2.

Definition is_connect (c : Call) : bool :=
  match c with
  | CallConnect => true
  | _ => false
  end.

(** The number of [client.connect()] calls among some events. *)
Definition connect_attempts (evs : list Event) : nat :=
  length (List.filter (fun e => is_connect (call e)) evs).

(** What one run may do to the database client of [db.js]: it connects at
    most once, and only when no client existed; a run that leaves no client
    behind found none and never tried to connect. *)
Definition connects_once (w w' : World) : Prop :=
  (connect_attempts (new_events w w') ≤ (if dbClient w then 0 else 1))%nat
  ∧ (dbClient w = true → dbClient w' = true)
  ∧ (dbClient w' = false → connect_attempts (new_events w w') = 0%nat).

(** The worlds a run that started in [w0] passes through, as far as the
    database client is concerned. *)
Definition since (w0 w : World) : Prop :=
  ∃ evs, trace w = trace w0 ++ evs
         ∧ (connect_attempts evs ≤ (if dbClient w0 then 0 else 1))%nat
         ∧ (dbClient w0 = true → dbClient w = true)
         ∧ (dbClient w = false → connect_attempts evs = 0%nat).

(** The action a mutation is logged under. *)
Definition action_of (m : Mutation) : str :=
  match m with
  | Upload _ _ _ => lit "upload"
  | CreateFolder _ => lit "folder_create"
  | Copy _ _ => lit "copy"
  | Delete key =>
      if endsWith (normalizeKey key) [CHAR_FORWARD_SLASH] then lit "folder_delete"
      else lit "delete"
  end.

(** [userId ? new ObjectId(userId) : null], where it does not throw. *)
Definition logged_id (ObjectId : str → option str) (user : str) : option str :=
  match user with
  | [] => None
  | _ => ObjectId user
  end.

(** A handler that appends one entry to the activity log when it answers
    with success, and none otherwise. *)
Definition logs_one (act : str) (logged : option str) (now : Z) (h : M World Response) :
    Prop :=
  ∀ w,
    match (h w).1 with
    | Ok RespOk =>
        ∃ entry, logs (h w).2 = logs w ++ [entry]
                 ∧ action entry = act
                 ∧ logUserId entry = logged
                 ∧ createdAt entry = now
    | _ => logs (h w).2 = logs w
    end.

(** A request that fails the handlers' input check: a key that normalises
    to the empty string, or an upload without content. *)
Definition missing_input (m : Mutation) : bool :=
  match m with
  | Upload key content _ =>
      match normalizeKey key, content with
      | _ :: _, _ :: _ => false
      | _, _ => true
      end
  | CreateFolder key | Delete key =>
      match normalizeKey key with
      | [] => true
      | _ => false
      end
  | Copy sourceKey destinationKey =>
      match normalizeKey sourceKey, normalizeKey destinationKey with
      | _ :: _, _ :: _ => false
      | _, _ => true
      end
  end.

(** [returns R m]: whenever [m] returns a value, the value is in [R]. *)
Definition returns {S A : Type} (R : A → Prop) (m : M S A) : Prop :=
  ∀ s a, (m s).1 = Ok a → R a.

Definition s3_not_configured : str :=
  lit "S3 is not configured. Check AWS_* environment variables.".

Definition missing_mongodb_uri : str :=
  lit "Missing MONGODB_URI in environment variables.".

(** What a run that made only store calls leaves behind: the catalog, the
    log and the database client as they were, and store calls as its only
    events. *)
Definition store_calls_only (w w' : World) : Prop :=
  files w' = files w ∧ logs w' = logs w ∧ dbClient w' = dbClient w
  ∧ ∃ evs, trace w' = trace w ++ evs
           ∧ Forall (fun e => is_store_call (call e) = true) evs.

(** A computation that throws or runs out of fuel from every world. *)
Definition never_ok {A : Type} (m : M World A) : Prop := ∀ w, is_ok (m w).1 = false.

(** The objects outside the configured key prefix are those of [B]. *)
Definition outside_prefix_kept (AWS_S3_PREFIX : str) (B : gmap (list ascii) S3Object)
    (w : World) : Prop :=
  ∀ k, ¬ basePrefix AWS_S3_PREFIX `prefix_of` k → bucket w !! k = B !! k.

(** The key under which [copyS3Prefix] puts the copy of the object listed
    as [itemKey]. *)
Definition copyTarget (AWS_S3_PREFIX sourcePrefix destinationPrefix itemKey : str) : str :=
  buildKey AWS_S3_PREFIX
    (destinationPrefix ++ replaceFirst itemKey (buildKey AWS_S3_PREFIX sourcePrefix) []).

(** The bucket after the listed keys have been copied one after the other. *)
Definition copyAll (AWS_S3_PREFIX sourcePrefix destinationPrefix : str)
    (keys : list str) (b : gmap (list ascii) S3Object) : gmap (list ascii) S3Object :=
  foldl (fun b itemKey =>
           match b !! itemKey with
           | Some object =>
               <[copyTarget AWS_S3_PREFIX sourcePrefix destinationPrefix itemKey := object]> b
           | None => b
           end) b keys.

(** A call that only reads. *)
Definition is_read (c : Call) : bool :=
  negb (is_store_call c) && negb (is_catalog_write c) && negb (is_log_append c).

(** What a run that only read leaves behind: bucket, catalog and log as
    they were, and reads as its only events. *)
Definition read_only (w w' : World) : Prop :=
  bucket w' = bucket w ∧ files w' = files w ∧ logs w' = logs w
  ∧ ∃ evs, trace w' = trace w ++ evs ∧ Forall (fun e => is_read (call e) = true) evs.

(** Two states of the deployment that hold the same stored data: accounts,
    sessions, bucket, catalog and activity log. *)
Definition same_data (s s' : Site) : Prop :=
  users s' = users s ∧ sessions s' = sessions s
  ∧ bucket (vault s') = bucket (vault s)
  ∧ files (vault s') = files (vault s)
  ∧ logs (vault s') = logs (vault s).

(** ** A small deployment with one account *)

Definition demo_md5 : str → str := fun pass => lit "md5:" ++ pass.
Definition demo_ObjectId : str → option str := fun text => Some text.

Definition demoUser : UserDoc :=
  MkUserDoc (lit "u1") (lit "ada@example.org") (lit "md5:secret") None (lit "editor") 1.

Definition demoSession : SessionDoc := MkSessionDoc (lit "u1") (lit "t-1") 100 1.

Definition demoSite : Site := MkSite demoWorld [demoUser] [demoSession] [].

(* ================================================================== *)
(** * Proofs *)

(** ** Strings *)

Lemma len_nonneg (s : str) : 0 <= len s.
Proof. unfold len. lia. Qed.

Lemma len_app (a b : str) : len (a ++ b) = len a + len b.
Proof. unfold len. rewrite length_app. lia. Qed.

Lemma len_cons (x : ascii) (s : str) : len (x :: s) = 1 + len s.
Proof. unfold len. simpl length. lia. Qed.

Lemma len_nil : len [] = 0.
Proof. done. Qed.

Ltac solve_len :=
  rewrite ?len_app, ?len_cons, ?len_nil;
  repeat match goal with
         | |- context [len ?s] =>
             lazymatch goal with
             | _ : 0 <= len s |- _ => fail
             | _ => pose proof (len_nonneg s)
             end
         end;
  lia.

Lemma len_nil_iff (s : str) : len s = 0 ↔ s = [].
Proof. unfold len. destruct s; simpl; split; intros; try done; lia. Qed.

Lemma slice_middle (a b c : str) :
  slice (a ++ b ++ c) (len a) (len a + len b) = b.
Proof.
  unfold slice, slice_index.
  pose proof (len_nonneg a). pose proof (len_nonneg b). pose proof (len_nonneg c).
  rewrite !len_app.
  destruct (Z.ltb_spec (len a) 0); [lia|].
  destruct (Z.ltb_spec (len a + len b) 0); [lia|].
  rewrite !Z.min_l by lia.
  replace (Z.to_nat (len a)) with (length a) by (unfold len; lia).
  replace (Z.to_nat (len a + len b - len a)) with (length b) by (unfold len; lia).
  rewrite drop_app_length. apply take_app_length.
Qed.

Lemma slice_prefix (a b : str) : slice (a ++ b) 0 (len a) = a.
Proof.
  pose proof (slice_middle [] a b) as H. simpl in H.
  replace (len []) with 0 in H by done. exact H.
Qed.

Lemma lastIndexOf_from_app (a b : str) c i f :
  lastIndexOf_from (a ++ b) c i f
  = lastIndexOf_from b c (i + len a) (lastIndexOf_from a c i f).
Proof.
  revert i f. induction a as [|x a IH]; intros i f; simpl.
  - f_equal. unfold len. simpl. lia.
  - rewrite IH. f_equal. unfold len. simpl length. lia.
Qed.

Lemma lastIndexOf_from_absent (b : str) c i f :
  c ∉ b → lastIndexOf_from b c i f = f.
Proof.
  revert i f. induction b as [|x b IH]; intros i f Hc; simpl; [done|].
  apply not_elem_of_cons in Hc as [Hx Hb].
  rewrite IH by done. destruct (Ascii.eqb_spec x c); congruence.
Qed.

Lemma lastIndexOf_absent (b : str) c : c ∉ b → lastIndexOf b c = -1.
Proof. apply lastIndexOf_from_absent. Qed.

Lemma lastIndexOf_last (a b : str) c :
  c ∉ b → lastIndexOf (a ++ c :: b) c = len a.
Proof.
  intros Hc. unfold lastIndexOf. rewrite lastIndexOf_from_app. simpl.
  rewrite Ascii.eqb_refl. rewrite lastIndexOf_from_absent by done. lia.
Qed.

Lemma slash_notin_dotdot : CHAR_FORWARD_SLASH ∉ lit "..".
Proof. apply (bool_decide_unpack _). by vm_compute. Qed.

Lemma charCodeAt_app_r (a b : str) (k : Z) :
  0 <= k → charCodeAt (a ++ b) (len a + k) = charCodeAt b k.
Proof.
  intros Hk. unfold charCodeAt. pose proof (len_nonneg a).
  destruct (Z.ltb_spec (len a + k) 0); [lia|].
  destruct (Z.ltb_spec k 0); [lia|].
  rewrite lookup_app_r by (unfold len; lia).
  f_equal. unfold len. lia.
Qed.

(** ** [normalizeString] is the segment stack machine *)

Import PosixPath.

Lemma dots_of_snoc (seg : str) (c : ascii) :
  dots_of (seg ++ [c])
  = if Ascii.eqb c CHAR_DOT && negb (dots_of seg =? -1) then dots_of seg + 1 else -1.
Proof.
  unfold dots_of. rewrite forallb_app. simpl. rewrite len_app.
  pose proof (len_nonneg seg).
  destruct (forallb _ seg); simpl.
  - destruct (Ascii.eqb c CHAR_DOT); simpl; [|done].
    destruct (Z.eqb_spec (len seg) (-1)); [lia|]. simpl. done.
  - rewrite andb_false_r. done.
Qed.

Lemma dots_of_1 (seg : str) : dots_of seg = 1 ↔ seg = lit ".".
Proof.
  unfold dots_of, len, CHAR_DOT. destruct seg as [|a [|b seg]]; simpl.
  - split; [lia|done].
  - destruct (Ascii.eqb_spec a "."); simpl; split; intros H;
      try lia; try congruence.
  - destruct (Ascii.eqb a "." && (Ascii.eqb b "." && _));
      (split; [lia|done]).
Qed.

Lemma dots_of_2 (seg : str) : dots_of seg = 2 ↔ seg = lit "..".
Proof.
  unfold dots_of, len, CHAR_DOT. destruct seg as [|a [|b [|c seg]]]; simpl.
  - split; [lia|done].
  - destruct (Ascii.eqb a "."); simpl; (split; [lia|done]).
  - destruct (Ascii.eqb_spec a "."), (Ascii.eqb_spec b "."); simpl;
      split; intros H; try lia; try congruence.
  - destruct (Ascii.eqb a "." && (Ascii.eqb b "." && _));
      (split; [lia|done]).
Qed.

Lemma body_char path allow i c st seg :
  Ascii.eqb c CHAR_FORWARD_SLASH = false →
  dots st = dots_of seg →
  normalizeString_body path allow i c st
  = MkNorm (res st) (lastSegmentLength st) (lastSlash st) (dots_of (seg ++ [c])).
Proof.
  intros Hc Hd. unfold normalizeString_body, isPosixPathSeparator.
  rewrite Hc, dots_of_snoc, Hd.
  destruct (Ascii.eqb c CHAR_DOT && negb (dots_of seg =? -1)); done.
Qed.

Lemma join_rev_cons (top : str) (rest : list str) :
  join_rev (top :: rest)
  = (match rest with [] => [] | _ => join_rev rest ++ [CHAR_FORWARD_SLASH] end) ++ top.
Proof. destruct rest; simpl; [done|]. by rewrite <- app_assoc. Qed.

Lemma join_rev_nonempty (stk : list str) :
  Forall good_seg stk → stk ≠ [] → join_rev stk ≠ [].
Proof.
  intros Hg Hne. destruct stk as [|top rest]; [done|].
  apply Forall_cons in Hg as [[Htop _] _].
  rewrite join_rev_cons. intros Heq. apply app_eq_nil in Heq as [_ ?]. done.
Qed.

Lemma len_join_rev_pos (stk : list str) :
  Forall good_seg stk → stk ≠ [] → 0 < len (join_rev stk).
Proof.
  intros Hg Hne. pose proof (join_rev_nonempty stk Hg Hne) as H.
  pose proof (len_nonneg (join_rev stk)). pose proof (len_nil_iff (join_rev stk)).
  destruct (Z.eq_dec (len (join_rev stk)) 0); [tauto|lia].
Qed.

Lemma lsl_join_rev (stk : list str) :
  Forall good_seg stk →
  len (join_rev stk) - 1 - lastIndexOf (join_rev stk) CHAR_FORWARD_SLASH = top_len stk.
Proof.
  intros Hg. destruct stk as [|top rest]; [done|].
  apply Forall_cons in Hg as [[_ Htop] _]. simpl top_len.
  destruct rest as [|t2 rest].
  - simpl. rewrite lastIndexOf_absent by done. lia.
  - change (join_rev (top :: t2 :: rest))
      with (join_rev (t2 :: rest) ++ CHAR_FORWARD_SLASH :: top).
    rewrite lastIndexOf_last by done. rewrite len_app.
    unfold len at 2. simpl length. unfold len. lia.
Qed.

Lemma code_is_last2 (pre : str) (x y c : ascii) :
  code_is (pre ++ [x; y]) (len (pre ++ [x; y]) - 1) c = Ascii.eqb y c
  ∧ code_is (pre ++ [x; y]) (len (pre ++ [x; y]) - 2) c = Ascii.eqb x c.
Proof.
  rewrite len_app. unfold code_is.
  replace (len pre + len [x; y] - 1) with (len pre + 1) by (unfold len; simpl; lia).
  replace (len pre + len [x; y] - 2) with (len pre + 0) by (unfold len; simpl; lia).
  rewrite !charCodeAt_app_r by lia. done.
Qed.

(** The test guarding the pop in the [dots === 2] case holds exactly when
    the top of the stack is not itself a [..]. *)
Lemma top_dotdot_test (top : str) (rest : list str) :
  good_seg top →
  let r := join_rev (top :: rest) in
  (len r <? 2) || negb (len top =? 2)
  || negb (code_is r (len r - 1) CHAR_DOT)
  || negb (code_is r (len r - 2) CHAR_DOT)
  = negb (bool_decide (top = lit "..")).
Proof.
  intros [Hne _] r. subst r. rewrite join_rev_cons.
  set (pre := match rest with [] => [] | _ => _ end).
  destruct top as [|x [|y [|z t]]]; [done| | |].
  - rewrite bool_decide_eq_false_2 by done.
    replace (len [x] =? 2) with false by done. simpl negb.
    by rewrite orb_true_r.
  - destruct (code_is_last2 pre x y CHAR_DOT) as [-> ->].
    replace (len [x; y] =? 2) with true by done.
    assert ((len (pre ++ [x; y]) <? 2) = false) as ->.
    { apply Z.ltb_ge. rewrite len_app. pose proof (len_nonneg pre).
      unfold len at 2. simpl. lia. }
    simpl. unfold CHAR_DOT.
    destruct (Ascii.eqb_spec y "."), (Ascii.eqb_spec x "."); subst; simpl;
      try (rewrite bool_decide_eq_false_2 by (intros [=]; done); done).
    done.
  - rewrite bool_decide_eq_false_2 by done.
    assert ((len (x :: y :: z :: t) =? 2) = false) as ->.
    { apply Z.eqb_neq. unfold len. simpl. lia. }
    simpl negb. by rewrite orb_true_r.
Qed.

Lemma body_slash path allow i st stk pre seg rest :
  path = pre ++ seg ++ rest →
  lastSlash st = len pre - 1 →
  i = len pre + len seg →
  CHAR_FORWARD_SLASH ∉ seg →
  dots st = dots_of seg →
  rep stk st →
  let st' := normalizeString_body path allow i CHAR_FORWARD_SLASH st in
  rep (seg_step allow stk seg) st' ∧ lastSlash st' = i ∧ dots st' = 0.
Proof.
  intros -> Hls -> Hseg Hd [Hres Hlsl Hgood].
  unfold normalizeString_body, isPosixPathSeparator. rewrite Ascii.eqb_refl.
  unfold seg_step.
  destruct (decide (seg = [] ∨ seg = lit ".")) as [He|Hne].
  { assert ((lastSlash st =? len pre + len seg - 1) || (dots st =? 1) = true) as ->.
    { destruct He as [-> | ->].
      - rewrite Hls. replace (len []) with 0 by done.
        rewrite Z.add_0_r, Z.eqb_refl. done.
      - rewrite Hd. replace (dots_of (lit ".")) with 1 by done.
        by rewrite orb_true_r. }
    simpl. split; [split; done|done]. }
  assert ((lastSlash st =? len pre + len seg - 1) || (dots st =? 1) = false) as ->.
  { apply orb_false_iff; split; apply Z.eqb_neq.
    - rewrite Hls. intros H. apply Hne. left. apply len_nil_iff. lia.
    - rewrite Hd, dots_of_1. tauto. }
  destruct (decide (seg = lit "..")) as [->|Hnd].
  - rewrite Hd. replace (dots_of (lit "..")) with 2 by done.
    replace (2 =? 2) with true by done.
    destruct stk as [|top rest'].
    + rewrite Hres. simpl join_rev. replace (len []) with 0 by done. simpl.
      unfold aboveRoot. rewrite Hres. simpl join_rev.
      replace (len []) with 0 by done. simpl.
      destruct allow; simpl; (split; [split; simpl; try done|done]).
      apply Forall_cons. split; [|done]. split; [done|].
      apply slash_notin_dotdot.
    + apply Forall_cons in Hgood as Hg2. destruct Hg2 as [Htop Hrest].
      rewrite Hres, Hlsl. simpl top_len.
      rewrite (top_dotdot_test top rest' Htop).
      destruct (decide (top = lit "..")) as [->|Hnt].
      * rewrite bool_decide_eq_true_2 by done. simpl negb. cbv iota.
        unfold aboveRoot. rewrite Hres, Hlsl.
        destruct allow; simpl; (split; [split; simpl; try done|done]).
        -- pose proof (len_join_rev_pos (lit ".." :: rest') Hgood ltac:(done)) as Hp.
           apply Z.ltb_lt in Hp. simpl in Hp. rewrite Hp.
           done.
        -- apply Forall_cons. split; done.
      * rewrite bool_decide_eq_false_2 by done. simpl negb. cbv iota.
        destruct rest' as [|t2 rest'].
        -- simpl join_rev. rewrite lastIndexOf_absent by apply Htop.
           simpl.
           assert ((len top =? 0) = false) as ->.
           { apply Z.eqb_neq. intros H. apply len_nil_iff in H. by destruct Htop. }
           simpl. destruct (2 <? len top); (split; [split; simpl; done|done]).
        -- change (join_rev (top :: t2 :: rest'))
             with (join_rev (t2 :: rest') ++ CHAR_FORWARD_SLASH :: top).
           pose proof (len_join_rev_pos (t2 :: rest') Hrest ltac:(done)) as Hp.
           assert (0 < len top) as Hp2.
           { pose proof (len_nonneg top). pose proof (len_nil_iff top).
             destruct Htop. destruct (Z.eq_dec (len top) 0); [tauto|lia]. }
           assert ((2 <? len (join_rev (t2 :: rest') ++ CHAR_FORWARD_SLASH :: top)) = true) as ->.
           { apply Z.ltb_lt. rewrite len_app. unfold len at 2. simpl length.
             fold (len top). unfold len in *. lia. }
           rewrite lastIndexOf_last by apply Htop.
           assert ((len (join_rev (t2 :: rest')) =? -1) = false) as ->.
           { apply Z.eqb_neq. lia. }
           rewrite slice_prefix. rewrite lsl_join_rev by done.
           split; [split; simpl; done|done].
  - assert ((dots st =? 2) = false) as ->.
    { apply Z.eqb_neq. rewrite Hd, dots_of_2. done. }
    rewrite Hls. replace (len pre - 1 + 1) with (len pre) by lia.
    rewrite slice_middle.
    split; [split|done]; simpl.
    + rewrite Hres. destruct stk as [|top rest'].
      * done.
      * pose proof (len_join_rev_pos (top :: rest') Hgood ltac:(done)) as Hp.
        apply Z.ltb_lt in Hp. rewrite Hp. done.
    + lia.
    + apply Forall_cons. split; [|done]. split; [|done]. tauto.
Qed.

Lemma seg_step_skip allow stk : seg_step allow stk [] = stk.
Proof. unfold seg_step. by rewrite decide_True by (by left). Qed.

Lemma loop_spec path allow todo :
  ∀ pre seg i code st stk,
    path = pre ++ seg ++ todo →
    lastSlash st = len pre - 1 →
    i = len pre + len seg →
    CHAR_FORWARD_SLASH ∉ seg →
    dots st = dots_of seg →
    rep stk st →
    (isPosixPathSeparator code = true → seg = []) →
    normalizeString_loop path allow todo i code st
    = join_rev (foldl (seg_step allow) stk (split_acc seg todo)).
Proof.
  induction todo as [|c todo IH]; intros pre seg i code st stk Hp Hls Hi Hseg Hd Hrep Hcode.
  - simpl. destruct (isPosixPathSeparator code) eqn:E.
    + rewrite (Hcode eq_refl), seg_step_skip. apply Hrep.
    + destruct (body_slash path allow i st stk pre seg [] Hp Hls Hi Hseg Hd Hrep)
        as [Hrep' _]. apply Hrep'.
  - simpl. destruct (Ascii.eqb_spec c CHAR_FORWARD_SLASH) as [->|Hc].
    + destruct (body_slash path allow i st stk pre seg _ Hp Hls Hi Hseg Hd Hrep)
        as (Hrep' & Hls' & Hd').
      apply (IH (pre ++ seg ++ [CHAR_FORWARD_SLASH]) []); try done.
      * rewrite Hp. by rewrite <- !app_assoc.
      * rewrite Hls', Hi. solve_len.
      * rewrite Hi. solve_len.
      * apply not_elem_of_nil.
    + apply Ascii.eqb_neq in Hc as Hc'.
      rewrite (body_char path allow i c st seg Hc' Hd).
      apply (IH pre (seg ++ [c])); try done.
      * rewrite Hp. by rewrite <- !app_assoc.
      * rewrite Hi. solve_len.
      * intros Hin. apply elem_of_app in Hin as [?|Hin]; [done|].
        apply list_elem_of_singleton in Hin. done.
      * destruct Hrep. by split.
      * unfold isPosixPathSeparator. congruence.
Qed.

Lemma segments_nonempty (s : str) : segments s ≠ [].
Proof.
  destruct s as [|c s]; simpl; [done|].
  destruct (Ascii.eqb c CHAR_FORWARD_SLASH); [done|]. by destruct (segments s).
Qed.

Lemma split_acc_segments (cur s : str) :
  split_acc cur s
  = match segments s with
    | seg :: segs => (cur ++ seg) :: segs
    | [] => [cur]
    end.
Proof.
  revert cur. induction s as [|c s IH]; intros cur; simpl.
  - by rewrite app_nil_r.
  - pose proof (segments_nonempty s) as Hne.
    destruct (Ascii.eqb c CHAR_FORWARD_SLASH).
    + rewrite app_nil_r. f_equal. rewrite IH. by destruct (segments s).
    + rewrite IH. destruct (segments s); [done|]. by rewrite <- app_assoc.
Qed.

(** [normalizeString] is a left fold of [seg_step] over the segments. *)
Lemma normalizeString_spec (path : str) (allow : bool) :
  normalizeString path allow
  = join_rev (foldl (seg_step allow) [] (segments path)).
Proof.
  unfold normalizeString.
  rewrite (loop_spec path allow path [] [] 0 Ascii.zero (MkNorm [] 0 (-1) 0) []);
    try done.
  - rewrite split_acc_segments. pose proof (segments_nonempty path).
    by destruct (segments path).
  - apply not_elem_of_nil.
Qed.

(** ** The shape of normalised paths *)

Lemma normal_good (s : str) : normal_seg s → good_seg s.
Proof. intros (? & _ & _ & ?). by split. Qed.

Lemma dotdot_good : good_seg (lit "..").
Proof. split; [done|]. apply slash_notin_dotdot. Qed.

Lemma shape_good allow stk : shape allow stk → Forall good_seg stk.
Proof.
  intros (k & normals & -> & Hn & _). apply Forall_app. split.
  - eapply Forall_impl; [exact Hn|]. apply normal_good.
  - apply Forall_replicate. apply dotdot_good.
Qed.

Lemma seg_step_shape allow stk seg :
  shape allow stk → CHAR_FORWARD_SLASH ∉ seg → shape allow (seg_step allow stk seg).
Proof.
  intros (k & normals & -> & Hn & Hk) Hseg. unfold seg_step.
  destruct (decide (seg = [] ∨ seg = lit ".")) as [|Hne].
  { by exists k, normals. }
  destruct (decide (seg = lit "..")) as [->|Hnd].
  - destruct normals as [|n ns]; simpl.
    + destruct k as [|k]; simpl.
      * destruct allow.
        -- exists 1%nat, []. by repeat split.
        -- exists 0%nat, []. by repeat split.
      * destruct allow.
        -- exists (S (S k)), []. by repeat split.
        -- exists (S k), []. by repeat split.
    + apply Forall_cons in Hn as [Hn Hns].
      rewrite decide_False by apply Hn. by exists k, ns.
  - exists k, (seg :: normals). repeat split; try done.
    apply Forall_cons. split; [|done]. repeat split; try done; tauto.
Qed.

Lemma segments_app_slash (a b : str) :
  segments (a ++ CHAR_FORWARD_SLASH :: b) = segments a ++ segments b.
Proof.
  induction a as [|c a IH]; simpl.
  - done.
  - rewrite IH. pose proof (segments_nonempty a).
    destruct (Ascii.eqb c CHAR_FORWARD_SLASH); [done|].
    by destruct (segments a).
Qed.

Lemma segments_no_slash (s : str) : CHAR_FORWARD_SLASH ∉ s → segments s = [s].
Proof.
  induction s as [|c s IH]; intros Hs; [done|]. simpl.
  apply not_elem_of_cons in Hs as [Hc Hs].
  destruct (Ascii.eqb_spec c CHAR_FORWARD_SLASH); [congruence|].
  by rewrite IH.
Qed.

Lemma segments_slash_free (s : str) :
  Forall (fun seg => CHAR_FORWARD_SLASH ∉ seg) (segments s).
Proof.
  induction s as [|c s IH]; simpl.
  - apply Forall_singleton. apply not_elem_of_nil.
  - destruct (Ascii.eqb_spec c CHAR_FORWARD_SLASH).
    + apply Forall_cons. split; [apply not_elem_of_nil|done].
    + destruct (segments s) as [|seg segs].
      * apply Forall_singleton. apply not_elem_of_cons. split; [done|].
        apply not_elem_of_nil.
      * apply Forall_cons in IH as [? ?]. apply Forall_cons. split; [|done].
        by apply not_elem_of_cons.
Qed.

Lemma fold_shape allow segs :
  ∀ stk, shape allow stk →
         Forall (fun seg => CHAR_FORWARD_SLASH ∉ seg) segs →
         shape allow (foldl (seg_step allow) stk segs).
Proof.
  induction segs as [|seg segs IH]; intros stk Hs Hf; simpl; [done|].
  apply Forall_cons in Hf as [? ?]. apply IH; [|done]. by apply seg_step_shape.
Qed.

Lemma normalizeString_shape (path : str) (allow : bool) :
  ∃ stk, normalizeString path allow = join_rev stk ∧ shape allow stk.
Proof.
  exists (foldl (seg_step allow) [] (segments path)). split.
  - apply normalizeString_spec.
  - apply fold_shape; [|apply segments_slash_free].
    exists 0%nat, []. by repeat split.
Qed.

Lemma join_rev_snoc (l : list str) (b : str) :
  join_rev (l ++ [b])
  = b ++ match l with [] => [] | _ => CHAR_FORWARD_SLASH :: join_rev l end.
Proof.
  induction l as [|top rest IH]; simpl.
  - by rewrite app_nil_r.
  - destruct rest as [|t2 rest]; simpl in *.
    + done.
    + rewrite IH. by rewrite <- app_assoc.
Qed.

Lemma segments_join_rev (stk : list str) :
  Forall good_seg stk → stk ≠ [] → segments (join_rev stk) = reverse stk.
Proof.
  induction stk as [|top rest IH]; intros Hg Hne; [done|].
  apply Forall_cons in Hg as [[_ Htop] Hrest].
  destruct rest as [|t2 rest].
  - simpl. by apply segments_no_slash.
  - change (join_rev (top :: t2 :: rest))
      with (join_rev (t2 :: rest) ++ CHAR_FORWARD_SLASH :: top).
    rewrite segments_app_slash, IH by done.
    rewrite segments_no_slash by done. by rewrite (reverse_cons _ top).
Qed.

Lemma segments_trailing_slash (s : str) :
  segments (s ++ [CHAR_FORWARD_SLASH]) = segments s ++ [[]].
Proof. by rewrite segments_app_slash. Qed.

Lemma head_join_rev (stk : list str) :
  Forall good_seg stk → head (join_rev stk) ≠ Some CHAR_FORWARD_SLASH.
Proof.
  induction stk as [|top rest IH]; intros Hg; [done|].
  apply Forall_cons in Hg as [[Hne Htop] Hrest].
  destruct rest as [|t2 rest].
  - simpl. destruct top as [|c top]; [done|]. simpl. intros [= ->].
    apply Htop. by left.
  - change (join_rev (top :: t2 :: rest))
      with (join_rev (t2 :: rest) ++ CHAR_FORWARD_SLASH :: top).
    pose proof (join_rev_nonempty (t2 :: rest) Hrest ltac:(done)).
    specialize (IH Hrest).
    destruct (join_rev (t2 :: rest)); done.
Qed.

Lemma stripLeadingSlashes_id (s : str) :
  head s ≠ Some CHAR_FORWARD_SLASH → stripLeadingSlashes s = s.
Proof.
  destruct s as [|c s]; [done|]. simpl. intros Hc.
  destruct (Ascii.eqb_spec c CHAR_FORWARD_SLASH); congruence.
Qed.

Lemma stripLeadingDotDot_id (s : str) :
  head (segments s) ≠ Some (lit "..") → stripLeadingDotDot s = s.
Proof.
  destruct s as [|a [|b [|c s]]]; try done; simpl.
  - unfold CHAR_DOT, CHAR_FORWARD_SLASH.
    destruct (Ascii.eqb_spec a "."), (Ascii.eqb_spec b "."); subst; simpl; done.
  - unfold CHAR_DOT, CHAR_FORWARD_SLASH.
    destruct (Ascii.eqb_spec a "."), (Ascii.eqb_spec b "."); subst; simpl; try done.
    destruct (Ascii.eqb_spec c "/"); subst; simpl; done.
Qed.

Lemma head_segments_join_rev (normals : list str) (trail : str) :
  Forall normal_seg normals → normals ≠ [] →
  trail = [] ∨ trail = [CHAR_FORWARD_SLASH] →
  head (segments (join_rev normals ++ trail)) ≠ Some (lit "..").
Proof.
  intros Hn Hne Ht.
  assert (Forall good_seg normals) as Hg.
  { eapply Forall_impl; [exact Hn|]. apply normal_good. }
  assert (head (reverse normals) ≠ Some (lit "..")) as Hh.
  { rewrite head_reverse. intros Hl. apply last_Some_elem_of in Hl.
    rewrite Forall_forall in Hn. apply Hn in Hl. by destruct Hl as (_ & _ & ? & _). }
  destruct Ht as [-> | ->].
  - by rewrite app_nil_r, segments_join_rev.
  - rewrite segments_trailing_slash, segments_join_rev by done.
    rewrite head_app. by destruct (head (reverse normals)).
Qed.

Lemma strip_dd_join (normals : list str) (trail : str) (k : nat) :
  Forall normal_seg normals →
  trail = [] ∨ trail = [CHAR_FORWARD_SLASH] →
  normals ++ replicate k (lit "..") ≠ [] →
  stripLeadingDotDot (join_rev (normals ++ replicate k (lit "..")) ++ trail)
  = match normals with
    | [] => []
    | _ => join_rev normals ++ trail
    end.
Proof.
  intros Hn Ht. induction k as [|k IH]; intros Hne.
  - simpl in *. rewrite app_nil_r in *.
    rewrite stripLeadingDotDot_id by by apply head_segments_join_rev.
    by destruct normals.
  - rewrite replicate_S_end, app_assoc, join_rev_snoc.
    destruct (normals ++ replicate k (lit "..")) as [|x l] eqn:El.
    + apply app_eq_nil in El as [-> _].
      destruct Ht as [-> | ->]; done.
    + change ((lit ".." ++ CHAR_FORWARD_SLASH :: join_rev (x :: l)) ++ trail)
        with (CHAR_DOT :: CHAR_DOT :: CHAR_FORWARD_SLASH :: (join_rev (x :: l) ++ trail)).
      cbn [stripLeadingDotDot]. rewrite !Ascii.eqb_refl. cbn [andb].
      by apply IH.
Qed.

Lemma normalize_cases (c0 : ascii) (rest : str) :
  let isAbsolute := Ascii.eqb c0 CHAR_FORWARD_SLASH in
  ∃ (stk : list str) (trail : str),
    shape (negb isAbsolute) stk
    ∧ (trail = [] ∨ trail = [CHAR_FORWARD_SLASH])
    ∧ normalizeString (c0 :: rest) (negb isAbsolute) = join_rev stk
    ∧ (trail = [CHAR_FORWARD_SLASH]
       ↔ code_is (c0 :: rest) (len (c0 :: rest) - 1) CHAR_FORWARD_SLASH = true)
    ∧ normalize (c0 :: rest)
      = match stk with
        | [] => if isAbsolute then lit "/" else CHAR_DOT :: trail
        | _ => (if isAbsolute then [CHAR_FORWARD_SLASH] else [])
               ++ join_rev stk ++ trail
        end.
Proof.
  intros isAbsolute.
  destruct (normalizeString_shape (c0 :: rest) (negb isAbsolute)) as (stk & Heq & Hs).
  set (tr := code_is (c0 :: rest) (len (c0 :: rest) - 1) CHAR_FORWARD_SLASH).
  exists stk, (if tr then [CHAR_FORWARD_SLASH] else []).
  split; [done|]. split; [destruct tr; tauto|]. split; [done|].
  split; [destruct tr; split; done|].
  unfold normalize. fold isAbsolute. fold tr. rewrite Heq.
  destruct stk as [|top stk'].
  - simpl. destruct isAbsolute, tr; done.
  - pose proof (join_rev_nonempty (top :: stk') (shape_good _ _ Hs) ltac:(done)) as Hne.
    destruct (join_rev (top :: stk')) as [|j js] eqn:Ej; [done|].
    destruct isAbsolute, tr; simpl; by rewrite ?app_nil_r.
Qed.

Lemma stripLeadingSlashes_join (stk : list str) (trail : str) :
  Forall good_seg stk → stk ≠ [] →
  stripLeadingSlashes (join_rev stk ++ trail) = join_rev stk ++ trail.
Proof.
  intros Hg Hne. apply stripLeadingSlashes_id.
  pose proof (head_join_rev stk Hg). pose proof (join_rev_nonempty stk Hg Hne).
  rewrite head_app. by destruct (join_rev stk).
Qed.

(** Every key [normalizeKey] returns is canonical. *)
Lemma normalizeKey_canonical (key : str) : canonical (normalizeKey key).
Proof.
  unfold normalizeKey. destruct (replaceBackslashes key) as [|c0 rest]; [by left|].
  destruct (normalize_cases c0 rest) as (stk & trail & Hs & Ht & _ & _ & ->).
  pose proof (shape_good _ _ Hs) as Hg.
  destruct stk as [|top stk'].
  - destruct (Ascii.eqb c0 CHAR_FORWARD_SLASH); [by left|].
    destruct Ht as [-> | ->]; [right; by left|right; right; by left].
  - destruct (Ascii.eqb c0 CHAR_FORWARD_SLASH) eqn:Eabs.
    + destruct Hs as (k & normals & Hstk & Hn & Hk). rewrite (Hk eq_refl) in Hstk.
      simpl in Hstk. rewrite app_nil_r in Hstk. subst normals.
      assert (∀ s, stripLeadingDotDot (CHAR_FORWARD_SLASH :: s) = CHAR_FORWARD_SLASH :: s)
        as Hdd by (by intros [|??]).
      cbn [app]. rewrite Hdd. cbn [stripLeadingSlashes]. rewrite Ascii.eqb_refl.
      rewrite stripLeadingSlashes_join by done.
      right; right; right. exists (top :: stk'). split; [done|]. split; [done|].
      destruct Ht as [-> | ->]; [left; by rewrite app_nil_r|by right].
    + destruct Hs as (k & normals & Hstk & Hn & Hk). rewrite Hstk.
      cbn [app]. rewrite strip_dd_join; [|done|done|by rewrite <- Hstk].
      destruct normals as [|n ns]; [by left|].
      rewrite stripLeadingSlashes_join;
        [|eapply Forall_impl; [exact Hn|apply normal_good]|done].
      right; right; right. exists (n :: ns). split; [done|]. split; [done|].
      destruct Ht as [-> | ->]; [left; by rewrite app_nil_r|by right].
Qed.

(** ** Canonical keys are safe *)

Lemma canonical_head (key : str) :
  canonical key → head key ≠ Some CHAR_FORWARD_SLASH.
Proof.
  intros [-> | [-> | [-> | (normals & Hne & Hn & Hk)]]]; try done.
  assert (Forall good_seg normals) as Hg.
  { eapply Forall_impl; [exact Hn|]. apply normal_good. }
  pose proof (head_join_rev normals Hg). pose proof (join_rev_nonempty normals Hg Hne).
  destruct Hk as [-> | ->]; [done|].
  rewrite head_app. by destruct (join_rev normals).
Qed.

Lemma canonical_segments (key : str) :
  canonical key → lit ".." ∉ segments key.
Proof.
  intros [-> | [-> | [-> | (normals & Hne & Hn & Hk)]]].
  - apply (bool_decide_unpack _). by vm_compute.
  - apply (bool_decide_unpack _). by vm_compute.
  - apply (bool_decide_unpack _). by vm_compute.
  - assert (Forall good_seg normals) as Hg.
    { eapply Forall_impl; [exact Hn|]. apply normal_good. }
    assert (lit ".." ∉ reverse normals) as Hr.
    { rewrite elem_of_reverse. intros Hin. rewrite Forall_forall in Hn.
      apply Hn in Hin. by destruct Hin as (_ & _ & ? & _). }
    destruct Hk as [-> | ->].
    + by rewrite segments_join_rev.
    + rewrite segments_trailing_slash, segments_join_rev by done.
      rewrite elem_of_app, list_elem_of_singleton. intros [?|?]; done.
Qed.

Lemma resolve_depth_no_dotdot (segs : list str) :
  ∀ depth, lit ".." ∉ segs → is_Some (resolve_depth depth segs).
Proof.
  induction segs as [|seg segs IH]; intros depth Hn; cbn [resolve_depth]; [by eexists|].
  apply not_elem_of_cons in Hn as [Hne Hn].
  destruct (decide (seg = [] ∨ seg = lit ".")); [by apply IH|].
  rewrite decide_False by done. by apply IH.
Qed.

(** ** Characters of a normalised key *)

Section Chars.
Variable P : ascii → Prop.
Hypothesis P_dot : P CHAR_DOT.
Hypothesis P_slash : P CHAR_FORWARD_SLASH.

Lemma segments_chars (s : str) : Forall P s → Forall (Forall P) (segments s).
Proof.
  induction s as [|c s IH]; intros Hs; simpl.
  - by apply Forall_singleton.
  - apply Forall_cons in Hs as [Hc Hs]. specialize (IH Hs).
    destruct (Ascii.eqb c CHAR_FORWARD_SLASH).
    + by apply Forall_cons.
    + destruct (segments s) as [|seg segs].
      * apply Forall_singleton. by apply Forall_singleton.
      * apply Forall_cons in IH as [? ?]. apply Forall_cons. split; [|done].
        by apply Forall_cons.
Qed.

Lemma seg_step_chars allow stk seg :
  Forall (Forall P) stk → Forall P seg → Forall (Forall P) (seg_step allow stk seg).
Proof.
  intros Hstk Hseg. unfold seg_step.
  assert (Forall P (lit "..")) as Hdd by (repeat constructor; done).
  destruct (decide _); [done|]. destruct (decide _).
  - destruct stk as [|top rest].
    + destruct allow; [by apply Forall_singleton|done].
    + apply Forall_cons in Hstk as [? ?].
      destruct (decide _); [destruct allow|]; try done;
        repeat (apply Forall_cons; split; try done).
  - by apply Forall_cons.
Qed.

Lemma join_rev_chars stk : Forall (Forall P) stk → Forall P (join_rev stk).
Proof.
  induction stk as [|top rest IH]; intros Hs; [done|].
  apply Forall_cons in Hs as [Htop Hrest]. rewrite join_rev_cons.
  apply Forall_app. split; [|done]. destruct rest; [done|].
  apply Forall_app. split; [by apply IH|by apply Forall_singleton].
Qed.

Lemma normalizeString_chars path allow :
  Forall P path → Forall P (normalizeString path allow).
Proof.
  intros Hp. rewrite normalizeString_spec. apply join_rev_chars.
  pose proof (segments_chars path Hp) as Hs.
  assert (Forall (Forall P) ([] : list str)) as Hnil by done.
  revert Hnil. generalize ([] : list str) as stk.
  induction Hs as [|seg segs Hseg Hsegs IH]; intros stk Hstk; simpl; [done|].
  apply IH. by apply seg_step_chars.
Qed.

Lemma normalize_chars path : Forall P path → Forall P (normalize path).
Proof.
  intros Hp. unfold normalize. destruct path as [|c0 rest].
  { by apply Forall_singleton. }
  pose proof (normalizeString_chars (c0 :: rest) (negb (Ascii.eqb c0 CHAR_FORWARD_SLASH)) Hp) as Hn.
  destruct (normalizeString _ _) as [|j js].
  - repeat case_match; repeat constructor; done.
  - apply Forall_cons in Hn as [Hj Hjs].
    repeat case_match;
      repeat first [apply Forall_cons; split | apply Forall_app; split
                   | apply Forall_nil]; done.
Qed.

Lemma stripLeadingDotDot_suffix (n : nat) :
  ∀ s : str, (length s ≤ n)%nat → stripLeadingDotDot s `suffix_of` s.
Proof.
  induction n as [|n IH]; intros s Hl.
  { destruct s; [done|simpl in Hl; lia]. }
  destruct s as [|a [|b [|c r]]]; try done; simpl.
  - destruct (_ && _); [apply suffix_nil|done].
  - destruct (_ && _); [|done].
    destruct (Ascii.eqb c CHAR_FORWARD_SLASH); [|done].
    do 3 apply suffix_cons_r. apply IH. simpl in Hl. lia.
Qed.

Lemma stripLeadingSlashes_suffix (s : str) : stripLeadingSlashes s `suffix_of` s.
Proof.
  induction s as [|c s IH]; simpl; [done|].
  destruct (Ascii.eqb c CHAR_FORWARD_SLASH); [by apply suffix_cons_r|done].
Qed.

Lemma suffix_chars (s t : str) : s `suffix_of` t → Forall P t → Forall P s.
Proof. intros [p ->] Ht. by apply Forall_app in Ht as [_ ?]. Qed.

Lemma normalizeKey_chars key :
  Forall P (replaceBackslashes key) → Forall P (normalizeKey key).
Proof.
  intros Hk. unfold normalizeKey. destruct (replaceBackslashes key) as [|c0 rest] eqn:E.
  { done. }
  eapply suffix_chars; [apply stripLeadingSlashes_suffix|].
  eapply suffix_chars; [by eapply stripLeadingDotDot_suffix|].
  by apply normalize_chars.
Qed.
End Chars.

Lemma replaceBackslashes_clean (key : str) :
  Forall (fun c => c ≠ CHAR_BACKWARD_SLASH) (replaceBackslashes key).
Proof.
  unfold replaceBackslashes. apply Forall_fmap, Forall_forall. intros c _. simpl.
  destruct (Ascii.eqb_spec c CHAR_BACKWARD_SLASH); done.
Qed.

Lemma replaceBackslashes_id (key : str) :
  CHAR_BACKWARD_SLASH ∉ key → replaceBackslashes key = key.
Proof.
  unfold replaceBackslashes. induction key as [|c key IH]; intros Hk; [done|].
  apply not_elem_of_cons in Hk as [Hc Hk]. rewrite fmap_cons, IH by done.
  destruct (Ascii.eqb_spec c CHAR_BACKWARD_SLASH); congruence.
Qed.

Lemma normalizeKey_no_backslash (key : str) :
  CHAR_BACKWARD_SLASH ∉ normalizeKey key.
Proof.
  pose proof (normalizeKey_chars (fun c => c ≠ CHAR_BACKWARD_SLASH)
                ltac:(done) ltac:(done) key (replaceBackslashes_clean key)) as H.
  rewrite Forall_forall in H. intros Hin. by apply H in Hin.
Qed.

(** ** Canonical keys are fixed points *)

Lemma seg_step_normal allow stk seg :
  normal_seg seg → seg_step allow stk seg = seg :: stk.
Proof.
  intros (Hne & Hd & Hdd & _). unfold seg_step.
  rewrite decide_False by tauto. by rewrite decide_False.
Qed.

Lemma foldl_seg_step_normals allow (segs : list str) :
  ∀ stk, Forall normal_seg segs →
         foldl (seg_step allow) stk segs = reverse segs ++ stk.
Proof.
  induction segs as [|seg segs IH]; intros stk Hn; [done|].
  apply Forall_cons in Hn as [Hseg Hn]. cbn [foldl].
  rewrite seg_step_normal, IH, reverse_cons by done. by rewrite <- app_assoc.
Qed.

Lemma code_is_last (s : str) (c : ascii) :
  code_is s (len s - 1) c
  = match last s with Some x => Ascii.eqb x c | None => false end.
Proof.
  unfold code_is, charCodeAt. destruct s as [|x s]; [done|].
  rewrite len_cons. pose proof (len_nonneg s).
  destruct (Z.ltb_spec (1 + len s - 1) 0); [lia|].
  rewrite last_lookup. simpl length. simpl pred.
  replace (Z.to_nat (1 + len s - 1)) with (length s) by (unfold len; lia). done.
Qed.

Lemma last_join_rev (top : str) (rest : list str) :
  good_seg top → last (join_rev (top :: rest)) = last top.
Proof.
  intros [Hne _]. rewrite join_rev_cons, last_app.
  apply last_is_Some in Hne as [x ->]. done.
Qed.

Lemma normalize_canonical (normals : list str) (trail : str) :
  normals ≠ [] → Forall normal_seg normals →
  trail = [] ∨ trail = [CHAR_FORWARD_SLASH] →
  normalize (join_rev normals ++ trail) = join_rev normals ++ trail.
Proof.
  intros Hne Hn Ht.
  assert (Forall good_seg normals) as Hg.
  { eapply Forall_impl; [exact Hn|]. apply normal_good. }
  pose proof (head_join_rev normals Hg) as Hh.
  pose proof (join_rev_nonempty normals Hg Hne) as Hj.
  assert (normalizeString (join_rev normals ++ trail) true = join_rev normals) as Hns.
  { rewrite normalizeString_spec. destruct Ht as [-> | ->].
    - rewrite app_nil_r, segments_join_rev by done.
      rewrite foldl_seg_step_normals by by apply Forall_reverse.
      by rewrite reverse_involutive, app_nil_r.
    - rewrite segments_trailing_slash, segments_join_rev by done.
      rewrite foldl_app. cbn [foldl]. rewrite seg_step_skip.
      rewrite foldl_seg_step_normals by by apply Forall_reverse.
      by rewrite reverse_involutive, app_nil_r. }
  unfold normalize.
  destruct (join_rev normals ++ trail) as [|c0 rest] eqn:Ek.
  { apply app_eq_nil in Ek as [? _]. done. }
  assert (Ascii.eqb c0 CHAR_FORWARD_SLASH = false) as Habs.
  { apply Ascii.eqb_neq. intros ->. apply Hh.
    destruct (join_rev normals); [done|]. simpl in Ek. by injection Ek as -> _. }
  rewrite Habs. cbn [negb]. rewrite Hns, <- Ek.
  destruct (join_rev normals) as [|j js] eqn:Ej; [done|].
  rewrite code_is_last. rewrite <- Ej.
  destruct normals as [|top rest']; [done|].
  apply Forall_cons in Hg as [Htop _].
  destruct Ht as [-> | ->].
  - rewrite app_nil_r, last_join_rev by done.
    destruct Htop as [Hne' Hns'].
    destruct (last top) as [x|] eqn:El; [|done].
    apply last_Some_elem_of in El.
    destruct (Ascii.eqb_spec x CHAR_FORWARD_SLASH); [by subst|done].
  - rewrite last_snoc, Ascii.eqb_refl. done.
Qed.

Lemma canonical_fixed (key : str) :
  canonical key → CHAR_BACKWARD_SLASH ∉ key → normalizeKey key = key.
Proof.
  intros Hc Hb. unfold normalizeKey. rewrite replaceBackslashes_id by done.
  destruct Hc as [-> | [-> | [-> | (normals & Hne & Hn & Hk)]]]; try done.
  assert (Forall good_seg normals) as Hg.
  { eapply Forall_impl; [exact Hn|]. apply normal_good. }
  assert (∃ trail, (trail = [] ∨ trail = [CHAR_FORWARD_SLASH])
                   ∧ key = join_rev normals ++ trail) as (trail & Ht & ->).
  { destruct Hk as [-> | ->]; [exists []|exists [CHAR_FORWARD_SLASH]];
      (split; [tauto|by rewrite ?app_nil_r]). }
  pose proof (join_rev_nonempty normals Hg Hne) as Hj.
  destruct (join_rev normals ++ trail) as [|c0 rest] eqn:Ek.
  { apply app_eq_nil in Ek as [? _]. done. }
  rewrite <- Ek. rewrite normalize_canonical by done.
  rewrite stripLeadingDotDot_id by by apply head_segments_join_rev.
  by apply stripLeadingSlashes_join.
Qed.

(** ** Key normalisation: the claims *)

Example normalizeKey_traversal :
  normalizeKey (lit "../../etc/passwd") = lit "etc/passwd".
Proof. reflexivity. Qed.

Example normalizeKey_backslashes :
  normalizeKey (lit "reports\..\..\secret\") = lit "secret/".
Proof. reflexivity. Qed.

Example normalizeKey_absolute :
  normalizeKey (lit "//reports/./2024//q1.pdf") = lit "reports/2024/q1.pdf".
Proof. reflexivity. Qed.

(** C1. For every raw path, the key returned by [normalizeKey] never begins
    with [/], has no [..] segment and no backslash; resolved against the root
    it never climbs above the root. *)
Theorem normalizeKey_safe (key : str) :
  (head (normalizeKey key) ≠ Some CHAR_FORWARD_SLASH)
  ∧ (lit ".." ∉ segments (normalizeKey key))
  ∧ (CHAR_BACKWARD_SLASH ∉ normalizeKey key)
  ∧ escapes_root (normalizeKey key) = false.
Proof.
  pose proof (normalizeKey_canonical key) as Hc.
  split; [by apply canonical_head|].
  split; [by apply canonical_segments|].
  split; [apply normalizeKey_no_backslash|].
  unfold escapes_root. apply bool_decide_eq_false_2.
  apply not_eq_None_Some, resolve_depth_no_dotdot. by apply canonical_segments.
Qed.

(** C8. [normalizeKey] is idempotent. *)
Theorem normalizeKey_idempotent (x : str) :
  normalizeKey (normalizeKey x) = normalizeKey x.
Proof.
  apply canonical_fixed.
  - apply normalizeKey_canonical.
  - apply normalizeKey_no_backslash.
Qed.

(** ** Traces of the handlers *)

Lemma bind_run {S A B : Type} (m : M S A) (k : A → M S B) (s : S) :
  bind m k s
  = match m s with
    | (Ok a, s') => k a s'
    | (Throw e, s') => (Throw e, s')
    | (OutOfFuel, s') => (OutOfFuel, s')
    end.
Proof. done. Qed.

Section Phases.
Variable faults : nat → bool.

Lemma extern_run {A : Type} (c : Call) (sem : World → (A + str) * World) (w : World) :
  trace (sem w).2 = trace w →
  ∃ ok, trace (extern faults c sem w).2 = trace w ++ [MkEvent c ok]
        ∧ is_ok (extern faults c sem w).1 = ok
        ∧ (extern faults c sem w).1 ≠ OutOfFuel
        ∧ (ok = false → faults (length (trace w)) = true
                       ∨ (extern faults c sem w).2 = record_event c false (sem w).2)
        ∧ (faults (length (trace w)) = true →
           (extern faults c sem w).2 = record_event c false w)
        ∧ (faults (length (trace w)) = false →
           (extern faults c sem w).2 = record_event c ok (sem w).2).
Proof.
  intros Ht. unfold extern. destruct (faults (length (trace w))).
  - exists false. repeat split; try done. by left.
  - destruct (sem w) as [[a|e] w'] eqn:E; simpl in *.
    + exists true. rewrite Ht. repeat split; done.
    + exists false. rewrite Ht. repeat split; try done. by right.
Qed.

Lemma extern_store_only {A : Type} (c : Call) (sem : World → (A + str) * World) :
  is_catalog_write c = false → is_log_append c = false →
  (∀ w, trace (sem w).2 = trace w ∧ files (sem w).2 = files w) →
  store_only (extern faults c sem).
Proof.
  intros Hc Hl Hsem w. destruct (Hsem w) as [Ht Hf].
  destruct (extern_run c sem w Ht) as (ok & Htr & Hok & _ & _ & Hfault & Hrun).
  exists [MkEvent c ok]. split; [done|]. split.
  { apply Forall_singleton. by split. }
  split.
  - destruct (faults (length (trace w))); [by rewrite Hfault|by rewrite Hrun].
  - intros Hex. apply Exists_cons in Hex as [Hex|Hex]; [|by apply Exists_nil in Hex].
    unfold failed in Hex. simpl in Hex. congruence.
Qed.

Lemma extern_catalog_only {A : Type} (c : Call) (sem : World → (A + str) * World) :
  is_store_call c = false →
  (∀ w, trace (sem w).2 = trace w) →
  catalog_only (extern faults c sem).
Proof.
  intros Hc Hsem w.
  destruct (extern_run c sem w (Hsem w)) as (ok & Htr & Hok & Hfuel & _).
  exists [MkEvent c ok]. split; [done|]. split.
  { by apply Forall_singleton. }
  split; [done|]. split; [|done].
  intros Hex. apply Exists_cons in Hex as [Hex|Hex]; [|by apply Exists_nil in Hex].
  unfold failed in Hex. simpl in Hex. congruence.
Qed.
End Phases.

Lemma store_only_ret {A : Type} (a : A) : store_only (ret a).
Proof.
  intros w. exists []. rewrite app_nil_r. repeat split; try done.
  intros H. by apply Exists_nil in H.
Qed.

Lemma store_only_throw {A : Type} (e : str) : store_only (throw (A := A) e).
Proof.
  intros w. exists []. rewrite app_nil_r. repeat split; try done.
Qed.

Lemma store_only_out_of_fuel {A : Type} : store_only (out_of_fuel (A := A)).
Proof.
  intros w. exists []. rewrite app_nil_r. repeat split; try done.
Qed.

Lemma catalog_only_ret {A : Type} (a : A) : catalog_only (ret a).
Proof.
  intros w. exists []. rewrite app_nil_r. repeat split; try done.
  intros H. by apply Exists_nil in H.
Qed.

Lemma catalog_only_throw {A : Type} (e : str) : catalog_only (throw (A := A) e).
Proof.
  intros w. exists []. rewrite app_nil_r. repeat split; try done.
Qed.

Lemma store_only_bind {A B : Type} (m : M World A) (k : A → M World B) :
  store_only m → (∀ a, store_only (k a)) → store_only (bind m k).
Proof.
  intros Hm Hk w. destruct (Hm w) as (evs1 & Ht1 & Hq1 & Hf1 & Hx1).
  unfold bind. destruct (m w) as [[a| |] w1] eqn:E; simpl in *.
  - destruct (Hk a w1) as (evs2 & Ht2 & Hq2 & Hf2 & Hx2).
    exists (evs1 ++ evs2). rewrite Ht2, Ht1, app_assoc. split; [done|].
    split; [by apply Forall_app|]. split; [congruence|].
    intros Hex. apply Exists_app in Hex as [Hex|Hex]; [by apply Hx1 in Hex|by apply Hx2].
  - exists evs1. by repeat split.
  - exists evs1. by repeat split.
Qed.

Lemma catalog_only_bind {A B : Type} (m : M World A) (k : A → M World B) :
  catalog_only m → (∀ a, catalog_only (k a)) → catalog_only (bind m k).
Proof.
  intros Hm Hk w. destruct (Hm w) as (evs1 & Ht1 & Hq1 & Hf1 & Hx1 & Hfuel1).
  unfold bind. destruct (m w) as [[a| |] w1] eqn:E; simpl in *.
  - destruct (Hk a w1) as (evs2 & Ht2 & Hq2 & Hf2 & Hx2 & Hfuel2).
    exists (evs1 ++ evs2). rewrite Ht2, Ht1, app_assoc. split; [done|].
    split; [by apply Forall_app|]. split.
    { intros Hnil. apply app_eq_nil in Hnil as [-> ->]. rewrite Hf2, Hf1; done. }
    split; [|done].
    intros Hex. apply Exists_app in Hex as [Hex|Hex]; [by apply Hx1 in Hex|by apply Hx2].
  - exists evs1. by repeat split.
  - done.
Qed.

Lemma store_only_two_phase {A : Type} (m : M World A) : store_only m → two_phase m.
Proof.
  intros Hm w. destruct (Hm w) as (evs & Ht & Hq & Hf & Hx).
  exists evs, []. rewrite !app_nil_r. repeat split; try done.
Qed.

Lemma catalog_only_two_phase {A : Type} (m : M World A) : catalog_only m → two_phase m.
Proof.
  intros Hm w. destruct (Hm w) as (evs & Ht & Hq & Hf & Hx & Hfuel).
  exists [], evs. repeat split; try done.
  intros H. by apply Exists_nil in H.
Qed.

Lemma two_phase_bind_store {A B : Type} (m : M World A) (k : A → M World B) :
  store_only m → (∀ a, two_phase (k a)) → two_phase (bind m k).
Proof.
  intros Hm Hk w. destruct (Hm w) as (evs1 & Ht1 & Hq1 & Hf1 & Hx1).
  unfold bind. destruct (m w) as [[a| |] w1] eqn:E; simpl in *.
  - destruct (Hk a w1) as (evs_s & evs_c & Ht2 & Hqs & Hqc & Hf2 & Hx2 & Hs2 & Hfuel2).
    exists (evs1 ++ evs_s), evs_c. rewrite Ht2, Ht1, <- !app_assoc.
    split; [done|]. split; [by apply Forall_app|]. split; [done|].
    split; [intros Hnil; rewrite Hf2, Hf1; done|].
    split.
    { intros Hex. apply Exists_app in Hex as [Hex|Hex]; [by apply Hx1 in Hex|by apply Hx2]. }
    split; [|done].
    intros Hex. apply Exists_app in Hex as [Hex|Hex]; [by apply Hx1 in Hex|by apply Hs2].
  - exists evs1, []. rewrite app_nil_r. by repeat split.
  - exists evs1, []. rewrite app_nil_r. by repeat split.
Qed.

Lemma two_phase_bind_catalog {A B : Type} (m : M World A) (k : A → M World B) :
  two_phase m → (∀ a, catalog_only (k a)) → two_phase (bind m k).
Proof.
  intros Hm Hk w.
  destruct (Hm w) as (evs_s & evs_c & Ht1 & Hqs & Hqc & Hf1 & Hx1 & Hs1 & Hfuel1).
  unfold bind. destruct (m w) as [[a| |] w1] eqn:E; simpl in *.
  - destruct (Hk a w1) as (evs2 & Ht2 & Hq2 & Hf2 & Hx2 & Hfuel2).
    exists evs_s, (evs_c ++ evs2). rewrite Ht2, Ht1, <- !app_assoc.
    split; [done|]. split; [done|]. split; [by apply Forall_app|].
    split.
    { intros Hnil. apply app_eq_nil in Hnil as [-> ->]. rewrite Hf2, Hf1; done. }
    split.
    { intros Hex. rewrite app_assoc in Hex.
      apply Exists_app in Hex as [Hex|Hex]; [by apply Hx1 in Hex|by apply Hx2]. }
    split; [|done].
    intros Hex. assert (is_ok (Ok a) = false); [|done].
    apply Hx1. apply Exists_app. by left.
  - exists evs_s, evs_c. by repeat split.
  - exists evs_s, evs_c. repeat split; auto.
Qed.

Lemma two_phase_if {A : Type} (c : bool) (m1 m2 : M World A) :
  two_phase m1 → two_phase m2 → two_phase (if c then m1 else m2).
Proof. by destruct c. Qed.

Lemma store_only_if {A : Type} (c : bool) (m1 m2 : M World A) :
  store_only m1 → store_only m2 → store_only (if c then m1 else m2).
Proof. by destruct c. Qed.

Create HintDb phases.
#[local] Hint Resolve store_only_ret store_only_throw store_only_out_of_fuel
  store_only_bind store_only_if catalog_only_ret catalog_only_throw
  catalog_only_bind : phases.

Section ClientPhases.
Variable AWS_S3_PREFIX : str.
Variable aws_configured : bool.
Variable MONGODB_URI : str.
Variable pageSize : nat.
Variable faults : nat → bool.
Variable ObjectId : str → option str.
Variable BSONError : str.

Local Abbreviation api := (bucketApi pageSize faults).

Lemma ensure_store_only : store_only (ensureS3Configured (S := World) aws_configured).
Proof. unfold ensureS3Configured. destruct aws_configured; auto with phases. Qed.

Lemma put_store_only key body ct : store_only (PutObject api key body ct).
Proof. by apply extern_store_only. Qed.

Lemma delete_store_only key : store_only (DeleteObject api key).
Proof. by apply extern_store_only. Qed.

Lemma list_store_only prefix token : store_only (ListObjectsV2 api prefix token).
Proof. by apply extern_store_only. Qed.

Lemma deleteObjects_store_only keys : store_only (DeleteObjects api keys).
Proof. by apply extern_store_only. Qed.

Lemma copy_store_only src dst : store_only (CopyObject api src dst).
Proof.
  apply extern_store_only; try done. intros w. by destruct (bucket w !! src).
Qed.

Hint Resolve ensure_store_only put_store_only delete_store_only list_store_only
  deleteObjects_store_only copy_store_only : phases.

Lemma uploadS3Object_store_only key buffer ct :
  store_only (uploadS3Object api AWS_S3_PREFIX aws_configured key buffer ct).
Proof. unfold uploadS3Object. auto with phases. Qed.

Lemma deleteS3Object_store_only key :
  store_only (deleteS3Object api AWS_S3_PREFIX aws_configured key).
Proof. unfold deleteS3Object. auto with phases. Qed.

Lemma createS3Folder_store_only key :
  store_only (createS3Folder api AWS_S3_PREFIX aws_configured key).
Proof. unfold createS3Folder. auto with phases. Qed.

Lemma copyS3Object_store_only src dst :
  store_only (copyS3Object api AWS_S3_PREFIX aws_configured src dst).
Proof. unfold copyS3Object. auto with phases. Qed.

Hint Resolve copyS3Object_store_only : phases.

Lemma deleteS3Prefix_loop_store_only fuel prefix :
  ∀ token, store_only (deleteS3Prefix_loop api AWS_S3_PREFIX fuel prefix token).
Proof.
  induction fuel as [|fuel IH]; intros token; cbn [deleteS3Prefix_loop];
    [auto with phases|].
  apply store_only_bind; [auto with phases|]. intros listResult.
  apply store_only_bind; [auto with phases|]. intros _.
  auto with phases.
Qed.

Lemma deleteS3Prefix_store_only fuel prefix :
  store_only (deleteS3Prefix api AWS_S3_PREFIX aws_configured fuel prefix).
Proof.
  unfold deleteS3Prefix. apply store_only_bind; [auto with phases|]. intros _.
  apply deleteS3Prefix_loop_store_only.
Qed.

Lemma copyS3Prefix_items_store_only src dst contents :
  store_only (copyS3Prefix_items api AWS_S3_PREFIX aws_configured src dst contents).
Proof.
  induction contents as [|k contents IH]; cbn [copyS3Prefix_items];
    auto with phases.
Qed.

Lemma copyS3Prefix_loop_store_only fuel src dst :
  ∀ token,
    store_only (copyS3Prefix_loop api AWS_S3_PREFIX aws_configured fuel src dst token).
Proof.
  induction fuel as [|fuel IH]; intros token; cbn [copyS3Prefix_loop];
    [auto with phases|].
  apply store_only_bind; [auto with phases|]. intros listResult.
  apply store_only_bind; [apply copyS3Prefix_items_store_only|]. intros _.
  auto with phases.
Qed.

Lemma copyS3Prefix_store_only fuel src dst :
  store_only (copyS3Prefix api AWS_S3_PREFIX aws_configured fuel src dst).
Proof.
  unfold copyS3Prefix. apply store_only_bind; [auto with phases|]. intros _.
  apply copyS3Prefix_loop_store_only.
Qed.

Lemma getCollections_store_only : store_only (getCollections MONGODB_URI faults).
Proof.
  unfold getCollections. destruct MONGODB_URI; [auto with phases|].
  intros w. destruct (dbClient w) eqn:E.
  - destruct (store_only_ret tt w) as (evs & H). exists evs. exact H.
  - destruct (extern_store_only faults CallConnect
                (fun w' : World => (inl tt : unit + str, w'))
                eq_refl eq_refl ltac:(done) (set_client w)) as (evs & H).
    exists evs. exact H.
Qed.

Lemma getCollections_catalog_only : catalog_only (getCollections MONGODB_URI faults).
Proof.
  unfold getCollections. destruct MONGODB_URI; [auto with phases|].
  intros w. destruct (dbClient w) eqn:E.
  - destruct (catalog_only_ret tt w) as (evs & H). exists evs. exact H.
  - destruct (extern_catalog_only faults CallConnect
                (fun w' : World => (inl tt : unit + str, w'))
                eq_refl ltac:(done) (set_client w)) as (evs & H).
    exists evs. exact H.
Qed.

Lemma updateOne_catalog_only path doc : catalog_only (updateOne faults path doc).
Proof. by apply extern_catalog_only. Qed.

Lemma deleteOne_catalog_only path : catalog_only (deleteOne faults path).
Proof. by apply extern_catalog_only. Qed.

Lemma findOne_catalog_only path : catalog_only (findOne faults path).
Proof. by apply extern_catalog_only. Qed.

Lemma findByPrefix_catalog_only sorted prefix :
  catalog_only (findByPrefix faults sorted prefix).
Proof.
  unfold findByPrefix. destruct (anchored _); [|auto with phases].
  by apply extern_catalog_only.
Qed.

Lemma deleteManyByPrefix_catalog_only prefix :
  catalog_only (deleteManyByPrefix faults prefix).
Proof.
  unfold deleteManyByPrefix. destruct (anchored _); [|auto with phases].
  by apply extern_catalog_only.
Qed.

Lemma new_ObjectId_store_only text : store_only (new_ObjectId ObjectId BSONError text).
Proof. unfold new_ObjectId. destruct (ObjectId text); auto with phases. Qed.

Lemma new_ObjectId_catalog_only text :
  catalog_only (new_ObjectId ObjectId BSONError text).
Proof. unfold new_ObjectId. destruct (ObjectId text); auto with phases. Qed.

Lemma logFileAction_catalog_only now action path name user details :
  catalog_only
    (logFileAction MONGODB_URI faults ObjectId BSONError now action path name user details).
Proof.
  unfold logFileAction. apply catalog_only_bind; [apply getCollections_catalog_only|].
  intros _. apply catalog_only_bind.
  - destruct user; [auto with phases|].
    apply catalog_only_bind; [apply new_ObjectId_catalog_only|auto with phases].
  - intros logUser. by apply extern_catalog_only.
Qed.

Lemma mapM_total {A B : Type} (callback : A → M World B) (f : A → B) (array : list A) :
  (∀ x w, callback x w = (Ok (f x), w)) →
  ∀ w, mapM callback array w = (Ok (f <$> array), w).
Proof.
  intros Hcb. induction array as [|x array IH]; intros w; [done|].
  cbn [mapM]. unfold bind at 1. rewrite Hcb. unfold bind. by rewrite IH.
Qed.

(** What [sourceFiles.map] of the prefix copy returns: no update when the id
    is refused, one update per record otherwise. *)
Lemma mapM_copy_updates user now sourcePrefix destPrefix (sourceFiles : list FileDoc) w :
  mapM (fun file =>
          let* objectId := new_ObjectId ObjectId BSONError user in
          let doc := copiedDoc objectId now sourcePrefix destPrefix file in
          ret (updateOne faults (filePath doc) doc)) sourceFiles w
  = match sourceFiles, ObjectId user with
    | [], _ => (Ok [], w)
    | _, Some objectId =>
        (Ok ((fun file =>
                let doc := copiedDoc objectId now sourcePrefix destPrefix file in
                updateOne faults (filePath doc) doc) <$> sourceFiles), w)
    | _, None => (Throw BSONError, w)
    end.
Proof.
  unfold new_ObjectId. destruct (ObjectId user) as [objectId|].
  - transitivity
      (Ok ((fun file =>
              let doc := copiedDoc objectId now sourcePrefix destPrefix file in
              updateOne faults (filePath doc) doc) <$> sourceFiles), w);
      [|by destruct sourceFiles].
    by apply mapM_total.
  - by destruct sourceFiles.
Qed.

Lemma promise_all_catalog_only (updates : list (M World unit)) :
  Forall catalog_only updates →
  ∀ failure w, ∃ evs,
    trace (promise_all updates failure w).2 = trace w ++ evs
    ∧ Forall after_store evs
    ∧ (evs = [] → files (promise_all updates failure w).2 = files w)
    ∧ (Exists failed evs ∨ is_Some failure →
       is_ok (promise_all updates failure w).1 = false)
    ∧ (promise_all updates failure w).1 ≠ OutOfFuel.
Proof.
  induction updates as [|u updates IH]; intros Hall failure w; simpl.
  - exists []. rewrite app_nil_r. destruct failure; repeat split; try done.
    + intros [H|[? [=]]]. by apply Exists_nil in H.
  - apply Forall_cons in Hall as [Hu Hall].
    destruct (Hu w) as (evs1 & Ht1 & Hq1 & Hf1 & Hx1 & Hfuel1).
    destruct (u w) as [[a| |] w1] eqn:E; simpl in *; [| |done].
    + destruct (IH Hall failure w1) as (evs2 & Ht2 & Hq2 & Hf2 & Hx2 & Hfuel2).
      exists (evs1 ++ evs2). rewrite Ht2, Ht1, app_assoc. split; [done|].
      split; [by apply Forall_app|]. split.
      { intros Hnil. apply app_eq_nil in Hnil as [-> ->]. rewrite Hf2, Hf1; done. }
      split; [|done]. intros [Hex|Hs]; [|by auto].
      apply Exists_app in Hex as [Hex|Hex]; [by apply Hx1 in Hex|by auto].
    + set (failure' := match failure with Some e0 => Some e0 | None => Some message end).
      destruct (IH Hall failure' w1) as (evs2 & Ht2 & Hq2 & Hf2 & Hx2 & Hfuel2).
      exists (evs1 ++ evs2). rewrite Ht2, Ht1, app_assoc. split; [done|].
      split; [by apply Forall_app|]. split.
      { intros Hnil. apply app_eq_nil in Hnil as [-> ->]. rewrite Hf2, Hf1; done. }
      split; [|done]. intros _. apply Hx2. right.
      subst failure'. destruct failure; by eexists.
Qed.
End ClientPhases.

Lemma try_catch_handler_trace (body : M World Response) :
  two_phase body →
  handler_trace (try_catch body (fun e => ret (RespError 500 e))).
Proof.
  intros Hb w.
  destruct (Hb w) as (evs_s & evs_c & Ht & Hqs & Hqc & Hf & Hx & Hs & Hfuel).
  exists evs_s, evs_c. unfold try_catch.
  destruct (body w) as [[r|e|] w1] eqn:E; simpl in *.
  - repeat split; try done. intros Hex. by apply Hx in Hex.
  - repeat split; try done. intros _. right. by eexists.
  - repeat split; try done. intros _. by left.
Qed.

(** *** A store call ahead of every catalog write *)

Lemma store_only_leaves {A : Type} (m : M World A) : store_only m → leaves_events m.
Proof. intros Hm w. destruct (Hm w) as (evs & Ht & _). by exists evs. Qed.

Lemma catalog_only_leaves {A : Type} (m : M World A) : catalog_only m → leaves_events m.
Proof. intros Hm w. destruct (Hm w) as (evs & Ht & _). by exists evs. Qed.

Lemma leaves_events_bind {A B : Type} (m : M World A) (k : A → M World B) :
  leaves_events m → (∀ a, leaves_events (k a)) → leaves_events (bind m k).
Proof.
  intros Hm Hk w. destruct (Hm w) as (evs1 & Ht1). rewrite bind_run.
  destruct (m w) as [[a| |] w1]; simpl in *; [|by exists evs1..].
  destruct (Hk a w1) as (evs2 & Ht2). exists (evs1 ++ evs2).
  by rewrite Ht2, Ht1, app_assoc.
Qed.

Lemma calls_store_bind_l {A B : Type} (m : M World A) (k : A → M World B) :
  calls_store m → (∀ a, leaves_events (k a)) → calls_store (bind m k).
Proof.
  intros Hm Hk w. destruct (Hm w) as (evs1 & Ht1 & Hs1). rewrite bind_run.
  destruct (m w) as [[a| |] w1]; simpl in *; [|by exists evs1..].
  destruct (Hk a w1) as (evs2 & Ht2). exists (evs1 ++ evs2).
  rewrite Ht2, Ht1, app_assoc. split; [done|]. intros _.
  apply Exists_app. left. by apply Hs1.
Qed.

Lemma calls_store_bind_r {A B : Type} (m : M World A) (k : A → M World B) :
  leaves_events m → (∀ a, calls_store (k a)) → calls_store (bind m k).
Proof.
  intros Hm Hk w. destruct (Hm w) as (evs1 & Ht1). rewrite bind_run.
  destruct (m w) as [[a| |] w1]; simpl in *; [|by exists evs1..].
  destruct (Hk a w1) as (evs2 & Ht2 & Hs2). exists (evs1 ++ evs2).
  rewrite Ht2, Ht1, app_assoc. split; [done|]. intros Hok.
  apply Exists_app. right. by apply Hs2.
Qed.

Lemma calls_store_out_of_fuel {A : Type} : calls_store (out_of_fuel (A := A)).
Proof. intros w. exists []. by rewrite app_nil_r. Qed.

Lemma extern_calls_store {A : Type} (faults : nat → bool) (c : Call)
    (sem : World → (A + str) * World) :
  is_store_call c = true → (∀ w, trace (sem w).2 = trace w) →
  calls_store (extern faults c sem).
Proof.
  intros Hc Hsem w.
  destruct (extern_run faults c sem w (Hsem w)) as (ok & Htr & Hok & _).
  exists [MkEvent c ok]. split; [done|]. intros Hr.
  apply Exists_cons. left. split; [done|]. simpl. congruence.
Qed.

Lemma store_call_first_quiet (evs : list Event) :
  Forall before_catalog evs → store_call_first evs.
Proof.
  intros Hq i ei Hi Hw. rewrite Forall_forall in Hq.
  apply list_elem_of_lookup_2, Hq in Hi as [Hi _]. congruence.
Qed.

Lemma store_call_first_after (evs1 evs2 : list Event) :
  Forall before_catalog evs1 → store_call_first evs2 → store_call_first (evs1 ++ evs2).
Proof.
  intros Hq H2 i ei Hi Hw.
  destruct (decide (i < length evs1)%nat) as [Hlt|Hge].
  { rewrite lookup_app_l in Hi by done.
    by destruct (store_call_first_quiet evs1 Hq i ei Hi Hw) as (j & ej & Hj & Hej & Hgood);
      exists j, ej; rewrite lookup_app_l by lia. }
  rewrite lookup_app_r in Hi by lia.
  destruct (H2 _ _ Hi Hw) as (j & ej & Hj & Hej & Hgood).
  exists (length evs1 + j)%nat, ej. split; [lia|]. split; [|done].
  rewrite lookup_app_r by lia. by replace (length evs1 + j - length evs1)%nat with j by lia.
Qed.

Lemma store_call_first_made (evs1 evs2 : list Event) :
  store_call_first evs1 → Exists store_call_succeeded evs1 →
  store_call_first (evs1 ++ evs2).
Proof.
  intros H1 Hex i ei Hi Hw.
  destruct (decide (i < length evs1)%nat) as [Hlt|Hge].
  { rewrite lookup_app_l in Hi by done.
    destruct (H1 _ _ Hi Hw) as (j & ej & Hj & Hej & Hgood).
    exists j, ej. split; [done|]. split; [|done]. rewrite lookup_app_l by lia. done. }
  apply Exists_exists in Hex as (ej & Hin & Hgood).
  apply list_elem_of_lookup_1 in Hin as [j Hj].
  pose proof (lookup_lt_Some _ _ _ Hj) as Hlt.
  exists j, ej. split; [lia|]. split; [|done]. by rewrite lookup_app_l.
Qed.

Lemma store_opens_made {A B : Type} (m : M World A) (k : A → M World B) :
  store_only m → calls_store m → (∀ a, leaves_events (k a)) → store_opens (bind m k).
Proof.
  intros Hq Hm Hk w. destruct (Hq w) as (evs1 & Ht1 & Hq1 & _).
  destruct (Hm w) as (evs1' & Ht1' & Hs1).
  assert (evs1' = evs1) as -> by (rewrite Ht1 in Ht1'; by apply app_inv_head in Ht1').
  rewrite bind_run.
  destruct (m w) as [[a| |] w1]; simpl in *;
    [|by exists evs1; split; [|split; [apply store_call_first_quiet|]]..].
  destruct (Hk a w1) as (evs2 & Ht2). exists (evs1 ++ evs2).
  rewrite Ht2, Ht1, app_assoc. split; [done|]. split.
  - apply store_call_first_made; [by apply store_call_first_quiet|by apply Hs1].
  - intros _. apply Exists_app. left. by apply Hs1.
Qed.

Lemma store_opens_quiet {A B : Type} (m : M World A) (k : A → M World B) :
  store_only m → (∀ a, store_opens (k a)) → store_opens (bind m k).
Proof.
  intros Hq Hk w. destruct (Hq w) as (evs1 & Ht1 & Hq1 & _). rewrite bind_run.
  destruct (m w) as [[a| |] w1]; simpl in *;
    [|by exists evs1; split; [|split; [apply store_call_first_quiet|]]..].
  destruct (Hk a w1) as (evs2 & Ht2 & Hf2 & Hs2). exists (evs1 ++ evs2).
  rewrite Ht2, Ht1, app_assoc. split; [done|]. split.
  - by apply store_call_first_after.
  - intros Hok. apply Exists_app. right. by apply Hs2.
Qed.

Lemma store_opens_tail {A B : Type} (m : M World A) (k : A → M World B) :
  store_opens m → (∀ a, leaves_events (k a)) → store_opens (bind m k).
Proof.
  intros Hm Hk w. destruct (Hm w) as (evs1 & Ht1 & Hf1 & Hs1). rewrite bind_run.
  destruct (m w) as [[a| |] w1]; simpl in *; [|by exists evs1..].
  destruct (Hk a w1) as (evs2 & Ht2). exists (evs1 ++ evs2).
  rewrite Ht2, Ht1, app_assoc. split; [done|]. split.
  - apply store_call_first_made; [done|by apply Hs1].
  - intros _. apply Exists_app. left. by apply Hs1.
Qed.

Lemma store_opens_if {A : Type} (c : bool) (m1 m2 : M World A) :
  store_opens m1 → store_opens m2 → store_opens (if c then m1 else m2).
Proof. by destruct c. Qed.

Lemma store_opens_handler (body : M World Response) (w : World) :
  store_opens body →
  store_call_first
    (new_events w (try_catch body (fun e => ret (RespError 500 e)) w).2).
Proof.
  intros Hb. destruct (Hb w) as (evs & Ht & Hf & _). unfold try_catch.
  destruct (body w) as [[r|e|] w1]; simpl in *;
    unfold new_events; rewrite Ht, drop_app_length; done.
Qed.

Lemma refusal_store_call_first (r : Response) (w : World) :
  store_call_first
    (new_events w (try_catch (ret r) (fun e => ret (RespError 500 e)) w).2).
Proof.
  unfold try_catch, ret, new_events. simpl. rewrite drop_all. by intros i ei.
Qed.

Section ClientCalls.
Variable AWS_S3_PREFIX : str.
Variable aws_configured : bool.
Variable pageSize : nat.
Variable faults : nat → bool.

Local Abbreviation api := (bucketApi pageSize faults).

Lemma ensure_leaves : leaves_events (ensureS3Configured (S := World) aws_configured).
Proof. apply store_only_leaves, ensure_store_only. Qed.

Lemma list_calls_store prefix token : calls_store (ListObjectsV2 api prefix token).
Proof. by apply extern_calls_store. Qed.

Lemma uploadS3Object_calls_store key buffer ct :
  calls_store (uploadS3Object api AWS_S3_PREFIX aws_configured key buffer ct).
Proof.
  unfold uploadS3Object. apply calls_store_bind_r; [apply ensure_leaves|].
  intros _. by apply extern_calls_store.
Qed.

Lemma deleteS3Object_calls_store key :
  calls_store (deleteS3Object api AWS_S3_PREFIX aws_configured key).
Proof.
  unfold deleteS3Object. apply calls_store_bind_r; [apply ensure_leaves|].
  intros _. by apply extern_calls_store.
Qed.

Lemma createS3Folder_calls_store key :
  calls_store (createS3Folder api AWS_S3_PREFIX aws_configured key).
Proof.
  unfold createS3Folder. apply calls_store_bind_r; [apply ensure_leaves|].
  intros _. by apply extern_calls_store.
Qed.

Lemma copyS3Object_calls_store src dst :
  calls_store (copyS3Object api AWS_S3_PREFIX aws_configured src dst).
Proof.
  unfold copyS3Object. apply calls_store_bind_r; [apply ensure_leaves|].
  intros _. apply extern_calls_store; [done|]. intros w. by destruct (bucket w !! _).
Qed.

Lemma deleteS3Prefix_calls_store fuel prefix :
  calls_store (deleteS3Prefix api AWS_S3_PREFIX aws_configured fuel prefix).
Proof.
  unfold deleteS3Prefix. apply calls_store_bind_r; [apply ensure_leaves|]. intros _.
  destruct fuel as [|fuel]; cbn [deleteS3Prefix_loop]; [apply calls_store_out_of_fuel|].
  apply calls_store_bind_l; [apply list_calls_store|]. intros listResult.
  apply store_only_leaves, store_only_bind.
  - destruct (0 <? _); [apply deleteObjects_store_only|apply store_only_ret].
  - intros _. destruct (truthy _);
      [apply deleteS3Prefix_loop_store_only|apply store_only_ret].
Qed.

Lemma copyS3Prefix_calls_store fuel src dst :
  calls_store (copyS3Prefix api AWS_S3_PREFIX aws_configured fuel src dst).
Proof.
  unfold copyS3Prefix. apply calls_store_bind_r; [apply ensure_leaves|]. intros _.
  destruct fuel as [|fuel]; cbn [copyS3Prefix_loop]; [apply calls_store_out_of_fuel|].
  apply calls_store_bind_l; [apply list_calls_store|]. intros listResult.
  apply store_only_leaves, store_only_bind.
  - apply copyS3Prefix_items_store_only.
  - intros _. destruct (truthy _);
      [apply copyS3Prefix_loop_store_only|apply store_only_ret].
Qed.
End ClientCalls.

Section HandlerPhases.
Variable AWS_S3_PREFIX : str.
Variable aws_configured : bool.
Variable MONGODB_URI : str.
Variable pageSize : nat.
Variable faults : nat → bool.
Variable Buffer_from_base64 : str → str.
Variable ObjectId : str → option str.
Variable BSONError : str.

Hint Resolve uploadS3Object_store_only deleteS3Object_store_only
  createS3Folder_store_only copyS3Object_store_only deleteS3Prefix_store_only
  copyS3Prefix_store_only getCollections_store_only getCollections_catalog_only
  updateOne_catalog_only deleteOne_catalog_only findOne_catalog_only
  findByPrefix_catalog_only deleteManyByPrefix_catalog_only
  logFileAction_catalog_only new_ObjectId_store_only new_ObjectId_catalog_only : phases.

Lemma uploadHandler_trace user now key content contentType :
  handler_trace
    (uploadHandler AWS_S3_PREFIX aws_configured MONGODB_URI pageSize faults
       Buffer_from_base64 ObjectId BSONError user now key content contentType).
Proof.
  apply try_catch_handler_trace. cbv zeta.
  destruct (normalizeKey key) as [|k0 safeKey];
    [by apply store_only_two_phase, store_only_ret|].
  destruct content as [|c0 content];
    [by apply store_only_two_phase, store_only_ret|].
  apply two_phase_bind_store; [auto with phases|]. intros _.
  apply two_phase_bind_store; [auto with phases|]. intros _.
  apply catalog_only_two_phase. auto with phases.
Qed.

Lemma createFolderHandler_trace user now key :
  handler_trace
    (createFolderHandler AWS_S3_PREFIX aws_configured MONGODB_URI pageSize faults ObjectId BSONError
       user now key).
Proof.
  apply try_catch_handler_trace. cbv zeta.
  destruct (normalizeKey key) as [|k0 safeKey];
    [by apply store_only_two_phase, store_only_ret|].
  apply two_phase_bind_store; [auto with phases|]. intros _.
  apply two_phase_bind_store; [auto with phases|]. intros _.
  apply catalog_only_two_phase. auto with phases.
Qed.

Lemma promise_all_updates_catalog_only (updates : list (M World unit)) :
  Forall catalog_only updates → catalog_only (promise_all updates None).
Proof.
  intros Hall w.
  destruct (promise_all_catalog_only updates Hall None w)
    as (evs & Ht & Hq & Hf & Hx & Hfuel).
  exists evs. repeat split; try done. intros Hex. apply Hx. by left.
Qed.

Lemma copy_updates_catalog_only user now sourcePrefix destPrefix sourceFiles :
  catalog_only
    (let* updates :=
       mapM (fun file =>
               let* objectId := new_ObjectId ObjectId BSONError user in
               let doc := copiedDoc objectId now sourcePrefix destPrefix file in
               ret (updateOne faults (filePath doc) doc)) sourceFiles in
     promise_all updates None).
Proof.
  intros w. rewrite bind_run, mapM_copy_updates.
  destruct sourceFiles as [|file sourceFiles].
  { apply (catalog_only_ret tt w). }
  destruct (ObjectId user) as [objectId|]; [|apply (catalog_only_throw BSONError w)].
  apply promise_all_updates_catalog_only.
  apply Forall_fmap, Forall_forall. intros file' _. apply updateOne_catalog_only.
Qed.

Lemma copy_records_catalog_only user now sourcePrefix destPrefix :
  catalog_only
    (let* objectId := new_ObjectId ObjectId BSONError user in
     updateOne faults destPrefix
       (MkFileDoc (Some objectId) destPrefix
          (PosixPath.basename (dropTrailingSlash destPrefix)) 0 true (Some now)) >>
     let* sourceFiles := findByPrefix faults false sourcePrefix in
     let* updates :=
       mapM (fun file =>
               let* objectId := new_ObjectId ObjectId BSONError user in
               let doc := copiedDoc objectId now sourcePrefix destPrefix file in
               ret (updateOne faults (filePath doc) doc)) sourceFiles in
     promise_all updates None).
Proof.
  apply catalog_only_bind; [auto with phases|]. intros objectId.
  apply catalog_only_bind; [auto with phases|]. intros _.
  apply catalog_only_bind; [auto with phases|]. intros sourceFiles.
  apply copy_updates_catalog_only.
Qed.

Lemma copyHandler_trace fuel user now sourceKey destinationKey :
  handler_trace
    (copyHandler AWS_S3_PREFIX aws_configured MONGODB_URI pageSize faults ObjectId BSONError
       fuel user now sourceKey destinationKey).
Proof.
  apply try_catch_handler_trace. cbv zeta.
  destruct (normalizeKey sourceKey) as [|s0 safeSource];
    [by apply store_only_two_phase, store_only_ret|].
  destruct (normalizeKey destinationKey) as [|d0 safeDestination];
    [by apply store_only_two_phase, store_only_ret|].
  apply two_phase_bind_store; [auto with phases|]. intros _.
  apply two_phase_bind_catalog; [|intros _; auto with phases].
  apply two_phase_if.
  - apply two_phase_bind_store; [auto with phases|]. intros _.
    apply two_phase_bind_store; [auto with phases|]. intros _.
    apply catalog_only_two_phase, copy_records_catalog_only.
  - apply two_phase_bind_store; [auto with phases|]. intros _.
    apply catalog_only_two_phase. auto with phases.
Qed.

Lemma deleteHandler_trace fuel user now queryKey :
  handler_trace
    (deleteHandler AWS_S3_PREFIX aws_configured MONGODB_URI pageSize faults ObjectId BSONError
       fuel user now queryKey).
Proof.
  apply try_catch_handler_trace. cbv zeta.
  destruct (normalizeKey queryKey) as [|k0 key];
    [by apply store_only_two_phase, store_only_ret|].
  apply two_phase_bind_catalog; [|intros _; auto with phases].
  apply two_phase_if.
  - apply two_phase_bind_store; [auto with phases|]. intros _.
    apply two_phase_bind_store; [auto with phases|]. intros _.
    apply catalog_only_two_phase. auto with phases.
  - apply two_phase_bind_store; [auto with phases|]. intros _.
    apply two_phase_bind_store; [auto with phases|]. intros _.
    apply catalog_only_two_phase. auto with phases.
Qed.

Lemma uploadHandler_store_first user now key content contentType w :
  store_call_first
    (new_events w
       (uploadHandler AWS_S3_PREFIX aws_configured MONGODB_URI pageSize faults
          Buffer_from_base64 ObjectId BSONError user now key content contentType w).2).
Proof.
  unfold uploadHandler. cbv zeta.
  destruct (normalizeKey key) as [|k0 safeKey]; [apply refusal_store_call_first|].
  destruct content as [|c0 content]; [apply refusal_store_call_first|].
  apply store_opens_handler.
  apply store_opens_made; [auto with phases|apply uploadS3Object_calls_store|].
  intros _. apply catalog_only_leaves. auto with phases.
Qed.

Lemma createFolderHandler_store_first user now key w :
  store_call_first
    (new_events w
       (createFolderHandler AWS_S3_PREFIX aws_configured MONGODB_URI pageSize faults
          ObjectId BSONError user now key w).2).
Proof.
  unfold createFolderHandler. cbv zeta.
  destruct (normalizeKey key) as [|k0 safeKey]; [apply refusal_store_call_first|].
  apply store_opens_handler.
  apply store_opens_made; [auto with phases|apply createS3Folder_calls_store|].
  intros _. apply catalog_only_leaves. auto with phases.
Qed.

Lemma copyHandler_store_first fuel user now sourceKey destinationKey w :
  store_call_first
    (new_events w
       (copyHandler AWS_S3_PREFIX aws_configured MONGODB_URI pageSize faults
          ObjectId BSONError fuel user now sourceKey destinationKey w).2).
Proof.
  unfold copyHandler. cbv zeta.
  destruct (normalizeKey sourceKey) as [|s0 safeSource];
    [apply refusal_store_call_first|].
  destruct (normalizeKey destinationKey) as [|d0 safeDestination];
    [apply refusal_store_call_first|].
  apply store_opens_handler.
  apply store_opens_quiet; [auto with phases|]. intros _.
  apply store_opens_tail; [|intros _; apply catalog_only_leaves; auto with phases].
  apply store_opens_if.
  - apply store_opens_made; [auto with phases|apply createS3Folder_calls_store|].
    intros _. apply leaves_events_bind; [apply store_only_leaves; auto with phases|].
    intros _. apply catalog_only_leaves, copy_records_catalog_only.
  - apply store_opens_made; [auto with phases|apply copyS3Object_calls_store|].
    intros _. apply catalog_only_leaves. auto with phases.
Qed.

Lemma deleteHandler_store_first fuel user now queryKey w :
  store_call_first
    (new_events w
       (deleteHandler AWS_S3_PREFIX aws_configured MONGODB_URI pageSize faults
          ObjectId BSONError fuel user now queryKey w).2).
Proof.
  unfold deleteHandler. cbv zeta.
  destruct (normalizeKey queryKey) as [|k0 key]; [apply refusal_store_call_first|].
  apply store_opens_handler.
  apply store_opens_tail; [|intros _; apply catalog_only_leaves; auto with phases].
  apply store_opens_if.
  - apply store_opens_made; [auto with phases|apply deleteS3Prefix_calls_store|].
    intros _. apply catalog_only_leaves. auto with phases.
  - apply store_opens_made; [auto with phases|apply deleteS3Object_calls_store|].
    intros _. apply catalog_only_leaves. auto with phases.
Qed.

Lemma runMutation_store_first fuel user now (m : Mutation) (w : World) :
  store_call_first
    (new_events w
       (runMutation AWS_S3_PREFIX aws_configured MONGODB_URI pageSize faults
          Buffer_from_base64 ObjectId BSONError fuel user now m w).2).
Proof.
  destruct m; simpl.
  - apply uploadHandler_store_first.
  - apply createFolderHandler_store_first.
  - apply copyHandler_store_first.
  - apply deleteHandler_store_first.
Qed.

Lemma runMutation_trace fuel user now (m : Mutation) :
  handler_trace
    (runMutation AWS_S3_PREFIX aws_configured MONGODB_URI pageSize faults
       Buffer_from_base64 ObjectId BSONError fuel user now m).
Proof.
  destruct m; simpl.
  - apply uploadHandler_trace.
  - apply createFolderHandler_trace.
  - apply copyHandler_trace.
  - apply deleteHandler_trace.
Qed.
End HandlerPhases.

Lemma new_events_app (w w' : World) (evs : list Event) :
  trace w' = trace w ++ evs → new_events w w' = evs.
Proof. intros H. unfold new_events. rewrite H. apply drop_app_length. Qed.

Lemma store_before_catalog_app (evs_s evs_c : list Event) :
  Forall before_catalog evs_s → Forall after_store evs_c →
  store_before_catalog (evs_s ++ evs_c).
Proof.
  intros Hs Hc i j ei ej Hi Hj Hw Hst.
  destruct (decide (i < length evs_s)%nat) as [Hlt|Hge].
  { rewrite lookup_app_l in Hi by done.
    rewrite Forall_forall in Hs. apply list_elem_of_lookup_2, Hs in Hi.
    destruct Hi. congruence. }
  destruct (decide (j < length evs_s)%nat) as [Hlt|Hge']; [lia|].
  rewrite lookup_app_r in Hj by lia.
  rewrite Forall_forall in Hc. apply list_elem_of_lookup_2, Hc in Hj.
  unfold after_store in Hj. congruence.
Qed.

Lemma existsb_Exists {A : Type} (f : A → bool) (l : list A) :
  existsb f l = true ↔ Exists (fun x => f x = true) l.
Proof.
  induction l as [|x l IH]; simpl.
  - split; [done|]. intros H. by apply Exists_nil in H.
  - rewrite orb_true_iff, Exists_cons, IH. done.
Qed.

Section MutationClaims.
Variable AWS_S3_PREFIX : str.
Variable aws_configured : bool.
Variable MONGODB_URI : str.
Variable pageSize : nat.
Variable faults : nat → bool.
Variable Buffer_from_base64 : str → str.
Variable ObjectId : str → option str.
Variable BSONError : str.

Local Abbreviation run :=
  (runMutation AWS_S3_PREFIX aws_configured MONGODB_URI pageSize faults
     Buffer_from_base64 ObjectId BSONError).

(** C7. In every mutation a catalog write is issued only after an
    object-store call that succeeded, no object-store call follows a catalog
    write, and when an object-store call fails no catalog write is issued:
    the catalog is left as it was. *)
Theorem store_call_precedes_catalog_write fuel user now (m : Mutation) (w : World) :
  let evs := new_events w (run fuel user now m w).2 in
  store_call_first evs
  ∧ store_before_catalog evs
  ∧ (store_call_failed evs = true →
     Forall (fun e => is_catalog_write (call e) = false) evs
     ∧ files (run fuel user now m w).2 = files w).
Proof.
  pose proof (runMutation_store_first AWS_S3_PREFIX aws_configured MONGODB_URI pageSize
                faults Buffer_from_base64 ObjectId BSONError fuel user now m w) as Hfirst.
  destruct (runMutation_trace AWS_S3_PREFIX aws_configured MONGODB_URI pageSize
              faults Buffer_from_base64 ObjectId BSONError fuel user now m w)
    as (evs_s & evs_c & Ht & Hqs & Hqc & Hf & Hs & Hx & Hfuel).
  cbv zeta. split; [exact Hfirst|]. clear Hfirst.
  rewrite (new_events_app _ _ _ Ht). split.
  - by apply store_before_catalog_app.
  - intros Hfail.
    assert (evs_c = []) as Hnil.
    { apply Hs. apply existsb_Exists, Exists_app in Hfail as [Hfail|Hfail].
      + eapply Exists_impl; [exact Hfail|]. intros e He.
        apply andb_true_iff in He as [_ He]. unfold failed.
        by destruct (succeeded e).
      + apply Exists_exists in Hfail as (e & Hin & He).
        rewrite Forall_forall in Hqc. apply Hqc in Hin. unfold after_store in Hin.
        apply andb_true_iff in He as [He _]. congruence. }
    split; [|by apply Hf]. rewrite Hnil, app_nil_r.
    eapply Forall_impl; [exact Hqs|]. by intros e [? _].
Qed.

(** C4, as the code has it.  When a catalog write or the activity-log
    append of a mutation fails, every object-store call of that mutation
    had succeeded and the failure is the operation's own error: the
    response is a 500. *)
Theorem secondary_failure_is_reported fuel user now (m : Mutation) (w : World) :
  secondary_write_failed (new_events w (run fuel user now m w).2) = true →
  store_call_failed (new_events w (run fuel user now m w).2) = false
  ∧ ∃ e, (run fuel user now m w).1 = Ok (RespError 500 e).
Proof.
  destruct (runMutation_trace AWS_S3_PREFIX aws_configured MONGODB_URI pageSize
              faults Buffer_from_base64 ObjectId BSONError fuel user now m w)
    as (evs_s & evs_c & Ht & Hqs & Hqc & Hf & Hs & Hx & Hfuel).
  rewrite (new_events_app _ _ _ Ht). intros Hfail.
  apply existsb_Exists, Exists_app in Hfail as [Hfail|Hfail].
  { apply Exists_exists in Hfail as (e & Hin & He).
    rewrite Forall_forall in Hqs. apply Hqs in Hin as [H1 H2].
    rewrite H1, H2 in He. done. }
  assert (evs_c ≠ []) as Hne by (intros ->; by apply Exists_nil in Hfail).
  split.
  - apply not_true_is_false. intros Hst.
    apply existsb_Exists, Exists_app in Hst as [Hst|Hst].
    + apply Hne, Hs. eapply Exists_impl; [exact Hst|]. intros e He.
      apply andb_true_iff in He as [_ He]. unfold failed. by destruct (succeeded e).
    + apply Exists_exists in Hst as (e & Hin & He).
      rewrite Forall_forall in Hqc. apply Hqc in Hin. unfold after_store in Hin.
      apply andb_true_iff in He as [He _]. congruence.
  - assert (Exists failed (evs_s ++ evs_c)) as Hex.
    { apply Exists_app. right. eapply Exists_impl; [exact Hfail|]. intros e He.
      apply andb_true_iff in He as [_ He]. unfold failed. by destruct (succeeded e). }
    destruct (Hx Hex) as [Ho|He]; [by apply Hfuel in Ho|done].
Qed.
End MutationClaims.

(** C4, the claim as written, fails: the upload below reaches the bucket,
    its catalog upsert fails, and the response is the 500 of the [catch]
    block, not the success response. *)
Lemma upload_catalog_failure_is_500 :
  let result :=
    uploadHandler [] true demo_uri 1000 (fault_at 2) raw_bytes hex_ObjectId demo_BSONError
      demo_id 0 (lit "reports/q1.pdf") (lit "hello") None emptyWorld in
  bucket result.2 !! lit "reports/q1.pdf"
    = Some (MkObject (lit "hello") (lit "application/octet-stream"))
  ∧ succeeded <$> trace result.2 = [true; true; false]
  ∧ secondary_write_failed (trace result.2) = true
  ∧ result.1 = Ok (RespError 500 (lit "Service unavailable")).
Proof. vm_compute. done. Qed.

Lemma secondary_failure_is_reported_witness :
  secondary_write_failed
    (new_events emptyWorld
       (runMutation [] true demo_uri 1000 (fault_at 2) raw_bytes hex_ObjectId demo_BSONError 1
           demo_id 0
          (Upload (lit "reports/q1.pdf") (lit "hello") None) emptyWorld).2) = true
  ∧ (store_call_failed
       (new_events emptyWorld
          (runMutation [] true demo_uri 1000 (fault_at 2) raw_bytes hex_ObjectId demo_BSONError
              1 demo_id 0
             (Upload (lit "reports/q1.pdf") (lit "hello") None) emptyWorld).2) = false
     ∧ ∃ e,
         (runMutation [] true demo_uri 1000 (fault_at 2) raw_bytes hex_ObjectId demo_BSONError 1
             demo_id 0
            (Upload (lit "reports/q1.pdf") (lit "hello") None) emptyWorld).1
         = Ok (RespError 500 e)).
Proof.
  split; [vm_compute; reflexivity|].
  apply (secondary_failure_is_reported [] true demo_uri 1000 (fault_at 2) raw_bytes hex_ObjectId
      demo_BSONError
           1 demo_id 0 (Upload (lit "reports/q1.pdf") (lit "hello") None) emptyWorld).
  vm_compute. reflexivity.
Defined.

Lemma store_call_precedes_catalog_write_witness :
  let w' :=
    (runMutation [] true demo_uri 2 (fault_at 3) raw_bytes hex_ObjectId demo_BSONError 4 demo_id 0
       (Delete (lit "reports/")) demoWorld).2 in
  store_call_failed (new_events demoWorld w') = true
  ∧ store_call_first (new_events demoWorld w')
  ∧ store_before_catalog (new_events demoWorld w')
  ∧ Forall (fun e => is_catalog_write (call e) = false) (new_events demoWorld w')
  ∧ files w' = files demoWorld.
Proof.
  pose proof (store_call_precedes_catalog_write [] true demo_uri 2 (fault_at 3)
                raw_bytes hex_ObjectId demo_BSONError 4 demo_id 0
                (Delete (lit "reports/")) demoWorld)
    as (Hfirst & Hord & Hfiles).
  split; [vm_compute; reflexivity|]. split; [exact Hfirst|]. split; [exact Hord|].
  apply Hfiles. vm_compute. reflexivity.
Defined.

(** C10. A non-empty input that resolves to the root normalises to the key
    [.], which the handlers accept as a key: [DELETE /api/files] with
    [a/..] is not refused as a missing key, it deletes the object named [.],
    and it answers with success whenever the caller's id can be logged (with
    the error of the id's constructor otherwise). *)
Theorem dot_key_passes_validation :
  ∃ raw : str,
    raw ≠ []
    ∧ resolve_depth 0 (segments raw) = Some 0%nat
    ∧ normalizeKey raw = lit "."
    ∧ raw = lit "a/.."
    ∧ ∀ (AWS_S3_PREFIX : str) (pageSize fuel : nat) (ObjectId : str → option str)
        (BSONError user : str) (now : Z) (w : World),
        let result :=
          deleteHandler AWS_S3_PREFIX true demo_uri pageSize no_faults ObjectId BSONError
            fuel user now raw w in
        (∀ e, result.1 ≠ Ok (RespError 400 e))
        ∧ result.1
          = Ok (if loggable ObjectId user then RespOk else RespError 500 BSONError)
        ∧ head (new_events w result.2)
          = Some (MkEvent (CallDeleteObject (key_of AWS_S3_PREFIX (lit "."))) true)
        ∧ bucket result.2 = delete (key_of AWS_S3_PREFIX (lit ".")) (bucket w).
Proof.
  exists (lit "a/.."). split; [done|]. split; [done|]. split; [done|]. split; [done|].
  intros AWS_S3_PREFIX pageSize fuel ObjectId BSONError user now w.
  assert (normalizeKey (lit "a/..") = lit ".") as Hn by done.
  cbv zeta. unfold deleteHandler. rewrite Hn.
  destruct (dbClient w) eqn:E, user as [|u0 user];
    try destruct (ObjectId (u0 :: user)) as [objectId|] eqn:Eo;
    repeat (unfold new_events, try_catch, bind, deleteS3Object, ensureS3Configured,
              ret, throw, getCollections, deleteOne, logFileAction, new_ObjectId,
              loggable, extern, no_faults, key_of;
            simpl; rewrite ?E, ?Eo);
    rewrite <- ?app_assoc, drop_app_length; done.
Qed.

(** C5, the claim as written, fails for a folder prefix: in an empty bucket
    nothing lies under [nosuch/], yet copying it writes the destination
    marker, copies nothing and answers with success. *)
Lemma copy_of_missing_folder_succeeds :
  let result :=
    copyHandler [] true demo_uri 1000 no_faults hex_ObjectId demo_BSONError 4 demo_id 0
      (lit "nosuch/") (lit "dst") emptyWorld in
  keysUnder (bucket emptyWorld) (lit "nosuch/") = []
  ∧ result.1 = Ok RespOk
  ∧ (map_to_list (bucket result.2)).*1 = [lit "dst/"]
  ∧ filePath <$> files result.2 = [lit "dst/"].
Proof. vm_compute. done. Qed.

Lemma getCollections_bucket (uri : str) (faults : nat → bool) (w : World) :
  bucket (getCollections uri faults w).2 = bucket w
  ∧ (getCollections uri faults w).1 ≠ OutOfFuel.
Proof.
  unfold getCollections. destruct uri; [done|].
  destruct (dbClient w); [done|]. unfold extern.
  by destruct (faults _).
Qed.

Lemma copyS3Object_missing (prefix : str) (configured : bool) (pageSize : nat)
    (faults : nat → bool) (src dst : str) (w : World) :
  bucket w !! buildKey prefix src = None →
  ∃ e, (copyS3Object (bucketApi pageSize faults) prefix configured src dst w).1
       = Throw e.
Proof.
  intros Hmissing. unfold copyS3Object, ensureS3Configured.
  destruct configured; [|by eexists]. rewrite bind_run. simpl. unfold extern.
  destruct (faults _); [by eexists|]. rewrite Hmissing. by eexists.
Qed.

(** C5, as the code has it.  A file key (one that does not end in [/]) that
    is not in the bucket cannot be copied: the response is an error. *)
Theorem copy_of_missing_file_is_error
    (AWS_S3_PREFIX : str) (aws_configured : bool) (MONGODB_URI : str)
    (pageSize : nat) (faults : nat → bool) (ObjectId : str → option str)
    (BSONError : str) (fuel : nat) (user : str) (now : Z)
    (sourceKey destinationKey : str) (w : World) :
  endsWith (normalizeKey sourceKey) [CHAR_FORWARD_SLASH] = false →
  bucket w !! key_of AWS_S3_PREFIX (normalizeKey sourceKey) = None →
  ∃ status e,
    (copyHandler AWS_S3_PREFIX aws_configured MONGODB_URI pageSize faults ObjectId BSONError
       fuel user now sourceKey destinationKey w).1 = Ok (RespError status e).
Proof.
  intros Hfile Hmissing. unfold copyHandler. cbv zeta.
  destruct (normalizeKey sourceKey) as [|s0 safeSource] eqn:Es; [by eexists _, _|].
  destruct (normalizeKey destinationKey) as [|d0 safeDestination] eqn:Ed;
    [by eexists _, _|].
  rewrite Hfile. unfold try_catch. rewrite bind_run.
  destruct (getCollections_bucket MONGODB_URI faults w) as [Hb Hfuel].
  destruct (getCollections MONGODB_URI faults w) as [[[]|e|] w1]; simpl in *;
    [|by eexists _, _|done].
  rewrite !bind_run.
  destruct (copyS3Object_missing AWS_S3_PREFIX aws_configured pageSize faults
              (s0 :: safeSource) (d0 :: safeDestination) w1) as [e He].
  { by rewrite Hb. }
  destruct (copyS3Object _ _ _ _ _ w1) as [[?|?|] ?]; simpl in *; try done.
  by eexists _, _.
Qed.

Lemma copy_of_missing_file_is_error_witness :
  endsWith (normalizeKey (lit "nosuch.txt")) [CHAR_FORWARD_SLASH] = false
  ∧ bucket emptyWorld !! key_of [] (normalizeKey (lit "nosuch.txt")) = None
  ∧ ∃ status e,
      (copyHandler [] true demo_uri 1000 no_faults hex_ObjectId demo_BSONError 4 demo_id 0
         (lit "nosuch.txt") (lit "dst.txt") emptyWorld).1 = Ok (RespError status e).
Proof.
  split; [vm_compute; reflexivity|]. split; [vm_compute; reflexivity|].
  apply (copy_of_missing_file_is_error [] true demo_uri 1000 no_faults hex_ObjectId
           demo_BSONError 4 demo_id 0 (lit "nosuch.txt") (lit "dst.txt") emptyWorld);
    vm_compute; reflexivity.
Defined.

(** ** The prefix walk over a scripted store *)

Section ScriptedWalk.
Variable AWS_S3_PREFIX : str.

Local Abbreviation bkey := (buildKey AWS_S3_PREFIX).

Lemma filter_list_calls_app (l1 l2 : list Call) :
  List.filter is_list_call (l1 ++ l2)
  = List.filter is_list_call l1 ++ List.filter is_list_call l2.
Proof. apply List.filter_app. Qed.

Lemma copy_items_scripted (src dst : str) (contents : list str) :
  ∀ s : Script,
    let r := copyS3Prefix_items scriptedApi AWS_S3_PREFIX true src dst contents s in
    r.1 = Ok tt ∧ pending r.2 = pending s
    ∧ List.filter is_list_call (requests r.2) = List.filter is_list_call (requests s).
Proof.
  induction contents as [|k contents IH]; intros s; [done|].
  cbn [copyS3Prefix_items]. rewrite bind_run.
  destruct k as [|c k]; cbn [truthy].
  - apply IH.
  - set (rel := replaceFirst _ _ _).
    unfold copyS3Object, ensureS3Configured. rewrite bind_run.
    change (ret tt s) with (Ok tt, s). cbv iota beta.
    cbn [CopyObject scriptedApi]. cbv iota beta.
    destruct (IH (sent (CallCopyObject (bkey (src ++ rel)) (bkey (dst ++ rel))) s))
      as (H1 & H2 & H3).
    split; [exact H1|]. split; [exact H2|].
    rewrite H3. cbn [sent requests]. rewrite filter_list_calls_app.
    cbn [List.filter is_list_call]. by rewrite app_nil_r.
Qed.

Lemma first_stop_step (page : ListResult) (later : list ListResult) (n : nat) :
  first_stop (page :: later) = Some n →
  (truthy (tokenAfter page) = false ∧ n = 0%nat)
  ∨ (truthy (tokenAfter page) = true
     ∧ tokenAfter page = NextContinuationToken page
     ∧ ∃ n', n = S n' ∧ first_stop later = Some n').
Proof.
  cbn [first_stop]. unfold ends_walk.
  destruct (truthy (tokenAfter page)) eqn:Etok; cbn [negb].
  - intros Hfin. right. split; [done|]. split.
    + unfold tokenAfter in *. by destruct (IsTruncated page).
    + destruct (first_stop later) as [n'|]; [|done]. injection Hfin as <-. by exists n'.
  - intros [= <-]. by left.
Qed.

Lemma delete_loop_scripted (prefix : str) (pages : list ListResult) :
  ∀ (n fuel : nat) (token : option str) (reqs : list Call),
    first_stop pages = Some n →
    (n < fuel)%nat →
    let r := deleteS3Prefix_loop scriptedApi AWS_S3_PREFIX fuel prefix token
               (MkScript pages reqs) in
    r.1 = Ok tt
    ∧ pending r.2 = drop (S n) pages
    ∧ list_requests r.2
      = List.filter is_list_call reqs
        ++ (CallListObjectsV2 (bkey prefix)
              <$> (token :: (NextContinuationToken <$> take n pages))).
Proof.
  induction pages as [|page later IH]; intros n fuel token reqs Hfin Hfuel; [done|].
  destruct fuel as [|fuel]; [lia|].
  cbn [deleteS3Prefix_loop]. rewrite bind_run.
  cbn [ListObjectsV2 scriptedApi pending requests].
  rewrite bind_run.
  set (keys := filter _ (Contents page)).
  set (s1 := MkScript later (reqs ++ [CallListObjectsV2 (bkey prefix) token])).
  assert (∃ s2, (if 0 <? len_list keys then DeleteObjects scriptedApi keys else ret tt) s1
                = (Ok tt, s2)
                ∧ pending s2 = later
                ∧ List.filter is_list_call (requests s2)
                  = List.filter is_list_call reqs ++ [CallListObjectsV2 (bkey prefix) token])
    as (s2 & -> & Hp2 & Hr2).
  { destruct (0 <? len_list keys); eexists; (split; [reflexivity|]); simpl;
      rewrite !filter_list_calls_app; simpl; by rewrite ?app_nil_r. }
  cbv beta iota zeta. fold (tokenAfter page).
  destruct (first_stop_step page later n Hfin)
    as [[Hstop ->] | (Hgo & Htok & n' & -> & Hlater)].
  - rewrite Hstop. simpl. split; [done|]. split; [by rewrite Hp2, drop_0|].
    unfold list_requests. by rewrite Hr2.
  - rewrite Hgo, Htok.
    destruct s2 as [pend2 reqs2]. simpl in Hp2, Hr2. subst pend2.
    destruct (IH n' fuel (NextContinuationToken page) reqs2 Hlater ltac:(lia))
      as (H1 & H2 & H3).
    split; [exact H1|]. split; [exact H2|].
    rewrite H3, Hr2. simpl. by rewrite <- app_assoc.
Qed.

Lemma copy_loop_scripted (src dst : str) (pages : list ListResult) :
  ∀ (n fuel : nat) (token : option str) (reqs : list Call),
    first_stop pages = Some n →
    (n < fuel)%nat →
    let r := copyS3Prefix_loop scriptedApi AWS_S3_PREFIX true fuel src dst token
               (MkScript pages reqs) in
    r.1 = Ok tt
    ∧ pending r.2 = drop (S n) pages
    ∧ list_requests r.2
      = List.filter is_list_call reqs
        ++ (CallListObjectsV2 (bkey src)
              <$> (token :: (NextContinuationToken <$> take n pages))).
Proof.
  induction pages as [|page later IH]; intros n fuel token reqs Hfin Hfuel; [done|].
  destruct fuel as [|fuel]; [lia|].
  cbn [copyS3Prefix_loop]. rewrite bind_run.
  cbn [ListObjectsV2 scriptedApi pending requests].
  rewrite bind_run.
  set (s1 := MkScript later (reqs ++ [CallListObjectsV2 (bkey src) token])).
  destruct (copy_items_scripted src dst (Contents page) s1) as (Hi1 & Hi2 & Hi3).
  destruct (copyS3Prefix_items _ _ _ _ _ _ s1) as [[[]| |] s2]; try done.
  simpl in Hi2, Hi3. rewrite filter_list_calls_app in Hi3. simpl in Hi3.
  cbv beta iota zeta. fold (tokenAfter page).
  destruct (first_stop_step page later n Hfin)
    as [[Hstop ->] | (Hgo & Htok & n' & -> & Hlater)].
  - rewrite Hstop. simpl. split; [done|]. split; [by rewrite Hi2, drop_0|].
    unfold list_requests. by rewrite Hi3.
  - rewrite Hgo, Htok.
    destruct s2 as [pend2 reqs2]. simpl in Hi2, Hi3. subst pend2.
    destruct (IH n' fuel (NextContinuationToken page) reqs2 Hlater ltac:(lia))
      as (H1 & H2 & H3).
    split; [exact H1|]. split; [exact H2|].
    rewrite H3, Hi3. simpl. by rewrite <- app_assoc.
Qed.

(** Some page ends the walk at or before the first page that reports no
    further pages, and at that page when every truncated page carries a
    token. *)
Lemma first_stop_before_final (pages : list ListResult) :
  ∀ m : nat,
    first_final_page pages = Some m →
    ∃ n : nat,
      (n ≤ m)%nat ∧ first_stop pages = Some n
      ∧ (forallb page_ok pages = true → n = m).
Proof.
  induction pages as [|page later IH]; intros m Hfin; [done|].
  cbn [first_final_page first_stop forallb] in *.
  unfold ends_walk, tokenAfter, page_ok.
  destruct (IsTruncated page) eqn:Etr.
  - destruct (first_final_page later) as [m'|]; [|done]. injection Hfin as <-.
    destruct (IH m' eq_refl) as (n' & Hle & Hstop & Hsame).
    destruct (truthy (NextContinuationToken page)); cbn [negb implb andb].
    + exists (S n'). rewrite Hstop. split; [lia|]. split; [done|].
      intros Hok. by rewrite Hsame.
    + exists 0%nat. split; [lia|]. by split.
  - injection Hfin as <-. exists 0%nat. by split_and!.
Qed.

(** C9, as the code has it.  Over any finite sequence of list responses in
    which some page reports no further pages, [deleteS3Prefix] and
    [copyS3Prefix] return; they request the pages, once each, the first
    request without a token and each later one with the token of the page
    before it, up to the first page that is not truncated or carries no
    token, and request nothing beyond that page.  That page is the first to
    report no further pages when every truncated page carries a token. *)
Theorem prefix_walk_terminates (pages : list ListResult) (m fuel : nat)
    (prefix destination : str) :
  first_final_page pages = Some m →
  (m < fuel)%nat →
  let d := deleteS3Prefix scriptedApi AWS_S3_PREFIX true fuel prefix
             (MkScript pages []) in
  let c := copyS3Prefix scriptedApi AWS_S3_PREFIX true fuel prefix destination
             (MkScript pages []) in
  ∃ n : nat,
    (n ≤ m)%nat
    ∧ first_stop pages = Some n
    ∧ (forallb page_ok pages = true → n = m)
    ∧ (d.1 = Ok tt
       ∧ pending d.2 = drop (S n) pages
       ∧ list_requests d.2 = expected_requests (bkey prefix) pages n)
    ∧ (c.1 = Ok tt
       ∧ pending c.2 = drop (S n) pages
       ∧ list_requests c.2 = expected_requests (bkey prefix) pages n).
Proof.
  intros Hfin Hfuel. cbv zeta.
  destruct (first_stop_before_final pages m Hfin) as (n & Hle & Hstop & Hsame).
  exists n. split; [done|]. split; [done|]. split; [done|].
  unfold deleteS3Prefix, copyS3Prefix, ensureS3Configured.
  rewrite !bind_run. simpl ret. cbv iota beta.
  split.
  - apply (delete_loop_scripted prefix pages n fuel None [] Hstop). lia.
  - apply (copy_loop_scripted prefix destination pages n fuel None [] Hstop). lia.
Qed.
End ScriptedWalk.

(** ** The byte order on keys *)

Lemma N_of_ascii_inj (x y : ascii) : N_of_ascii x = N_of_ascii y → x = y.
Proof.
  intros H. rewrite <- (ascii_N_embedding x), <- (ascii_N_embedding y). by rewrite H.
Qed.

Lemma str_ltb_irrefl (a : str) : str_ltb a a = false.
Proof.
  induction a as [|x a IH]; simpl; [done|].
  by rewrite N.ltb_irrefl, N.eqb_refl, IH.
Qed.

Lemma str_ltb_trans (a b c : str) :
  str_ltb a b = true → str_ltb b c = true → str_ltb a c = true.
Proof.
  revert b c. induction a as [|x a IH]; intros [|y b] [|z c]; simpl; try done.
  rewrite !orb_true_iff, !andb_true_iff, !N.ltb_lt, !N.eqb_eq.
  intros [H1|[H1 H1']] [H2|[H2 H2']].
  - left. lia.
  - left. lia.
  - left. lia.
  - right. split; [lia|]. by apply (IH b c).
Qed.

Lemma str_ltb_connected (a b : str) :
  str_ltb a b = false → str_ltb b a = false → a = b.
Proof.
  revert b. induction a as [|x a IH]; intros [|y b]; simpl; try done.
  rewrite !orb_false_iff, !andb_false_iff, !N.ltb_ge, !N.eqb_neq.
  intros [H1 H1'] [H2 H2'].
  assert (N_of_ascii x = N_of_ascii y) as Hxy by lia.
  destruct H1' as [?|H1']; [done|]. destruct H2' as [?|H2']; [by rewrite Hxy in *|].
  f_equal; [by apply N_of_ascii_inj|by apply IH].
Qed.

Lemma str_ltb_asym (a b : str) : str_ltb a b = true → str_ltb b a = false.
Proof.
  intros H. destruct (str_ltb b a) eqn:E; [|done].
  pose proof (str_ltb_trans a b a H E) as Haa. by rewrite str_ltb_irrefl in Haa.
Qed.

Global Instance str_le_total : Total str_le.
Proof.
  intros a b. unfold str_le. destruct (str_ltb b a) eqn:E; [|by left].
  right. by apply str_ltb_asym.
Qed.

Global Instance str_le_trans : Transitive str_le.
Proof.
  intros a b c Hab Hbc. unfold str_le in *.
  destruct (str_ltb c a) eqn:Hca; [|done].
  destruct (str_ltb a b) eqn:Hlt.
  - pose proof (str_ltb_trans c a b Hca Hlt). congruence.
  - assert (a = b) as -> by by apply str_ltb_connected. congruence.
Qed.

Global Instance str_le_antisym : AntiSymm (=) str_le.
Proof. intros a b Hab Hba. by apply str_ltb_connected. Qed.

Global Instance doc_le_total : Total doc_le.
Proof. intros d1 d2. apply str_le_total. Qed.

Global Instance doc_le_trans : Transitive doc_le.
Proof. intros d1 d2 d3. apply str_le_trans. Qed.

Lemma str_le_lt (a b : str) : str_le a b → a ≠ b → str_lt a b.
Proof.
  unfold str_le, str_lt. intros Hle Hne.
  destruct (str_ltb a b) eqn:E; [done|]. destruct Hne. by apply str_ltb_connected.
Qed.

(** ** Escaped prefixes match literally *)

Lemma is_syntax_char_backslash : is_syntax_char CHAR_BACKWARD_SLASH = true.
Proof. by vm_compute. Qed.

Lemma literal_of_escaped (value : str) :
  literal_of_pattern (escapeRegex value) = Some value.
Proof.
  induction value as [|c value IH]; [done|].
  unfold escapeRegex in *. cbn [flat_map].
  destruct (is_syntax_char c) eqn:Ec.
  - cbn [app literal_of_pattern]. rewrite Ascii.eqb_refl, Ec, IH. done.
  - cbn [app literal_of_pattern].
    destruct (Ascii.eqb_spec c CHAR_BACKWARD_SLASH) as [->|Hc].
    + by rewrite is_syntax_char_backslash in Ec.
    + rewrite Ec, IH. done.
Qed.

Lemma anchored_escapeRegex (prefix : str) : anchored (escapeRegex prefix) = Some prefix.
Proof. apply literal_of_escaped. Qed.

(** ** Listing one directory level *)

Lemma slashCount_nonneg (s : str) : 0 <= slashCount s.
Proof. unfold slashCount. apply len_nonneg. Qed.

Lemma slashCount_cons (c : ascii) (s : str) :
  slashCount (c :: s)
  = (if Ascii.eqb c CHAR_FORWARD_SLASH then 1 else 0) + slashCount s.
Proof.
  unfold slashCount. simpl. destruct (Ascii.eqb c CHAR_FORWARD_SLASH); [|lia].
  rewrite len_cons. lia.
Qed.

Lemma slashCount_app (a b : str) : slashCount (a ++ b) = slashCount a + slashCount b.
Proof.
  induction a as [|c a IH]; [done|].
  rewrite <- app_comm_cons, !slashCount_cons, IH. lia.
Qed.

Lemma slashCount_zero (s : str) : slashCount s = 0 ↔ CHAR_FORWARD_SLASH ∉ s.
Proof.
  induction s as [|c s IH]; [split; [intros _; apply not_elem_of_nil|done]|].
  rewrite slashCount_cons, not_elem_of_cons. pose proof (slashCount_nonneg s).
  destruct (Ascii.eqb_spec c CHAR_FORWARD_SLASH) as [->|Hc].
  - split; [lia|]. intros [? _]. done.
  - rewrite <- IH. split; [intros; split; [done|lia]|intros [_ ?]; lia].
Qed.

Lemma slice_drop_prefix (prefix remainder : str) :
  slice (prefix ++ remainder) (len prefix) (len (prefix ++ remainder)) = remainder.
Proof.
  pose proof (slice_middle prefix remainder []) as H.
  rewrite app_nil_r in H. by rewrite len_app.
Qed.

Lemma isDirectChild_spec (prefix : str) (file : FileDoc) :
  isDirectChild prefix file = true ↔ direct_child prefix (filePath file).
Proof.
  unfold isDirectChild, direct_child, startsWith, endsWith.
  destruct (decide (prefix `prefix_of` filePath file)) as [[rem Hrem]|Hnp].
  - rewrite bool_decide_eq_true_2 by by exists rem. cbn [negb].
    rewrite Hrem, slice_drop_prefix. split.
    + intros H. exists rem. split; [done|].
      destruct rem as [|r0 rem]; [done|]. split; [done|].
      destruct (Z.eqb_spec (slashCount (r0 :: rem)) 0) as [H0|H0].
      { left. by apply slashCount_zero. }
      apply andb_true_iff in H as [H1 H2]. apply Z.eqb_eq in H1.
      apply bool_decide_eq_true_1 in H2 as [name Hname].
      right. exists name. split; [done|]. apply slashCount_zero.
      rewrite Hname, slashCount_app, slashCount_cons, Ascii.eqb_refl in H1.
      change (slashCount []) with 0 in H1. lia.
    + intros (rem' & Heq & Hne & Hcase). apply app_inv_head in Heq. subst rem'.
      destruct rem as [|r0 rem]; [done|].
      destruct Hcase as [Hno|(name & Hname & Hno)].
      * apply slashCount_zero in Hno. by rewrite Hno.
      * apply slashCount_zero in Hno.
        rewrite Hname, slashCount_app, slashCount_cons, Ascii.eqb_refl, Hno.
        change (slashCount []) with 0. simpl.
        apply bool_decide_eq_true_2. by exists name.
  - rewrite bool_decide_eq_false_2 by done. simpl. split; [done|].
    intros (rem & Heq & _). destruct Hnp. by exists rem.
Qed.

Lemma StronglySorted_filter {A : Type} (R : relation A) (P : A → Prop)
    `{∀ x, Decision (P x)} (l : list A) :
  StronglySorted R l → StronglySorted R (filter P l).
Proof.
  induction 1 as [|x l Hl IH Hx]; [constructor|].
  rewrite filter_cons. destruct (decide (P x)); [|done].
  constructor; [done|]. rewrite Forall_forall in *. intros y Hy.
  apply list_elem_of_filter in Hy as [_ Hy]. by apply Hx.
Qed.

(** C2. The list operation returns one entry for each catalog record that
    lies one segment below the prefix and for no other: the entries carry
    the keys, sizes and dates of exactly those records, in ascending order
    of their full key. *)
Theorem list_returns_direct_children (u0 : ascii) (uri : str) (now : Z)
    (queryPrefix : str) (w : World) :
  let prefix := normalizeKey queryPrefix in
  ∃ (rows : list FileDoc) (entries : list ListEntry),
    (listHandler (u0 :: uri) no_faults now queryPrefix w).1 = Ok (RespFiles entries)
    ∧ entryKey <$> entries = filePath <$> rows
    ∧ entrySize <$> entries = size <$> rows
    ∧ lastModified <$> entries = (fun file => default now (updatedAt file)) <$> rows
    ∧ rows ≡ₚ filter (fun file => isDirectChild prefix file) (files w)
    ∧ (∀ file, isDirectChild prefix file ↔ direct_child prefix (filePath file))
    ∧ StronglySorted str_le (entryKey <$> entries).
Proof.
  cbv zeta. set (prefix := normalizeKey queryPrefix).
  set (rows := filter (fun file => isDirectChild prefix file)
                 (merge_sort doc_le
                    (filter (fun d => regex_test prefix (filePath d)) (files w)))).
  assert (entryKey <$> (toListEntry now <$> rows) = filePath <$> rows) as Hkeys
    by (by rewrite <- list_fmap_compose).
  exists rows, (toListEntry now <$> rows).
  split; [|split; [exact Hkeys|split; [|split; [|split; [|split]]]]].
  - unfold listHandler, try_catch. fold prefix. rewrite bind_run.
    unfold findByPrefix. rewrite anchored_escapeRegex.
    unfold getCollections, extern, no_faults, ret.
    destruct (dbClient w); simpl; done.
  - by rewrite <- list_fmap_compose.
  - by rewrite <- list_fmap_compose.
  - unfold rows. rewrite merge_sort_Permutation, list_filter_filter.
    apply reflexive_eq, list_filter_iff. intros file. split; [tauto|].
    intros Hc. split; [done|]. apply Is_true_true in Hc.
    apply isDirectChild_spec in Hc as (rem & Heq & _).
    unfold regex_test. apply bool_decide_pack. by exists rem.
  - intros file. rewrite <- isDirectChild_spec. apply Is_true_true.
  - rewrite Hkeys. apply (StronglySorted_fmap filePath doc_le str_le); [by intros d1 d2|].
    apply StronglySorted_filter, StronglySorted_merge_sort; apply _.
Qed.

(** ** Deleting a prefix from the bucket *)

Lemma elem_of_keysUnder (b : gmap (list ascii) S3Object) (p k : str) :
  k ∈ keysUnder b p ↔ is_Some (b !! k) ∧ p `prefix_of` k.
Proof.
  unfold keysUnder.
  rewrite merge_sort_Permutation, list_elem_of_filter, elem_of_elements, elem_of_dom.
  tauto.
Qed.

Lemma keysUnder_sorted (b : gmap (list ascii) S3Object) (p : str) :
  StronglySorted str_le (keysUnder b p).
Proof. apply StronglySorted_merge_sort; apply _. Qed.

Lemma keysUnder_NoDup (b : gmap (list ascii) S3Object) (p : str) :
  NoDup (keysUnder b p).
Proof.
  unfold keysUnder. rewrite merge_sort_Permutation.
  apply NoDup_filter, NoDup_elements.
Qed.

Lemma lookup_deleteAll (keys : list str) (b : gmap (list ascii) S3Object) (k : str) :
  deleteAll keys b !! k = if decide (k ∈ keys) then None else b !! k.
Proof.
  unfold deleteAll. destruct (decide (k ∈ keys)).
  - by apply lookup_foldr_delete.
  - by apply lookup_foldr_delete_not_elem_of.
Qed.

Lemma deleteAll_app (l1 l2 : list str) (b : gmap (list ascii) S3Object) :
  deleteAll l2 (deleteAll l1 b) = deleteAll (l1 ++ l2) b.
Proof.
  apply map_eq. intros k. rewrite !lookup_deleteAll.
  destruct (decide (k ∈ l1 ++ l2)) as [Hin|Hnin].
  - apply elem_of_app in Hin. repeat case_decide; tauto || done.
  - rewrite elem_of_app in Hnin. repeat case_decide; tauto || done.
Qed.

Lemma keysUnder_deleteAll_take (b : gmap (list ascii) S3Object) (p : str) (n : nat) :
  keysUnder (deleteAll (take n (keysUnder b p)) b) p = drop n (keysUnder b p).
Proof.
  pose proof (keysUnder_NoDup b p) as Hnd.
  pose proof (keysUnder_sorted b p) as Hs.
  rewrite <- (take_drop n (keysUnder b p)) in Hnd, Hs.
  apply NoDup_app in Hnd as (_ & Hdisj & Hnd2).
  apply StronglySorted_app_1_r in Hs.
  apply (StronglySorted_unique str_le); [apply keysUnder_sorted|done|].
  apply NoDup_Permutation; [apply keysUnder_NoDup|done|].
  intros k. rewrite elem_of_keysUnder, lookup_deleteAll. split.
  - intros [Hsome Hp]. case_decide as Hin; [by destruct Hsome|].
    assert (k ∈ keysUnder b p) as Hall by (by apply elem_of_keysUnder).
    rewrite <- (take_drop n (keysUnder b p)), elem_of_app in Hall. tauto.
  - intros Hin.
    assert (k ∈ keysUnder b p) as Hall.
    { rewrite <- (take_drop n (keysUnder b p)), elem_of_app. by right. }
    apply elem_of_keysUnder in Hall as [Hsome Hp].
    rewrite decide_False; [done|]. intros Ht. by apply (Hdisj k).
Qed.

Lemma sorted_after_last (all : list str) (n : nat) (kl k : str) :
  StronglySorted str_le all → NoDup all →
  last (take n all) = Some kl → k ∈ drop n all → str_lt kl k.
Proof.
  intros Hs Hnd Hl Hk. rewrite <- (take_drop n all) in Hs, Hnd.
  apply last_Some_elem_of in Hl.
  apply str_le_lt.
  - by apply (StronglySorted_app_1_elem_of str_le (take n all) (drop n all)).
  - apply NoDup_app in Hnd as (_ & Hdisj & _). intros ->. by apply (Hdisj k).
Qed.

Lemma filter_all {A : Type} (P : A → Prop) `{∀ x, Decision (P x)} (l : list A) :
  (∀ x, x ∈ l → P x) → filter P l = l.
Proof.
  induction l as [|x l IH]; intros Hall; [done|].
  rewrite filter_cons_True by (apply Hall; by left).
  f_equal. apply IH. intros y Hy. apply Hall. by right.
Qed.

Section DeletePrefix.
Variable AWS_S3_PREFIX : str.
Variable pageSize : nat.
Hypothesis pageSize_pos : (0 < pageSize)%nat.

Local Abbreviation api := (bucketApi pageSize no_faults).

Lemma delete_loop_bucket (prefix : str) :
  ∀ (fuel : nat) (token : option str) (w : World),
    let all := keysUnder (bucket w) (buildKey AWS_S3_PREFIX prefix) in
    (∀ k, k ∈ all → after_token token k) →
    buildKey AWS_S3_PREFIX prefix ≠ [] →
    (length all < fuel)%nat →
    ∃ w' : World,
      deleteS3Prefix_loop api AWS_S3_PREFIX fuel prefix token w = (Ok tt, w')
      ∧ bucket w' = deleteAll all (bucket w)
      ∧ files w' = files w
      ∧ logs w' = logs w
      ∧ dbClient w' = dbClient w.
Proof.
  induction fuel as [|fuel IH]; intros token w all Hafter Hp Hfuel; [lia|].
  cbn [deleteS3Prefix_loop]. rewrite bind_run.
  cbn [ListObjectsV2 bucketApi]. unfold extern at 1, no_faults at 1.
  cbn [fst snd]. cbv iota beta.
  unfold listPage. cbn [Contents IsTruncated NextContinuationToken].
  fold all. rewrite (filter_all (after_token token) all Hafter).
  assert (∀ k, k ∈ all → k ≠ []) as Hne.
  { intros k Hk ->. apply elem_of_keysUnder in Hk as [_ [rest Hrest]].
    symmetry in Hrest. apply app_eq_nil in Hrest as [? _]. done. }
  assert (filter (fun k : str => truthy (Some k)) (take pageSize all) = take pageSize all)
    as ->.
  { apply filter_all. intros k Hk. apply elem_of_take in Hk as (i & Hi & _).
    apply list_elem_of_lookup_2, Hne in Hi. by destruct k. }
  set (w0 := record_event _ true w).
  rewrite bind_run.
  assert (∃ w1, (if 0 <? len_list (take pageSize all)
                 then DeleteObjects api (take pageSize all) else ret tt) w0 = (Ok tt, w1)
                ∧ bucket w1 = deleteAll (take pageSize all) (bucket w)
                ∧ files w1 = files w ∧ logs w1 = logs w
                ∧ dbClient w1 = dbClient w)
    as (w1 & -> & Hb1 & Hf1 & Hl1 & Hc1).
  { destruct (0 <? len_list (take pageSize all)) eqn:Epos.
    - eexists. split; [reflexivity|]. by repeat split.
    - exists w0. split; [done|].
      assert (take pageSize all = []) as ->.
      { apply Z.ltb_ge in Epos. unfold len_list in Epos.
        destruct (take pageSize all); [done|simpl in Epos; lia]. }
      by repeat split. }
  destruct (decide (pageSize < length all)%nat) as [Hlt|Hge].
  - rewrite bool_decide_eq_true_2 by done.
    destruct (last (take pageSize all)) as [kl|] eqn:El.
    2:{ apply last_None in El. apply (f_equal length) in El.
        rewrite length_take in El. simpl in El. lia. }
    assert (kl ≠ []) as Hkl.
    { apply Hne. apply last_Some_elem_of in El.
      apply elem_of_take in El as (i & Hi & _). by apply list_elem_of_lookup_2 in Hi. }
    assert (truthy (Some kl) = true) as -> by (by destruct kl).
    assert (keysUnder (bucket w1) (buildKey AWS_S3_PREFIX prefix) = drop pageSize all)
      as Hall1.
    { rewrite Hb1. apply keysUnder_deleteAll_take. }
    destruct (IH (Some kl) w1) as (w' & H1 & H2 & H3 & H4 & H5).
    { rewrite Hall1. intros k Hk.
      apply (sorted_after_last all pageSize kl k); try done.
      - apply keysUnder_sorted.
      - apply keysUnder_NoDup. }
    { done. }
    { rewrite Hall1, length_drop. lia. }
    exists w'. split; [exact H1|]. split.
    { rewrite H2, Hall1, Hb1, deleteAll_app. by rewrite take_drop. }
    split; [congruence|]. split; congruence.
  - rewrite bool_decide_eq_false_2 by done. cbn [truthy].
    rewrite take_ge in * by lia. exists w1. by repeat split.
Qed.

Lemma getCollections_ok (u0 : ascii) (uri : str) (w : World) :
  ∃ w' : World,
    getCollections (u0 :: uri) no_faults w = (Ok tt, w')
    ∧ bucket w' = bucket w ∧ files w' = files w.
Proof.
  unfold getCollections. destruct (dbClient w); [by exists w|].
  unfold extern, no_faults. simpl. by eexists.
Qed.

Lemma deleteManyByPrefix_ok (key : str) (w : World) :
  ∃ w' : World,
    deleteManyByPrefix no_faults key w = (Ok tt, w')
    ∧ bucket w' = bucket w
    ∧ files w' = filter (fun d => ¬ key `prefix_of` filePath d) (files w).
Proof.
  unfold deleteManyByPrefix. rewrite anchored_escapeRegex.
  unfold extern, no_faults. simpl. eexists. split; [reflexivity|].
  split; [done|]. simpl. apply list_filter_iff. intros d.
  unfold regex_test. by rewrite bool_decide_spec.
Qed.

Lemma logFileAction_ok (u0 : ascii) (uri : str) (ObjectId : str → option str)
    (BSONError : str) now action path name user details (w : World) :
  loggable ObjectId user = true →
  ∃ w' : World,
    logFileAction (u0 :: uri) no_faults ObjectId BSONError now action path name user
      details w
    = (Ok tt, w')
    ∧ bucket w' = bucket w ∧ files w' = files w.
Proof.
  intros Huser. unfold logFileAction. rewrite bind_run.
  destruct (getCollections_ok u0 uri w) as (w1 & -> & Hb & Hf).
  unfold loggable in Huser. rewrite bind_run. unfold new_ObjectId.
  destruct user as [|c user]; [|destruct (ObjectId (c :: user)); [|done]];
    unfold extern, no_faults; simpl; (eexists; split; [reflexivity|]; by split).
Qed.

(** C3. For a caller whose id can be logged, deleting a key that ends in
    [/] removes every bucket key and every catalog record under that prefix
    and leaves the others alone; the response is the success response,
    whether or not anything matched. *)
Theorem delete_prefix_removes_everything (u0 : ascii) (uri : str)
    (ObjectId : str → option str) (BSONError : str) (fuel : nat)
    (user : str) (now : Z) (queryKey : str) (w : World) :
  let key := normalizeKey queryKey in
  endsWith key [CHAR_FORWARD_SLASH] = true →
  (length (keysUnder (bucket w) (key_of AWS_S3_PREFIX key)) < fuel)%nat →
  loggable ObjectId user = true →
  ∃ w' : World,
    deleteHandler AWS_S3_PREFIX true (u0 :: uri) pageSize no_faults ObjectId BSONError
      fuel user now queryKey w = (Ok RespOk, w')
    ∧ (∀ k, bucket w' !! k
            = if decide (key_of AWS_S3_PREFIX key `prefix_of` k) then None
              else bucket w !! k)
    ∧ files w' = filter (fun d => ¬ key `prefix_of` filePath d) (files w).
Proof.
  cbv zeta. intros Hends Hfuel Huser. unfold deleteHandler. cbv zeta.
  destruct (normalizeKey queryKey) as [|k0 key] eqn:Ek; [done|].
  rewrite Hends. unfold try_catch, deleteS3Prefix, ensureS3Configured.
  rewrite !bind_run. change (ret tt w) with (Ok tt, w). cbv iota beta.
  destruct (delete_loop_bucket (k0 :: key) fuel None w) as (w1 & -> & Hb1 & Hf1 & _).
  { done. }
  { unfold buildKey. intros Hnil. apply app_eq_nil in Hnil as [_ ?]. done. }
  { exact Hfuel. }
  rewrite bind_run.
  destruct (getCollections_ok u0 uri w1) as (w2 & -> & Hb2 & Hf2).
  rewrite bind_run.
  destruct (deleteManyByPrefix_ok (k0 :: key) w2) as (w3 & -> & Hb3 & Hf3).
  destruct (logFileAction_ok u0 uri ObjectId BSONError now (lit "folder_delete")
              (k0 :: key) (PosixPath.basename (dropTrailingSlash (k0 :: key))) user
              NoDetails w3 Huser)
    as (w4 & -> & Hb4 & Hf4).
  exists w4. split; [done|]. split.
  - intros k. rewrite Hb4, Hb3, Hb2, Hb1, lookup_deleteAll. unfold key_of.
    destruct (decide (buildKey AWS_S3_PREFIX (k0 :: key) `prefix_of` k)) as [Hp|Hp].
    + case_decide as Hin; [done|].
      destruct (bucket w !! k) eqn:El; [|done].
      destruct Hin. apply elem_of_keysUnder. split; [by eexists|done].
    + rewrite decide_False; [done|]. intros Hin.
      apply elem_of_keysUnder in Hin as [_ ?]. done.
  - by rewrite Hf4, Hf3, Hf2, Hf1.
Qed.
End DeletePrefix.

(** ** Catalog records written by a prefix copy *)

Lemma triple_bind {A B : Type} (P : World → Prop) (m : M World A) (k : A → M World B)
    (Q : Event → Prop) (R : A → World → Prop) (R' : B → World → Prop) :
  triple P m Q R → (∀ a, triple (R a) (k a) Q R') → triple P (bind m k) Q R'.
Proof.
  intros Hm Hk w HP. destruct (Hm w HP) as (evs1 & Ht1 & Hq1 & Hr1).
  rewrite bind_run. destruct (m w) as [[a|e|] w1]; simpl in *.
  - destruct (Hk a w1 (Hr1 a eq_refl)) as (evs2 & Ht2 & Hq2 & Hr2).
    exists (evs1 ++ evs2). rewrite Ht2, Ht1, app_assoc. split; [done|].
    split; [by apply Forall_app|done].
  - exists evs1. by repeat split.
  - exists evs1. by repeat split.
Qed.

Lemma triple_ret {A : Type} (P : World → Prop) (a : A) (Q : Event → Prop) :
  triple P (ret a) Q (fun _ w => P w).
Proof. intros w HP. exists []. rewrite app_nil_r. by repeat split. Qed.

Lemma triple_weaken {A : Type} (P : World → Prop) (m : M World A)
    (Q : Event → Prop) (R R' : A → World → Prop) :
  triple P m Q R → (∀ a w, R a w → R' a w) → triple P m Q R'.
Proof.
  intros Hm HR w HP. destruct (Hm w HP) as (evs & Ht & Hq & Hr).
  exists evs. repeat split; try done. intros a Ha. by apply HR, Hr.
Qed.

Lemma triple_store_only {A : Type} (F : list FileDoc) (m : M World A) (Q : Event → Prop) :
  store_only m → (∀ e, before_catalog e → Q e) →
  triple (fun w => files w = F) m Q (fun _ w => files w = F).
Proof.
  intros Hm HQ w HP. destruct (Hm w) as (evs & Ht & Hq & Hf & _).
  exists evs. split; [done|]. split; [by eapply Forall_impl|]. intros _ _. congruence.
Qed.

Lemma triple_catalog_quiet {A : Type} (P : World → Prop) (m : M World A)
    (Q : Event → Prop) :
  (∀ w, ∃ evs, trace (m w).2 = trace w ++ evs
               ∧ Forall (fun e => is_catalog_write (call e) = false) evs) →
  (∀ e, is_catalog_write (call e) = false → Q e) →
  triple P m Q (fun _ _ => True).
Proof.
  intros Hm HQ w _. destruct (Hm w) as (evs & Ht & Hq).
  exists evs. split; [done|]. split; [by eapply Forall_impl|done].
Qed.

Section CopySync.
Variable faults : nat → bool.

Lemma triple_extern {A : Type} (c : Call) (sem : World → (A + str) * World)
    (P : World → Prop) (Q : Event → Prop) (R : A → World → Prop) :
  (∀ w, trace (sem w).2 = trace w) →
  (∀ ok, Q (MkEvent c ok)) →
  (∀ w a, P w → (sem w).1 = inl a → R a (record_event c true (sem w).2)) →
  triple P (extern faults c sem) Q R.
Proof.
  intros Hsem HQ HR w HP. unfold extern.
  destruct (faults (length (trace w))).
  - exists [MkEvent c false]. repeat split; try done. by apply Forall_singleton.
  - specialize (Hsem w). specialize (HR w).
    destruct (sem w) as [[a|e] w']; simpl in *.
    + exists [MkEvent c true]. rewrite Hsem. split; [done|].
      split; [by apply Forall_singleton|]. intros a' [= <-]. by apply HR.
    + exists [MkEvent c false]. rewrite Hsem. split; [done|].
      split; [by apply Forall_singleton|done].
Qed.

Lemma promise_all_writes (f : FileDoc → FileDoc) (Q : Event → Prop)
    (sourceFiles : list FileDoc) :
  (∀ file ok, file ∈ sourceFiles →
              Q (MkEvent (CallUpdateOne (filePath (f file)) (f file)) ok)) →
  ∀ failure,
    triple (fun _ => True)
      (promise_all
         ((fun file => let doc := f file in updateOne faults (filePath doc) doc)
            <$> sourceFiles) failure)
      Q (fun _ _ => True).
Proof.
  induction sourceFiles as [|file sourceFiles IH]; intros HQ failure w _.
  - exists []. rewrite app_nil_r. by destruct failure.
  - rewrite fmap_cons. cbn [promise_all]. cbv zeta.
    destruct (triple_extern (CallUpdateOne (filePath (f file)) (f file))
                (fun w => (inl tt, set_files (upsert (filePath (f file)) (f file) (files w)) w))
                (fun _ => True) Q (fun _ _ => True)
                ltac:(done) ltac:(intros ok; apply HQ; by left) ltac:(done) w I)
      as (evs1 & Ht1 & Hq1 & _).
    fold (updateOne faults (filePath (f file)) (f file)) in Ht1.
    destruct (updateOne faults (filePath (f file)) (f file) w) as [[[]|e|] w1];
      simpl in *.
    + destruct (IH ltac:(intros ? ? ?; apply HQ; by right) failure w1 I)
        as (evs2 & Ht2 & Hq2 & _).
      exists (evs1 ++ evs2). rewrite Ht2, Ht1, app_assoc. split; [done|].
      split; [by apply Forall_app|done].
    + destruct (IH ltac:(intros ? ? ?; apply HQ; by right)
                  (match failure with Some e0 => Some e0 | None => Some e end) w1 I)
        as (evs2 & Ht2 & Hq2 & _).
      exists (evs1 ++ evs2). rewrite Ht2, Ht1, app_assoc. split; [done|].
      split; [by apply Forall_app|done].
    + exists evs1. by repeat split.
Qed.
End CopySync.

Lemma triple_pure {A : Type} (H : Prop) (m : M World A) (Q : Event → Prop)
    (R : A → World → Prop) :
  (H → triple (fun _ => True) m Q R) → triple (fun _ => H) m Q R.
Proof. intros Hm w HP. by apply (Hm HP w). Qed.

Lemma try_catch_trace (body : M World Response) (w : World) :
  trace (try_catch body (fun e => ret (RespError 500 e)) w).2 = trace (body w).2.
Proof. unfold try_catch. by destruct (body w) as [[?|?|] ?]. Qed.

Lemma bind_Ok {S A B : Type} (m : M S A) (k : A → M S B) (s s' : S) (b : B) :
  bind m k s = (Ok b, s') → ∃ a s1, m s = (Ok a, s1) ∧ k a s1 = (Ok b, s').
Proof.
  rewrite bind_run. destruct (m s) as [[a|e|] s1]; [|done..]. by exists a, s1.
Qed.

Lemma extern_Ok {A : Type} (faults : nat → bool) (c : Call)
    (sem : World → (A + str) * World) (w w' : World) (a : A) :
  extern faults c sem w = (Ok a, w') →
  ∃ w0, sem w = (inl a, w0) ∧ w' = record_event c true w0.
Proof.
  unfold extern. destruct (faults _); [done|].
  destruct (sem w) as [[a0|e] w0]; [|done]. intros [= <- <-]. by exists w0.
Qed.

Lemma store_only_Ok {A : Type} (m : M World A) (w w' : World) (a : A) :
  store_only m → m w = (Ok a, w') →
  files w' = files w ∧ ∃ evs, trace w' = trace w ++ evs.
Proof.
  intros Hm E. destruct (Hm w) as (evs & Ht & _ & Hf & _). rewrite E in Ht, Hf.
  split; [done|]. by exists evs.
Qed.

Lemma new_ObjectId_run (ObjectId : str → option str) (BSONError text : str) (w : World) :
  new_ObjectId ObjectId BSONError text w
  = match ObjectId text with
    | Some objectId => (Ok objectId, w)
    | None => (Throw BSONError, w)
    end.
Proof. unfold new_ObjectId. by destruct (ObjectId text). Qed.

Lemma promise_all_issued (faults : nat → bool) (f : FileDoc → FileDoc)
    (sourceFiles : list FileDoc) :
  ∀ failure w w',
    promise_all
      ((fun file => let doc := f file in updateOne faults (filePath doc) doc)
         <$> sourceFiles) failure w = (Ok tt, w') →
    failure = None
    ∧ ∃ evs, trace w' = trace w ++ evs
             ∧ ∀ file, file ∈ sourceFiles →
                 MkEvent (CallUpdateOne (filePath (f file)) (f file)) true ∈ evs.
Proof.
  induction sourceFiles as [|file sourceFiles IH]; intros failure w w' H.
  - simpl in H. destruct failure; [done|]. injection H as <-. split; [done|].
    exists []. rewrite app_nil_r. split; [done|]. by intros ? ?%elem_of_nil.
  - rewrite fmap_cons in H. cbn [promise_all] in H. cbv zeta in H.
    destruct (updateOne faults (filePath (f file)) (f file) w) as [[[]|e|] w1] eqn:E;
      [| |done].
    + apply extern_Ok in E as (w0 & Hsem & ->). injection Hsem as <-.
      destruct (IH _ _ _ H) as (-> & evs & Ht & Hall). split; [done|].
      exists (MkEvent (CallUpdateOne (filePath (f file)) (f file)) true :: evs).
      split.
      { rewrite Ht. simpl. by rewrite <- app_assoc. }
      intros file' [->|Hin]%elem_of_cons; [by left|right; by apply Hall].
    + apply IH in H as [Hf _]. by destruct failure.
Qed.

Section CopyRecords.
Variable AWS_S3_PREFIX : str.
Variable aws_configured : bool.
Variable MONGODB_URI : str.
Variable pageSize : nat.
Variable faults : nat → bool.
Variable ObjectId : str → option str.
Variable BSONError : str.

Lemma logFileAction_quiet now action path name user details :
  ∀ w, ∃ evs,
    trace (logFileAction MONGODB_URI faults ObjectId BSONError now action path name user
             details w).2
    = trace w ++ evs
    ∧ Forall (fun e => is_catalog_write (call e) = false) evs.
Proof.
  intros w.
  assert (triple (fun _ => True)
            (logFileAction MONGODB_URI faults ObjectId BSONError now action path name
               user details)
            (fun e => is_catalog_write (call e) = false) (fun _ _ => True)) as Ht.
  { unfold logFileAction. apply (triple_bind _ _ _ _ (fun _ _ => True)).
    - intros w' _.
      destruct (getCollections_store_only MONGODB_URI faults w') as (evs & Ht' & Hq & _).
      exists evs. split; [done|]. split; [|done].
      eapply Forall_impl; [exact Hq|]. by intros e [? _].
    - intros _. apply (triple_bind _ _ _ _ (fun _ _ => True)).
      + intros w' _. exists [].
        destruct user as [|c user]; [by rewrite app_nil_r|].
        rewrite bind_run, new_ObjectId_run.
        destruct (ObjectId (c :: user)); by rewrite app_nil_r.
      + intros logUser. by apply triple_extern. }
  destruct (Ht w I) as (evs & H1 & H2 & _). by exists evs.
Qed.

Lemma copy_write_quiet user now sp dp F (e : Event) :
  is_catalog_write (call e) = false → copy_write ObjectId user now sp dp F e.
Proof. intros He path doc Hc. rewrite Hc in He. done. Qed.

Lemma copy_folder_triple fuel user now (sp dp : str) (F : list FileDoc) :
  triple (fun w => files w = F)
    (createS3Folder (bucketApi pageSize faults) AWS_S3_PREFIX aws_configured dp >>
     copyS3Prefix (bucketApi pageSize faults) AWS_S3_PREFIX aws_configured fuel sp dp >>
     let* objectId := new_ObjectId ObjectId BSONError user in
     updateOne faults dp (markerDoc objectId now dp) >>
     let* sourceFiles := findByPrefix faults false sp in
     let* updates :=
       mapM (fun file =>
               let* objectId := new_ObjectId ObjectId BSONError user in
               let doc := copiedDoc objectId now sp dp file in
               ret (updateOne faults (filePath doc) doc)) sourceFiles in
     promise_all updates None)
    (copy_write ObjectId user now sp dp F) (fun _ _ => True).
Proof.
  eapply triple_bind.
  { apply triple_store_only; [apply createS3Folder_store_only|].
    intros e [He _]. by apply copy_write_quiet. }
  intros ?. eapply triple_bind.
  { apply triple_store_only; [apply copyS3Prefix_store_only|].
    intros e [He _]. by apply copy_write_quiet. }
  intros ? w3 Hw3. rewrite bind_run, new_ObjectId_run.
  destruct (ObjectId user) as [objectId|] eqn:Eo;
    [|exists []; rewrite app_nil_r; by repeat split].
  revert w3 Hw3.
  change (triple (fun w => files w = F)
            (updateOne faults dp (markerDoc objectId now dp) >>
             let* sourceFiles := findByPrefix faults false sp in
             let* updates :=
               mapM (fun file =>
                       let* objectId := new_ObjectId ObjectId BSONError user in
                       let doc := copiedDoc objectId now sp dp file in
                       ret (updateOne faults (filePath doc) doc)) sourceFiles in
             promise_all updates None)
            (copy_write ObjectId user now sp dp F) (fun _ _ => True)).
  eapply triple_bind.
  { apply (triple_extern faults _ _ (fun w => files w = F) _
             (fun _ w => files w = upsert dp (markerDoc objectId now dp) F)).
    - done.
    - intros ok path doc [= <- <-]. exists objectId. split; [done|]. by left.
    - intros w [] Hw _. simpl. by rewrite Hw. }
  intros ?. eapply triple_bind.
  { unfold findByPrefix. rewrite anchored_escapeRegex.
    apply (triple_extern faults _ _ _ _
             (fun rows _ =>
                ∀ file, file ∈ rows →
                        file ∈ upsert dp (markerDoc objectId now dp) F
                        ∧ sp `prefix_of` filePath file)).
    - done.
    - intros ok. by apply copy_write_quiet.
    - intros w rows Hw [= <-] file Hin.
      apply list_elem_of_filter in Hin as [Hp Hin]. rewrite Hw in Hin.
      split; [done|]. unfold regex_test in Hp. by apply bool_decide_unpack in Hp. }
  intros sourceFiles. cbv beta. apply triple_pure. intros Hrows w5 _.
  rewrite bind_run.
  rewrite (mapM_total _
             (fun file => let doc := copiedDoc objectId now sp dp file in
                          updateOne faults (filePath doc) doc))
    by (intros x w'; by rewrite bind_run, new_ObjectId_run, Eo).
  apply (promise_all_writes faults (copiedDoc objectId now sp dp)); [|done].
  intros file ok Hin path doc [= <- <-]. exists objectId. split; [done|].
  right. exists file. destruct (Hrows file Hin). by repeat split.
Qed.

Lemma copiedDoc_follows (objectId : str) now (sp dp : str) (file : FileDoc) :
  sp `prefix_of` filePath file →
  let doc := copiedDoc objectId now sp dp file in
  filePath doc = dp ++ drop (length sp) (filePath file)
  ∧ isFolder doc = (isFolder file || endsWith (filePath doc) [CHAR_FORWARD_SLASH])
  ∧ fileName doc
    = match fileName file with
      | [] => PosixPath.basename (dropTrailingSlash (filePath doc))
      | stored => stored
      end.
Proof.
  intros [rem Hrem]. cbv zeta.
  assert (slice (filePath file) (len sp) (len (filePath file)) = rem) as Hslice.
  { rewrite Hrem. apply slice_drop_prefix. }
  unfold copiedDoc. cbn [filePath isFolder fileName]. rewrite Hslice.
  split; [by rewrite Hrem, drop_app_length|]. split; [done|].
  by destruct (fileName file).
Qed.

End CopyRecords.

(** ** The claims on the small deployment *)

Lemma delete_prefix_removes_everything_witness :
  (0 < 2)%nat
  ∧ endsWith (normalizeKey (lit "reports/")) [CHAR_FORWARD_SLASH] = true
  ∧ (length (keysUnder (bucket demoWorld) (key_of [] (normalizeKey (lit "reports/")))) < 5)%nat
  ∧ loggable hex_ObjectId demo_id = true
  ∧ ∃ w' : World,
      deleteHandler [] true demo_uri 2 no_faults hex_ObjectId demo_BSONError 5 demo_id 9
        (lit "reports/") demoWorld
      = (Ok RespOk, w')
      ∧ (∀ k, bucket w' !! k
              = if decide (key_of [] (normalizeKey (lit "reports/")) `prefix_of` k)
                then None else bucket demoWorld !! k)
      ∧ files w'
        = filter (fun d => ¬ normalizeKey (lit "reports/") `prefix_of` filePath d)
            (files demoWorld).
Proof.
  split; [lia|]. split; [vm_compute; reflexivity|]. split; [vm_compute; lia|].
  split; [vm_compute; reflexivity|].
  apply (delete_prefix_removes_everything [] 2 ltac:(lia) "m"%char
           (lit "ongodb://localhost/vault") hex_ObjectId demo_BSONError 5 demo_id 9
           (lit "reports/") demoWorld).
  - vm_compute. reflexivity.
  - vm_compute. lia.
  - vm_compute. reflexivity.
Defined.

(** C9, the claim as written, fails on a truncated page that carries no
    continuation token: the walk sends its one request, stops there, and
    never asks for the page that reports no further pages. *)
Lemma walk_stops_at_page_without_token :
  let d := deleteS3Prefix scriptedApi (lit "up") true 5 (lit "p/")
             (MkScript tokenlessPages []) in
  let c := copyS3Prefix scriptedApi (lit "up") true 5 (lit "p/") (lit "q/")
             (MkScript tokenlessPages []) in
  first_final_page tokenlessPages = Some 1%nat
  ∧ IsTruncated <$> tokenlessPages = [true; false]
  ∧ d.1 = Ok tt
  ∧ list_requests d.2 = [CallListObjectsV2 (lit "up/p/") None]
  ∧ pending d.2 = [MkListResult [lit "p/c"] false None]
  ∧ c.1 = Ok tt
  ∧ list_requests c.2 = [CallListObjectsV2 (lit "up/p/") None]
  ∧ pending c.2 = [MkListResult [lit "p/c"] false None].
Proof. vm_compute. done. Qed.

Lemma prefix_walk_terminates_witness :
  first_final_page demoPages = Some 2%nat
  ∧ (2 < 3)%nat
  ∧ forallb page_ok demoPages = true
  ∧ ((deleteS3Prefix scriptedApi (lit "up") true 3 (lit "p/") (MkScript demoPages [])).1
     = Ok tt
     ∧ list_requests
         (deleteS3Prefix scriptedApi (lit "up") true 3 (lit "p/") (MkScript demoPages [])).2
       = [CallListObjectsV2 (lit "up/p/") None;
          CallListObjectsV2 (lit "up/p/") (Some (lit "t1"));
          CallListObjectsV2 (lit "up/p/") (Some (lit "t2"))]).
Proof.
  split; [reflexivity|]. split; [lia|]. split; [reflexivity|].
  destruct (prefix_walk_terminates (lit "up") demoPages 2 3 (lit "p/") (lit "q/")
              eq_refl ltac:(lia)) as (n & _ & _ & Hsame & (H1 & _ & H3) & _).
  rewrite (Hsame eq_refl) in H3. split; [exact H1|exact H3].
Defined.



(** ** Names of records: [path.basename] on normalised keys *)

Lemma basename_loop_slashes (k : nat) (r : str) (i : Z) :
  basename_loop (replicate k CHAR_FORWARD_SLASH ++ r) i 0 (-1) true
  = basename_loop r (i - Z.of_nat k) 0 (-1) true.
Proof.
  revert i. induction k as [|k IH]; intros i.
  - simpl. f_equal. lia.
  - cbn [replicate app basename_loop]. rewrite Ascii.eqb_refl. cbn [negb].
    rewrite IH. f_equal. lia.
Qed.

Lemma basename_loop_name (rn r : str) (i e : Z) :
  e ≠ -1 → CHAR_FORWARD_SLASH ∉ rn →
  basename_loop (rn ++ r) i 0 e false = basename_loop r (i - len rn) 0 e false.
Proof.
  intros He. revert i. induction rn as [|c rn IH]; intros i Hn.
  - simpl. f_equal. unfold len. simpl. lia.
  - apply not_elem_of_cons in Hn as [Hc Hn].
    cbn [app basename_loop].
    destruct (Ascii.eqb_spec c CHAR_FORWARD_SLASH) as [->|_]; [done|].
    destruct (Z.eqb_spec e (-1)) as [?|_]; [done|].
    rewrite IH by done. f_equal. rewrite len_cons. lia.
Qed.

Lemma basename_spec (pre name : str) (k : nat) :
  name ≠ [] → CHAR_FORWARD_SLASH ∉ name →
  pre = [] ∨ last pre = Some CHAR_FORWARD_SLASH →
  basename (pre ++ name ++ replicate k CHAR_FORWARD_SLASH) = name.
Proof.
  intros Hne Hn Hpre. unfold basename.
  rewrite !reverse_app, reverse_replicate, <- app_assoc.
  rewrite basename_loop_slashes.
  destruct (reverse name) as [|c rn] eqn:Er.
  { apply (f_equal reverse) in Er. rewrite reverse_involutive in Er. done. }
  assert (CHAR_FORWARD_SLASH ∉ c :: rn) as Hn'.
  { rewrite <- Er. by rewrite elem_of_reverse. }
  assert (len name = 1 + len rn) as Hlen.
  { unfold len. rewrite <- (length_reverse name), Er. simpl. lia. }
  apply not_elem_of_cons in Hn' as [Hc Hrn].
  cbn [app basename_loop].
  destruct (Ascii.eqb_spec c CHAR_FORWARD_SLASH) as [->|_]; [done|].
  cbn [Z.eqb Pos.eqb]. change (-1 =? -1) with true. cbv iota.
  rewrite !len_app.
  assert (len (replicate k CHAR_FORWARD_SLASH) = Z.of_nat k) as ->.
  { unfold len. by rewrite length_replicate. }
  pose proof (len_nonneg pre). pose proof (len_nonneg rn).
  rewrite basename_loop_name by (done || lia).
  assert (∀ i e, i = len pre - 1 →
            basename_loop (reverse pre) i 0 e false = (len pre, e)) as Hloop.
  { intros i e ->. destruct Hpre as [-> | Hl].
    - simpl. by rewrite len_nil.
    - destruct (reverse pre) as [|x rp] eqn:Ep.
      { apply (f_equal reverse) in Ep. rewrite reverse_involutive in Ep.
        subst pre. done. }
      assert (x = CHAR_FORWARD_SLASH) as ->.
      { rewrite <- (reverse_involutive pre), Ep, reverse_cons, last_snoc in Hl.
        congruence. }
      cbn [basename_loop]. rewrite Ascii.eqb_refl. cbn [negb]. f_equal; lia. }
  rewrite Hloop by lia.
  replace (len pre + (len name + Z.of_nat k) - 1 - Z.of_nat k + 1)
    with (len pre + len name) by lia.
  destruct (Z.eqb_spec (len pre + len name) (-1)) as [?|_]; [lia|].
  apply slice_middle.
Qed.

Lemma basename_name (dir name : str) :
  name ≠ [] → CHAR_FORWARD_SLASH ∉ name →
  dir = [] ∨ last dir = Some CHAR_FORWARD_SLASH →
  basename (dir ++ name) = name.
Proof.
  intros Hne Hn Hd. pose proof (basename_spec dir name 0 Hne Hn Hd) as H.
  simpl in H. by rewrite app_nil_r in H.
Qed.

Lemma canonical_name (key : str) :
  canonical key → key ≠ [] →
  ∃ (dir name : str) (k : nat),
    key = dir ++ name ++ replicate k CHAR_FORWARD_SLASH
    ∧ (k ≤ 1)%nat
    ∧ (name ≠ []) ∧ (CHAR_FORWARD_SLASH ∉ name)
    ∧ (dir = [] ∨ last dir = Some CHAR_FORWARD_SLASH)
    ∧ canonical dir.
Proof.
  intros [-> | [-> | [-> | (normals & Hne & Hn & Hk)]]] Hkey; [done| | |].
  - exists [], (lit "."), 0%nat. split_and!; [done|lia|done| |by left|by left].
    apply (bool_decide_unpack _). by vm_compute.
  - exists [], (lit "."), 1%nat. split_and!; [done|lia|done| |by left|by left].
    apply (bool_decide_unpack _). by vm_compute.
  - destruct normals as [|top rest]; [done|].
    apply Forall_cons in Hn as [Htop Hrest].
    destruct Htop as (Ht1 & _ & _ & Ht2).
    exists (match rest with [] => [] | _ => join_rev rest ++ [CHAR_FORWARD_SLASH] end), top.
    rewrite join_rev_cons in Hk.
    assert (match rest with
            | [] => []
            | _ :: _ => join_rev rest ++ [CHAR_FORWARD_SLASH]
            end = [] ∨
            last (match rest with
                  | [] => []
                  | _ :: _ => join_rev rest ++ [CHAR_FORWARD_SLASH]
                  end) = Some CHAR_FORWARD_SLASH) as Hdir.
    { destruct rest; [by left|right]. by rewrite last_snoc. }
    assert (canonical (match rest with
                       | [] => []
                       | _ :: _ => join_rev rest ++ [CHAR_FORWARD_SLASH]
                       end)) as Hcan.
    { destruct rest as [|r rest']; [by left|].
      right; right; right. exists (r :: rest'). split; [done|]. split; [done|by right]. }
    destruct Hk as [-> | ->].
    + exists 0%nat. simpl. rewrite app_nil_r. split_and!; done || lia.
    + exists 1%nat. simpl. rewrite <- app_assoc. split_and!; done || lia.
Qed.

Lemma dropTrailingSlash_snoc (s : str) :
  dropTrailingSlash (s ++ [CHAR_FORWARD_SLASH]) = s.
Proof.
  unfold dropTrailingSlash. rewrite reverse_snoc. rewrite Ascii.eqb_refl.
  apply reverse_involutive.
Qed.

Lemma dropTrailingSlash_id (s : str) :
  last s ≠ Some CHAR_FORWARD_SLASH → dropTrailingSlash s = s.
Proof.
  intros Hl. unfold dropTrailingSlash.
  destruct (reverse s) as [|c r] eqn:Er; [done|].
  destruct (Ascii.eqb_spec c CHAR_FORWARD_SLASH) as [->|_]; [|done].
  destruct Hl. rewrite <- (reverse_involutive s), Er, reverse_cons. apply last_snoc.
Qed.

(** X1. The name the server stores with a record and writes to the activity
    log, [path.basename] of the normalised key, is the last segment of that
    key: it is non-empty, holds no [/], is the same with and without the
    key's trailing [/], and the key is a directory part followed by the
    name and at most one [/]. *)
Theorem record_name_is_last_segment (key : str) :
  let safeKey := normalizeKey key in
  let name := basename safeKey in
  safeKey ≠ [] →
  (name ≠ []) ∧ (CHAR_FORWARD_SLASH ∉ name)
  ∧ basename (dropTrailingSlash safeKey) = name
  ∧ ∃ dir : str,
      (dir = [] ∨ last dir = Some CHAR_FORWARD_SLASH)
      ∧ (safeKey = dir ++ name ∨ safeKey = dir ++ name ++ [CHAR_FORWARD_SLASH]).
Proof.
  cbv zeta. intros Hne.
  destruct (canonical_name _ (normalizeKey_canonical key) Hne)
    as (dir & name & k & Hk & Hle & Hname & Hslash & Hdir & _).
  assert (basename (normalizeKey key) = name) as Hb.
  { rewrite Hk. by apply basename_spec. }
  assert (last (dir ++ name) ≠ Some CHAR_FORWARD_SLASH) as Hlast.
  { rewrite last_app. destruct (last name) as [x|] eqn:El.
    - intros [= ->]. apply Hslash. by apply last_Some_elem_of.
    - by apply last_None in El. }
  rewrite Hb. split; [done|]. split; [done|]. split.
  - rewrite Hk. destruct k as [|[|k]]; [| |lia].
    + simpl. rewrite app_nil_r, dropTrailingSlash_id by done.
      by apply basename_name.
    + simpl. rewrite app_assoc, dropTrailingSlash_snoc.
      by apply basename_name.
  - exists dir. split; [done|]. rewrite Hk.
    destruct k as [|[|k]]; [| |lia]; simpl; [left; by rewrite app_nil_r|by right].
Qed.

Lemma record_name_is_last_segment_witness :
  normalizeKey (lit "reports\2024\..\q1.pdf/") ≠ []
  ∧ (basename (normalizeKey (lit "reports\2024\..\q1.pdf/")) ≠ [])
  ∧ (CHAR_FORWARD_SLASH ∉ basename (normalizeKey (lit "reports\2024\..\q1.pdf/")))
  ∧ basename (dropTrailingSlash (normalizeKey (lit "reports\2024\..\q1.pdf/")))
    = basename (normalizeKey (lit "reports\2024\..\q1.pdf/"))
  ∧ ∃ dir : str,
      (dir = [] ∨ last dir = Some CHAR_FORWARD_SLASH)
      ∧ (normalizeKey (lit "reports\2024\..\q1.pdf/")
         = dir ++ basename (normalizeKey (lit "reports\2024\..\q1.pdf/"))
         ∨ normalizeKey (lit "reports\2024\..\q1.pdf/")
           = dir ++ basename (normalizeKey (lit "reports\2024\..\q1.pdf/"))
               ++ [CHAR_FORWARD_SLASH]).
Proof.
  assert (normalizeKey (lit "reports\2024\..\q1.pdf/") ≠ []) as Hne by (by vm_compute).
  split; [exact Hne|].
  exact (record_name_is_last_segment (lit "reports\2024\..\q1.pdf/") Hne).
Defined.

(** ** The configured key prefix *)

Lemma stripLeadingSlashes_split (s : str) :
  ∃ k : nat, s = replicate k CHAR_FORWARD_SLASH ++ stripLeadingSlashes s
             ∧ head (stripLeadingSlashes s) ≠ Some CHAR_FORWARD_SLASH.
Proof.
  induction s as [|c s (k & Hk & Hh)].
  - by exists 0%nat.
  - cbn [stripLeadingSlashes].
    destruct (Ascii.eqb_spec c CHAR_FORWARD_SLASH) as [->|Hc].
    + exists (S k). split; [|done]. simpl. by rewrite <- Hk.
    + exists 0%nat. split; [done|]. simpl. congruence.
Qed.

Lemma stripTrailingSlashes_split (s : str) :
  ∃ k : nat, s = stripTrailingSlashes s ++ replicate k CHAR_FORWARD_SLASH
             ∧ last (stripTrailingSlashes s) ≠ Some CHAR_FORWARD_SLASH.
Proof.
  unfold stripTrailingSlashes.
  destruct (stripLeadingSlashes_split (reverse s)) as (k & Hk & Hh).
  exists k. split.
  - apply (f_equal reverse) in Hk.
    by rewrite reverse_involutive, reverse_app, reverse_replicate in Hk.
  - by rewrite last_reverse.
Qed.

Lemma stripTrailingSlashes_head (s : str) :
  head s ≠ Some CHAR_FORWARD_SLASH →
  head (stripTrailingSlashes s) ≠ Some CHAR_FORWARD_SLASH.
Proof.
  intros Hh. destruct (stripTrailingSlashes_split s) as (k & Hk & _).
  destruct (stripTrailingSlashes s) as [|c t]; [done|].
  rewrite Hk in Hh. exact Hh.
Qed.

(** X2. [normalizePrefix] maps the empty prefix to itself and any other
    prefix to its text between the leading and the trailing run of [/],
    followed by one [/].  A prefix made of [/] only therefore becomes the
    single [/], not the empty prefix. *)
Theorem normalizePrefix_shape (prefix : str) :
  prefix ≠ [] →
  ∃ (core : str) (k1 k2 : nat),
    prefix = replicate k1 CHAR_FORWARD_SLASH ++ core ++ replicate k2 CHAR_FORWARD_SLASH
    ∧ head core ≠ Some CHAR_FORWARD_SLASH
    ∧ last core ≠ Some CHAR_FORWARD_SLASH
    ∧ normalizePrefix prefix = core ++ [CHAR_FORWARD_SLASH]
    ∧ (core = [] ↔ Forall (fun c => c = CHAR_FORWARD_SLASH) prefix).
Proof.
  intros Hne.
  destruct (stripLeadingSlashes_split prefix) as (k1 & H1 & Hh).
  destruct (stripTrailingSlashes_split (stripLeadingSlashes prefix)) as (k2 & H2 & Hl).
  exists (stripTrailingSlashes (stripLeadingSlashes prefix)), k1, k2.
  split; [by rewrite <- H2|]. split; [by apply stripTrailingSlashes_head|].
  split; [done|]. split; [by destruct prefix|].
  set (core := stripTrailingSlashes (stripLeadingSlashes prefix)) in *.
  split.
  - intros Hc. rewrite H1, H2, Hc. apply Forall_app. split; [|apply Forall_app; split].
    + by apply Forall_replicate.
    + done.
    + by apply Forall_replicate.
  - intros Hall. destruct core as [|c t] eqn:Ec; [done|].
    rewrite H1, H2 in Hall. apply Forall_app in Hall as [_ Hall].
    apply Forall_app in Hall as [Hall _]. apply Forall_cons in Hall as [-> _].
    pose proof (stripTrailingSlashes_head (stripLeadingSlashes prefix) Hh) as Hh'.
    fold core in Hh'. rewrite Ec in Hh'. done.
Qed.

Lemma normalizePrefix_shape_witness :
  lit "//team/vault//" ≠ []
  ∧ ∃ (core : str) (k1 k2 : nat),
      lit "//team/vault//"
      = replicate k1 CHAR_FORWARD_SLASH ++ core ++ replicate k2 CHAR_FORWARD_SLASH
      ∧ head core ≠ Some CHAR_FORWARD_SLASH
      ∧ last core ≠ Some CHAR_FORWARD_SLASH
      ∧ normalizePrefix (lit "//team/vault//") = core ++ [CHAR_FORWARD_SLASH]
      ∧ (core = [] ↔ Forall (fun c => c = CHAR_FORWARD_SLASH) (lit "//team/vault//")).
Proof.
  split; [done|]. apply (normalizePrefix_shape (lit "//team/vault//")). done.
Defined.

(** ** Segments of a normalised key *)

(** X3. Apart from the empty key and the two keys [.] and [./], a key
    returned by [normalizeKey] is a sequence of segments separated by single
    [/], optionally closed by one [/]: no segment is empty, [.] or [..]. *)
Theorem normalizeKey_segments (key : str) :
  let safeKey := normalizeKey key in
  safeKey = [] ∨ safeKey = lit "." ∨ safeKey = lit "./"
  ∨ (segments (dropTrailingSlash safeKey) ≠ []
     ∧ ∀ seg, seg ∈ segments (dropTrailingSlash safeKey) →
         seg ≠ [] ∧ seg ≠ lit "." ∧ seg ≠ lit ".." ∧ CHAR_FORWARD_SLASH ∉ seg).
Proof.
  cbv zeta.
  destruct (normalizeKey_canonical key) as [H | [H | [H | (normals & Hne & Hn & Hk)]]];
    [by left|right; by left|right; right; by left|].
  right; right; right.
  assert (Forall good_seg normals) as Hg.
  { eapply Forall_impl; [exact Hn|]. apply normal_good. }
  assert (dropTrailingSlash (normalizeKey key) = join_rev normals) as ->.
  { destruct Hk as [-> | ->]; [|apply dropTrailingSlash_snoc].
    apply dropTrailingSlash_id. destruct normals as [|top rest]; [done|].
    apply Forall_cons in Hg as [Htop Hrest].
    rewrite last_join_rev by done. destruct Htop as [Ht1 Ht2].
    destruct (last top) as [x|] eqn:El; [|done].
    intros [= ->]. apply Ht2. by apply last_Some_elem_of. }
  rewrite segments_join_rev by done. split.
  - intros Hr. apply (f_equal reverse) in Hr. by rewrite reverse_involutive in Hr.
  - intros seg Hin. rewrite elem_of_reverse in Hin.
    rewrite Forall_forall in Hn. apply (Hn seg Hin).
Qed.

(** ** Properties kept along a run *)

Lemma preserves_ret {A : Type} (I : World → Prop) (a : A) : preserves I (ret a).
Proof. by intros w. Qed.

Lemma preserves_throw {A : Type} (I : World → Prop) (e : str) :
  preserves I (throw (A := A) e).
Proof. by intros w. Qed.

Lemma preserves_out_of_fuel {A : Type} (I : World → Prop) :
  preserves I (out_of_fuel (A := A)).
Proof. by intros w. Qed.

Lemma preserves_bind {A B : Type} (I : World → Prop) (m : M World A) (k : A → M World B) :
  preserves I m → (∀ a, preserves I (k a)) → preserves I (bind m k).
Proof.
  intros Hm Hk w Hw. specialize (Hm w Hw). unfold bind.
  destruct (m w) as [[a| |] w1]; simpl in *; [by apply Hk|done|done].
Qed.

Lemma preserves_try_catch {A : Type} (I : World → Prop) (m : M World A)
    (h : str → M World A) :
  preserves I m → (∀ e, preserves I (h e)) → preserves I (try_catch m h).
Proof.
  intros Hm Hh w Hw. specialize (Hm w Hw). unfold try_catch.
  destruct (m w) as [[a| |] w1]; simpl in *; [done|by apply Hh|done].
Qed.

Lemma preserves_if {A : Type} (I : World → Prop) (c : bool) (m1 m2 : M World A) :
  preserves I m1 → preserves I m2 → preserves I (if c then m1 else m2).
Proof. by destruct c. Qed.

Lemma preserves_extern {A : Type} (I : World → Prop) (faults : nat → bool) (c : Call)
    (sem : World → (A + str) * World) :
  (∀ w ok, I w → I (record_event c ok w)) →
  (∀ w, I w → I (sem w).2) →
  preserves I (extern faults c sem).
Proof.
  intros Hev Hsem w Hw. unfold extern.
  destruct (faults (length (trace w))); [by apply Hev|].
  specialize (Hsem w Hw). destruct (sem w) as [[a|e] w1]; simpl in *; by apply Hev.
Qed.

Lemma preserves_promise_all (I : World → Prop) (updates : list (M World unit)) :
  Forall (preserves I) updates → ∀ failure, preserves I (promise_all updates failure).
Proof.
  induction 1 as [|u updates Hu _ IH]; intros failure w Hw.
  - simpl. by destruct failure.
  - cbn [promise_all]. specialize (Hu w Hw).
    destruct (u w) as [[a| |] w1]; simpl in *; [by apply IH|by apply IH|done].
Qed.

Lemma new_ObjectId_preserves (I : World → Prop) (ObjectId : str → option str)
    (BSONError text : str) :
  preserves I (new_ObjectId ObjectId BSONError text).
Proof. intros w Hw. rewrite new_ObjectId_run. by destruct (ObjectId text). Qed.

(** The id the activity log records for a caller. *)
Lemma logUser_preserves (I : World → Prop) (ObjectId : str → option str)
    (BSONError user : str) :
  preserves I
    (match user with
     | [] => ret None
     | _ => let* objectId := new_ObjectId ObjectId BSONError user in ret (Some objectId)
     end).
Proof.
  destruct user; [apply preserves_ret|].
  apply preserves_bind; [apply new_ObjectId_preserves|]. intros ?. apply preserves_ret.
Qed.

Lemma logFileAction_preserves (I : World → Prop) (uri : str) (faults : nat → bool)
    (ObjectId : str → option str) (BSONError : str) now action path name user details :
  preserves I (getCollections uri faults) →
  (∀ logUser,
     preserves I
       (extern faults (CallInsertLog action)
          (fun w =>
             (inl tt,
              set_logs (logs w ++ [MkLogEntry action path name details logUser now]) w)))) →
  preserves I
    (logFileAction uri faults ObjectId BSONError now action path name user details).
Proof.
  intros Hc Hins. unfold logFileAction. apply preserves_bind; [done|]. intros _.
  apply preserves_bind; [apply logUser_preserves|]. intros logUser. apply Hins.
Qed.

(** A property kept by the five commands, sent for keys below the configured
    prefix, is kept by every function of the S3 client. *)
Section ClientInvariant.
Variable AWS_S3_PREFIX : str.
Variable aws_configured : bool.
Variable api : S3Api World.
Variable I : World → Prop.
Hypothesis I_put : ∀ key body ct,
  preserves I (PutObject api (buildKey AWS_S3_PREFIX key) body ct).
Hypothesis I_delete : ∀ key, preserves I (DeleteObject api (buildKey AWS_S3_PREFIX key)).
Hypothesis I_list : ∀ prefix token, preserves I (ListObjectsV2 api prefix token).
Hypothesis I_deleteObjects : ∀ keys, preserves I (DeleteObjects api keys).
Hypothesis I_copy : ∀ src dst,
  preserves I (CopyObject api (buildKey AWS_S3_PREFIX src) (buildKey AWS_S3_PREFIX dst)).

Lemma ensureS3Configured_preserves :
  preserves I (ensureS3Configured (S := World) aws_configured).
Proof. unfold ensureS3Configured. destruct aws_configured; by intros w. Qed.

Lemma uploadS3Object_preserves key buffer ct :
  preserves I (uploadS3Object api AWS_S3_PREFIX aws_configured key buffer ct).
Proof.
  apply preserves_bind; [apply ensureS3Configured_preserves|]. intros _. apply I_put.
Qed.

Lemma deleteS3Object_preserves key :
  preserves I (deleteS3Object api AWS_S3_PREFIX aws_configured key).
Proof.
  apply preserves_bind; [apply ensureS3Configured_preserves|]. intros _. apply I_delete.
Qed.

Lemma createS3Folder_preserves key :
  preserves I (createS3Folder api AWS_S3_PREFIX aws_configured key).
Proof.
  apply preserves_bind; [apply ensureS3Configured_preserves|]. intros _. apply I_put.
Qed.

Lemma copyS3Object_preserves src dst :
  preserves I (copyS3Object api AWS_S3_PREFIX aws_configured src dst).
Proof.
  apply preserves_bind; [apply ensureS3Configured_preserves|]. intros _. apply I_copy.
Qed.

Lemma deleteS3Prefix_preserves fuel prefix :
  preserves I (deleteS3Prefix api AWS_S3_PREFIX aws_configured fuel prefix).
Proof.
  apply preserves_bind; [apply ensureS3Configured_preserves|]. intros _.
  generalize (@None str). induction fuel as [|fuel IH]; intros token.
  - apply preserves_out_of_fuel.
  - cbn [deleteS3Prefix_loop]. apply preserves_bind; [apply I_list|]. intros listResult.
    apply preserves_bind.
    { apply preserves_if; [apply I_deleteObjects|apply preserves_ret]. }
    intros _. cbv zeta. apply preserves_if; [apply IH|apply preserves_ret].
Qed.

Lemma copyS3Prefix_items_preserves src dst contents :
  preserves I (copyS3Prefix_items api AWS_S3_PREFIX aws_configured src dst contents).
Proof.
  induction contents as [|item contents IH]; [apply preserves_ret|].
  cbn [copyS3Prefix_items]. apply preserves_bind; [|by intros _].
  apply preserves_if; [apply copyS3Object_preserves|apply preserves_ret].
Qed.

Lemma copyS3Prefix_preserves fuel src dst :
  preserves I (copyS3Prefix api AWS_S3_PREFIX aws_configured fuel src dst).
Proof.
  apply preserves_bind; [apply ensureS3Configured_preserves|]. intros _.
  generalize (@None str). induction fuel as [|fuel IH]; intros token.
  - apply preserves_out_of_fuel.
  - cbn [copyS3Prefix_loop]. apply preserves_bind; [apply I_list|]. intros listResult.
    apply preserves_bind; [apply copyS3Prefix_items_preserves|].
    intros _. cbv zeta. apply preserves_if; [apply IH|apply preserves_ret].
Qed.
End ClientInvariant.

(** A property kept by the S3 client and by the calls on the catalog is kept
    by every handler. *)
Section HandlerInvariant.
Variable AWS_S3_PREFIX : str.
Variable aws_configured : bool.
Variable MONGODB_URI : str.
Variable pageSize : nat.
Variable faults : nat → bool.
Variable Buffer_from_base64 : str → str.
Variable ObjectId : str → option str.
Variable BSONError : str.
Variable I : World → Prop.

Local Abbreviation api := (bucketApi pageSize faults).

Hypothesis I_upload : ∀ key buffer ct,
  preserves I (uploadS3Object api AWS_S3_PREFIX aws_configured key buffer ct).
Hypothesis I_deleteObject : ∀ key,
  preserves I (deleteS3Object api AWS_S3_PREFIX aws_configured key).
Hypothesis I_folder : ∀ key,
  preserves I (createS3Folder api AWS_S3_PREFIX aws_configured key).
Hypothesis I_copyObject : ∀ src dst,
  preserves I (copyS3Object api AWS_S3_PREFIX aws_configured src dst).
Hypothesis I_deletePrefix : ∀ fuel prefix,
  preserves I (deleteS3Prefix api AWS_S3_PREFIX aws_configured fuel prefix).
Hypothesis I_copyPrefix : ∀ fuel src dst,
  preserves I (copyS3Prefix api AWS_S3_PREFIX aws_configured fuel src dst).
Hypothesis I_collections : preserves I (getCollections MONGODB_URI faults).
Hypothesis I_find : ∀ sorted prefix, preserves I (findByPrefix faults sorted prefix).
Hypothesis I_findOne : ∀ path, preserves I (findOne faults path).
Hypothesis I_updateOne : ∀ doc, preserves I (updateOne faults (filePath doc) doc).
Hypothesis I_deleteOne : ∀ path, preserves I (deleteOne faults path).
Hypothesis I_deleteMany : ∀ prefix, preserves I (deleteManyByPrefix faults prefix).
Hypothesis I_log : ∀ now action path name user details,
  preserves I (logFileAction MONGODB_URI faults ObjectId BSONError now action path name user
      details).

Lemma copy_updates_preserves user now sourcePrefix destPrefix sourceFiles :
  preserves I
    (let* updates :=
       mapM (fun file =>
               let* objectId := new_ObjectId ObjectId BSONError user in
               let doc := copiedDoc objectId now sourcePrefix destPrefix file in
               ret (updateOne faults (filePath doc) doc)) sourceFiles in
     promise_all updates None).
Proof.
  intros w Hw. rewrite bind_run, mapM_copy_updates.
  destruct sourceFiles as [|file sourceFiles]; [done|].
  destruct (ObjectId user) as [objectId|]; [|done].
  apply preserves_promise_all; [|done].
  apply Forall_fmap, Forall_forall. intros file' _. apply I_updateOne.
Qed.

Local Ltac step :=
  first [ apply preserves_ret
        | apply I_upload | apply I_deleteObject | apply I_folder | apply I_copyObject
        | apply I_deletePrefix | apply I_copyPrefix | apply I_collections
        | apply I_find | apply I_findOne | apply I_deleteOne | apply I_deleteMany
        | apply I_log
        | apply new_ObjectId_preserves
        | apply copy_updates_preserves
        | apply (I_updateOne (MkFileDoc _ _ _ _ _ _))
        | apply preserves_bind; [|intros ?]
        | apply preserves_if ].

Lemma listHandler_preserves now queryPrefix :
  preserves I (listHandler MONGODB_URI faults now queryPrefix).
Proof.
  unfold listHandler. apply preserves_try_catch; [|intros e; apply preserves_ret].
  cbv zeta. repeat step.
Qed.

Lemma uploadHandler_preserves user now key content contentType :
  preserves I (uploadHandler AWS_S3_PREFIX aws_configured MONGODB_URI pageSize faults
                 Buffer_from_base64 ObjectId BSONError user now key content contentType).
Proof.
  unfold uploadHandler. apply preserves_try_catch; [|intros e; apply preserves_ret].
  cbv zeta. destruct (normalizeKey key); [apply preserves_ret|].
  destruct content; [apply preserves_ret|]. repeat step.
Qed.

Lemma createFolderHandler_preserves user now key :
  preserves I (createFolderHandler AWS_S3_PREFIX aws_configured MONGODB_URI pageSize
                 faults ObjectId BSONError user now key).
Proof.
  unfold createFolderHandler. apply preserves_try_catch; [|intros e; apply preserves_ret].
  cbv zeta. destruct (normalizeKey key); [apply preserves_ret|]. repeat step.
Qed.

Lemma copyHandler_preserves fuel user now sourceKey destinationKey :
  preserves I (copyHandler AWS_S3_PREFIX aws_configured MONGODB_URI pageSize faults ObjectId
      BSONError
                 fuel user now sourceKey destinationKey).
Proof.
  unfold copyHandler. apply preserves_try_catch; [|intros e; apply preserves_ret].
  cbv zeta. destruct (normalizeKey sourceKey); [apply preserves_ret|].
  destruct (normalizeKey destinationKey); [apply preserves_ret|].
  repeat step.
Qed.

Lemma deleteHandler_preserves fuel user now queryKey :
  preserves I (deleteHandler AWS_S3_PREFIX aws_configured MONGODB_URI pageSize faults ObjectId
      BSONError
                 fuel user now queryKey).
Proof.
  unfold deleteHandler. apply preserves_try_catch; [|intros e; apply preserves_ret].
  cbv zeta. destruct (normalizeKey queryKey); [apply preserves_ret|]. repeat step.
Qed.

Lemma runMutation_preserves fuel user now (m : Mutation) :
  preserves I (runMutation AWS_S3_PREFIX aws_configured MONGODB_URI pageSize faults
                 Buffer_from_base64 ObjectId BSONError fuel user now m).
Proof.
  destruct m; cbn [runMutation].
  - apply uploadHandler_preserves.
  - apply createFolderHandler_preserves.
  - apply copyHandler_preserves.
  - apply deleteHandler_preserves.
Qed.
End HandlerInvariant.

(** A property that does not look at the bucket and is kept when a store
    call is recorded is kept by the S3 client. *)
Section StoreBlind.
Variable AWS_S3_PREFIX : str.
Variable aws_configured : bool.
Variable pageSize : nat.
Variable faults : nat → bool.
Variable I : World → Prop.
Hypothesis I_event : ∀ c ok w, is_store_call c = true → I w → I (record_event c ok w).
Hypothesis I_bucket : ∀ b w, I w → I (set_bucket b w).

Local Abbreviation api := (bucketApi pageSize faults).

Lemma put_blind key body ct : preserves I (PutObject api key body ct).
Proof.
  apply preserves_extern; [intros; by apply I_event|]. intros w Hw. by apply I_bucket.
Qed.

Lemma delete_blind key : preserves I (DeleteObject api key).
Proof.
  apply preserves_extern; [intros; by apply I_event|]. intros w Hw. by apply I_bucket.
Qed.

Lemma list_blind prefix token : preserves I (ListObjectsV2 api prefix token).
Proof. apply preserves_extern; [intros; by apply I_event|]. by intros w Hw. Qed.

Lemma deleteObjects_blind keys : preserves I (DeleteObjects api keys).
Proof.
  apply preserves_extern; [intros; by apply I_event|]. intros w Hw. by apply I_bucket.
Qed.

Lemma copy_blind src dst : preserves I (CopyObject api src dst).
Proof.
  apply preserves_extern; [intros; by apply I_event|]. intros w Hw.
  destruct (bucket w !! src); [by apply I_bucket|done].
Qed.

Lemma uploadS3Object_blind key buffer ct :
  preserves I (uploadS3Object api AWS_S3_PREFIX aws_configured key buffer ct).
Proof. apply uploadS3Object_preserves. intros. apply put_blind. Qed.

Lemma deleteS3Object_blind key :
  preserves I (deleteS3Object api AWS_S3_PREFIX aws_configured key).
Proof. apply deleteS3Object_preserves. intros. apply delete_blind. Qed.

Lemma createS3Folder_blind key :
  preserves I (createS3Folder api AWS_S3_PREFIX aws_configured key).
Proof. apply createS3Folder_preserves. intros. apply put_blind. Qed.

Lemma copyS3Object_blind src dst :
  preserves I (copyS3Object api AWS_S3_PREFIX aws_configured src dst).
Proof. apply copyS3Object_preserves. intros. apply copy_blind. Qed.

Lemma deleteS3Prefix_blind fuel prefix :
  preserves I (deleteS3Prefix api AWS_S3_PREFIX aws_configured fuel prefix).
Proof. apply deleteS3Prefix_preserves; [apply list_blind|apply deleteObjects_blind]. Qed.

Lemma copyS3Prefix_blind fuel src dst :
  preserves I (copyS3Prefix api AWS_S3_PREFIX aws_configured fuel src dst).
Proof. apply copyS3Prefix_preserves; [apply list_blind|intros; apply copy_blind]. Qed.
End StoreBlind.

(** ** The catalog holds one record per path *)

Lemma upsert_paths (doc : FileDoc) (docs : list FileDoc) :
  filePath <$> upsert (filePath doc) doc docs
  = if decide (filePath doc ∈ filePath <$> docs) then filePath <$> docs
    else (filePath <$> docs) ++ [filePath doc].
Proof.
  induction docs as [|d docs IH]; cbn [upsert fmap list_fmap].
  - rewrite decide_False; [done|]. apply not_elem_of_nil.
  - destruct (decide (filePath d = filePath doc)) as [Heq|Hne].
    + rewrite decide_True; [|rewrite Heq; apply list_elem_of_here].
      cbn [fmap list_fmap]. by rewrite Heq.
    + cbn [fmap list_fmap]. rewrite IH.
      destruct (decide (filePath doc ∈ filePath <$> docs)) as [Hin|Hnin].
      * rewrite decide_True; [done|]. by apply list_elem_of_further.
      * rewrite decide_False; [done|].
        intros Hin. apply elem_of_cons in Hin as [?|?]; [congruence|done].
Qed.

Lemma upsert_NoDup (doc : FileDoc) (docs : list FileDoc) :
  NoDup (filePath <$> docs) → NoDup (filePath <$> upsert (filePath doc) doc docs).
Proof.
  intros Hnd. rewrite upsert_paths. case_decide as Hin; [done|].
  apply NoDup_app. split; [done|]. split; [|apply NoDup_singleton].
  intros x Hx Hx'. apply list_elem_of_singleton in Hx'. by subst.
Qed.

Lemma removeFirst_sublist (path : str) (docs : list FileDoc) :
  removeFirst path docs `sublist_of` docs.
Proof.
  induction docs as [|d docs IH]; cbn [removeFirst]; [done|].
  case_decide; [by apply sublist_cons|by apply sublist_skip].
Qed.

Section UniquePaths.
Variable AWS_S3_PREFIX : str.
Variable aws_configured : bool.
Variable MONGODB_URI : str.
Variable pageSize : nat.
Variable faults : nat → bool.
Variable Buffer_from_base64 : str → str.
Variable ObjectId : str → option str.
Variable BSONError : str.

Local Abbreviation unique := (fun w : World => NoDup (filePath <$> files w)).

Lemma getCollections_files (P : list FileDoc → Prop) :
  preserves (fun w => P (files w)) (getCollections MONGODB_URI faults).
Proof.
  unfold getCollections. destruct MONGODB_URI; [by intros w|].
  intros w Hw. destruct (dbClient w); [done|].
  by apply (preserves_extern (fun w => P (files w)) faults CallConnect
              (fun w' : World => (inl tt : unit + str, w'))).
Qed.

Lemma logFileAction_files (P : list FileDoc → Prop) now action path name user details :
  preserves (fun w => P (files w))
    (logFileAction MONGODB_URI faults ObjectId BSONError now action path name user details).
Proof.
  apply logFileAction_preserves; [apply getCollections_files|]. intros logUser.
  by apply preserves_extern.
Qed.

(** X4. Every mutation keeps the catalog free of duplicate paths: whatever
    fails on the way and however the run ends, a catalog that held at most
    one record per [filePath] before still does afterwards. *)
Theorem catalog_paths_stay_unique (fuel : nat) (user : str) (now : Z) (m : Mutation)
    (w : World) :
  NoDup (filePath <$> files w) →
  NoDup (filePath <$> files
           (runMutation AWS_S3_PREFIX aws_configured MONGODB_URI pageSize faults
              Buffer_from_base64 ObjectId BSONError fuel user now m w).2).
Proof.
  apply (runMutation_preserves AWS_S3_PREFIX aws_configured MONGODB_URI pageSize faults
           Buffer_from_base64 ObjectId BSONError unique).
  - intros. by apply uploadS3Object_blind.
  - intros. by apply deleteS3Object_blind.
  - intros. by apply createS3Folder_blind.
  - intros. by apply copyS3Object_blind.
  - intros. by apply deleteS3Prefix_blind.
  - intros. by apply copyS3Prefix_blind.
  - apply (getCollections_files (fun fs => NoDup (filePath <$> fs))).
  - intros sorted prefix. unfold findByPrefix.
    destruct (anchored (escapeRegex prefix)); [|by intros ?]. by apply preserves_extern.
  - intros path. by apply preserves_extern.
  - intros doc. apply preserves_extern; [done|]. intros w0 Hw0. by apply upsert_NoDup.
  - intros path. apply preserves_extern; [done|]. intros w0 Hw0. cbn [snd files set_files].
    eapply sublist_NoDup; [exact Hw0|]. apply fmap_sublist, removeFirst_sublist.
  - intros prefix. unfold deleteManyByPrefix.
    destruct (anchored (escapeRegex prefix)); [|by intros ?].
    apply preserves_extern; [done|]. intros w0 Hw0. cbn [snd files set_files].
    eapply sublist_NoDup; [exact Hw0|]. apply fmap_sublist, sublist_filter.
  - intros. apply (logFileAction_files (fun fs => NoDup (filePath <$> fs))).
Qed.
End UniquePaths.

Lemma catalog_paths_stay_unique_witness :
  NoDup (filePath <$> files demoWorld)
  ∧ NoDup (filePath <$> files
             (runMutation [] true demo_uri 2 (fault_at 4) raw_bytes hex_ObjectId demo_BSONError
                 9 demo_id 7
                (Copy (lit "reports/") (lit "archive")) demoWorld).2).
Proof.
  assert (NoDup (filePath <$> files demoWorld)) as Hnd.
  { apply (bool_decide_unpack _). by vm_compute. }
  split; [exact Hnd|].
  exact (catalog_paths_stay_unique [] true demo_uri 2 (fault_at 4) raw_bytes hex_ObjectId
      demo_BSONError 9 demo_id 7
           (Copy (lit "reports/") (lit "archive")) demoWorld Hnd).
Defined.

(** ** One database client per process *)

Lemma connect_attempts_snoc (evs : list Event) (e : Event) :
  connect_attempts (evs ++ [e])
  = (connect_attempts evs + (if is_connect (call e) then 1 else 0))%nat.
Proof.
  unfold connect_attempts. rewrite List.filter_app, length_app. simpl.
  by destruct (is_connect (call e)).
Qed.

Section ConnectOnce.
Variable AWS_S3_PREFIX : str.
Variable aws_configured : bool.
Variable MONGODB_URI : str.
Variable pageSize : nat.
Variable faults : nat → bool.
Variable Buffer_from_base64 : str → str.
Variable ObjectId : str → option str.
Variable BSONError : str.
Variable w0 : World.

Lemma since_start : since w0 w0.
Proof.
  exists []. rewrite app_nil_r. split; [done|]. split; [|done].
  unfold connect_attempts. simpl. destruct (dbClient w0); lia.
Qed.

Lemma since_event c ok w : is_connect c = false → since w0 w → since w0 (record_event c ok w).
Proof.
  intros Hc (evs & Ht & Hn & Hm & Hz). exists (evs ++ [MkEvent c ok]).
  cbn [trace record_event dbClient]. rewrite Ht, app_assoc. split; [done|].
  rewrite connect_attempts_snoc. cbn [call]. rewrite Hc, Nat.add_0_r. done.
Qed.

Lemma since_extern {A : Type} (c : Call) (sem : World → (A + str) * World) :
  is_connect c = false →
  (∀ w, trace (sem w).2 = trace w ∧ dbClient (sem w).2 = dbClient w) →
  preserves (since w0) (extern faults c sem).
Proof.
  intros Hc Hsem. apply preserves_extern; [intros; by apply since_event|].
  intros w (evs & Ht & Hn & Hm & Hz). destruct (Hsem w) as [Ht' Hd'].
  exists evs. rewrite Ht', Hd'. done.
Qed.

Lemma since_getCollections : preserves (since w0) (getCollections MONGODB_URI faults).
Proof.
  unfold getCollections. destruct MONGODB_URI; [by intros w|].
  intros w Hw. destruct (dbClient w) eqn:Ec; [done|].
  destruct Hw as (evs & Ht & Hn & Hm & Hz).
  assert (dbClient w0 = false) as Hc0.
  { destruct (dbClient w0); [|done]. rewrite Hm in Ec; done. }
  assert (∃ ok, (extern faults CallConnect (fun w' : World => (inl tt : unit + str, w'))
                   (set_client w)).2
                = record_event CallConnect ok (set_client w)) as [ok ->].
  { unfold extern. destruct (faults _); by eexists. }
  exists (evs ++ [MkEvent CallConnect ok]).
  cbn [trace record_event set_client dbClient]. rewrite Ht, app_assoc. split; [done|].
  rewrite connect_attempts_snoc, Hz by done. cbn [call is_connect]. rewrite Hc0.
  split; [lia|]. done.
Qed.

Lemma since_handlers (fuel : nat) (user : str) (now : Z) (m : Mutation) (queryPrefix : str) :
  preserves (since w0)
    (runMutation AWS_S3_PREFIX aws_configured MONGODB_URI pageSize faults
       Buffer_from_base64 ObjectId BSONError fuel user now m)
  ∧ preserves (since w0) (listHandler MONGODB_URI faults now queryPrefix).
Proof.
  assert (∀ c ok w, is_store_call c = true → since w0 w → since w0 (record_event c ok w)) as Hev.
  { intros c ok w Hc. apply since_event. by destruct c. }
  assert (∀ b w, since w0 w → since w0 (set_bucket b w)) as Hb.
  { by intros b w Hw. }
  assert (∀ sorted prefix, preserves (since w0) (findByPrefix faults sorted prefix)) as Hfind.
  { intros sorted prefix. unfold findByPrefix.
    destruct (anchored (escapeRegex prefix)); [|by intros ?]. by apply since_extern. }
  assert (∀ now action path name user details,
            preserves (since w0)
              (logFileAction MONGODB_URI faults ObjectId BSONError now action path name user
                  details)) as Hlog.
  { intros. apply logFileAction_preserves; [apply since_getCollections|].
    intros logUser. by apply since_extern. }
  split.
  - apply runMutation_preserves.
    + intros. by apply uploadS3Object_blind.
    + intros. by apply deleteS3Object_blind.
    + intros. by apply createS3Folder_blind.
    + intros. by apply copyS3Object_blind.
    + intros. by apply deleteS3Prefix_blind.
    + intros. by apply copyS3Prefix_blind.
    + apply since_getCollections.
    + apply Hfind.
    + intros. by apply since_extern.
    + intros. by apply since_extern.
    + intros. by apply since_extern.
    + intros prefix. unfold deleteManyByPrefix.
      destruct (anchored (escapeRegex prefix)); [|by intros ?]. by apply since_extern.
    + apply Hlog.
  - apply listHandler_preserves; [apply since_getCollections|apply Hfind].
Qed.
End ConnectOnce.

Lemma since_connects_once (w w' : World) : since w w' → connects_once w w'.
Proof.
  intros (evs & Ht & Hn & Hm & Hz). unfold connects_once.
  rewrite (new_events_app w w' evs Ht). done.
Qed.

(** X5. Serving a request opens at most one database connection, and none
    when the process already holds a client; the client is kept even when
    connecting fails, so a later request does not connect again. *)
Theorem database_connects_once (prefix : str) (configured : bool) (uri : str)
    (pageSize : nat) (faults : nat → bool) (decode : str → str) (ObjectId : str → option str)
    (BSONError : str)
    (fuel : nat) (user : str) (now : Z) (m : Mutation) (queryPrefix : str) (w : World) :
  connects_once w
    (runMutation prefix configured uri pageSize faults decode ObjectId BSONError fuel user now m
        w).2
  ∧ connects_once w (listHandler uri faults now queryPrefix w).2.
Proof.
  destruct (since_handlers prefix configured uri pageSize faults decode ObjectId BSONError w
              fuel user now m queryPrefix) as [Hm Hl].
  split; apply since_connects_once; [apply Hm|apply Hl]; apply since_start.
Qed.

(** ** The activity log *)

Lemma logs_one_bind {A : Type} (act : str) (user : option str) (now : Z) (m : M World A)
    (k : A → M World Response) :
  (∀ L, preserves (fun w => logs w = L) m) →
  (∀ a, logs_one act user now (k a)) →
  logs_one act user now (bind m k).
Proof.
  intros Hm Hk w. specialize (Hm (logs w) w eq_refl). unfold bind.
  destruct (m w) as [[a| |] w1]; simpl in *; [|done|done].
  specialize (Hk a w1). rewrite Hm in Hk. exact Hk.
Qed.

Lemma logs_one_assoc {A B : Type} (act : str) (user : option str) (now : Z) (m : M World A)
    (k : A → M World B) (h : B → M World Response) :
  logs_one act user now (bind m (fun a => bind (k a) h)) →
  logs_one act user now (bind (bind m k) h).
Proof.
  intros H w. specialize (H w). unfold bind in *.
  destruct (m w) as [[a| |] w1]; simpl in *; done.
Qed.

Lemma logs_one_error (act : str) (user : option str) (now : Z) (status : Z) (e : str) :
  logs_one act user now (ret (RespError status e)).
Proof. by intros w. Qed.

Lemma logs_one_try_catch (act : str) (user : option str) (now : Z) (body : M World Response) :
  logs_one act user now body →
  logs_one act user now (try_catch body (fun e => ret (RespError 500 e))).
Proof.
  intros Hb w. specialize (Hb w). unfold try_catch.
  destruct (body w) as [[r| |] w1]; simpl in *; done.
Qed.

Section ActivityLog.
Variable AWS_S3_PREFIX : str.
Variable aws_configured : bool.
Variable MONGODB_URI : str.
Variable pageSize : nat.
Variable faults : nat → bool.
Variable Buffer_from_base64 : str → str.
Variable ObjectId : str → option str.
Variable BSONError : str.

Lemma getCollections_logs L :
  preserves (fun w => logs w = L) (getCollections MONGODB_URI faults).
Proof.
  unfold getCollections. destruct MONGODB_URI; [by intros w|].
  intros w Hw. destruct (dbClient w); [done|].
  by apply (preserves_extern (fun w => logs w = L) faults CallConnect
              (fun w' : World => (inl tt : unit + str, w'))).
Qed.

Lemma findByPrefix_logs L sorted prefix :
  preserves (fun w => logs w = L) (findByPrefix faults sorted prefix).
Proof.
  unfold findByPrefix. destruct (anchored (escapeRegex prefix)); [|by intros ?].
  by apply preserves_extern.
Qed.

Lemma deleteManyByPrefix_logs L prefix :
  preserves (fun w => logs w = L) (deleteManyByPrefix faults prefix).
Proof.
  unfold deleteManyByPrefix. destruct (anchored (escapeRegex prefix)); [|by intros ?].
  by apply preserves_extern.
Qed.

Lemma updateOne_logs L path doc :
  preserves (fun w => logs w = L) (updateOne faults path doc).
Proof. by apply preserves_extern. Qed.

Lemma logs_one_log (act path name user : str) (now : Z) (details : Details) :
  logs_one act (logged_id ObjectId user) now
    (logFileAction MONGODB_URI faults ObjectId BSONError now act path name user details >>
     ret RespOk).
Proof.
  intros w. rewrite bind_run. unfold logFileAction. rewrite bind_run.
  pose proof (getCollections_logs (logs w) w eq_refl) as Hc.
  destruct (getCollections MONGODB_URI faults w) as [[[]| |] w1]; simpl in *; [|done|done].
  rewrite bind_run. unfold logged_id.
  destruct user as [|c user].
  - change (ret None w1) with (Ok (@None str), w1). cbv iota beta.
    unfold extern. destruct (faults (length (trace w1))); [done|].
    simpl. rewrite Hc. by eexists.
  - rewrite bind_run, new_ObjectId_run.
    destruct (ObjectId (c :: user)) as [objectId|]; [|done].
    change (ret (Some objectId) w1) with (Ok (Some objectId), w1). cbv iota beta.
    unfold extern. destruct (faults (length (trace w1))); [done|].
    simpl. rewrite Hc. by eexists.
Qed.

Local Ltac quiet :=
  repeat first
    [ apply preserves_ret
    | apply getCollections_logs | apply findByPrefix_logs | apply deleteManyByPrefix_logs
    | apply updateOne_logs
    | apply uploadS3Object_blind; done
    | apply deleteS3Object_blind; done
    | apply createS3Folder_blind; done
    | apply copyS3Object_blind; done
    | apply deleteS3Prefix_blind; done
    | apply copyS3Prefix_blind; done
    | apply preserves_extern; done
    | apply new_ObjectId_preserves
    | apply copy_updates_preserves; intros ?
    | apply preserves_bind; [|intros ?]
    | apply preserves_if ].

Local Ltac logging :=
  repeat first
    [ apply logs_one_log
    | apply logs_one_bind; [intros ?; solve [quiet]|intros ?]
    | apply logs_one_assoc ].

Lemma runMutation_logs_one (fuel : nat) (user : str) (now : Z) (m : Mutation) :
  logs_one (action_of m) (logged_id ObjectId user) now
    (runMutation AWS_S3_PREFIX aws_configured MONGODB_URI pageSize faults
       Buffer_from_base64 ObjectId BSONError fuel user now m).
Proof.
  destruct m as [key content contentType|key|sourceKey destinationKey|key];
    cbn [runMutation action_of].
  - unfold uploadHandler. apply logs_one_try_catch. cbv zeta.
    destruct (normalizeKey key); [apply logs_one_error|].
    destruct content; [apply logs_one_error|]. logging.
  - unfold createFolderHandler. apply logs_one_try_catch. cbv zeta.
    destruct (normalizeKey key); [apply logs_one_error|]. logging.
  - unfold copyHandler. apply logs_one_try_catch. cbv zeta.
    destruct (normalizeKey sourceKey); [apply logs_one_error|].
    destruct (normalizeKey destinationKey); [apply logs_one_error|].
    logging.
  - unfold deleteHandler. apply logs_one_try_catch. cbv zeta.
    destruct (normalizeKey key) as [|k0 key']; [apply logs_one_error|].
    destruct (endsWith (k0 :: key') [CHAR_FORWARD_SLASH]); logging.
Qed.
End ActivityLog.

(** X6. A mutation that answers with success has appended exactly one entry
    to the activity log, under the action of the mutation, with the id made
    from the calling user's and with the time of the request; a mutation
    that ends in any other way leaves the log as it was. *)
Theorem mutation_logs_once (prefix : str) (configured : bool) (uri : str)
    (pageSize : nat) (faults : nat → bool) (decode : str → str) (ObjectId : str → option str)
    (BSONError : str)
    (fuel : nat) (user : str) (now : Z) (m : Mutation) (w : World) :
  let run := runMutation prefix configured uri pageSize faults decode ObjectId BSONError fuel
      user now m w in
  (run.1 = Ok RespOk →
   ∃ entry, logs run.2 = logs w ++ [entry]
            ∧ action entry = action_of m
            ∧ logUserId entry = logged_id ObjectId user
            ∧ createdAt entry = now)
  ∧ (run.1 ≠ Ok RespOk → logs run.2 = logs w).
Proof.
  cbv zeta.
  pose proof (runMutation_logs_one prefix configured uri pageSize faults decode
                ObjectId BSONError fuel user now m w) as H.
  destruct (runMutation _ _ _ _ _ _ _ _ _ _ _ m w) as [[[| |]| |] w']; simpl in *;
    split; intros ?; done.
Qed.

Lemma mutation_logs_once_witness :
  (runMutation [] true demo_uri 2 no_faults raw_bytes hex_ObjectId demo_BSONError 9 demo_id 7
     (Delete (lit "reports/q1.pdf")) demoWorld).1 = Ok RespOk
  ∧ ∃ entry,
      logs (runMutation [] true demo_uri 2 no_faults raw_bytes hex_ObjectId demo_BSONError 9
          demo_id 7
              (Delete (lit "reports/q1.pdf")) demoWorld).2
      = logs demoWorld ++ [entry]
      ∧ action entry = action_of (Delete (lit "reports/q1.pdf"))
      ∧ logUserId entry = Some demo_id
      ∧ createdAt entry = 7.
Proof.
  assert ((runMutation [] true demo_uri 2 no_faults raw_bytes hex_ObjectId demo_BSONError 9
      demo_id 7
             (Delete (lit "reports/q1.pdf")) demoWorld).1 = Ok RespOk) as Hok.
  { vm_compute. reflexivity. }
  split; [exact Hok|].
  exact (proj1 (mutation_logs_once [] true demo_uri 2 no_faults raw_bytes hex_ObjectId
      demo_BSONError 9 demo_id 7
                  (Delete (lit "reports/q1.pdf")) demoWorld) Hok).
Defined.

(** ** Input checks *)

Lemma returns_ret {S A : Type} (R : A → Prop) (a : A) : R a → returns (S := S) R (ret a).
Proof. intros Ha s a' [= <-]. exact Ha. Qed.

Lemma returns_bind {S A B : Type} (R : B → Prop) (m : M S A) (k : A → M S B) :
  (∀ a, returns R (k a)) → returns R (bind m k).
Proof.
  intros Hk s b. unfold bind. destruct (m s) as [[a| |] s1]; simpl; [apply Hk|done|done].
Qed.

Lemma returns_if {S A : Type} (R : A → Prop) (c : bool) (m1 m2 : M S A) :
  returns R m1 → returns R m2 → returns R (if c then m1 else m2).
Proof. by destruct c. Qed.

Lemma returns_try_catch {S : Type} (body : M S Response) (R : Response → Prop) :
  returns R body → (∀ e, R (RespError 500 e)) →
  returns R (try_catch body (fun e => ret (RespError 500 e))).
Proof.
  intros Hb He s r. unfold try_catch. specialize (Hb s).
  destruct (body s) as [[a| |] s1]; simpl; [apply Hb| |done].
  intros [= <-]. apply He.
Qed.

Local Ltac returning :=
  repeat first
    [ apply returns_ret; done
    | apply returns_bind; intros ?
    | apply returns_if ].

(** X7. A mutation answers 400 exactly when its input is missing, that is
    when a key normalises to the empty string or an upload has no content;
    it then has sent nothing to the store or the database and the world is
    as before. *)
Theorem missing_input_is_refused (prefix : str) (configured : bool) (uri : str)
    (pageSize : nat) (faults : nat → bool) (decode : str → str) (ObjectId : str → option str)
    (BSONError : str)
    (fuel : nat) (user : str) (now : Z) (m : Mutation) (w : World) :
  let run := runMutation prefix configured uri pageSize faults decode ObjectId BSONError fuel
      user now m w in
  (missing_input m = true → ∃ e, run = (Ok (RespError 400 e), w))
  ∧ (missing_input m = false → ∀ e, run.1 ≠ Ok (RespError 400 e)).
Proof.
  cbv zeta. split.
  - destruct m as [key content contentType|key|sourceKey destinationKey|key];
      cbn [runMutation missing_input];
      unfold uploadHandler, createFolderHandler, copyHandler, deleteHandler; cbv zeta.
    + destruct (normalizeKey key); [by eexists|]. destruct content; [by eexists|done].
    + destruct (normalizeKey key); [by eexists|done].
    + destruct (normalizeKey sourceKey); [by eexists|].
      destruct (normalizeKey destinationKey); [by eexists|done].
    + destruct (normalizeKey key); [by eexists|done].
  - intros Hin e He.
    assert (returns (fun r => ∀ e, r ≠ RespError 400 e)
              (runMutation prefix configured uri pageSize faults decode ObjectId BSONError fuel
                  user now m))
      as Hr; [|by apply (Hr w _ He e)].
    destruct m as [key content contentType|key|sourceKey destinationKey|key];
      cbn [runMutation missing_input] in *;
      unfold uploadHandler, createFolderHandler, copyHandler, deleteHandler; cbv zeta;
      (apply returns_try_catch; [|done]).
    + destruct (normalizeKey key); [done|]. destruct content; [done|]. returning.
    + destruct (normalizeKey key); [done|]. returning.
    + destruct (normalizeKey sourceKey); [done|].
      destruct (normalizeKey destinationKey); [done|]. returning.
    + destruct (normalizeKey key); [done|]. returning.
Qed.

Lemma missing_input_is_refused_witness :
  missing_input (Copy (lit "reports/q1.pdf") (lit "a/../..")) = true
  ∧ ∃ e, runMutation [] true demo_uri 2 no_faults raw_bytes hex_ObjectId demo_BSONError 9 demo_id 7
           (Copy (lit "reports/q1.pdf") (lit "a/../..")) demoWorld
         = (Ok (RespError 400 e), demoWorld).
Proof.
  split; [reflexivity|].
  apply (proj1 (missing_input_is_refused [] true demo_uri 2 no_faults raw_bytes hex_ObjectId
      demo_BSONError 9
                  demo_id 7 (Copy (lit "reports/q1.pdf") (lit "a/../..")) demoWorld)).
  reflexivity.
Defined.

(** ** A deployment without its S3 variables *)

(** X8. When the [AWS_*] variables are not set, no mutation succeeds and
    none reaches the store: bucket, catalog and log stay as they were and
    no store call is sent.  Upload, folder creation and delete with their
    input present answer 500 with the configuration error and leave the
    world untouched. *)
Theorem unconfigured_store_is_never_called (prefix : str) (uri : str)
    (pageSize : nat) (faults : nat → bool) (decode : str → str) (ObjectId : str → option str)
    (BSONError : str)
    (fuel : nat) (user : str) (now : Z) (m : Mutation) (w : World) :
  let run := runMutation prefix false uri pageSize faults decode ObjectId BSONError fuel user
      now m w in
  (∃ status e, run.1 = Ok (RespError status e))
  ∧ bucket run.2 = bucket w ∧ files run.2 = files w ∧ logs run.2 = logs w
  ∧ Forall (fun e => is_store_call (call e) = false) (new_events w run.2)
  ∧ match m with
    | Copy _ _ => True
    | _ => missing_input m = false → run = (Ok (RespError 500 s3_not_configured), w)
    end.
Proof.
  cbv zeta.
  assert (new_events w w = []) as Hnil.
  { unfold new_events. by rewrite drop_all. }
  destruct m as [key content contentType|key|sourceKey destinationKey|key];
    cbn [runMutation missing_input];
    unfold uploadHandler, createFolderHandler, copyHandler, deleteHandler; cbv zeta.
  - destruct (normalizeKey key) as [|k0 k]; [|destruct content as [|c0 c]];
      cbn; rewrite ?Hnil; split_and!; by eauto.
  - destruct (normalizeKey key) as [|k0 k]; cbn; rewrite ?Hnil; split_and!; by eauto.
  - destruct (normalizeKey sourceKey) as [|s0 s];
      [cbn; rewrite ?Hnil; split_and!; by eauto|].
    destruct (normalizeKey destinationKey) as [|d0 d];
      [cbn; rewrite ?Hnil; split_and!; by eauto|].
    unfold try_catch. rewrite bind_run. unfold getCollections.
    destruct uri as [|u0 uri]; [cbn; rewrite ?Hnil; split_and!; by eauto|].
    destruct (dbClient w) eqn:Ec.
    + destruct (endsWith (s0 :: s) [CHAR_FORWARD_SLASH]);
        cbn; rewrite ?Hnil; split_and!; by eauto.
    + unfold extern. cbn [set_client trace].
      destruct (faults (length (trace w))).
      * cbn. split_and!; eauto.
        rewrite (new_events_app w _ [MkEvent CallConnect false]) by done.
        by apply Forall_singleton.
      * destruct (endsWith (s0 :: s) [CHAR_FORWARD_SLASH]); cbn; split_and!; eauto;
          rewrite (new_events_app w _ [MkEvent CallConnect true]) by done;
          by apply Forall_singleton.
  - destruct (normalizeKey key) as [|k0 k]; [cbn; rewrite ?Hnil; split_and!; by eauto|].
    destruct (endsWith (k0 :: k) [CHAR_FORWARD_SLASH]);
      cbn; rewrite ?Hnil; split_and!; by eauto.
Qed.

Lemma unconfigured_store_is_never_called_witness :
  missing_input (Upload (lit "reports/q3.pdf") (lit "dGhpcmQ=") None) = false
  ∧ runMutation [] false demo_uri 2 no_faults raw_bytes hex_ObjectId demo_BSONError 9 demo_id 7
      (Upload (lit "reports/q3.pdf") (lit "dGhpcmQ=") None) demoWorld
    = (Ok (RespError 500 s3_not_configured), demoWorld).
Proof.
  split; [reflexivity|].
  pose proof (unconfigured_store_is_never_called [] demo_uri 2 no_faults raw_bytes hex_ObjectId
      demo_BSONError 9
                  demo_id 7 (Upload (lit "reports/q3.pdf") (lit "dGhpcmQ=") None)
                demoWorld) as H.
  cbv zeta in H. destruct H as (_ & _ & _ & _ & _ & H). apply H. reflexivity.
Defined.

(** ** A deployment without its database URI *)

Lemma store_calls_only_refl (w : World) : store_calls_only w w.
Proof. unfold store_calls_only. split_and!; try done. exists []. by rewrite app_nil_r. Qed.

Section NoDatabase.
Variable AWS_S3_PREFIX : str.
Variable aws_configured : bool.
Variable pageSize : nat.
Variable faults : nat → bool.
Variable Buffer_from_base64 : str → str.
Variable ObjectId : str → option str.
Variable BSONError : str.
Variable w0 : World.

Local Abbreviation api := (bucketApi pageSize faults).

Lemma store_calls_only_event c ok w :
  is_store_call c = true → store_calls_only w0 w → store_calls_only w0 (record_event c ok w).
Proof.
  intros Hc (Hf & Hl & Hd & evs & Ht & Hall). unfold store_calls_only.
  cbn [files logs dbClient trace record_event]. split_and!; try done.
  exists (evs ++ [MkEvent c ok]). rewrite Ht, app_assoc. split; [done|].
  apply Forall_app. split; [done|]. by apply Forall_singleton.
Qed.

(** A store operation followed by [getCollections] when [MONGODB_URI] is
    not set: the run ends where the store operation ended, and not well. *)
Lemma store_then_no_database {A B : Type} (m : M World A) (k : unit → M World B) :
  preserves (store_calls_only w0) m →
  preserves (store_calls_only w0) (m >> let* c := getCollections [] faults in k c)
  ∧ ∀ w, is_ok ((m >> let* c := getCollections [] faults in k c) w).1 = false.
Proof.
  intros Hm. split.
  - intros w Hw. specialize (Hm w Hw). unfold bind.
    destruct (m w) as [[a| |] w1]; simpl in *; done.
  - intros w. unfold bind. destruct (m w) as [[a| |] w1]; simpl in *; done.
Qed.

Lemma runMutation_no_database (fuel : nat) (user : str) (now : Z) (m : Mutation) :
  preserves (store_calls_only w0)
    (runMutation AWS_S3_PREFIX aws_configured [] pageSize faults
       Buffer_from_base64 ObjectId BSONError fuel user now m)
  ∧ ∀ w, (runMutation AWS_S3_PREFIX aws_configured [] pageSize faults
            Buffer_from_base64 ObjectId BSONError fuel user now m w).1 ≠ Ok RespOk.
Proof.
  assert (∀ b w, store_calls_only w0 w → store_calls_only w0 (set_bucket b w)) as Hb
    by (by intros b w Hw).
  assert (∀ (body : M World Response),
            preserves (store_calls_only w0) body
            ∧ (∀ w, is_ok (body w).1 = false) →
            preserves (store_calls_only w0)
              (try_catch body (fun e => ret (RespError 500 e)))
            ∧ ∀ w, (try_catch body (fun e => ret (RespError 500 e)) w).1 ≠ Ok RespOk)
    as Hcatch.
  { intros body [Hp Hn]. split.
    - apply preserves_try_catch; [done|]. intros e. apply preserves_ret.
    - intros w. specialize (Hn w). unfold try_catch.
      destruct (body w) as [[r| |] w1]; simpl in *; done. }
  assert (∀ (r : Response),
            r ≠ RespOk →
            preserves (store_calls_only w0)
              (try_catch (ret (S := World) r) (fun e => ret (RespError 500 e)))
            ∧ ∀ w : World,
                (try_catch (ret r) (fun e => ret (RespError 500 e)) w).1 ≠ Ok RespOk)
    as Hret.
  { intros r Hr. split; [by intros w|]. intros w [= ?]. done. }
  destruct m as [key content contentType|key|sourceKey destinationKey|key];
    cbn [runMutation];
    unfold uploadHandler, createFolderHandler, copyHandler, deleteHandler; cbv zeta.
  - destruct (normalizeKey key) as [|k0 k]; [by apply Hret|].
    destruct content as [|c0 c]; [by apply Hret|].
    apply Hcatch, store_then_no_database, uploadS3Object_blind; try done.
    apply store_calls_only_event.
  - destruct (normalizeKey key) as [|k0 k]; [by apply Hret|].
    apply Hcatch, store_then_no_database, createS3Folder_blind; try done.
    apply store_calls_only_event.
  - destruct (normalizeKey sourceKey) as [|s0 s]; [by apply Hret|].
    destruct (normalizeKey destinationKey) as [|d0 d]; [by apply Hret|].
    apply Hcatch. split; by intros w.
  - destruct (normalizeKey key) as [|k0 k]; [by apply Hret|].
    apply Hcatch.
    destruct (endsWith (k0 :: k) [CHAR_FORWARD_SLASH]).
    + destruct (store_then_no_database
                  (deleteS3Prefix api AWS_S3_PREFIX aws_configured fuel (k0 :: k))
                  (fun _ => deleteManyByPrefix faults (k0 :: k) >>
                            logFileAction [] faults ObjectId BSONError now (lit "folder_delete")
                                (k0 :: k)
                              (basename (dropTrailingSlash (k0 :: k))) user NoDetails))
        as [Hp Hn].
      { apply deleteS3Prefix_blind; [apply store_calls_only_event|done]. }
      split.
      * apply preserves_bind; [exact Hp|]. intros _. apply preserves_ret.
      * intros w. specialize (Hn w). rewrite bind_run.
        match goal with |- context [match ?x with _ => _ end] =>
          destruct x as [[a| |] w1] end; simpl in *; done.
    + destruct (store_then_no_database
                  (deleteS3Object api AWS_S3_PREFIX aws_configured (k0 :: k))
                  (fun _ => deleteOne faults (k0 :: k) >>
                            logFileAction [] faults ObjectId BSONError now (lit "delete") (k0 :: k)
                              (basename (k0 :: k)) user NoDetails))
        as [Hp Hn].
      { apply deleteS3Object_blind; [apply store_calls_only_event|done]. }
      split.
      * apply preserves_bind; [exact Hp|]. intros _. apply preserves_ret.
      * intros w. specialize (Hn w). rewrite bind_run.
        match goal with |- context [match ?x with _ => _ end] =>
          destruct x as [[a| |] w1] end; simpl in *; done.
Qed.
End NoDatabase.

(** X9. When [MONGODB_URI] is not set, no mutation answers with success and
    none touches the database: catalog and log stay as they were, no
    connection is attempted, and every call the run made went to the store.
    A listing answers 500 with the configuration error. *)
Theorem missing_database_uri_blocks_the_catalog (prefix : str) (configured : bool)
    (pageSize : nat) (faults : nat → bool) (decode : str → str) (ObjectId : str → option str)
    (BSONError : str)
    (fuel : nat) (user : str) (now : Z) (m : Mutation) (queryPrefix : str) (w : World) :
  let run := runMutation prefix configured [] pageSize faults decode ObjectId BSONError fuel
      user now m w in
  run.1 ≠ Ok RespOk
  ∧ store_calls_only w run.2
  ∧ listHandler [] faults now queryPrefix w
    = (Ok (RespError 500 missing_mongodb_uri), w).
Proof.
  cbv zeta.
  destruct (runMutation_no_database prefix configured pageSize faults decode
              ObjectId BSONError w fuel user now m) as [Hp Hn].
  split; [apply Hn|]. split; [apply Hp, store_calls_only_refl|done].
Qed.

(** ** Runs in which every call succeeds *)

Lemma findFirst_upsert (doc : FileDoc) (docs : list FileDoc) :
  findFirst (filePath doc) (upsert (filePath doc) doc docs) = Some doc.
Proof.
  unfold findFirst. induction docs as [|d docs IH]; cbn [upsert List.find].
  - by rewrite bool_decide_eq_true_2.
  - destruct (decide (filePath d = filePath doc)) as [Heq|Hne]; cbn [List.find].
    + by rewrite bool_decide_eq_true_2.
    + by rewrite bool_decide_eq_false_2.
Qed.

Lemma findFirst_upsert_ne (path : str) (doc : FileDoc) (docs : list FileDoc) :
  path ≠ filePath doc →
  findFirst path (upsert (filePath doc) doc docs) = findFirst path docs.
Proof.
  intros Hne. unfold findFirst. induction docs as [|d docs IH]; cbn [upsert List.find].
  - by rewrite bool_decide_eq_false_2.
  - destruct (decide (filePath d = filePath doc)) as [Heq|Hd]; cbn [List.find].
    + rewrite !bool_decide_eq_false_2; congruence.
    + by rewrite IH.
Qed.

Lemma elem_of_upsert (doc : FileDoc) (docs : list FileDoc) :
  doc ∈ upsert (filePath doc) doc docs.
Proof.
  induction docs as [|d docs IH]; cbn [upsert]; [apply list_elem_of_here|].
  case_decide; [apply list_elem_of_here|by apply list_elem_of_further].
Qed.

Lemma length_upsert (doc : FileDoc) (docs : list FileDoc) :
  length (upsert (filePath doc) doc docs)
  = if decide (filePath doc ∈ filePath <$> docs) then length docs else S (length docs).
Proof.
  pose proof (f_equal length (upsert_paths doc docs)) as H.
  rewrite length_fmap in H. rewrite H.
  case_decide; rewrite ?length_app, length_fmap; simpl; lia.
Qed.

Lemma findFirst_None (path : str) (docs : list FileDoc) :
  findFirst path docs = None ↔ path ∉ filePath <$> docs.
Proof.
  unfold findFirst. induction docs as [|d docs IH]; cbn [List.find fmap list_fmap].
  - split; [intros _; apply not_elem_of_nil|done].
  - rewrite not_elem_of_cons. case_bool_decide as Hd.
    + split; [done|]. intros [? _]. congruence.
    + rewrite IH. split; [intros ?; split; [congruence|done]|by intros [_ ?]].
Qed.

Lemma findFirst_removeFirst_ne (path p : str) (docs : list FileDoc) :
  p ≠ path → findFirst p (removeFirst path docs) = findFirst p docs.
Proof.
  intros Hne. unfold findFirst. induction docs as [|d docs IH]; cbn [removeFirst]; [done|].
  destruct (decide (filePath d = path)) as [Heq|Hd]; cbn [List.find].
  - rewrite bool_decide_eq_false_2; [done|congruence].
  - by rewrite IH.
Qed.

Lemma removeFirst_paths (path : str) (docs : list FileDoc) :
  NoDup (filePath <$> docs) → path ∉ filePath <$> removeFirst path docs.
Proof.
  induction docs as [|d docs IH]; cbn [removeFirst fmap list_fmap]; intros Hnd.
  - apply not_elem_of_nil.
  - apply NoDup_cons in Hnd as [Hd Hnd].
    destruct (decide (filePath d = path)) as [<-|Hne]; [done|].
    cbn [fmap list_fmap]. apply not_elem_of_cons. split; [done|by apply IH].
Qed.

Lemma loggable_Some (ObjectId : str → option str) (user objectId : str) :
  ObjectId user = Some objectId → loggable ObjectId user = true.
Proof. intros H. unfold loggable. rewrite H. by destruct user. Qed.

Section Runs.
Variable AWS_S3_PREFIX : str.
Variable pageSize : nat.
Variable u0 : ascii.
Variable uri : str.
Variable ObjectId : str → option str.
Variable BSONError : str.

Local Abbreviation api := (bucketApi pageSize no_faults).
Local Abbreviation MONGODB_URI := (u0 :: uri).

Lemma getCollections_run (w : World) :
  ∃ w' : World,
    getCollections MONGODB_URI no_faults w = (Ok tt, w')
    ∧ bucket w' = bucket w ∧ files w' = files w ∧ logs w' = logs w.
Proof.
  unfold getCollections. destruct (dbClient w); [by exists w|].
  unfold extern, no_faults. simpl. by eexists.
Qed.

Lemma logFileAction_run now action path name user details (w : World) :
  loggable ObjectId user = true →
  ∃ w' : World,
    logFileAction MONGODB_URI no_faults ObjectId BSONError now action path name user
      details w = (Ok tt, w')
    ∧ bucket w' = bucket w ∧ files w' = files w.
Proof. apply logFileAction_ok. Qed.

Lemma updateOne_run path doc (w : World) :
  ∃ w' : World,
    updateOne no_faults path doc w = (Ok tt, w')
    ∧ bucket w' = bucket w ∧ files w' = upsert path doc (files w).
Proof. unfold updateOne, extern, no_faults. simpl. by eexists. Qed.

Lemma deleteOne_run path (w : World) :
  ∃ w' : World,
    deleteOne no_faults path w = (Ok tt, w')
    ∧ bucket w' = bucket w ∧ files w' = removeFirst path (files w).
Proof. unfold deleteOne, extern, no_faults. simpl. by eexists. Qed.

Lemma findOne_run path (w : World) :
  ∃ w' : World,
    findOne no_faults path w = (Ok (findFirst path (files w)), w')
    ∧ bucket w' = bucket w ∧ files w' = files w.
Proof. unfold findOne, extern, no_faults. simpl. by eexists. Qed.

Lemma uploadS3Object_run key buffer ct (w : World) :
  ∃ w' : World,
    uploadS3Object api AWS_S3_PREFIX true key buffer ct w = (Ok tt, w')
    ∧ bucket w'
      = <[buildKey AWS_S3_PREFIX key :=
            MkObject buffer (if truthy ct then default [] ct
                             else lit "application/octet-stream")]> (bucket w)
    ∧ files w' = files w.
Proof. unfold uploadS3Object, ensureS3Configured, extern, no_faults. simpl. by eexists. Qed.

Lemma createS3Folder_run key (w : World) :
  ∃ w' : World,
    createS3Folder api AWS_S3_PREFIX true key w = (Ok tt, w')
    ∧ bucket w' = <[buildKey AWS_S3_PREFIX key := folderMarker]> (bucket w)
    ∧ files w' = files w.
Proof. unfold createS3Folder, ensureS3Configured, extern, no_faults. simpl. by eexists. Qed.

Lemma deleteS3Object_run key (w : World) :
  ∃ w' : World,
    deleteS3Object api AWS_S3_PREFIX true key w = (Ok tt, w')
    ∧ bucket w' = delete (buildKey AWS_S3_PREFIX key) (bucket w)
    ∧ files w' = files w.
Proof. unfold deleteS3Object, ensureS3Configured, extern, no_faults. simpl. by eexists. Qed.

Lemma copyS3Object_run src dst object (w : World) :
  bucket w !! buildKey AWS_S3_PREFIX src = Some object →
  ∃ w' : World,
    copyS3Object api AWS_S3_PREFIX true src dst w = (Ok tt, w')
    ∧ bucket w' = <[buildKey AWS_S3_PREFIX dst := object]> (bucket w)
    ∧ files w' = files w ∧ logs w' = logs w ∧ dbClient w' = dbClient w.
Proof.
  intros Hsrc. unfold copyS3Object, ensureS3Configured. rewrite bind_run.
  change (ret tt w) with (Ok tt, w). cbv iota beta.
  cbn [CopyObject bucketApi]. unfold extern, no_faults. rewrite Hsrc. by eexists.
Qed.

(** A record that is a direct child of a directory shows in its listing. *)
Lemma listHandler_shows (now : Z) (dir : str) (doc : FileDoc) (w : World) :
  normalizeKey dir = dir → doc ∈ files w → direct_child dir (filePath doc) →
  ∃ entries,
    (listHandler MONGODB_URI no_faults now dir w).1 = Ok (RespFiles entries)
    ∧ toListEntry now doc ∈ entries.
Proof.
  intros Hdir Hin Hchild.
  exists (toListEntry now <$>
            filter (fun file => isDirectChild dir file)
              (merge_sort doc_le (filter (fun d => regex_test dir (filePath d)) (files w)))).
  split.
  - unfold listHandler, try_catch. rewrite Hdir, bind_run.
    unfold findByPrefix. rewrite anchored_escapeRegex.
    unfold getCollections, extern, no_faults, ret.
    destruct (dbClient w); simpl; done.
  - apply list_elem_of_fmap_2. apply list_elem_of_filter. split.
    + apply Is_true_true. by apply isDirectChild_spec.
    + rewrite merge_sort_Permutation. apply list_elem_of_filter. split; [|done].
      unfold regex_test. apply bool_decide_pack.
      destruct Hchild as (rem & -> & _). by exists rem.
Qed.

(** The directory a normalised key lies in. *)
Lemma parent_directory (key : str) :
  let safeKey := normalizeKey key in
  let folderKey :=
    if endsWith safeKey [CHAR_FORWARD_SLASH] then safeKey
    else safeKey ++ [CHAR_FORWARD_SLASH] in
  safeKey ≠ [] →
  ∃ dir : str,
    normalizeKey dir = dir
    ∧ (safeKey = dir ++ basename safeKey
       ∨ safeKey = dir ++ basename safeKey ++ [CHAR_FORWARD_SLASH])
    ∧ direct_child dir safeKey
    ∧ direct_child dir folderKey
    ∧ folderKey = dir ++ basename safeKey ++ [CHAR_FORWARD_SLASH]
    ∧ basename (dropTrailingSlash folderKey) = basename safeKey.
Proof.
  cbv zeta. intros Hne.
  destruct (canonical_name _ (normalizeKey_canonical key) Hne)
    as (dir & name & k & Hk & Hle & Hname & Hslash & Hdir & Hcan).
  assert (basename (normalizeKey key) = name) as Hb.
  { rewrite Hk. by apply basename_spec. }
  assert (CHAR_BACKWARD_SLASH ∉ dir) as Hbs.
  { intros Hin. apply (normalizeKey_no_backslash key). rewrite Hk.
    apply elem_of_app. by left. }
  assert (direct_child dir (dir ++ name ++ [CHAR_FORWARD_SLASH])) as Hfolder.
  { exists (name ++ [CHAR_FORWARD_SLASH]). split; [done|]. split; [by destruct name|].
    right. by exists name. }
  assert (basename (dropTrailingSlash (dir ++ name ++ [CHAR_FORWARD_SLASH])) = name)
    as Hdrop.
  { rewrite app_assoc, dropTrailingSlash_snoc. by apply basename_name. }
  exists dir. rewrite Hb. split; [by apply canonical_fixed|].
  rewrite Hk. destruct k as [|[|k]]; [| |lia]; cbn [replicate].
  - rewrite app_nil_r.
    assert (endsWith (dir ++ name) [CHAR_FORWARD_SLASH] = false) as ->.
    { apply bool_decide_eq_false_2. intros [pre Hpre].
      assert (last (dir ++ name) = Some CHAR_FORWARD_SLASH) as Hl
        by (by rewrite Hpre, last_snoc).
      rewrite last_app in Hl. destruct (last name) as [x|] eqn:El.
      - injection Hl as ->. apply Hslash. by apply last_Some_elem_of.
      - by apply last_None in El. }
    rewrite <- app_assoc. split_and!; try done; [by left|].
    exists name. split; [done|]. split; [done|by left].
  - assert (endsWith (dir ++ name ++ [CHAR_FORWARD_SLASH]) [CHAR_FORWARD_SLASH] = true)
      as ->.
    { apply bool_decide_eq_true_2. exists (dir ++ name). by rewrite <- app_assoc. }
    split_and!; try done. by right.
Qed.
End Runs.

(** ** Upload, create, delete and copy of one key *)

Section SingleKey.
Variable AWS_S3_PREFIX : str.
Variable pageSize : nat.
Variable u0 : ascii.
Variable uri : str.
Variable Buffer_from_base64 : str → str.
Variable ObjectId : str → option str.
Variable BSONError : str.

Local Abbreviation MONGODB_URI := (u0 :: uri).

(** X10. An upload by a caller whose id the driver accepts, meeting no
    failure, stores the decoded content under the prefixed normalised key
    and upserts one catalog record for that key, a file of the content's
    length named after the key's last segment; every other object and every
    other record is left as it was. *)
Theorem upload_round_trip (user objectId : str) (now : Z) (key content : str)
    (contentType : option str) (w : World) :
  let safeKey := normalizeKey key in
  safeKey ≠ [] → content ≠ [] → ObjectId user = Some objectId →
  ∃ w' : World,
    uploadHandler AWS_S3_PREFIX true MONGODB_URI pageSize no_faults Buffer_from_base64 ObjectId
        BSONError
      user now key content contentType w = (Ok RespOk, w')
    ∧ bucket w' !! key_of AWS_S3_PREFIX safeKey
      = Some (MkObject (Buffer_from_base64 content)
                (if truthy contentType then default [] contentType
                 else lit "application/octet-stream"))
    ∧ (∀ k, k ≠ key_of AWS_S3_PREFIX safeKey → bucket w' !! k = bucket w !! k)
    ∧ findFirst safeKey (files w')
      = Some (MkFileDoc (Some objectId) safeKey (basename safeKey)
                (len (Buffer_from_base64 content)) false (Some now))
    ∧ (∀ path, path ≠ safeKey → findFirst path (files w') = findFirst path (files w))
    ∧ length (files w')
      = if decide (safeKey ∈ filePath <$> files w) then length (files w)
        else S (length (files w)).
Proof.
  cbv zeta. intros Hkey Hcontent Hid. unfold uploadHandler. cbv zeta.
  destruct (normalizeKey key) as [|k0 k] eqn:Ek; [done|].
  destruct content as [|c0 c]; [done|].
  set (safeKey := k0 :: k). set (content := c0 :: c).
  set (doc := MkFileDoc (Some objectId) safeKey (basename safeKey)
                (len (Buffer_from_base64 content)) false (Some now)).
  unfold try_catch. rewrite bind_run.
  destruct (uploadS3Object_run AWS_S3_PREFIX pageSize safeKey
              (Buffer_from_base64 content) contentType w) as (w1 & -> & Hb1 & Hf1).
  rewrite bind_run.
  destruct (getCollections_run u0 uri w1) as (w2 & -> & Hb2 & Hf2 & _).
  rewrite bind_run, new_ObjectId_run, Hid. cbv beta iota. fold doc. rewrite bind_run.
  destruct (updateOne_run safeKey doc w2) as (w3 & -> & Hb3 & Hf3).
  rewrite bind_run.
  destruct (logFileAction_run u0 uri ObjectId BSONError now (lit "upload") safeKey
              (basename safeKey) user
              (ContentTypeDetails (if truthy contentType then contentType else None)) w3
              (loggable_Some _ _ _ Hid))
    as (w4 & -> & Hb4 & Hf4).
  exists w4. split; [done|].
  assert (bucket w4 = <[key_of AWS_S3_PREFIX safeKey :=
                          MkObject (Buffer_from_base64 content)
                            (if truthy contentType then default [] contentType
                             else lit "application/octet-stream")]> (bucket w)) as Hb
    by (by rewrite Hb4, Hb3, Hb2, Hb1).
  assert (files w4 = upsert (filePath doc) doc (files w)) as Hf
    by (by rewrite Hf4, Hf3, Hf2, Hf1).
  split_and!.
  - by rewrite Hb, lookup_insert_eq.
  - intros k' Hk'. by rewrite Hb, lookup_insert_ne.
  - rewrite Hf. apply (findFirst_upsert doc).
  - intros path Hp. rewrite Hf. by apply findFirst_upsert_ne.
  - rewrite Hf. apply length_upsert.
Qed.

(** X11. After an upload by a caller whose id the driver accepts, meeting
    no failure, the file shows in the listing of the directory its key lies
    in, with its key and its size. *)
Theorem uploaded_file_is_listed (user objectId : str) (now later : Z)
    (key content : str) (contentType : option str) (w : World) :
  let safeKey := normalizeKey key in
  safeKey ≠ [] → content ≠ [] → ObjectId user = Some objectId →
  ∃ (dir : str) (w' : World) (entries : list ListEntry),
    (safeKey = dir ++ basename safeKey
     ∨ safeKey = dir ++ basename safeKey ++ [CHAR_FORWARD_SLASH])
    ∧ uploadHandler AWS_S3_PREFIX true MONGODB_URI pageSize no_faults Buffer_from_base64
        ObjectId BSONError
        user now key content contentType w = (Ok RespOk, w')
    ∧ (listHandler MONGODB_URI no_faults later dir w').1 = Ok (RespFiles entries)
    ∧ MkListEntry safeKey (len (Buffer_from_base64 content)) now ∈ entries.
Proof.
  cbv zeta. intros Hkey Hcontent Hid.
  destruct (parent_directory key Hkey) as (dir & Hdir & Hsplit & Hchild & _).
  unfold uploadHandler. cbv zeta.
  destruct (normalizeKey key) as [|k0 k] eqn:Ek; [done|].
  destruct content as [|c0 c]; [done|].
  set (safeKey := k0 :: k) in *. set (content := c0 :: c).
  set (doc := MkFileDoc (Some objectId) safeKey (basename safeKey)
                (len (Buffer_from_base64 content)) false (Some now)).
  unfold try_catch. rewrite bind_run.
  destruct (uploadS3Object_run AWS_S3_PREFIX pageSize safeKey
              (Buffer_from_base64 content) contentType w) as (w1 & -> & Hb1 & Hf1).
  rewrite bind_run.
  destruct (getCollections_run u0 uri w1) as (w2 & -> & Hb2 & Hf2 & _).
  rewrite bind_run, new_ObjectId_run, Hid. cbv beta iota. fold doc. rewrite bind_run.
  destruct (updateOne_run safeKey doc w2) as (w3 & -> & Hb3 & Hf3).
  rewrite bind_run.
  destruct (logFileAction_run u0 uri ObjectId BSONError now (lit "upload") safeKey
              (basename safeKey) user
              (ContentTypeDetails (if truthy contentType then contentType else None)) w3
              (loggable_Some _ _ _ Hid))
    as (w4 & -> & Hb4 & Hf4).
  destruct (listHandler_shows u0 uri later dir doc w4 Hdir) as (entries & Hl & Hin).
  { rewrite Hf4, Hf3. apply (elem_of_upsert doc). }
  { exact Hchild. }
  exists dir, w4, entries. split_and!; done.
Qed.

(** X12. Creating a folder, for a caller whose id the driver accepts and
    with no failure on the way, puts an empty marker object under the key
    closed by [/], upserts a folder record of size 0 for that key, and the
    folder then shows in the listing of its parent. *)
Theorem created_folder_is_listed (user objectId : str) (now later : Z) (key : str)
    (w : World) :
  let safeKey := normalizeKey key in
  let folderKey :=
    if endsWith safeKey [CHAR_FORWARD_SLASH] then safeKey
    else safeKey ++ [CHAR_FORWARD_SLASH] in
  safeKey ≠ [] → ObjectId user = Some objectId →
  ∃ (dir : str) (w' : World) (entries : list ListEntry),
    createFolderHandler AWS_S3_PREFIX true MONGODB_URI pageSize no_faults ObjectId BSONError
      user now key w = (Ok RespOk, w')
    ∧ bucket w' !! key_of AWS_S3_PREFIX folderKey = Some folderMarker
    ∧ (∀ k, k ≠ key_of AWS_S3_PREFIX folderKey → bucket w' !! k = bucket w !! k)
    ∧ findFirst folderKey (files w')
      = Some (MkFileDoc (Some objectId) folderKey (basename safeKey) 0 true (Some now))
    ∧ (∀ path, path ≠ folderKey → findFirst path (files w') = findFirst path (files w))
    ∧ folderKey = dir ++ basename safeKey ++ [CHAR_FORWARD_SLASH]
    ∧ (listHandler MONGODB_URI no_faults later dir w').1 = Ok (RespFiles entries)
    ∧ MkListEntry folderKey 0 now ∈ entries.
Proof.
  cbv zeta. intros Hkey Hid.
  destruct (parent_directory key Hkey)
    as (dir & Hdir & Hsplit & _ & Hchild & Hfolder & Hname).
  unfold createFolderHandler. cbv zeta.
  destruct (normalizeKey key) as [|k0 k] eqn:Ek; [done|].
  set (safeKey := k0 :: k) in *.
  set (folderKey := if endsWith safeKey [CHAR_FORWARD_SLASH] then safeKey
                    else safeKey ++ [CHAR_FORWARD_SLASH]) in *.
  rewrite Hname.
  set (doc := MkFileDoc (Some objectId) folderKey (basename safeKey) 0 true (Some now)).
  unfold try_catch. rewrite bind_run.
  destruct (createS3Folder_run AWS_S3_PREFIX pageSize folderKey w) as (w1 & -> & Hb1 & Hf1).
  rewrite bind_run.
  destruct (getCollections_run u0 uri w1) as (w2 & -> & Hb2 & Hf2 & _).
  rewrite bind_run, new_ObjectId_run, Hid. cbv beta iota. fold doc. rewrite bind_run.
  destruct (updateOne_run folderKey doc w2) as (w3 & -> & Hb3 & Hf3).
  rewrite bind_run.
  destruct (logFileAction_run u0 uri ObjectId BSONError now (lit "folder_create")
              folderKey (basename safeKey) user NoDetails w3 (loggable_Some _ _ _ Hid))
    as (w4 & -> & Hb4 & Hf4).
  assert (bucket w4 = <[key_of AWS_S3_PREFIX folderKey := folderMarker]> (bucket w)) as Hb
    by (by rewrite Hb4, Hb3, Hb2, Hb1).
  assert (files w4 = upsert (filePath doc) doc (files w)) as Hf
    by (by rewrite Hf4, Hf3, Hf2, Hf1).
  destruct (listHandler_shows u0 uri later dir doc w4 Hdir) as (entries & Hl & Hin).
  { rewrite Hf. apply (elem_of_upsert doc). }
  { exact Hchild. }
  exists dir, w4, entries. split_and!.
  - done.
  - by rewrite Hb, lookup_insert_eq.
  - intros k' Hk'. by rewrite Hb, lookup_insert_ne.
  - rewrite Hf. apply (findFirst_upsert doc).
  - intros path Hp. rewrite Hf. by apply findFirst_upsert_ne.
  - exact Hfolder.
  - done.
  - done.
Qed.

(** X13. For a caller whose id can be logged, deleting a key that does not
    end in [/] and meets no failure removes the object under the prefixed
    key and the first record with that path, whether or not either existed;
    when paths are unique no record of the key remains.  Other objects and
    records, those below [key/] included, are left as they were. *)
Theorem delete_file_removes_one_key (fuel : nat) (user : str) (now : Z) (queryKey : str)
    (w : World) :
  let key := normalizeKey queryKey in
  key ≠ [] → endsWith key [CHAR_FORWARD_SLASH] = false →
  loggable ObjectId user = true →
  ∃ w' : World,
    deleteHandler AWS_S3_PREFIX true MONGODB_URI pageSize no_faults ObjectId BSONError
      fuel user now queryKey w = (Ok RespOk, w')
    ∧ bucket w' !! key_of AWS_S3_PREFIX key = None
    ∧ (∀ k, k ≠ key_of AWS_S3_PREFIX key → bucket w' !! k = bucket w !! k)
    ∧ (NoDup (filePath <$> files w) → findFirst key (files w') = None)
    ∧ (∀ path, path ≠ key → findFirst path (files w') = findFirst path (files w)).
Proof.
  cbv zeta. intros Hkey Hends Huser. unfold deleteHandler. cbv zeta.
  destruct (normalizeKey queryKey) as [|k0 k] eqn:Ek; [done|].
  set (key := k0 :: k) in *. rewrite Hends.
  unfold try_catch. rewrite !bind_run.
  destruct (deleteS3Object_run AWS_S3_PREFIX pageSize key w) as (w1 & -> & Hb1 & Hf1).
  rewrite bind_run.
  destruct (getCollections_run u0 uri w1) as (w2 & -> & Hb2 & Hf2 & _).
  rewrite bind_run.
  destruct (deleteOne_run key w2) as (w3 & -> & Hb3 & Hf3).
  destruct (logFileAction_run u0 uri ObjectId BSONError now (lit "delete") key
              (basename key) user NoDetails w3 Huser) as (w4 & -> & Hb4 & Hf4).
  assert (bucket w4 = delete (key_of AWS_S3_PREFIX key) (bucket w)) as Hb
    by (by rewrite Hb4, Hb3, Hb2, Hb1).
  assert (files w4 = removeFirst key (files w)) as Hf
    by (by rewrite Hf4, Hf3, Hf2, Hf1).
  exists w4. split_and!.
  - done.
  - by rewrite Hb, lookup_delete_eq.
  - intros k' Hk'. by rewrite Hb, lookup_delete_ne.
  - intros Hnd. rewrite Hf. apply findFirst_None. by apply removeFirst_paths.
  - intros path Hp. rewrite Hf. by apply findFirst_removeFirst_ne.
Qed.

(** X14. Copying a key that does not end in [/] and exists in the bucket,
    for a caller whose id the driver accepts and with no failure on the
    way, puts the source object under the
    destination key and keeps the source; the destination's record is a
    file named after the destination's last segment whose size is that of
    the source's record, or 0 when the source has none.  Other objects and
    records are left as they were. *)
Theorem copy_file_duplicates_object (fuel : nat) (user objectId : str) (now : Z)
    (sourceKey destinationKey : str) (object : S3Object) (w : World) :
  let safeSource := normalizeKey sourceKey in
  let safeDestination := normalizeKey destinationKey in
  safeSource ≠ [] → safeDestination ≠ [] →
  endsWith safeSource [CHAR_FORWARD_SLASH] = false →
  bucket w !! key_of AWS_S3_PREFIX safeSource = Some object →
  ObjectId user = Some objectId →
  ∃ w' : World,
    copyHandler AWS_S3_PREFIX true MONGODB_URI pageSize no_faults ObjectId BSONError
      fuel user now sourceKey destinationKey w = (Ok RespOk, w')
    ∧ bucket w' !! key_of AWS_S3_PREFIX safeDestination = Some object
    ∧ bucket w' !! key_of AWS_S3_PREFIX safeSource = Some object
    ∧ (∀ k, k ≠ key_of AWS_S3_PREFIX safeDestination → bucket w' !! k = bucket w !! k)
    ∧ findFirst safeDestination (files w')
      = Some (MkFileDoc (Some objectId) safeDestination (basename safeDestination)
                (from_option size 0 (findFirst safeSource (files w))) false (Some now))
    ∧ (∀ path, path ≠ safeDestination →
         findFirst path (files w') = findFirst path (files w)).
Proof.
  cbv zeta. intros Hsrc Hdst Hends Hobj Hid. unfold copyHandler. cbv zeta.
  destruct (normalizeKey sourceKey) as [|s0 s] eqn:Es; [done|].
  destruct (normalizeKey destinationKey) as [|d0 d] eqn:Ed; [done|].
  set (src := s0 :: s) in *. set (dst := d0 :: d) in *. rewrite Hends.
  set (doc := MkFileDoc (Some objectId) dst (basename dst)
                (from_option size 0 (findFirst src (files w))) false (Some now)).
  unfold try_catch. rewrite bind_run.
  destruct (getCollections_run u0 uri w) as (w1 & -> & Hb1 & Hf1 & _).
  rewrite !bind_run.
  destruct (copyS3Object_run AWS_S3_PREFIX pageSize src dst object w1)
    as (w2 & -> & Hb2 & Hf2 & _); [by rewrite Hb1|].
  rewrite bind_run.
  destruct (findOne_run src w2) as (w3 & -> & Hb3 & Hf3).
  cbv beta iota. rewrite bind_run, new_ObjectId_run, Hid. cbv beta iota.
  rewrite Hf2, Hf1. fold doc.
  destruct (updateOne_run dst doc w3) as (w4 & -> & Hb4 & Hf4).
  cbv beta iota. rewrite ?bind_run.
  destruct (logFileAction_run u0 uri ObjectId BSONError now (lit "copy") src
              (basename (dropTrailingSlash src)) user (DestinationDetails dst) w4
              (loggable_Some _ _ _ Hid))
    as (w5 & -> & Hb5 & Hf5).
  assert (bucket w5 = <[key_of AWS_S3_PREFIX dst := object]> (bucket w)) as Hb
    by (by rewrite Hb5, Hb4, Hb3, Hb2, Hb1).
  assert (files w5 = upsert (filePath doc) doc (files w)) as Hf
    by (by rewrite Hf5, Hf4, Hf3, Hf2, Hf1).
  exists w5. split_and!.
  - done.
  - by rewrite Hb, lookup_insert_eq.
  - rewrite Hb. destruct (decide (key_of AWS_S3_PREFIX dst = key_of AWS_S3_PREFIX src))
      as [->|Hne]; [by rewrite lookup_insert_eq|by rewrite lookup_insert_ne].
  - intros k' Hk'. by rewrite Hb, lookup_insert_ne.
  - rewrite Hf. apply (findFirst_upsert doc).
  - intros path Hp. rewrite Hf. by apply findFirst_upsert_ne.
Qed.
End SingleKey.

(** ** Keys outside the configured prefix *)

Section PrefixIsolation.
Variable AWS_S3_PREFIX : str.
Variable aws_configured : bool.
Variable MONGODB_URI : str.
Variable pageSize : nat.
Variable faults : nat → bool.
Variable Buffer_from_base64 : str → str.
Variable ObjectId : str → option str.
Variable BSONError : str.
Variable B : gmap (list ascii) S3Object.

Local Abbreviation api := (bucketApi pageSize faults).
Local Abbreviation kept := (outside_prefix_kept AWS_S3_PREFIX B).

Lemma kept_event c ok w : kept w → kept (record_event c ok w).
Proof. by intros Hw. Qed.

Lemma kept_insert key object w :
  kept w → kept (set_bucket (<[buildKey AWS_S3_PREFIX key := object]> (bucket w)) w).
Proof.
  intros Hw k Hk. cbn [bucket set_bucket]. rewrite lookup_insert_ne; [by apply Hw|].
  intros <-. apply Hk. unfold buildKey. by apply prefix_app_r.
Qed.

Lemma kept_blind {A : Type} (c : Call) (sem : World → (A + str) * World) :
  (∀ w, bucket (sem w).2 = bucket w) → preserves kept (extern faults c sem).
Proof.
  intros Hsem. apply preserves_extern; [intros; by apply kept_event|].
  intros w Hw k Hk. rewrite Hsem. by apply Hw.
Qed.

Lemma kept_put key body ct :
  preserves kept (PutObject api (buildKey AWS_S3_PREFIX key) body ct).
Proof.
  apply preserves_extern; [intros; by apply kept_event|]. intros w Hw.
  by apply kept_insert.
Qed.

Lemma kept_copy src dst :
  preserves kept
    (CopyObject api (buildKey AWS_S3_PREFIX src) (buildKey AWS_S3_PREFIX dst)).
Proof.
  apply preserves_extern; [intros; by apply kept_event|]. intros w Hw.
  destruct (bucket w !! buildKey AWS_S3_PREFIX src); [by apply kept_insert|done].
Qed.

Lemma kept_delete key : preserves kept (DeleteObject api (buildKey AWS_S3_PREFIX key)).
Proof.
  apply preserves_extern; [intros; by apply kept_event|]. intros w Hw k Hk.
  cbn [bucket set_bucket snd]. rewrite lookup_delete_ne; [by apply Hw|].
  intros <-. apply Hk. unfold buildKey. by apply prefix_app_r.
Qed.

Lemma kept_list prefix token : preserves kept (ListObjectsV2 api prefix token).
Proof. by apply kept_blind. Qed.

Lemma kept_deleteObjects prefix keys :
  Forall (fun key => buildKey AWS_S3_PREFIX prefix `prefix_of` key) keys →
  preserves kept (DeleteObjects api keys).
Proof.
  intros Hkeys. apply preserves_extern; [intros; by apply kept_event|]. intros w Hw k Hk.
  cbn [bucket set_bucket snd]. rewrite lookup_deleteAll, decide_False; [by apply Hw|].
  intros Hin. rewrite Forall_forall in Hkeys. apply Hkeys in Hin.
  apply Hk. etrans; [|exact Hin]. unfold buildKey. by apply prefix_app_r.
Qed.

Lemma listPage_under (b : gmap (list ascii) S3Object) (prefix : str) (token : option str) :
  Forall (fun key => prefix `prefix_of` key) (Contents (listPage pageSize b prefix token)).
Proof.
  unfold listPage. cbn [Contents]. apply Forall_forall. intros key Hin.
  apply elem_of_take in Hin as (i & Hi & _). apply list_elem_of_lookup_2 in Hi.
  apply list_elem_of_filter in Hi as [_ Hi]. by apply elem_of_keysUnder in Hi as [_ ?].
Qed.

Lemma kept_deleteS3Prefix fuel prefix :
  preserves kept (deleteS3Prefix api AWS_S3_PREFIX aws_configured fuel prefix).
Proof.
  apply preserves_bind; [by apply ensureS3Configured_preserves|]. intros _.
  generalize (@None str). induction fuel as [|fuel IH]; intros token w Hw; [done|].
  cbn [deleteS3Prefix_loop]. rewrite bind_run.
  pose proof (kept_list (buildKey AWS_S3_PREFIX prefix) token w Hw) as Hlist.
  cbn [ListObjectsV2 bucketApi] in *. unfold extern at 1 in Hlist. unfold extern at 1.
  destruct (faults (length (trace w))); [done|]. cbn [fst snd] in *. cbv iota beta.
  set (page := listPage pageSize (bucket w) (buildKey AWS_S3_PREFIX prefix) token) in *.
  set (w1 := record_event _ true w) in *.
  set (keys := filter (fun k => truthy (Some k)) (Contents page)).
  assert (Forall (fun key => buildKey AWS_S3_PREFIX prefix `prefix_of` key) keys) as Hkeys.
  { apply Forall_forall. intros key Hin. apply list_elem_of_filter in Hin as [_ Hin].
    pose proof (listPage_under (bucket w) (buildKey AWS_S3_PREFIX prefix) token) as Hall.
    rewrite Forall_forall in Hall. by apply Hall. }
  assert (preserves kept (if 0 <? len_list keys then DeleteObjects api keys else ret tt))
    as Hdel.
  { apply preserves_if; [by apply (kept_deleteObjects prefix)|apply preserves_ret]. }
  rewrite bind_run. specialize (Hdel w1 Hlist).
  destruct ((if 0 <? len_list keys then DeleteObjects api keys else ret tt) w1)
    as [[[]| |] w2]; cbn [fst snd] in *; [|done|done].
  cbv zeta. destruct (truthy _); [by apply IH|done].
Qed.

Lemma runMutation_kept (fuel : nat) (user : str) (now : Z) (m : Mutation) :
  preserves kept
    (runMutation AWS_S3_PREFIX aws_configured MONGODB_URI pageSize faults
       Buffer_from_base64 ObjectId BSONError fuel user now m).
Proof.
  assert (preserves kept (getCollections MONGODB_URI faults)) as Hc.
  { unfold getCollections. destruct MONGODB_URI; [by intros ?|].
    intros w1 Hw1. destruct (dbClient w1); [done|].
    by apply (kept_blind CallConnect (fun w' : World => (inl tt : unit + str, w'))). }
  apply runMutation_preserves.
  - intros. apply uploadS3Object_preserves. intros. apply kept_put.
  - intros. apply deleteS3Object_preserves. intros. apply kept_delete.
  - intros. apply createS3Folder_preserves. intros. apply kept_put.
  - intros. apply copyS3Object_preserves. intros. apply kept_copy.
  - intros. apply kept_deleteS3Prefix.
  - intros. apply copyS3Prefix_preserves; [apply kept_list|intros; apply kept_copy].
  - exact Hc.
  - intros sorted prefix. unfold findByPrefix.
    destruct (anchored (escapeRegex prefix)); [|by intros ?]. by apply kept_blind.
  - intros. by apply kept_blind.
  - intros. by apply kept_blind.
  - intros. by apply kept_blind.
  - intros prefix. unfold deleteManyByPrefix.
    destruct (anchored (escapeRegex prefix)); [|by intros ?]. by apply kept_blind.
  - intros. apply logFileAction_preserves; [exact Hc|intros logUser; by apply kept_blind].
Qed.
End PrefixIsolation.

(** X15. No mutation, however it ends, changes or removes an object whose
    key lies outside the configured key prefix. *)
Theorem keys_outside_prefix_are_untouched (prefix : str) (configured : bool) (uri : str)
    (pageSize : nat) (faults : nat → bool) (decode : str → str) (ObjectId : str → option str)
    (BSONError : str)
    (fuel : nat) (user : str) (now : Z) (m : Mutation) (w : World) (k : str) :
  ¬ basePrefix prefix `prefix_of` k →
  bucket (runMutation prefix configured uri pageSize faults decode ObjectId BSONError fuel user
      now m w).2 !! k
  = bucket w !! k.
Proof.
  intros Hk.
  by apply (runMutation_kept prefix configured uri pageSize faults decode
              ObjectId BSONError (bucket w) fuel user now m w).
Qed.

Lemma keys_outside_prefix_are_untouched_witness :
  ¬ basePrefix (lit "vault") `prefix_of` lit "reports/q1.pdf"
  ∧ bucket (runMutation (lit "vault") true demo_uri 2 no_faults raw_bytes hex_ObjectId
      demo_BSONError 9 demo_id 7
              (Delete (lit "reports/")) demoWorld).2 !! lit "reports/q1.pdf"
    = bucket demoWorld !! lit "reports/q1.pdf".
Proof.
  assert (¬ basePrefix (lit "vault") `prefix_of` lit "reports/q1.pdf") as Hk.
  { apply (bool_decide_unpack _). by vm_compute. }
  split; [exact Hk|].
  exact (keys_outside_prefix_are_untouched (lit "vault") true demo_uri 2 no_faults
           raw_bytes hex_ObjectId demo_BSONError 9 demo_id 7 (Delete (lit "reports/")) demoWorld
               (lit "reports/q1.pdf") Hk).
Defined.

(** ** Copying a prefix in the bucket *)

Lemma replaceFirst_prefix (p rel : str) : replaceFirst (p ++ rel) p [] = rel.
Proof.
  assert (∀ s, p `prefix_of` s → replaceFirst s p [] = drop (length p) s) as H.
  { intros s Hs. destruct s; cbn [replaceFirst]; by rewrite decide_True. }
  rewrite H by (by exists rel). apply drop_app_length.
Qed.

Lemma keysUnder_ext (b1 b2 : gmap (list ascii) S3Object) (p : str) :
  (∀ k, p `prefix_of` k → is_Some (b1 !! k) ↔ is_Some (b2 !! k)) →
  keysUnder b1 p = keysUnder b2 p.
Proof.
  intros Hext.
  apply (StronglySorted_unique str_le _ _ (keysUnder_sorted b1 p) (keysUnder_sorted b2 p)).
  apply NoDup_Permutation; try apply keysUnder_NoDup.
  intros k. rewrite !elem_of_keysUnder. split; intros [Hs Hp]; split; try done;
    by apply (Hext k Hp).
Qed.

Lemma sorted_le_last (l : list str) (kl x : str) :
  StronglySorted str_le l → last l = Some kl → x ∈ l → str_le x kl.
Proof.
  induction 1 as [|y l Hs IH Hall]; intros Hl Hx; [done|].
  destruct l as [|z l'].
  - simpl in Hl. injection Hl as <-. apply list_elem_of_singleton in Hx as ->.
    apply str_ltb_irrefl.
  - apply elem_of_cons in Hx as [->|Hx].
    + rewrite Forall_forall in Hall. apply Hall.
      change (last (y :: z :: l')) with (last (z :: l')) in Hl.
      by apply last_Some_elem_of.
    + by apply IH.
Qed.

Lemma filter_none {A : Type} (P : A → Prop) `{∀ x, Decision (P x)} (l : list A) :
  (∀ x, x ∈ l → ¬ P x) → filter P l = [].
Proof.
  induction l as [|x l IH]; intros Hl; [done|].
  rewrite filter_cons, decide_False by (apply Hl, list_elem_of_here).
  apply IH. intros y Hy. by apply Hl, list_elem_of_further.
Qed.

Lemma after_token_trans (token : option str) (kl x : str) :
  after_token token kl → str_lt kl x → after_token token x.
Proof.
  destruct token as [t|]; [|done]. cbn [after_token]. unfold str_lt.
  apply str_ltb_trans.
Qed.

(** The listing resumed after the last key of a page serves the keys that
    page left over. *)
Lemma filter_after_page (L : list str) (token : option str) (n : nat) (kl : str) :
  StronglySorted str_le L → NoDup L →
  last (take n (filter (after_token token) L)) = Some kl →
  filter (after_token (Some kl)) L = drop n (filter (after_token token) L).
Proof.
  intros Hs Hnd Hl. set (all := filter (after_token token) L) in *.
  assert (StronglySorted str_le all) as Hsa by (by apply StronglySorted_filter).
  assert (NoDup all) as Hna by (by apply NoDup_filter).
  assert (kl ∈ all) as Hkl.
  { apply last_Some_elem_of in Hl. apply elem_of_take in Hl as (i & Hi & _).
    by apply list_elem_of_lookup_2 in Hi. }
  assert (filter (after_token (Some kl)) L = filter (after_token (Some kl)) all) as ->.
  { unfold all. rewrite list_filter_filter. apply list_filter_iff. intros x.
    split; [|tauto]. intros Hx. split; [done|].
    apply list_elem_of_filter in Hkl as [Hkl _]. by apply (after_token_trans token kl). }
  rewrite <- (take_drop n all) at 1. rewrite filter_app.
  assert (filter (after_token (Some kl)) (take n all) = []) as ->.
  { apply filter_none. intros x Hx. cbn [after_token].
    assert (StronglySorted str_le (take n all)) as Hst.
    { rewrite <- (take_drop n all) in Hsa. by apply StronglySorted_app_1_l in Hsa. }
    pose proof (sorted_le_last _ kl x Hst Hl Hx) as Hle.
    unfold str_lt, str_le in *. congruence. }
  cbn [app]. apply filter_all. intros x Hx. cbn [after_token].
  by apply (sorted_after_last all n kl x).
Qed.

Section CopyPrefix.
Variable AWS_S3_PREFIX : str.
Variable pageSize : nat.
Hypothesis pageSize_pos : (0 < pageSize)%nat.
Variable src dst : str.
Hypothesis src_not_in_dst : ¬ src `prefix_of` dst.
Hypothesis dst_not_in_src : ¬ dst `prefix_of` src.

Local Abbreviation api := (bucketApi pageSize no_faults).
Local Abbreviation srcK := (buildKey AWS_S3_PREFIX src).
Local Abbreviation target := (copyTarget AWS_S3_PREFIX src dst).
Local Abbreviation copied := (copyAll AWS_S3_PREFIX src dst).

Lemma target_spec (rel : str) :
  target (srcK ++ rel) = buildKey AWS_S3_PREFIX (dst ++ rel).
Proof. unfold copyTarget. by rewrite replaceFirst_prefix. Qed.

Lemma target_outside (K : str) : srcK `prefix_of` K → ¬ srcK `prefix_of` target K.
Proof.
  intros [rel ->]. rewrite target_spec. unfold buildKey. intros Hp.
  apply prefix_app_inv in Hp.
  destruct (prefix_weak_total src dst (dst ++ rel) Hp) as [?|?]; try done.
  by apply prefix_app_r.
Qed.

Lemma target_inj (K1 K2 : str) :
  srcK `prefix_of` K1 → srcK `prefix_of` K2 → target K1 = target K2 → K1 = K2.
Proof.
  intros [r1 ->] [r2 ->]. rewrite !target_spec. unfold buildKey. intros Heq.
  apply app_inv_head in Heq. apply app_inv_head in Heq. by subst.
Qed.

Lemma copied_cons (K : str) (ks : list str) (b : gmap (list ascii) S3Object)
    (object : S3Object) :
  b !! K = Some object → copied (K :: ks) b = copied ks (<[target K := object]> b).
Proof. intros Hb. unfold copyAll. cbn [foldl]. by rewrite Hb. Qed.

Lemma copied_lookup (ks : list str) :
  ∀ b : gmap (list ascii) S3Object,
    (∀ K, K ∈ ks → srcK `prefix_of` K ∧ is_Some (b !! K)) →
    (∀ K, K ∈ ks → copied ks b !! target K = b !! K)
    ∧ (∀ k, (∀ K, K ∈ ks → k ≠ target K) → copied ks b !! k = b !! k).
Proof.
  induction ks as [|K0 ks IH]; intros b Hks.
  { split; [intros K HK; by apply elem_of_nil in HK|done]. }
  destruct (Hks K0 (list_elem_of_here _ _)) as [Hp0 [o0 Ho0]].
  rewrite (copied_cons K0 ks b o0 Ho0).
  destruct (IH (<[target K0 := o0]> b)) as [IH1 IH2].
  { intros K HK. destruct (Hks K (list_elem_of_further _ _ _ HK)) as [Hp Hs].
    split; [done|]. rewrite lookup_insert_ne; [done|].
    intros Heq. apply (target_outside K0 Hp0). by rewrite Heq. }
  assert (∀ K, srcK `prefix_of` K → <[target K0 := o0]> b !! K = b !! K) as Hsrc.
  { intros K Hp. rewrite lookup_insert_ne; [done|].
    intros Heq. apply (target_outside K0 Hp0). by rewrite Heq. }
  split.
  - intros K HK. destruct (decide (K ∈ ks)) as [Hin|Hnin].
    + rewrite IH1 by done. apply Hsrc. by apply (Hks K HK).
    + apply elem_of_cons in HK as [->|?]; [|done].
      rewrite IH2.
      * by rewrite lookup_insert_eq.
      * intros K HK Heq. apply Hnin.
        rewrite (target_inj K0 K Hp0) at 1; try done.
        by apply (Hks K (list_elem_of_further _ _ _ HK)).
  - intros k Hk. rewrite IH2.
    + rewrite lookup_insert_ne; [done|]. intros Heq. by apply (Hk K0 (list_elem_of_here _ _)).
    + intros K HK. apply Hk. by apply list_elem_of_further.
Qed.

Lemma copied_app (l1 l2 : list str) (b : gmap (list ascii) S3Object) :
  copied (l1 ++ l2) b = copied l2 (copied l1 b).
Proof. unfold copyAll. apply foldl_app. Qed.

Lemma copied_quiet (ks : list str) (b : gmap (list ascii) S3Object) (k : str) :
  (∀ K, K ∈ ks → srcK `prefix_of` K ∧ is_Some (b !! K)) →
  srcK `prefix_of` k → copied ks b !! k = b !! k.
Proof.
  intros Hks Hk. apply (copied_lookup ks b Hks). intros K HK ->.
  by apply (target_outside K); [apply (Hks K HK)|].
Qed.

Lemma copyS3Prefix_items_run (ks : list str) :
  ∀ w : World,
    (∀ K, K ∈ ks → K ≠ [] ∧ srcK `prefix_of` K ∧ is_Some (bucket w !! K)) →
    ∃ w' : World,
      copyS3Prefix_items api AWS_S3_PREFIX true src dst ks w = (Ok tt, w')
      ∧ bucket w' = copied ks (bucket w)
      ∧ files w' = files w ∧ logs w' = logs w ∧ dbClient w' = dbClient w.
Proof.
  induction ks as [|K ks IH]; intros w Hks; [by exists w|].
  destruct (Hks K (list_elem_of_here _ _)) as (Hne & [rel ->] & [o Ho]).
  cbn [copyS3Prefix_items]. rewrite bind_run.
  assert (truthy (Some (srcK ++ rel)) = true) as -> by (by destruct (srcK ++ rel)).
  cbv zeta. rewrite replaceFirst_prefix.
  destruct (copyS3Object_run AWS_S3_PREFIX pageSize (src ++ rel) (dst ++ rel) o w)
    as (w1 & -> & Hb1 & Hf1 & Hl1 & Hc1).
  { unfold buildKey in *. by rewrite app_assoc. }
  destruct (IH w1) as (w' & -> & Hb' & Hf' & Hl' & Hc').
  { intros K' HK'. destruct (Hks K' (list_elem_of_further _ _ _ HK')) as (? & ? & [o' Ho']).
    split; [done|]. split; [done|]. rewrite Hb1.
    destruct (decide (buildKey AWS_S3_PREFIX (dst ++ rel) = K')) as [<-|Hd].
    - rewrite lookup_insert_eq. by eexists.
    - rewrite lookup_insert_ne by done. by eexists. }
  exists w'. split; [done|]. split; [|split_and!; congruence].
  rewrite Hb', Hb1. symmetry. rewrite (copied_cons _ ks (bucket w) o Ho).
  by rewrite target_spec.
Qed.

Lemma copy_loop_run :
  ∀ (fuel : nat) (token : option str) (w : World),
    let all := filter (after_token token) (keysUnder (bucket w) srcK) in
    srcK ≠ [] →
    (length all < fuel)%nat →
    ∃ w' : World,
      copyS3Prefix_loop api AWS_S3_PREFIX true fuel src dst token w = (Ok tt, w')
      ∧ bucket w' = copied all (bucket w)
      ∧ files w' = files w ∧ logs w' = logs w ∧ dbClient w' = dbClient w.
Proof.
  induction fuel as [|fuel IH]; intros token w all Hp Hfuel; [lia|].
  assert (∀ K, K ∈ all → K ≠ [] ∧ srcK `prefix_of` K ∧ is_Some (bucket w !! K)) as Hall.
  { intros K HK. apply list_elem_of_filter in HK as [_ HK].
    apply elem_of_keysUnder in HK as [Hs Hpre]. split; [|done].
    intros ->. destruct Hpre as [r Hr]. symmetry in Hr.
    apply app_eq_nil in Hr as [? _]. done. }
  cbn [copyS3Prefix_loop]. rewrite bind_run.
  cbn [ListObjectsV2 bucketApi]. unfold extern at 1, no_faults at 1.
  cbn [fst snd]. cbv iota beta.
  unfold listPage. cbn [Contents IsTruncated NextContinuationToken]. fold all.
  set (w0 := record_event _ true w).
  rewrite bind_run.
  destruct (copyS3Prefix_items_run (take pageSize all) w0)
    as (w1 & -> & Hb1 & Hf1 & Hl1 & Hc1).
  { intros K HK. apply Hall. apply elem_of_take in HK as (i & Hi & _).
    by apply list_elem_of_lookup_2 in Hi. }
  change (bucket w0) with (bucket w) in Hb1. change (files w0) with (files w) in Hf1.
  change (logs w0) with (logs w) in Hl1. change (dbClient w0) with (dbClient w) in Hc1.
  destruct (decide (pageSize < length all)%nat) as [Hlt|Hge].
  - rewrite bool_decide_eq_true_2 by done.
    destruct (last (take pageSize all)) as [kl|] eqn:El.
    2:{ apply last_None in El. apply (f_equal length) in El.
        rewrite length_take in El. simpl in El. lia. }
    assert (kl ≠ []) as Hkl.
    { apply Hall. apply last_Some_elem_of in El.
      apply elem_of_take in El as (i & Hi & _). by apply list_elem_of_lookup_2 in Hi. }
    assert (truthy (Some kl) = true) as -> by (by destruct kl).
    assert (keysUnder (bucket w1) srcK = keysUnder (bucket w) srcK) as Hkeys.
    { apply keysUnder_ext. intros k Hk. rewrite Hb1, copied_quiet; [done| |done].
      intros K HK. apply elem_of_take in HK as (i & Hi & _).
      apply list_elem_of_lookup_2 in Hi. by apply Hall. }
    assert (filter (after_token (Some kl)) (keysUnder (bucket w1) srcK)
            = drop pageSize all) as Hrest.
    { rewrite Hkeys. apply filter_after_page; [apply keysUnder_sorted|apply keysUnder_NoDup|].
      exact El. }
    destruct (IH (Some kl) w1) as (w' & -> & Hb' & Hf' & Hl' & Hc'); [done| |].
    { rewrite Hrest, length_drop. lia. }
    exists w'. split; [done|]. split; [|split_and!; congruence].
    rewrite Hb', Hrest, Hb1, <- copied_app. by rewrite take_drop.
  - rewrite bool_decide_eq_false_2 by done. cbn [truthy].
    rewrite take_ge in * by lia. exists w1. split_and!; done.
Qed.
End CopyPrefix.

Lemma findByPrefix_run (sorted : bool) (prefix : str) (w : World) :
  ∃ (rows : list FileDoc) (w' : World),
    findByPrefix no_faults sorted prefix w = (Ok rows, w')
    ∧ bucket w' = bucket w ∧ files w' = files w.
Proof.
  unfold findByPrefix. rewrite anchored_escapeRegex. unfold extern, no_faults. simpl.
  by eexists _, _.
Qed.

Lemma promise_all_run (g : FileDoc → FileDoc) (docs : list FileDoc) :
  ∀ w : World,
    ∃ w' : World,
      promise_all ((fun file => updateOne no_faults (filePath (g file)) (g file)) <$> docs)
        None w = (Ok tt, w')
      ∧ bucket w' = bucket w.
Proof.
  induction docs as [|d docs IH]; intros w; [by exists w|].
  cbn [fmap list_fmap promise_all].
  destruct (updateOne_run (filePath (g d)) (g d) w) as (w1 & -> & Hb1 & _).
  destruct (IH w1) as (w' & -> & Hb'). exists w'. split; [done|congruence].
Qed.

(** X16. Copying a folder to a destination that neither contains the source
    nor lies in it, for a caller whose id the driver accepts, with no
    failure on the way and pages of at least one key, copies every object found under the source
        prefix to the same
    relative key under the destination prefix, leaves a marker object at the
    destination prefix, and changes no object outside the destination
    prefix; the source stays as it was. *)
Theorem copy_folder_copies_every_object (prefix : str) (pageSize : nat) (u0 : ascii)
    (uri : str) (ObjectId : str → option str) (BSONError : str) (fuel : nat)
    (user objectId : str) (now : Z) (sourceKey destinationKey : str) (w : World) :
  let safeSource := normalizeKey sourceKey in
  let safeDestination := normalizeKey destinationKey in
  let destPrefix :=
    if endsWith safeDestination [CHAR_FORWARD_SLASH] then safeDestination
    else safeDestination ++ [CHAR_FORWARD_SLASH] in
  (0 < pageSize)%nat →
  safeSource ≠ [] → safeDestination ≠ [] →
  endsWith safeSource [CHAR_FORWARD_SLASH] = true →
  ¬ safeSource `prefix_of` destPrefix → ¬ destPrefix `prefix_of` safeSource →
  (length (keysUnder (bucket w) (key_of prefix safeSource)) < fuel)%nat →
  ObjectId user = Some objectId →
  ∃ w' : World,
    copyHandler prefix true (u0 :: uri) pageSize no_faults ObjectId BSONError fuel user now
      sourceKey destinationKey w = (Ok RespOk, w')
    ∧ (∀ rel object,
         bucket w !! key_of prefix (safeSource ++ rel) = Some object →
         bucket w' !! key_of prefix (destPrefix ++ rel) = Some object)
    ∧ is_Some (bucket w' !! key_of prefix destPrefix)
    ∧ (∀ k, ¬ key_of prefix destPrefix `prefix_of` k → bucket w' !! k = bucket w !! k).
Proof.
  cbv zeta. intros Hps Hsrc Hdst Hends Hsd Hds Hfuel Hid. unfold copyHandler. cbv zeta.
  destruct (normalizeKey sourceKey) as [|s0 s] eqn:Es; [done|].
  destruct (normalizeKey destinationKey) as [|d0 d] eqn:Ed; [done|].
  set (src := s0 :: s) in *. set (safeDestination := d0 :: d) in *.
  set (dp := if endsWith safeDestination [CHAR_FORWARD_SLASH] then safeDestination
             else safeDestination ++ [CHAR_FORWARD_SLASH]) in *.
  rewrite Hends. unfold key_of in *.
  set (srcK := buildKey prefix src) in *. set (dpK := buildKey prefix dp).
  assert (¬ srcK `prefix_of` dpK) as Hout.
  { unfold srcK, dpK, buildKey. intros Hp. by apply prefix_app_inv in Hp. }
  unfold try_catch. rewrite bind_run.
  destruct (getCollections_run u0 uri w) as (w1 & -> & Hb1 & _).
  rewrite !bind_run.
  destruct (createS3Folder_run prefix pageSize dp w1) as (w2 & -> & Hb2 & _).
  fold dpK in Hb2. rewrite Hb1 in Hb2.
  unfold copyS3Prefix, ensureS3Configured. rewrite !bind_run.
  change (ret tt w2) with (Ok tt, w2). cbv iota beta.
  assert (keysUnder (bucket w2) srcK = keysUnder (bucket w) srcK) as Hkeys.
  { apply keysUnder_ext. intros k Hk. rewrite Hb2, lookup_insert_ne; [done|].
    by intros <-. }
  set (all := keysUnder (bucket w) srcK) in *.
  assert (filter (after_token None) (keysUnder (bucket w2) srcK) = all) as Hall.
  { rewrite Hkeys. by apply filter_all. }
  destruct (copy_loop_run prefix pageSize Hps src dp Hsd Hds fuel None w2)
    as (w3 & -> & Hb3 & _).
  { unfold buildKey. intros Hnil. by apply app_eq_nil in Hnil as [_ ?]. }
  { fold srcK. by rewrite Hall. }
  fold srcK in Hb3. rewrite Hall in Hb3.
  cbv beta iota. rewrite bind_run, new_ObjectId_run, Hid. cbv beta iota.
  rewrite bind_run.
  destruct (updateOne_run dp (MkFileDoc (Some objectId) dp
                                (basename (dropTrailingSlash dp)) 0 true (Some now)) w3)
    as (w4 & -> & Hb4 & _).
  cbv beta iota. rewrite bind_run.
  destruct (findByPrefix_run false src w4) as (rows & w5 & -> & Hb5 & _).
  cbv beta iota. rewrite bind_run.
  rewrite (mapM_total _
             (fun file => updateOne no_faults
                            (filePath (copiedDoc objectId now src dp file))
                            (copiedDoc objectId now src dp file)))
    by (intros x w'; by rewrite bind_run, new_ObjectId_run, Hid).
  cbv beta iota.
  destruct (promise_all_run (copiedDoc objectId now src dp) rows w5) as (w6 & -> & Hb6).
  cbv beta iota. rewrite ?bind_run.
  destruct (logFileAction_run u0 uri ObjectId BSONError now (lit "copy") src
              (basename (dropTrailingSlash src)) user (DestinationDetails safeDestination)
              w6 (loggable_Some _ _ _ Hid)) as (w7 & -> & Hb7 & _).
  assert (bucket w7 = copyAll prefix src dp all (bucket w2)) as Hb
    by (by rewrite Hb7, Hb6, Hb5, Hb4, Hb3).
  assert (∀ K, K ∈ all → srcK `prefix_of` K ∧ is_Some (bucket w2 !! K)) as Hin.
  { intros K HK. apply elem_of_keysUnder in HK as [Hs Hp]. split; [done|].
    rewrite Hb2, lookup_insert_ne; [done|]. by intros <-. }
  destruct (copied_lookup prefix src dp Hsd Hds all (bucket w2) Hin) as [Hcopy Hframe].
  exists w7. split; [done|]. split_and!.
  - intros rel object Hobj.
    assert (buildKey prefix (src ++ rel) = srcK ++ rel) as HK
      by (unfold srcK, buildKey; by rewrite app_assoc).
    rewrite HK in Hobj.
    assert (srcK ++ rel ∈ all) as Hmem.
    { apply elem_of_keysUnder. split; [by eexists|by exists rel]. }
    rewrite Hb, <- (target_spec prefix src dp rel), Hcopy by done.
    rewrite Hb2, lookup_insert_ne; [done|]. intros Heq. apply Hout. rewrite Heq.
    by exists rel.
  - assert (copyTarget prefix src dp srcK = dpK) as Htarget.
    { rewrite <- (app_nil_r srcK), target_spec. by rewrite app_nil_r. }
    destruct (decide (srcK ∈ all)) as [Hmem|Hnmem].
    + rewrite Hb, <- Htarget, Hcopy by done. by apply Hin.
    + rewrite Hb, Hframe.
      * rewrite Hb2, lookup_insert_eq. by eexists.
      * intros K HK Heq. apply Hnmem.
        rewrite (target_inj prefix src dp srcK K) at 1; try done.
        -- by apply Hin.
        -- by rewrite Htarget.
  - intros k Hk. rewrite Hb, Hframe.
    + rewrite Hb2, lookup_insert_ne; [done|]. by intros <-.
    + intros K HK ->. apply Hk. destruct (Hin K HK) as [[rel ->] _].
      rewrite target_spec. unfold dpK, buildKey. rewrite app_assoc. by apply prefix_app_r.
Qed.

(** ** The single-key and folder properties on the small deployment *)

Lemma upload_round_trip_witness :
  normalizeKey (lit "reports\q3.pdf") ≠ [] ∧ lit "third" ≠ []
  ∧ hex_ObjectId demo_id = Some demo_id
  ∧ ∃ w' : World,
      uploadHandler [] true demo_uri 2 no_faults raw_bytes hex_ObjectId demo_BSONError
        demo_id 7 (lit "reports\q3.pdf") (lit "third") None demoWorld = (Ok RespOk, w')
      ∧ bucket w' !! lit "reports/q3.pdf"
        = Some (MkObject (lit "third") (lit "application/octet-stream"))
      ∧ findFirst (lit "reports/q3.pdf") (files w')
        = Some (MkFileDoc (Some demo_id) (lit "reports/q3.pdf") (lit "q3.pdf") 5 false
                  (Some 7)).
Proof.
  assert (normalizeKey (lit "reports\q3.pdf") ≠ []) as H1 by (by vm_compute).
  assert (lit "third" ≠ []) as H2 by done.
  assert (hex_ObjectId demo_id = Some demo_id) as H3 by (vm_compute; reflexivity).
  split; [exact H1|]. split; [exact H2|]. split; [exact H3|].
  destruct (upload_round_trip [] 2 "m"%char (lit "ongodb://localhost/vault") raw_bytes
              hex_ObjectId demo_BSONError demo_id demo_id 7 (lit "reports\q3.pdf")
              (lit "third") None demoWorld H1 H2 H3)
    as (w' & Hrun & Hobj & _ & Hdoc & _).
  exists w'. split; [exact Hrun|]. split; [exact Hobj|exact Hdoc].
Defined.

Lemma uploaded_file_is_listed_witness :
  normalizeKey (lit "reports\q3.pdf") ≠ [] ∧ lit "third" ≠ []
  ∧ hex_ObjectId demo_id = Some demo_id
  ∧ ∃ (dir : str) (w' : World) (entries : list ListEntry),
      uploadHandler [] true demo_uri 2 no_faults raw_bytes hex_ObjectId demo_BSONError
        demo_id 7 (lit "reports\q3.pdf") (lit "third") None demoWorld = (Ok RespOk, w')
      ∧ (listHandler demo_uri no_faults 8 dir w').1 = Ok (RespFiles entries)
      ∧ MkListEntry (lit "reports/q3.pdf") 5 7 ∈ entries.
Proof.
  assert (normalizeKey (lit "reports\q3.pdf") ≠ []) as H1 by (by vm_compute).
  assert (lit "third" ≠ []) as H2 by done.
  assert (hex_ObjectId demo_id = Some demo_id) as H3 by (vm_compute; reflexivity).
  split; [exact H1|]. split; [exact H2|]. split; [exact H3|].
  destruct (uploaded_file_is_listed [] 2 "m"%char (lit "ongodb://localhost/vault")
              raw_bytes hex_ObjectId demo_BSONError demo_id demo_id 7 8
              (lit "reports\q3.pdf") (lit "third") None demoWorld H1 H2 H3)
    as (dir & w' & entries & _ & Hrun & Hlist & Hin).
  exists dir, w', entries. split; [exact Hrun|]. split; [exact Hlist|exact Hin].
Defined.

Lemma created_folder_is_listed_witness :
  normalizeKey (lit "reports/2025") ≠ []
  ∧ hex_ObjectId demo_id = Some demo_id
  ∧ ∃ (dir : str) (w' : World) (entries : list ListEntry),
      createFolderHandler [] true demo_uri 2 no_faults hex_ObjectId demo_BSONError
        demo_id 7 (lit "reports/2025") demoWorld = (Ok RespOk, w')
      ∧ bucket w' !! lit "reports/2025/" = Some folderMarker
      ∧ (listHandler demo_uri no_faults 8 dir w').1 = Ok (RespFiles entries)
      ∧ MkListEntry (lit "reports/2025/") 0 7 ∈ entries.
Proof.
  assert (normalizeKey (lit "reports/2025") ≠ []) as H1 by (by vm_compute).
  assert (hex_ObjectId demo_id = Some demo_id) as H2 by (vm_compute; reflexivity).
  split; [exact H1|]. split; [exact H2|].
  destruct (created_folder_is_listed [] 2 "m"%char (lit "ongodb://localhost/vault")
              hex_ObjectId demo_BSONError demo_id demo_id 7 8 (lit "reports/2025")
              demoWorld H1 H2)
    as (dir & w' & entries & Hrun & Hobj & _ & _ & _ & _ & Hlist & Hin).
  exists dir, w', entries. split; [exact Hrun|]. split; [exact Hobj|].
  split; [exact Hlist|exact Hin].
Defined.

Lemma delete_file_removes_one_key_witness :
  normalizeKey (lit "reports/q1.pdf") ≠ []
  ∧ endsWith (normalizeKey (lit "reports/q1.pdf")) [CHAR_FORWARD_SLASH] = false
  ∧ loggable hex_ObjectId demo_id = true
  ∧ NoDup (filePath <$> files demoWorld)
  ∧ ∃ w' : World,
      deleteHandler [] true demo_uri 2 no_faults hex_ObjectId demo_BSONError 9 demo_id 7
        (lit "reports/q1.pdf") demoWorld = (Ok RespOk, w')
      ∧ bucket w' !! lit "reports/q1.pdf" = None
      ∧ findFirst (lit "reports/q1.pdf") (files w') = None.
Proof.
  assert (normalizeKey (lit "reports/q1.pdf") ≠ []) as H1 by (by vm_compute).
  assert (endsWith (normalizeKey (lit "reports/q1.pdf")) [CHAR_FORWARD_SLASH] = false)
    as H2 by (vm_compute; reflexivity).
  assert (NoDup (filePath <$> files demoWorld)) as H3.
  { apply (bool_decide_unpack _). by vm_compute. }
  assert (loggable hex_ObjectId demo_id = true) as H4 by (vm_compute; reflexivity).
  split; [exact H1|]. split; [exact H2|]. split; [exact H4|]. split; [exact H3|].
  destruct (delete_file_removes_one_key [] 2 "m"%char (lit "ongodb://localhost/vault")
              hex_ObjectId demo_BSONError 9 demo_id 7 (lit "reports/q1.pdf") demoWorld
              H1 H2 H4)
    as (w' & Hrun & Hobj & _ & Hdoc & _).
  exists w'. split; [exact Hrun|]. split; [exact Hobj|exact (Hdoc H3)].
Defined.

Lemma copy_file_duplicates_object_witness :
  normalizeKey (lit "reports/q1.pdf") ≠ [] ∧ normalizeKey (lit "backup/q1.pdf") ≠ []
  ∧ endsWith (normalizeKey (lit "reports/q1.pdf")) [CHAR_FORWARD_SLASH] = false
  ∧ bucket demoWorld !! key_of [] (normalizeKey (lit "reports/q1.pdf"))
    = Some (plain "first")
  ∧ hex_ObjectId demo_id = Some demo_id
  ∧ ∃ w' : World,
      copyHandler [] true demo_uri 2 no_faults hex_ObjectId demo_BSONError 9 demo_id 7
        (lit "reports/q1.pdf") (lit "backup/q1.pdf") demoWorld = (Ok RespOk, w')
      ∧ bucket w' !! lit "backup/q1.pdf" = Some (plain "first")
      ∧ bucket w' !! lit "reports/q1.pdf" = Some (plain "first").
Proof.
  assert (normalizeKey (lit "reports/q1.pdf") ≠ []) as H1 by (by vm_compute).
  assert (normalizeKey (lit "backup/q1.pdf") ≠ []) as H2 by (by vm_compute).
  assert (endsWith (normalizeKey (lit "reports/q1.pdf")) [CHAR_FORWARD_SLASH] = false)
    as H3 by (vm_compute; reflexivity).
  assert (bucket demoWorld !! key_of [] (normalizeKey (lit "reports/q1.pdf"))
          = Some (plain "first")) as H4 by (vm_compute; reflexivity).
  assert (hex_ObjectId demo_id = Some demo_id) as H5 by (vm_compute; reflexivity).
  split; [exact H1|]. split; [exact H2|]. split; [exact H3|]. split; [exact H4|].
  split; [exact H5|].
  destruct (copy_file_duplicates_object [] 2 "m"%char (lit "ongodb://localhost/vault")
              hex_ObjectId demo_BSONError 9 demo_id demo_id 7 (lit "reports/q1.pdf")
              (lit "backup/q1.pdf") (plain "first") demoWorld H1 H2 H3 H4 H5)
    as (w' & Hrun & Hdst & Hsrc & _).
  exists w'. split; [exact Hrun|]. split; [exact Hdst|exact Hsrc].
Defined.

Lemma copy_folder_copies_every_object_witness :
  (0 < 2)%nat
  ∧ normalizeKey (lit "reports/") ≠ [] ∧ normalizeKey (lit "archive") ≠ []
  ∧ endsWith (normalizeKey (lit "reports/")) [CHAR_FORWARD_SLASH] = true
  ∧ ¬ lit "reports/" `prefix_of` lit "archive/"
  ∧ ¬ lit "archive/" `prefix_of` lit "reports/"
  ∧ (length (keysUnder (bucket demoWorld) (key_of [] (normalizeKey (lit "reports/")))) < 9)%nat
  ∧ hex_ObjectId demo_id = Some demo_id
  ∧ ∃ w' : World,
      copyHandler [] true demo_uri 2 no_faults hex_ObjectId demo_BSONError 9 demo_id 7
        (lit "reports/") (lit "archive") demoWorld = (Ok RespOk, w')
      ∧ bucket w' !! lit "archive/2024/jan.txt" = Some (plain "jan")
      ∧ bucket w' !! lit "reports/2024/jan.txt" = Some (plain "jan").
Proof.
  assert (0 < 2)%nat as H0 by lia.
  assert (normalizeKey (lit "reports/") ≠ []) as H1 by (by vm_compute).
  assert (normalizeKey (lit "archive") ≠ []) as H2 by (by vm_compute).
  assert (endsWith (normalizeKey (lit "reports/")) [CHAR_FORWARD_SLASH] = true)
    as H3 by (vm_compute; reflexivity).
  assert (¬ lit "reports/" `prefix_of` lit "archive/") as H4.
  { apply (bool_decide_unpack _). by vm_compute. }
  assert (¬ lit "archive/" `prefix_of` lit "reports/") as H5.
  { apply (bool_decide_unpack _). by vm_compute. }
  assert (length (keysUnder (bucket demoWorld) (key_of [] (normalizeKey (lit "reports/"))))
          < 9)%nat as H6 by (vm_compute; lia).
  assert (hex_ObjectId demo_id = Some demo_id) as H7 by (vm_compute; reflexivity).
  split_and!; try done.
  destruct (copy_folder_copies_every_object [] 2 "m"%char (lit "ongodb://localhost/vault")
              hex_ObjectId demo_BSONError 9 demo_id demo_id 7 (lit "reports/")
              (lit "archive") demoWorld H0 H1 H2 H3 H4 H5 H6 H7)
    as (w' & Hrun & Hcopy & _ & Hframe).
  exists w'. split; [exact Hrun|]. split.
  - apply (Hcopy (lit "2024/jan.txt")). vm_compute. reflexivity.
  - rewrite Hframe; [vm_compute; reflexivity|].
    apply (bool_decide_unpack _). by vm_compute.
Defined.

(** ** A caller whose id the driver refuses *)

Lemma never_ok_bind_l {A B : Type} (m : M World A) (k : A → M World B) :
  never_ok m → never_ok (bind m k).
Proof.
  intros Hm w. specialize (Hm w). rewrite bind_run.
  by destruct (m w) as [[a| |] w1].
Qed.

Lemma never_ok_bind_r {A B : Type} (m : M World A) (k : A → M World B) :
  (∀ a, never_ok (k a)) → never_ok (bind m k).
Proof.
  intros Hk w. rewrite bind_run. destruct (m w) as [[a| |] w1]; [apply Hk|done..].
Qed.

Lemma never_ok_if {A : Type} (c : bool) (m1 m2 : M World A) :
  never_ok m1 → never_ok m2 → never_ok (if c then m1 else m2).
Proof. by destruct c. Qed.

Lemma store_only_never {A B : Type} (m : M World A) (k : A → M World B) :
  store_only m → never_ok m → store_only (bind m k).
Proof.
  intros Hs Hn w. specialize (Hn w). destruct (Hs w) as (evs & Ht & Hq & Hf & Hx).
  rewrite bind_run. destruct (m w) as [[a| |] w1]; [done|..]; by exists evs.
Qed.

Lemma loggable_false (ObjectId : str → option str) (user : str) :
  loggable ObjectId user = false → user ≠ [] ∧ ObjectId user = None.
Proof.
  unfold loggable. destruct user as [|c user]; [done|].
  by destruct (ObjectId (c :: user)).
Qed.

Lemma refused_handler (body : M World Response) (w : World) :
  never_ok body →
  (try_catch body (fun e => ret (RespError 500 e)) w).1 ≠ Ok RespOk.
Proof.
  intros Hn. specialize (Hn w). unfold try_catch.
  by destruct (body w) as [[r| |] w1].
Qed.

Lemma store_only_handler (body : M World Response) (w : World) :
  store_only body →
  let result := try_catch body (fun e => ret (RespError 500 e)) w in
  files result.2 = files w
  ∧ Forall (fun e => is_catalog_write (call e) = false) (new_events w result.2).
Proof.
  intros Hs. destruct (Hs w) as (evs & Ht & Hq & Hf & _). cbv zeta.
  unfold new_events. rewrite try_catch_trace, Ht, drop_app_length.
  split.
  - unfold try_catch. by destruct (body w) as [[r| |] w1].
  - eapply Forall_impl; [exact Hq|]. by intros e [? _].
Qed.

Lemma logUser_never (ObjectId : str → option str) (BSONError user : str) :
  loggable ObjectId user = false →
  never_ok
    (match user with
     | [] => ret None
     | _ => let* objectId := new_ObjectId ObjectId BSONError user in ret (Some objectId)
     end).
Proof.
  intros Hrefused w. destruct (loggable_false _ _ Hrefused) as [Hne Hid].
  destruct user as [|c rest]; [done|]. by rewrite bind_run, new_ObjectId_run, Hid.
Qed.

Section RefusedId.
Variable AWS_S3_PREFIX : str.
Variable aws_configured : bool.
Variable MONGODB_URI : str.
Variable pageSize : nat.
Variable faults : nat → bool.
Variable Buffer_from_base64 : str → str.
Variable ObjectId : str → option str.
Variable BSONError : str.
Variable user : str.
Hypothesis refused : loggable ObjectId user = false.

Local Abbreviation api := (bucketApi pageSize faults).

Lemma new_ObjectId_never : never_ok (new_ObjectId ObjectId BSONError user).
Proof.
  intros w. rewrite new_ObjectId_run.
  by destruct (loggable_false _ _ refused) as [_ ->].
Qed.

Lemma logFileAction_never now action path name details :
  never_ok (logFileAction MONGODB_URI faults ObjectId BSONError now action path name user
              details).
Proof.
  unfold logFileAction. apply never_ok_bind_r. intros _. apply never_ok_bind_l.
  apply logUser_never, refused.
Qed.

Lemma findOne_store_only path : store_only (findOne faults path).
Proof. by apply extern_store_only. Qed.

Local Ltac refused_id :=
  repeat first
    [ apply new_ObjectId_never
    | apply logFileAction_never
    | apply never_ok_bind_l; solve [refused_id]
    | apply never_ok_if
    | apply never_ok_bind_r; intros ? ].

Local Ltac store_phase :=
  repeat first
    [ apply uploadS3Object_store_only | apply createS3Folder_store_only
    | apply copyS3Object_store_only | apply copyS3Prefix_store_only
    | apply getCollections_store_only | apply findOne_store_only
    | apply store_only_never; [apply new_ObjectId_store_only|apply new_ObjectId_never]
    | apply store_only_never; [|solve [refused_id]]
    | apply store_only_if
    | apply store_only_bind; [|intros ?] ].

(** Up to the constructor of the id, a mutation other than a delete has
    sent nothing to the catalog. *)
Lemma runMutation_refused (fuel : nat) (now : Z) (m : Mutation) (w : World) :
  let run := runMutation AWS_S3_PREFIX aws_configured MONGODB_URI pageSize faults
               Buffer_from_base64 ObjectId BSONError fuel user now m w in
  run.1 ≠ Ok RespOk
  ∧ match m with
    | Delete _ => True
    | _ => files run.2 = files w
           ∧ Forall (fun e => is_catalog_write (call e) = false) (new_events w run.2)
    end.
Proof.
  assert (∀ r : Response,
            files (try_catch (ret r) (fun e => ret (RespError 500 e)) w).2 = files w
            ∧ Forall (fun e => is_catalog_write (call e) = false)
                (new_events w (try_catch (ret r) (fun e => ret (RespError 500 e)) w).2))
    as Hret.
  { intros r. unfold try_catch, ret, new_events. simpl. by rewrite drop_all. }
  cbv zeta.
  destruct m as [key content contentType|key|sourceKey destinationKey|key];
    cbn [runMutation];
    unfold uploadHandler, createFolderHandler, copyHandler, deleteHandler; cbv zeta.
  - destruct (normalizeKey key) as [|k0 k]; [split; [done|apply Hret]|].
    destruct content as [|c0 c]; [split; [done|apply Hret]|].
    split; [apply refused_handler; refused_id|apply (store_only_handler _ w); store_phase].
  - destruct (normalizeKey key) as [|k0 k]; [split; [done|apply Hret]|].
    split; [apply refused_handler; refused_id|apply (store_only_handler _ w); store_phase].
  - destruct (normalizeKey sourceKey) as [|s0 src]; [split; [done|apply Hret]|].
    destruct (normalizeKey destinationKey) as [|d0 dst]; [split; [done|apply Hret]|].
    split; [apply refused_handler; refused_id|apply (store_only_handler _ w); store_phase].
  - destruct (normalizeKey key) as [|k0 k]; [by split|]. split; [|done].
    apply refused_handler. refused_id.
Qed.
End RefusedId.

(** X26. A mutation for a caller whose id is not empty and is refused by
    the constructor of the driver's ids never answers with success, whatever
    else fails, and leaves the activity log as it was.  An upload, a folder
    creation and a copy then send no write to the catalog, which stays as it
    was, although their store calls may have gone through. *)
Theorem refused_caller_id_fails_the_mutation (prefix : str) (configured : bool)
    (uri : str) (pageSize : nat) (faults : nat → bool) (decode : str → str)
    (ObjectId : str → option str) (BSONError : str) (fuel : nat) (user : str) (now : Z)
    (m : Mutation) (w : World) :
  loggable ObjectId user = false →
  let run := runMutation prefix configured uri pageSize faults decode ObjectId BSONError
               fuel user now m w in
  run.1 ≠ Ok RespOk
  ∧ logs run.2 = logs w
  ∧ match m with
    | Delete _ => True
    | _ => files run.2 = files w
           ∧ Forall (fun e => is_catalog_write (call e) = false) (new_events w run.2)
    end.
Proof.
  intros Hrefused. cbv zeta.
  destruct (runMutation_refused prefix configured uri pageSize faults decode ObjectId
              BSONError user Hrefused fuel now m w) as [Hno Hcatalog].
  split; [exact Hno|]. split; [|exact Hcatalog].
  pose proof (runMutation_logs_one prefix configured uri pageSize faults decode
                ObjectId BSONError fuel user now m w) as H.
  destruct (runMutation _ _ _ _ _ _ _ _ _ _ _ m w) as [[[| |]| |] w']; simpl in *; done.
Qed.

Lemma refused_caller_id_fails_the_mutation_witness :
  let run := runMutation [] true demo_uri 2 no_faults raw_bytes hex_ObjectId demo_BSONError
               9 (lit "u1") 7 (Upload (lit "reports/q3.pdf") (lit "third") None)
               demoWorld in
  loggable hex_ObjectId (lit "u1") = false
  ∧ run.1 = Ok (RespError 500 demo_BSONError)
  ∧ bucket run.2 !! lit "reports/q3.pdf"
    = Some (MkObject (lit "third") (lit "application/octet-stream"))
  ∧ run.1 ≠ Ok RespOk
  ∧ logs run.2 = logs demoWorld
  ∧ files run.2 = files demoWorld
  ∧ Forall (fun e => is_catalog_write (call e) = false) (new_events demoWorld run.2).
Proof.
  cbv zeta.
  assert (loggable hex_ObjectId (lit "u1") = false) as H by (vm_compute; reflexivity).
  split; [exact H|]. split; [vm_compute; reflexivity|]. split; [vm_compute; reflexivity|].
  exact (refused_caller_id_fails_the_mutation [] true demo_uri 2 no_faults raw_bytes
           hex_ObjectId demo_BSONError 9 (lit "u1") 7
           (Upload (lit "reports/q3.pdf") (lit "third") None) demoWorld H).
Defined.

(** ** Sessions *)

Lemma getAuthToken_bearer (tok : str) :
  getAuthToken (Some (lit "Bearer " ++ tok)) = Some tok.
Proof.
  unfold getAuthToken. cbn [truthy lit list_ascii_of_string app from_option id].
  cbv zeta. unfold startsWith. rewrite bool_decide_eq_true_2.
  - cbn [negb]. f_equal.
    change ("B"%char :: "e"%char :: "a"%char :: "r"%char :: "e"%char :: "r"%char
            :: " "%char :: tok) with (lit "Bearer " ++ tok).
    apply (slice_drop_prefix (lit "Bearer ") tok).
  - by exists tok.
Qed.

Lemma getAuthToken_Some (authorization : option str) (tok : str) :
  getAuthToken authorization = Some tok → authorization = Some (lit "Bearer " ++ tok).
Proof.
  unfold getAuthToken. cbv zeta.
  destruct authorization as [[|h0 h]|]; cbn [truthy from_option id]; try done.
  unfold startsWith. case_bool_decide as Hp; [|done]. cbn [negb]. intros [= <-].
  destruct Hp as [rest ->]. f_equal. f_equal. symmetry.
  apply (slice_drop_prefix (lit "Bearer ") rest).
Qed.

Lemma find_In {A : Type} (f : A → bool) (l : list A) (x : A) :
  List.find f l = Some x → x ∈ l ∧ f x = true.
Proof.
  intros H. apply List.find_some in H as [Hin Hf]. split; [|done].
  by apply list_elem_of_In.
Qed.

Lemma find_none_iff {A : Type} (f : A → bool) (l : list A) :
  List.find f l = None ↔ ∀ x, x ∈ l → f x = false.
Proof.
  split.
  - intros H x Hx. apply (List.find_none f l H). by apply list_elem_of_In.
  - intros H. induction l as [|y l IH]; [done|]. cbn [List.find].
    rewrite (H y (list_elem_of_here _ _)). apply IH. intros x Hx.
    by apply H, list_elem_of_further.
Qed.

Lemma find_app {A : Type} (f : A → bool) (l1 l2 : list A) :
  List.find f (l1 ++ l2)
  = match List.find f l1 with
    | Some x => Some x
    | None => List.find f l2
    end.
Proof.
  induction l1 as [|x l1 IH]; [done|]. cbn [app List.find]. by destruct (f x).
Qed.

Lemma findUserById_unique (user : UserDoc) (us : list UserDoc) :
  NoDup (_id <$> us) → user ∈ us → findUserById (_id user) us = Some user.
Proof.
  unfold findUserById. induction us as [|d us IH]; intros Hnd Hin.
  { by apply elem_of_nil in Hin. }
  cbn [fmap list_fmap] in Hnd. apply NoDup_cons in Hnd as [Hd Hnd].
  cbn [List.find]. apply elem_of_cons in Hin as [->|Hin].
  - by rewrite bool_decide_eq_true_2.
  - rewrite bool_decide_eq_false_2; [by apply IH|].
    intros Heq. apply Hd. rewrite Heq. by apply list_elem_of_fmap_2.
Qed.

Lemma removeFirstBy_token (tok : str) (ss : list SessionDoc) :
  NoDup (token <$> ss) →
  tok ∉ token <$> removeFirstBy (fun d => bool_decide (token d = tok)) ss.
Proof.
  induction ss as [|d ss IH]; cbn [removeFirstBy fmap list_fmap]; intros Hnd.
  - apply not_elem_of_nil.
  - apply NoDup_cons in Hnd as [Hd Hnd]. case_bool_decide as Ht.
    + by rewrite <- Ht.
    + cbn [fmap list_fmap]. apply not_elem_of_cons. split; [done|by apply IH].
Qed.

Lemma findSession_absent (now : Z) (tok : str) (ss : list SessionDoc) :
  tok ∉ token <$> ss → findSession now tok ss = None.
Proof.
  intros Hn. apply find_none_iff. intros d Hd.
  rewrite bool_decide_eq_false_2; [done|]. intros <-. apply Hn.
  by apply list_elem_of_fmap_2.
Qed.

Lemma same_data_refl (s : Site) : same_data s s.
Proof. by unfold same_data. Qed.

Lemma same_data_trans (s1 s2 s3 : Site) :
  same_data s1 s2 → same_data s2 s3 → same_data s1 s3.
Proof. unfold same_data. intros (?&?&?&?&?) (?&?&?&?&?). split_and!; congruence. Qed.

Section Guard.
Variable MONGODB_URI : str.
Variable faults : nat → bool.
Variable accountFaults : nat → bool.

Lemma liftVault_getCollections (s : Site) :
  ∃ (r : Outcome unit) (s' : Site),
    liftVault (getCollections MONGODB_URI faults) s = (r, s')
    ∧ same_data s s' ∧ r ≠ OutOfFuel ∧ accountTrace s' = accountTrace s.
Proof.
  unfold liftVault.
  pose proof (getCollections_bucket MONGODB_URI faults (vault s)) as [Hb Hfuel].
  pose proof (getCollections_files MONGODB_URI faults (fun fs => fs = files (vault s))
                (vault s) eq_refl) as Hf.
  pose proof (getCollections_logs MONGODB_URI faults (logs (vault s)) (vault s) eq_refl)
    as Hl.
  destruct (getCollections MONGODB_URI faults (vault s)) as [r w1]; simpl in *.
  exists r, (set_vault w1 s). unfold same_data. by split_and!.
Qed.

Lemma account_read {A : Type} (c : AccountCall) (f : Site → A) (s : Site) :
  ∃ (r : Outcome A) (s' : Site),
    account accountFaults c (fun s0 => (inl (f s0), s0)) s = (r, s')
    ∧ same_data s s' ∧ (∀ a, r = Ok a → a = f s) ∧ r ≠ OutOfFuel.
Proof.
  unfold account. destruct (accountFaults (length (accountTrace s))).
  - eexists _, _. split; [done|]. by split_and!.
  - eexists _, _. split; [done|]. split_and!; try done. by intros a [= <-].
Qed.

(** What [requireAuth] does for any request: it changes no stored data, it
    answers 401 or 500 when it does not pass the request on, and it passes
    a request on only for a live session of an existing user. *)
Lemma requireAuth_spec (now : Z) (authorization : option str) (s : Site) :
  ∃ (r : Response + AuthUser * str) (s' : Site),
    requireAuth MONGODB_URI faults accountFaults now authorization s = (Ok r, s')
    ∧ same_data s s'
    ∧ match r with
      | inl response =>
          response = RespError 401 (lit "Unauthorized")
          ∨ response = RespError 500 (lit "Auth error")
      | inr (user, tok) =>
          tok ≠ [] ∧ authorization = Some (lit "Bearer " ++ tok)
          ∧ ∃ session account,
              findSession now tok (sessions s) = Some session
              ∧ findUserById (sessionUserId session) (users s) = Some account
              ∧ user = toAuthUser account
      end.
Proof.
  unfold requireAuth, try_catch. rewrite bind_run. unfold getUserByToken.
  destruct (getAuthToken authorization) as [[|t0 t]|] eqn:Etok;
    cbn [truthy negb from_option id].
  - exists (inl (RespError 401 (lit "Unauthorized"))), s.
    split; [done|]. split; [apply same_data_refl|by left].
  - set (tok := t0 :: t) in *. rewrite bind_run.
    destruct (liftVault_getCollections s) as (r1 & s1 & -> & Hd1 & Hfuel1 & _).
    destruct r1 as [[]| |]; [| |done].
    2:{ eexists _, _. split; [reflexivity|]. split; [done|by right]. }
    rewrite bind_run.
    destruct (account_read (CallSessionFindOne tok)
                (fun s0 => findSession now tok (sessions s0)) s1)
      as (r2 & s2 & -> & Hd2 & Hr2 & Hfuel2).
    pose proof (same_data_trans _ _ _ Hd1 Hd2) as Hd12.
    destruct r2 as [[session|]| |]; [| | |done].
    2:{ eexists _, _. split; [reflexivity|]. split; [done|by left]. }
    2:{ eexists _, _. split; [reflexivity|]. split; [done|by right]. }
    rewrite bind_run.
    destruct (account_read (CallUserFindOne (sessionUserId session))
                (fun s0 => findUserById (sessionUserId session) (users s0)) s2)
      as (r3 & s3 & -> & Hd3 & Hr3 & Hfuel3).
    pose proof (same_data_trans _ _ _ Hd12 Hd3) as Hd123.
    destruct r3 as [[account|]| |]; [| | |done].
    2:{ eexists _, _. split; [reflexivity|]. split; [done|by left]. }
    2:{ eexists _, _. split; [reflexivity|]. split; [done|by right]. }
    eexists _, _. split; [reflexivity|]. split; [done|].
    split; [done|]. split; [by apply getAuthToken_Some|].
    exists session, account. specialize (Hr2 _ eq_refl). specialize (Hr3 _ eq_refl).
    destruct Hd1 as (_ & Hs1 & _). destruct Hd12 as (Hu12 & _).
    split_and!; [by rewrite Hr2, <- Hs1|by rewrite Hr3, <- Hu12|done].
  - exists (inl (RespError 401 (lit "Unauthorized"))), s.
    split; [done|]. split; [apply same_data_refl|by left].
Qed.
End Guard.

(** X18. A request whose [Authorization] header is not [Bearer ] followed by
    a non-empty token is answered 401 by [requireAuth] before any call is
    made: the deployment, traces included, is as before. *)
Theorem request_without_bearer_token_is_rejected (uri : str) (faults : nat → bool)
    (accountFaults : nat → bool) (now : Z) (authorization : option str) (s : Site) :
  (∀ tok, tok ≠ [] → authorization ≠ Some (lit "Bearer " ++ tok)) →
  requireAuth uri faults accountFaults now authorization s
  = (Ok (inl (RespError 401 (lit "Unauthorized"))), s).
Proof.
  intros Hauth. unfold requireAuth, try_catch. rewrite bind_run. unfold getUserByToken.
  destruct (getAuthToken authorization) as [[|t0 t]|] eqn:Etok;
    cbn [truthy negb from_option id]; [done| |done].
  apply getAuthToken_Some in Etok. by destruct (Hauth (t0 :: t)).
Qed.

(** X19. [requireAuth] passes a request on only when the token of its
    [Bearer] header belongs to a session that has not expired and whose
    user exists; [req.user] is that user.  It never changes accounts,
    sessions, bucket, catalog or log. *)
Theorem authenticated_request_has_live_session (uri : str) (faults : nat → bool)
    (accountFaults : nat → bool) (now : Z) (authorization : option str)
    (user : AuthUser) (tok : str) (s s' : Site) :
  requireAuth uri faults accountFaults now authorization s = (Ok (inr (user, tok)), s') →
  authorization = Some (lit "Bearer " ++ tok)
  ∧ same_data s s'
  ∧ ∃ session account,
      session ∈ sessions s ∧ token session = tok ∧ now < expiresAt session
      ∧ account ∈ users s ∧ _id account = sessionUserId session
      ∧ user = toAuthUser account.
Proof.
  intros Hrun.
  destruct (requireAuth_spec uri faults accountFaults now authorization s)
    as (r & s1 & Hrun' & Hd & Hr).
  rewrite Hrun in Hrun'. injection Hrun' as <- <-.
  destruct Hr as (_ & Hauth & session & account & Hs & Hu & ->).
  split; [done|]. split; [done|]. exists session, account.
  apply find_In in Hs as [Hs1 Hs2]. apply find_In in Hu as [Hu1 Hu2].
  apply andb_true_iff in Hs2 as [Ht He].
  apply bool_decide_eq_true_1 in Ht. apply bool_decide_eq_true_1 in Hu2.
  apply Z.ltb_lt in He. by split_and!.
Qed.

(** X20. A request that carries no token of a live session reaches no file
    handler: the file routes answer 401, or 500 when the session lookup
    fails, and accounts, sessions, bucket, catalog and log are unchanged. *)
Theorem request_without_live_session_changes_nothing (prefix : str) (configured : bool)
    (uri : str) (pageSize : nat) (faults : nat → bool) (decode : str → str) (ObjectId : str →
        option str)
    (BSONError : str)
    (accountFaults : nat → bool) (fuel : nat) (now : Z) (authorization : option str)
    (request : FileRequest) (s : Site) :
  (∀ session, session ∈ sessions s →
     getAuthToken authorization = Some (token session) → expiresAt session ≤ now) →
  let run := fileEndpoint prefix configured uri pageSize faults decode accountFaults
               ObjectId BSONError fuel now authorization request s in
  (run.1 = Ok (RespError 401 (lit "Unauthorized"))
   ∨ run.1 = Ok (RespError 500 (lit "Auth error")))
  ∧ same_data s run.2.
Proof.
  intros Hdead. cbv zeta. unfold fileEndpoint, guarded. rewrite bind_run.
  destruct (requireAuth_spec uri faults accountFaults now authorization s)
    as (r & s1 & -> & Hd & Hr).
  destruct r as [response|[user tok]].
  - split; [|done]. destruct Hr as [-> | ->]; [by left|by right].
  - destruct Hr as (_ & -> & session & account & Hs & _).
    apply find_In in Hs as [Hs1 Hs2]. apply andb_true_iff in Hs2 as [Ht He].
    apply bool_decide_eq_true_1 in Ht. apply Z.ltb_lt in He.
    specialize (Hdead session Hs1). rewrite getAuthToken_bearer, Ht in Hdead.
    specialize (Hdead eq_refl). lia.
Qed.

Section SessionRuns.
Variable u0 : ascii.
Variable uri : str.

Local Abbreviation MONGODB_URI := (u0 :: uri).

Lemma liftVault_getCollections_run (s : Site) :
  ∃ s' : Site,
    liftVault (getCollections MONGODB_URI no_faults) s = (Ok tt, s')
    ∧ same_data s s'.
Proof.
  unfold liftVault. destruct (getCollections_run u0 uri (vault s)) as (w1 & -> & Hb & Hf & Hl).
  exists (set_vault w1 s). unfold same_data. by split_and!.
Qed.

Lemma requireAuth_run (now : Z) (tok : str) (session : SessionDoc) (owner : UserDoc)
    (s : Site) :
  tok ≠ [] →
  findSession now tok (sessions s) = Some session →
  findUserById (sessionUserId session) (users s) = Some owner →
  ∃ s' : Site,
    requireAuth MONGODB_URI no_faults no_faults now (Some (lit "Bearer " ++ tok)) s
    = (Ok (inr (toAuthUser owner, tok)), s')
    ∧ same_data s s'.
Proof.
  intros Htok Hs Hu. unfold requireAuth, try_catch. rewrite bind_run.
  rewrite getAuthToken_bearer. unfold getUserByToken.
  destruct tok as [|t0 t]; [done|]. cbn [truthy negb from_option id]. rewrite bind_run.
  destruct (liftVault_getCollections_run s) as (s1 & -> & Hd1).
  destruct Hd1 as (Hu1 & Hs1 & Hb1 & Hf1 & Hl1).
  rewrite bind_run. unfold account at 1, no_faults at 1. cbn [fst snd sessions record_account].
  rewrite Hs1, Hs. cbv iota beta. rewrite bind_run.
  unfold account at 1, no_faults at 1. cbn [fst snd users record_account].
  rewrite Hu1, Hu. cbv iota beta.
  eexists. split; [reflexivity|]. unfold same_data. by split_and!.
Qed.
End SessionRuns.

(** X21. After a login that meets no failure, with a token no session holds
    yet, the token authenticates as the user who logged in for every
    request made before the session expires, [TOKEN_TTL_DAYS] days later. *)
Theorem login_opens_a_session (u0 : ascii) (uri : str) (ttl : Z) (md5 : str → str)
    (now : Z) (newToken mail pass : str) (owner : UserDoc) (s : Site) :
  mail ≠ [] → pass ≠ [] → newToken ≠ [] →
  findUserByEmail mail (users s) = Some owner →
  md5 pass = password owner →
  NoDup (_id <$> users s) →
  newToken ∉ token <$> sessions s →
  ∃ s' : Site,
    loginHandler (u0 :: uri) no_faults no_faults ttl md5 now newToken mail pass s
    = (Ok (LoginOk newToken (toAuthUser owner)), s')
    ∧ ∀ later, later < now + ttl * 24 * 60 * 60 * 1000 →
        ∃ s'' : Site,
          requireAuth (u0 :: uri) no_faults no_faults later
            (Some (lit "Bearer " ++ newToken)) s'
          = (Ok (inr (toAuthUser owner, newToken)), s'').
Proof.
  intros Hmail Hpass Htok Hfind Hmd5 Hids Hfresh. unfold loginHandler.
  destruct mail as [|m0 m]; [done|]. destruct pass as [|p0 p]; [done|].
  set (mail := m0 :: m) in *. set (pass := p0 :: p) in *.
  unfold try_catch. rewrite bind_run.
  destruct (liftVault_getCollections_run u0 uri s) as (s1 & -> & Hd1).
  destruct Hd1 as (Hu1 & Hs1 & Hb1 & Hf1 & Hl1).
  rewrite bind_run. unfold account at 1, no_faults at 1. cbn [fst snd users record_account].
  rewrite Hu1, Hfind. cbv iota beta zeta.
  rewrite Hmd5, bool_decide_eq_true_2 by done. cbn [negb]. rewrite bind_run.
  unfold account at 1, no_faults at 1. cbn [fst snd]. cbv iota beta.
  eexists. split; [reflexivity|]. intros later Hlater.
  set (session := MkSessionDoc (_id owner) newToken
                    (now + ttl * 24 * 60 * 60 * 1000) now).
  destruct (requireAuth_run u0 uri later newToken session owner
              (record_account (CallSessionInsertOne newToken) true
                 (set_sessions
                    (sessions (record_account (CallUserFindByEmail mail) true s1) ++ [session])
                    (record_account (CallUserFindByEmail mail) true s1))))
    as (s'' & Hrun & _).
  - done.
  - cbn [sessions record_account set_sessions]. rewrite Hs1. unfold findSession.
    rewrite find_app. fold (findSession later newToken (sessions s)).
    rewrite findSession_absent by done. cbn [List.find token expiresAt session].
    rewrite bool_decide_eq_true_2 by done.
    by rewrite (proj2 (Z.ltb_lt _ _) Hlater).
  - cbn [users record_account set_sessions sessionUserId session]. rewrite Hu1.
    apply findUserById_unique; [done|]. by apply find_In in Hfind as [? _].
  - by exists s''.
Qed.

(** X22. After a logout that meets no failure the token of the request is
    refused: when no two sessions share a token, [requireAuth] answers 401
    to every later request that carries it. *)
Theorem logout_closes_the_session (u0 : ascii) (uri : str) (now : Z) (tok : str)
    (session : SessionDoc) (owner : UserDoc) (s : Site) :
  tok ≠ [] →
  findSession now tok (sessions s) = Some session →
  findUserById (sessionUserId session) (users s) = Some owner →
  NoDup (token <$> sessions s) →
  ∃ s' : Site,
    logoutEndpoint (u0 :: uri) no_faults no_faults now (Some (lit "Bearer " ++ tok)) s
    = (Ok RespOk, s')
    ∧ users s' = users s
    ∧ ∀ later, ∃ s'' : Site,
        requireAuth (u0 :: uri) no_faults no_faults later (Some (lit "Bearer " ++ tok)) s'
        = (Ok (inl (RespError 401 (lit "Unauthorized"))), s'').
Proof.
  intros Htok Hs Hu Hnd. unfold logoutEndpoint, guarded. rewrite bind_run.
  destruct (requireAuth_run u0 uri now tok session owner s Htok Hs Hu)
    as (s1 & -> & Hd1).
  destruct Hd1 as (Hu1 & Hs1 & _). cbv iota beta.
  unfold try_catch. rewrite bind_run.
  destruct (liftVault_getCollections_run u0 uri s1) as (s2 & -> & Hd2).
  destruct Hd2 as (Hu2 & Hs2 & _).
  rewrite bind_run. unfold account at 1, no_faults at 1. cbn [fst snd]. cbv iota beta.
  eexists. split; [reflexivity|]. split.
  { cbn [users record_account set_sessions]. congruence. }
  intros later.
  match goal with |- context [requireAuth _ _ _ _ _ ?s3] => set (s' := s3) end.
  assert (tok ∉ token <$> sessions s') as Hgone.
  { unfold s'. cbn [sessions record_account set_sessions]. rewrite Hs2, Hs1.
    by apply removeFirstBy_token. }
  unfold requireAuth, try_catch. rewrite bind_run, getAuthToken_bearer.
  unfold getUserByToken. destruct tok as [|t0 t]; [done|].
  cbn [truthy negb from_option id]. rewrite bind_run.
  destruct (liftVault_getCollections_run u0 uri s') as (s3 & -> & Hd3).
  destruct Hd3 as (_ & Hs3 & _).
  rewrite bind_run. unfold account at 1, no_faults at 1. cbn [fst snd sessions record_account].
  rewrite Hs3, findSession_absent by done. cbv iota beta. by eexists.
Qed.

(** X23. Deleting a user, with no failure on the way, removes the sessions
    and the catalog records of that user but sends nothing to the store:
    the bucket is as before, no later request authenticates as the deleted
    user, and the guard in front of the route asks for a live session of
    any user, whatever the role. *)
Theorem deleted_user_leaves_objects_behind (u0 : ascii) (uri : str)
    (ObjectId : str → option str) (now : Z) (tok : str) (session : SessionDoc)
    (owner : UserDoc) (paramId oid : str) (s : Site) :
  tok ≠ [] →
  findSession now tok (sessions s) = Some session →
  findUserById (sessionUserId session) (users s) = Some owner →
  paramId ≠ [] → ObjectId paramId = Some oid →
  ∃ s' : Site,
    deleteUserEndpoint (u0 :: uri) no_faults no_faults ObjectId now
      (Some (lit "Bearer " ++ tok)) paramId s = (Ok RespOk, s')
    ∧ (∀ d, d ∈ sessions s' → sessionUserId d ≠ oid)
    ∧ (∀ d, d ∈ files (vault s') → userId d ≠ Some oid)
    ∧ bucket (vault s') = bucket (vault s)
    ∧ ∀ uri' faults accountFaults later authorization user t s'',
        requireAuth uri' faults accountFaults later authorization s'
        = (Ok (inr (user, t)), s'') →
        authId user ≠ oid.
Proof.
  intros Htok Hs Hu Hparam Hoid. unfold deleteUserEndpoint, requireAdmin, guarded.
  rewrite bind_run.
  destruct (requireAuth_run u0 uri now tok session owner s Htok Hs Hu)
    as (s1 & -> & Hd1).
  cbv iota beta. unfold try_catch. destruct paramId as [|p0 p]; [done|].
  rewrite bind_run.
  destruct (liftVault_getCollections_run u0 uri s1) as (s2 & -> & Hd2).
  pose proof (same_data_trans _ _ _ Hd1 Hd2) as (Hu2 & Hs2 & Hb2 & Hf2 & Hl2).
  rewrite Hoid. rewrite bind_run.
  unfold account at 1, no_faults at 1. cbn [fst snd]. cbv iota beta. rewrite bind_run.
  unfold account at 1, no_faults at 1. cbn [fst snd]. cbv iota beta. rewrite bind_run.
  unfold account at 1, no_faults at 1. cbn [fst snd]. cbv iota beta.
  eexists. split; [reflexivity|].
  cbn [sessions users vault record_account set_users set_vault set_sessions files bucket
         set_files].
  assert (∀ d, d ∈ filter (fun d => sessionUserId d ≠ oid) (sessions s2) →
               sessionUserId d ≠ oid) as Hgone.
  { intros d Hd. by apply list_elem_of_filter in Hd as [? _]. }
  split; [exact Hgone|]. split.
  { intros d Hd. by apply list_elem_of_filter in Hd as [? _]. }
  split; [done|].
  intros uri' faults accountFaults later authorization user t s'' Hrun.
  match type of Hrun with requireAuth _ _ _ _ _ ?s3 = _ => set (s' := s3) in * end.
  destruct (requireAuth_spec uri' faults accountFaults later authorization s')
    as (r & s3 & Hrun' & _ & Hr).
  rewrite Hrun in Hrun'. injection Hrun' as <- <-.
  destruct Hr as (_ & _ & session' & owner' & Hs' & Hu' & ->).
  apply find_In in Hs' as [Hs1' _]. apply find_In in Hu' as [_ Hu2'].
  apply bool_decide_eq_true_1 in Hu2'. cbn [authId toAuthUser]. rewrite Hu2'.
  apply Hgone. exact Hs1'.
Qed.

(** ** Listing and login change nothing they should not *)

Lemma read_only_refl (w : World) : read_only w w.
Proof. unfold read_only. split_and!; try done. exists []. by rewrite app_nil_r. Qed.

Lemma read_only_extern (faults : nat → bool) {A : Type} (w0 : World) (c : Call)
    (f : World → A + str) :
  is_read c = true →
  preserves (read_only w0) (extern faults c (fun w => (f w, w))).
Proof.
  intros Hc. apply preserves_extern; [|done].
  intros w ok (Hb & Hf & Hl & evs & Ht & Hall). unfold read_only.
  cbn [bucket files logs trace record_event]. split_and!; try done.
  exists (evs ++ [MkEvent c ok]). rewrite Ht, app_assoc. split; [done|].
  apply Forall_app. split; [done|]. by apply Forall_singleton.
Qed.

(** X24. A listing only reads: whatever fails, it sends no command to the
    store, writes neither the catalog nor the log, and answers with the
    entries or with a 500. *)
Theorem listing_only_reads (uri : str) (faults : nat → bool) (now : Z)
    (queryPrefix : str) (w : World) :
  let run := listHandler uri faults now queryPrefix w in
  read_only w run.2
  ∧ ((∃ entries, run.1 = Ok (RespFiles entries)) ∨ ∃ e, run.1 = Ok (RespError 500 e)).
Proof.
  cbv zeta. split.
  - apply (listHandler_preserves uri faults (read_only w)); [| |apply read_only_refl].
    + unfold getCollections. destruct uri; [by intros ?|].
      intros w1 Hw1. destruct (dbClient w1); [done|].
      destruct Hw1 as (Hb & Hf & Hl & evs & Ht & Hall).
      apply (read_only_extern faults w CallConnect (fun _ => inl tt)); [done|].
      unfold read_only. cbn [bucket files logs trace set_client]. split_and!; try done.
      by exists evs.
    + intros sorted prefix. unfold findByPrefix.
      destruct (anchored (escapeRegex prefix)) as [literal|]; [|by intros ?].
      by apply (read_only_extern faults w (CallFind literal)
                  (fun w1 => inl (if sorted
                                  then merge_sort doc_le
                                         (filter (fun d => regex_test literal (filePath d))
                                            (files w1))
                                  else filter (fun d => regex_test literal (filePath d))
                                         (files w1)))).
  - destruct (listHandler uri faults now queryPrefix w) as [o w1] eqn:E. cbn [fst].
    revert E. unfold listHandler, try_catch. cbv zeta. rewrite bind_run.
    unfold getCollections, findByPrefix. rewrite anchored_escapeRegex.
    destruct uri as [|u0 uri]; [intros [= <- <-]; right; by eexists|].
    destruct (dbClient w).
    + rewrite bind_run. unfold extern.
      destruct (faults _); cbn; intros [= <- <-]; [right|left]; by eexists.
    + unfold extern at 1. cbn [trace set_client].
      destruct (faults (length (trace w))); [cbn; intros [= <- <-]; right; by eexists|].
      cbv iota beta. rewrite bind_run. unfold extern.
      destruct (faults _); cbn; intros [= <- <-]; [right|left]; by eexists.
Qed.

(** X25. A login creates a session only when it succeeds, and it succeeds
    only for an account whose stored password is the MD5 of the password
    given: whatever fails, an answer other than success leaves the sessions
    as they were, a success appends one session for that account, with the
    new token, expiring [TOKEN_TTL_DAYS] days after the request; the
    accounts are never changed. *)
Theorem login_needs_the_password (uri : str) (faults accountFaults : nat → bool)
    (ttl : Z) (md5 : str → str) (now : Z) (newToken mail pass : str) (s : Site) :
  let run := loginHandler uri faults accountFaults ttl md5 now newToken mail pass s in
  users run.2 = users s
  ∧ match run.1 with
    | Ok (LoginOk tok user) =>
        tok = newToken
        ∧ ∃ owner, findUserByEmail mail (users s) = Some owner
                   ∧ password owner = md5 pass
                   ∧ user = toAuthUser owner
                   ∧ sessions run.2
                     = sessions s
                       ++ [MkSessionDoc (_id owner) newToken
                             (now + ttl * 24 * 60 * 60 * 1000) now]
    | _ => sessions run.2 = sessions s
    end.
Proof.
  cbv zeta. unfold loginHandler, try_catch.
  destruct mail as [|m0 m]; [done|]. destruct pass as [|p0 p]; [done|].
  set (mail := m0 :: m). set (pass := p0 :: p).
  rewrite bind_run.
  destruct (liftVault_getCollections uri faults s) as (r1 & s1 & -> & Hd1 & Hfuel1 & _).
  destruct Hd1 as (Hu1 & Hs1 & _).
  destruct r1 as [[]| |]; [|done|done].
  rewrite bind_run.
  destruct (account_read accountFaults (CallUserFindByEmail mail)
              (fun s0 => findUserByEmail mail (users s0)) s1)
    as (r2 & s2 & -> & Hd2 & Hr2 & Hfuel2).
  destruct Hd2 as (Hu2 & Hs2 & _).
  destruct r2 as [[owner|]| |]; [| |split; cbn; congruence|done].
  2:{ split; cbn; congruence. }
  specialize (Hr2 _ eq_refl). cbv zeta.
  case_bool_decide as Hpw; cbn [negb]; [|split; cbn; congruence].
  rewrite bind_run. unfold account. destruct (accountFaults (length (accountTrace s2))).
  { split; cbn; congruence. }
  cbn. split; [congruence|]. split; [done|]. exists owner.
  split_and!; [by rewrite Hr2, Hu1|done|done|congruence].
Qed.

(** ** The session properties on the small deployment *)

Lemma request_without_bearer_token_is_rejected_witness :
  (∀ tok, tok ≠ [] → Some (lit "Basic YWRhOnNlY3JldA==") ≠ Some (lit "Bearer " ++ tok))
  ∧ requireAuth demo_uri no_faults no_faults 50 (Some (lit "Basic YWRhOnNlY3JldA==")) demoSite
    = (Ok (inl (RespError 401 (lit "Unauthorized"))), demoSite).
Proof.
  assert (∀ tok, tok ≠ [] →
            Some (lit "Basic YWRhOnNlY3JldA==") ≠ Some (lit "Bearer " ++ tok)) as H.
  { intros tok _ Heq. discriminate Heq. }
  split; [exact H|].
  exact (request_without_bearer_token_is_rejected demo_uri no_faults no_faults 50
           (Some (lit "Basic YWRhOnNlY3JldA==")) demoSite H).
Defined.

Lemma authenticated_request_has_live_session_witness :
  requireAuth demo_uri no_faults no_faults 50 (Some (lit "Bearer t-1")) demoSite
  = (Ok (inr (toAuthUser demoUser, lit "t-1")),
     (requireAuth demo_uri no_faults no_faults 50 (Some (lit "Bearer t-1")) demoSite).2)
  ∧ ∃ session account,
      session ∈ sessions demoSite ∧ token session = lit "t-1" ∧ 50 < expiresAt session
      ∧ account ∈ users demoSite ∧ _id account = sessionUserId session
      ∧ toAuthUser demoUser = toAuthUser account.
Proof.
  assert (requireAuth demo_uri no_faults no_faults 50 (Some (lit "Bearer t-1")) demoSite
          = (Ok (inr (toAuthUser demoUser, lit "t-1")),
             (requireAuth demo_uri no_faults no_faults 50 (Some (lit "Bearer t-1"))
                demoSite).2)) as H by (vm_compute; reflexivity).
  split; [exact H|].
  exact (proj2 (proj2 (authenticated_request_has_live_session demo_uri no_faults no_faults
                         50 (Some (lit "Bearer t-1")) (toAuthUser demoUser) (lit "t-1")
                         demoSite _ H))).
Defined.

Lemma request_without_live_session_changes_nothing_witness :
  (∀ session, session ∈ sessions demoSite →
     getAuthToken (Some (lit "Bearer t-1")) = Some (token session) →
     expiresAt session ≤ 200)
  ∧ same_data demoSite
      (fileEndpoint [] true demo_uri 2 no_faults raw_bytes no_faults demo_ObjectId
         demo_BSONError 9 200
         (Some (lit "Bearer t-1")) (Mutate (Delete (lit "reports/"))) demoSite).2.
Proof.
  assert (∀ session, session ∈ sessions demoSite →
            getAuthToken (Some (lit "Bearer t-1")) = Some (token session) →
            expiresAt session ≤ 200) as H.
  { intros session Hin _. apply list_elem_of_singleton in Hin as ->. simpl. lia. }
  split; [exact H|].
  exact (proj2 (request_without_live_session_changes_nothing [] true demo_uri 2 no_faults
                  raw_bytes demo_ObjectId demo_BSONError no_faults 9 200
                  (Some (lit "Bearer t-1"))
                  (Mutate (Delete (lit "reports/"))) demoSite H)).
Defined.

Lemma login_opens_a_session_witness :
  lit "ada@example.org" ≠ [] ∧ lit "secret" ≠ [] ∧ lit "t-2" ≠ []
  ∧ findUserByEmail (lit "ada@example.org") (users demoSite) = Some demoUser
  ∧ demo_md5 (lit "secret") = password demoUser
  ∧ NoDup (_id <$> users demoSite)
  ∧ (lit "t-2" ∉ token <$> sessions demoSite)
  ∧ ∃ s' : Site,
      loginHandler demo_uri no_faults no_faults 7 demo_md5 60 (lit "t-2")
        (lit "ada@example.org") (lit "secret") demoSite
      = (Ok (LoginOk (lit "t-2") (toAuthUser demoUser)), s')
      ∧ ∃ s'' : Site,
          requireAuth demo_uri no_faults no_faults 604800059 (Some (lit "Bearer t-2")) s'
          = (Ok (inr (toAuthUser demoUser, lit "t-2")), s'').
Proof.
  assert (NoDup (_id <$> users demoSite)) as H1.
  { apply (bool_decide_unpack _). by vm_compute. }
  assert (lit "t-2" ∉ token <$> sessions demoSite) as H2.
  { apply (bool_decide_unpack _). by vm_compute. }
  split_and!; try done.
  destruct (login_opens_a_session "m"%char (lit "ongodb://localhost/vault") 7 demo_md5 60
              (lit "t-2") (lit "ada@example.org") (lit "secret") demoUser demoSite
              ltac:(done) ltac:(done) ltac:(done) eq_refl eq_refl H1 H2)
    as (s' & Hlogin & Hauth).
  exists s'. split; [exact Hlogin|]. apply Hauth. lia.
Defined.

Lemma logout_closes_the_session_witness :
  lit "t-1" ≠ []
  ∧ findSession 50 (lit "t-1") (sessions demoSite) = Some demoSession
  ∧ findUserById (sessionUserId demoSession) (users demoSite) = Some demoUser
  ∧ NoDup (token <$> sessions demoSite)
  ∧ ∃ s' : Site,
      logoutEndpoint demo_uri no_faults no_faults 50 (Some (lit "Bearer t-1")) demoSite
      = (Ok RespOk, s')
      ∧ ∃ s'' : Site,
          requireAuth demo_uri no_faults no_faults 51 (Some (lit "Bearer t-1")) s'
          = (Ok (inl (RespError 401 (lit "Unauthorized"))), s'').
Proof.
  assert (NoDup (token <$> sessions demoSite)) as H1.
  { apply (bool_decide_unpack _). by vm_compute. }
  split_and!; try done.
  destruct (logout_closes_the_session "m"%char (lit "ongodb://localhost/vault") 50 (lit "t-1")
              demoSession demoUser demoSite ltac:(done) eq_refl eq_refl H1)
    as (s' & Hout & _ & Hauth).
  exists s'. split; [exact Hout|]. apply Hauth.
Defined.

Lemma deleted_user_leaves_objects_behind_witness :
  lit "t-1" ≠ []
  ∧ findSession 50 (lit "t-1") (sessions demoSite) = Some demoSession
  ∧ findUserById (sessionUserId demoSession) (users demoSite) = Some demoUser
  ∧ lit "u1" ≠ [] ∧ demo_ObjectId (lit "u1") = Some (lit "u1")
  ∧ ∃ s' : Site,
      deleteUserEndpoint demo_uri no_faults no_faults demo_ObjectId 50
        (Some (lit "Bearer t-1")) (lit "u1") demoSite = (Ok RespOk, s')
      ∧ (∀ d, d ∈ files (vault s') → userId d ≠ Some (lit "u1"))
      ∧ bucket (vault s') = bucket demoWorld.
Proof.
  split_and!; try done.
  destruct (deleted_user_leaves_objects_behind "m"%char (lit "ongodb://localhost/vault")
              demo_ObjectId 50 (lit "t-1") demoSession demoUser (lit "u1") (lit "u1")
              demoSite ltac:(done) eq_refl eq_refl ltac:(done) eq_refl)
    as (s' & Hrun & _ & Hfiles & Hbucket & _).
  exists s'. split; [exact Hrun|]. split; [exact Hfiles|exact Hbucket].
Defined.
